From stdpp Require Import gmap list.
From Stdlib Require Import ZArith Lia.
Open Scope Z_scope.

(** * Key sequences

    The three engines store integer keys.  What an in-order traversal yields
    is a list of keys; the vocabulary below speaks about such lists. *)
Module Keys.

(** Strictly ascending: every key is smaller than all the keys after it. *)
Fixpoint ascending (l : list Z) : Prop :=
  match l with
  | [] => True
  | x :: l' => Forall (λ y, x < y) l' ∧ ascending l'
  end.

(** The ascending list with [k] added (unchanged when [k] is in it). *)
Fixpoint ins (k : Z) (l : list Z) : list Z :=
  match l with
  | [] => [k]
  | x :: l' =>
      if k <? x then k :: l
      else if x <? k then x :: ins k l'
      else l
  end.

(** The list with every occurrence of [k] removed. *)
Fixpoint del (k : Z) (l : list Z) : list Z :=
  match l with
  | [] => []
  | x :: l' => if k =? x then del k l' else x :: del k l'
  end.

(** The public operations of an engine and what each does to the ascending
    list of stored keys. *)
Inductive op : Type := Insert (key : Z) | Search (key : Z) | Delete (key : Z).

Definition model_op (l : list Z) (o : op) : list Z :=
  match o with
  | Insert k => ins k l
  | Search _ => l
  | Delete k => del k l
  end.

Definition model (os : list op) : list Z := foldl model_op [] os.

(** How many of the deletes of [os], run from the stored keys [l], ask for a
    key that is not stored at that point. *)
Fixpoint absent_deletes (l : list Z) (os : list op) : Z :=
  match os with
  | [] => 0
  | o :: os' =>
      match o with
      | Delete k => if bool_decide (k ∈ l) then 0 else 1
      | _ => 0
      end + absent_deletes (model_op l o) os'
  end.

End Keys.

(** * Benchmark data (benchmark.py) *)
Module Bench.

(** [generate_sequential_data]: [list(range(size))]. *)
Definition generate_sequential_data (size : Z) : list Z :=
  Z.of_nat <$> seq 0 (Z.to_nat size).

End Bench.

(** * Python object store

    The Red-Black and Splay engines link their nodes with [parent]
    references next to the child links, so their nodes live in a store
    (object identity to node record) and every method is a state
    transformer that may raise.  A loop runs on fuel; running out of fuel and
    raising are both the [None] outcome. *)
Module Py.

(** A reference: the identity of an object, or Python's [None]. *)
Definition ref : Type := option positive.

(** [if x:] on a reference. *)
Definition truthy (x : ref) : bool :=
  match x with Some _ => true | None => false end.

(** [x == y] / [x is y] on references (no [__eq__] is defined on nodes). *)
Definition ref_eqb (x y : ref) : bool := bool_decide (x = y).

(** State transformers over a state [St] that may fail. *)
Definition M (St A : Type) : Type := St → option (A * St).

Definition ret {St A} (a : A) : M St A := λ st, Some (a, st).

Definition bind {St A B} (m : M St A) (k : A → M St B) : M St B :=
  λ st, match m st with
        | Some (a, st') => k a st'
        | None => None
        end.

Definition fail {St A} : M St A := λ _, None.

(** How a run on fuel ends, when a raised exception is told apart from
    running out of fuel. *)
Inductive outcome (A : Type) : Type :=
| Returns (a : A)
| Raises
| OutOfFuel.
Arguments Returns {A} a.
Arguments Raises {A}.
Arguments OutOfFuel {A}.

(** [c1 and c2], the second test run only when the first holds. *)
Definition andM {St} (c1 c2 : M St bool) : M St bool :=
  bind c1 (λ b, if b then c2 else ret false).

(** [m] run from [st] returns, and the result satisfies [Q]. *)
Definition wp {St A} (m : M St A) (st : St) (Q : A → St → Prop) : Prop :=
  ∃ a st', m st = Some (a, st') ∧ Q a st'.

(** More fuel does not change a result. *)
Definition mono {St A} (m m' : M St A) : Prop :=
  ∀ st r, m st = Some r → m' st = Some r.

End Py.

Notation "'let*' x := m 'in' k" := (Py.bind m (λ x, k))
  (at level 200, x pattern, m at level 100, k at level 200, right associativity).
Notation "m ;; k" := (Py.bind m (λ _, k))
  (at level 100, k at level 200, right associativity).

(** * AVL tree (src/avl_tree.py)

    The AVL engine has no parent links and never shares a node between two
    positions: every helper consumes a subtree and returns the possibly new
    subtree.  It is embedded as functions over an inductive tree;
    an attribute access on [None] (a Python [AttributeError]) is the
    [None] of [option]. *)
Module AVL.

(** [AVLNode] or Python's [None]. *)
Inductive AVLNode : Type :=
| Nil
| Node (key : Z) (left right : AVLNode) (height : Z).

(** [AVLTree]: the root link and the size counter. *)
Record AVLTree : Type := mkTree { root : AVLNode; size : Z }.

(** [AVLTree.__init__] *)
Definition init : AVLTree := {| root := Nil; size := 0 |}.

(** [get_height] *)
Definition get_height (node : AVLNode) : Z :=
  match node with
  | Nil => 0
  | Node _ _ _ h => h
  end.

(** [get_balance] *)
Definition get_balance (node : AVLNode) : Z :=
  match node with
  | Nil => 0
  | Node _ l r _ => get_height l - get_height r
  end.

(** [update_height] *)
Definition update_height (node : AVLNode) : AVLNode :=
  match node with
  | Nil => Nil
  | Node k l r _ => Node k l r (1 + Z.max (get_height l) (get_height r))
  end.

(** [rotate_right]: [y = z.left; T3 = y.right; y.right = z; z.left = T3]. *)
Definition rotate_right (z : AVLNode) : option AVLNode :=
  match z with
  | Node zk (Node yk yl T3 yh) zr zh =>
      let z' := update_height (Node zk T3 zr zh) in
      Some (update_height (Node yk yl z' yh))
  | _ => None
  end.

(** [rotate_left]: [y = z.right; T2 = y.left; y.left = z; z.right = T2]. *)
Definition rotate_left (z : AVLNode) : option AVLNode :=
  match z with
  | Node zk zl (Node yk T2 yr yh) zh =>
      let z' := update_height (Node zk zl T2 zh) in
      Some (update_height (Node yk z' yr yh))
  | _ => None
  end.

(** [node.key] *)
Definition key_of (node : AVLNode) : option Z :=
  match node with
  | Nil => None
  | Node k _ _ _ => Some k
  end.

(** [c and <test on node.key>]: the key is read only when [c] holds. *)
Definition and_key (c : bool) (node : AVLNode) (test : Z → bool) : option bool :=
  if c then k ← key_of node; Some (test k) else Some false.

(** Lines 139-163 of [_insert_helper]: the height update and the four
    rotation cases, run on the node whose child link was just reassigned. *)
Definition insert_rebalance (node : AVLNode) (key : Z) (inserted : bool)
  : option (AVLNode * bool) :=
  match update_height node with
  | Nil => None
  | Node k l r h as node =>
      let balance := get_balance node in
      ll ← and_key (1 <? balance) l (λ lk, key <? lk);
      if ll : bool then z ← rotate_right node; Some (z, inserted) else
      rr ← and_key (balance <? -1) r (λ rk, rk <? key);
      if rr : bool then z ← rotate_left node; Some (z, inserted) else
      lr ← and_key (1 <? balance) l (λ lk, lk <? key);
      if lr : bool then
        l' ← rotate_left l; z ← rotate_right (Node k l' r h); Some (z, inserted)
      else
      rl ← and_key (balance <? -1) r (λ rk, key <? rk);
      if rl : bool then
        r' ← rotate_right r; z ← rotate_left (Node k l r' h); Some (z, inserted)
      else Some (node, inserted)
  end.

(** [_insert_helper] *)
Fixpoint _insert_helper (node : AVLNode) (key : Z) : option (AVLNode * bool) :=
  match node with
  | Nil => Some (Node key Nil Nil 1, true)
  | Node k l r h =>
      if key <? k then
        '(l', inserted) ← _insert_helper l key;
        insert_rebalance (Node k l' r h) key inserted
      else if k <? key then
        '(r', inserted) ← _insert_helper r key;
        insert_rebalance (Node k l r' h) key inserted
      else Some (node, false)
  end.

(** [insert] *)
Definition insert (key : Z) (t : AVLTree) : option AVLTree :=
  '(r, inserted) ← _insert_helper (root t) key;
  Some {| root := r; size := if inserted : bool then size t + 1 else size t |}.

(** [_search_helper] *)
Fixpoint _search_helper (node : AVLNode) (key : Z) : bool :=
  match node with
  | Nil => false
  | Node k l r _ =>
      if key =? k then true
      else if key <? k then _search_helper l key
      else _search_helper r key
  end.

(** [search] *)
Definition search (key : Z) (t : AVLTree) : bool := _search_helper (root t) key.

(** [get_min_node]: follows [left] links while there is one. *)
Fixpoint get_min_node (node : AVLNode) : option AVLNode :=
  match node with
  | Nil => None
  | Node _ Nil _ _ => Some node
  | Node _ l _ _ => get_min_node l
  end.

(** Lines 240-264 of [_delete_helper]: the height update and the four
    rotation cases keyed off the child's balance factor. *)
Definition delete_rebalance (node : AVLNode) : option AVLNode :=
  match update_height node with
  | Nil => None
  | Node k l r h as node =>
      let balance := get_balance node in
      if (1 <? balance) && (0 <=? get_balance l) then rotate_right node
      else if (1 <? balance) && (get_balance l <? 0) then
        l' ← rotate_left l; rotate_right (Node k l' r h)
      else if (balance <? -1) && (get_balance r <=? 0) then rotate_left node
      else if (balance <? -1) && (0 <? get_balance r) then
        r' ← rotate_right r; rotate_left (Node k l r' h)
      else Some node
  end.

(** [_delete_helper] *)
Fixpoint _delete_helper (node : AVLNode) (key : Z) : option AVLNode :=
  match node with
  | Nil => Some Nil
  | Node k l r h =>
      if key <? k then
        l' ← _delete_helper l key; delete_rebalance (Node k l' r h)
      else if k <? key then
        r' ← _delete_helper r key; delete_rebalance (Node k l r' h)
      else
        match l, r with
        | Nil, _ => Some r
        | _, Nil => Some l
        | _, _ =>
            temp ← get_min_node r;
            tk ← key_of temp;
            r' ← _delete_helper r tk;
            delete_rebalance (Node tk l r' h)
        end
  end.

(** [delete]: the size counter is decremented on every call. *)
Definition delete (key : Z) (t : AVLTree) : option AVLTree :=
  r ← _delete_helper (root t) key;
  Some {| root := r; size := size t - 1 |}.

(** [get_size] *)
Definition get_size (t : AVLTree) : Z := size t.

(** ** Specification vocabulary *)

(** Keys met by an in-order traversal. *)
Fixpoint inorder (node : AVLNode) : list Z :=
  match node with
  | Nil => []
  | Node k l r _ => inorder l ++ k :: inorder r
  end.

(** The height of the subtree as a shape, independent of the stored fields. *)
Fixpoint real_height (node : AVLNode) : Z :=
  match node with
  | Nil => 0
  | Node _ l r _ => 1 + Z.max (real_height l) (real_height r)
  end.

(** Every stored height field is [1 + max] of the children's heights. *)
Fixpoint heights_ok (node : AVLNode) : Prop :=
  match node with
  | Nil => True
  | Node _ l r h =>
      h = 1 + Z.max (get_height l) (get_height r) ∧ heights_ok l ∧ heights_ok r
  end.

(** Every node has a balance factor in [{-1, 0, 1}]. *)
Fixpoint balanced (node : AVLNode) : Prop :=
  match node with
  | Nil => True
  | Node _ l r _ =>
      -1 <= get_height l - get_height r <= 1 ∧ balanced l ∧ balanced r
  end.

(** The public operations and the states they reach from the empty tree. *)
Definition run_op (o : Keys.op) (t : AVLTree) : option AVLTree :=
  match o with
  | Keys.Insert k => insert k t
  | Keys.Search k => let _ := search k t in Some t
  | Keys.Delete k => delete k t
  end.

Fixpoint run_ops (os : list Keys.op) (t : AVLTree) : option AVLTree :=
  match os with
  | [] => Some t
  | o :: os' => t' ← run_op o t; run_ops os' t'
  end.

Definition reachable (t : AVLTree) : Prop := ∃ os, run_ops os init = Some t.

(** ** Vocabulary of the proofs *)

(** The tree right after an insertion that made it one level higher: a fresh
    leaf, or a node leaning to the side the key went to. *)
Definition grown (key : Z) (t : AVLNode) : Prop :=
  match t with
  | Nil => False
  | Node k a b h =>
      h = 1 ∨ (key < k ∧ get_height a = get_height b + 1) ∨
      (k < key ∧ get_height b = get_height a + 1)
  end.

Definition avl_inv (t : AVLTree) : Prop :=
  heights_ok (root t) ∧ balanced (root t) ∧ Keys.ascending (inorder (root t)).

(** Balance stated on the heights of the subtrees as shapes. *)
Fixpoint really_balanced (node : AVLNode) : Prop :=
  match node with
  | Nil => True
  | Node _ l r h =>
      h = 1 + Z.max (real_height l) (real_height r) ∧
      -1 <= real_height l - real_height r <= 1 ∧
      really_balanced l ∧ really_balanced r
  end.

End AVL.

(** * Splay tree (src/splay_tree.py) *)
Module Splay.
Import Py.

(** [SplayNode] *)
Record SplayNode : Type := mkNode {
  key : Z;
  left : ref;
  right : ref;
  parent : ref;
}.

(** [SplayTree] together with the store its nodes live in. *)
Record SplayTree : Type := mkTree {
  heap : gmap positive SplayNode;
  root : ref;
  size : Z;
}.

(** [SplayTree.__init__] *)
Definition init : SplayTree := {| heap := ∅; root := None; size := 0 |}.

(** ** Store access *)

(** [x.<field>] for a read; raises on [None]. *)
Definition load (x : ref) : M SplayTree SplayNode :=
  λ st, match x with
        | Some a => match heap st !! a with
                    | Some n => Some (n, st)
                    | None => None
                    end
        | None => None
        end.

(** Writes the record of [x] back; raises on [None]. *)
Definition store (x : ref) (n : SplayNode) : M SplayTree unit :=
  λ st, match x with
        | Some a =>
            Some (tt, {| heap := <[a := n]> (heap st); root := root st; size := size st |})
        | None => None
        end.

(** [SplayNode(key)]: a new object, distinct from all the others. *)
Definition new_node (k : Z) : M SplayTree ref :=
  λ st, let a := fresh (dom (heap st)) in
        Some (Some a,
              {| heap := <[a := mkNode k None None None]> (heap st);
                 root := root st; size := size st |}).

Definition get_key (x : ref) : M SplayTree Z := let* n := load x in ret (key n).
Definition get_left (x : ref) : M SplayTree ref := let* n := load x in ret (left n).
Definition get_right (x : ref) : M SplayTree ref := let* n := load x in ret (right n).
Definition get_parent (x : ref) : M SplayTree ref := let* n := load x in ret (parent n).

Definition set_left (x v : ref) : M SplayTree unit :=
  let* n := load x in
  store x {| key := key n; left := v; right := right n; parent := parent n |}.
Definition set_right (x v : ref) : M SplayTree unit :=
  let* n := load x in
  store x {| key := key n; left := left n; right := v; parent := parent n |}.
Definition set_parent (x v : ref) : M SplayTree unit :=
  let* n := load x in
  store x {| key := key n; left := left n; right := right n; parent := v |}.

Definition get_root : M SplayTree ref := λ st, Some (root st, st).
Definition set_root (v : ref) : M SplayTree unit :=
  λ st, Some (tt, {| heap := heap st; root := v; size := size st |}).
Definition add_size (d : Z) : M SplayTree unit :=
  λ st, Some (tt, {| heap := heap st; root := root st; size := size st + d |}).

(** ** The methods *)

(** Lines 48-58 and 73-83, shared by both rotations: [y] takes the place of
    [x] under [x.parent] (or as the root). *)
Definition replace_child (x y : ref) : M SplayTree unit :=
  let* xp := get_parent x in
  set_parent y xp ;;
  let* xp := get_parent x in
  if negb (truthy xp) then set_root y
  else
    let* xp := get_parent x in
    let* xpl := get_left xp in
    if ref_eqb x xpl then
      let* xp := get_parent x in set_left xp y
    else
      let* xp := get_parent x in set_right xp y.

(** [rotate_right] *)
Definition rotate_right (x : ref) : M SplayTree unit :=
  let* y := get_left x in
  let* yr := get_right y in
  set_left x yr ;;
  let* yr := get_right y in
  (if truthy yr then
     let* yr := get_right y in set_parent yr x
   else ret tt) ;;
  replace_child x y ;;
  set_right y x ;;
  set_parent x y.

(** [rotate_left] *)
Definition rotate_left (x : ref) : M SplayTree unit :=
  let* y := get_right x in
  let* yl := get_left y in
  set_right x yl ;;
  let* yl := get_left y in
  (if truthy yl then
     let* yl := get_left y in set_parent yl x
   else ret tt) ;;
  replace_child x y ;;
  set_left y x ;;
  set_parent x y.

(** [x == x.parent.left] *)
Definition is_left_child (x : ref) : M SplayTree bool :=
  let* p := get_parent x in let* pl := get_left p in ret (ref_eqb x pl).

(** [x == x.parent.right] *)
Definition is_right_child (x : ref) : M SplayTree bool :=
  let* p := get_parent x in let* pr := get_right p in ret (ref_eqb x pr).

(** [x.parent == x.parent.parent.left] *)
Definition parent_is_left_child (x : ref) : M SplayTree bool :=
  let* p := get_parent x in is_left_child p.

(** [x.parent == x.parent.parent.right] *)
Definition parent_is_right_child (x : ref) : M SplayTree bool :=
  let* p := get_parent x in is_right_child p.

(** [self.rotate_right(x.parent)] and the like. *)
Definition rotate_right_parent (x : ref) : M SplayTree unit :=
  let* p := get_parent x in rotate_right p.
Definition rotate_left_parent (x : ref) : M SplayTree unit :=
  let* p := get_parent x in rotate_left p.
Definition rotate_right_grandparent (x : ref) : M SplayTree unit :=
  let* p := get_parent x in let* g := get_parent p in rotate_right g.
Definition rotate_left_grandparent (x : ref) : M SplayTree unit :=
  let* p := get_parent x in let* g := get_parent p in rotate_left g.

(** One round of the [while x.parent] loop of [splay]. *)
Definition splay_step (x : ref) : M SplayTree unit :=
  let* p := get_parent x in
  let* g := get_parent p in
  if negb (truthy g) then
    let* c := is_left_child x in
    if c : bool then rotate_right_parent x else rotate_left_parent x
  else
    let* c := andM (is_left_child x) (parent_is_left_child x) in
    if c : bool then rotate_right_grandparent x ;; rotate_right_parent x
    else
    let* c := andM (is_right_child x) (parent_is_right_child x) in
    if c : bool then rotate_left_grandparent x ;; rotate_left_parent x
    else
    let* c := andM (is_right_child x) (parent_is_left_child x) in
    if c : bool then rotate_left_parent x ;; rotate_right_parent x
    else rotate_right_parent x ;; rotate_left_parent x.

(** [splay] *)
Fixpoint splay (fuel : nat) (x : ref) : M SplayTree unit :=
  match fuel with
  | O => fail
  | S fuel =>
      let* p := get_parent x in
      if truthy p then splay_step x ;; splay fuel x else ret tt
  end.

(** The [while current] loop of [insert]: where the descent ends, either on
    the node that holds the key ([inl]) or below [parent] ([inr]). *)
Fixpoint insert_loop (fuel : nat) (k : Z) (current parent : ref)
  : M SplayTree (ref + ref) :=
  match fuel with
  | O => fail
  | S fuel =>
      if truthy current then
        let* ck := get_key current in
        if k <? ck then
          let* l := get_left current in insert_loop fuel k l current
        else if ck <? k then
          let* r := get_right current in insert_loop fuel k r current
        else ret (inl current)
      else ret (inr parent)
  end.

(** Lines 145-150 of [insert]: the new node is linked below [parent]. *)
Definition attach (k : Z) (node parent : ref) : M SplayTree unit :=
  set_parent node parent ;;
  let* pk := get_key parent in
  if k <? pk then set_left parent node else set_right parent node.

(** [insert] *)
Definition insert (fuel : nat) (k : Z) : M SplayTree unit :=
  let* node := new_node k in
  let* r := get_root in
  if negb (truthy r) then set_root node ;; add_size 1
  else
    let* current := get_root in
    let* found := insert_loop fuel k current None in
    match found with
    | inl current => splay fuel current
    | inr parent =>
        attach k node parent ;;
        add_size 1 ;;
        splay fuel node
    end.

(** The [while current] loop of [search]. *)
Fixpoint search_loop (fuel : nat) (k : Z) (current : ref) : M SplayTree bool :=
  match fuel with
  | O => fail
  | S fuel' =>
      if truthy current then
        let* ck := get_key current in
        if k =? ck then splay fuel current ;; ret true
        else if k <? ck then
          let* l := get_left current in
          if negb (truthy l) then splay fuel current ;; ret false
          else let* l := get_left current in search_loop fuel' k l
        else
          let* r := get_right current in
          if negb (truthy r) then splay fuel current ;; ret false
          else let* r := get_right current in search_loop fuel' k r
      else ret false
  end.

(** [search] *)
Definition search (fuel : nat) (k : Z) : M SplayTree bool :=
  let* current := get_root in search_loop fuel k current.


(** [_subtree_maximum] *)
Fixpoint _subtree_maximum (fuel : nat) (node : ref) : M SplayTree ref :=
  match fuel with
  | O => fail
  | S fuel =>
      let* r := get_right node in
      if truthy r then _subtree_maximum fuel r else ret node
  end.



(** [if self.root: self.root.parent = None] *)
Definition clear_root_parent : M SplayTree unit :=
  let* r := get_root in
  if truthy r then let* r := get_root in set_parent r None else ret tt.

(** [delete] *)
Definition delete (fuel : nat) (k : Z) : M SplayTree unit :=
  let* found := search fuel k in
  if negb found then ret tt
  else
    let* r := get_root in
    let* rl := get_left r in
    (if negb (truthy rl) then
       let* r := get_root in
       let* rr := get_right r in
       set_root rr ;; clear_root_parent
     else
       let* r := get_root in
       let* rr := get_right r in
       if negb (truthy rr) then
         let* r := get_root in
         let* rl := get_left r in
         set_root rl ;; clear_root_parent
       else
         let* r := get_root in
         let* left_subtree := get_left r in
         let* r := get_root in
         let* right_subtree := get_right r in
         set_parent right_subtree None ;;
         set_root left_subtree ;;
         let* r := get_root in
         set_parent r None ;;
         let* r := get_root in
         let* max_node := _subtree_maximum fuel r in
         splay fuel max_node ;;
         let* r := get_root in
         set_right r right_subtree ;;
         let* r := get_root in
         set_parent right_subtree r) ;;
    add_size (-1).

(** [get_size] *)
Definition get_size (st : SplayTree) : Z := size st.

(** ** Specification vocabulary *)

(** The shape a store holds under a reference: every node with its identity
    and key. *)
Inductive tree : Type :=
| Leaf
| T (l : tree) (a : positive) (k : Z) (r : tree).

Definition root_of (t : tree) : ref :=
  match t with Leaf => None | T _ a _ _ => Some a end.

(** Identities and keys in in-order. *)
Fixpoint locs (t : tree) : list positive :=
  match t with Leaf => [] | T l a _ r => locs l ++ a :: locs r end.

Fixpoint keys (t : tree) : list Z :=
  match t with Leaf => [] | T l _ k r => keys l ++ k :: keys r end.

(** The store [h] holds the tree [t] below a node (or root slot) [par]:
    every node record has the key, the child links and the parent link
    that [t] prescribes. *)
Fixpoint rep (h : gmap positive SplayNode) (par : ref) (t : tree) : Prop :=
  match t with
  | Leaf => True
  | T l a k r =>
      h !! a = Some (mkNode k (root_of l) (root_of r) par) ∧
      rep h (Some a) l ∧ rep h (Some a) r
  end.

(** The state holds the tree [t]: [self.root] is its root, whose parent link
    is [None], and no node occurs twice. *)
Definition represents (st : SplayTree) (t : tree) : Prop :=
  root st = root_of t ∧ rep (heap st) None t ∧ NoDup (locs t).

(** A tree with a hole: the path from the hole up to the root. *)
Inductive frame : Type :=
| FL (a : positive) (k : Z) (r : tree)   (* the hole is the left child of [a] *)
| FR (l : tree) (a : positive) (k : Z).  (* the hole is the right child of [a] *)

Definition fill (f : frame) (t : tree) : tree :=
  match f with FL a k r => T t a k r | FR l a k => T l a k t end.

Fixpoint plug (ctx : list frame) (t : tree) : tree :=
  match ctx with [] => t | f :: ctx' => plug ctx' (fill f t) end.

(** What [splay] makes of the tree [plug ctx t] when called on the root of
    [t]: zig, zig-zig and zig-zag steps, two frames at a time. *)
Fixpoint splay_tree (ctx : list frame) (t : tree) : tree :=
  match t with
  | Leaf => plug ctx Leaf
  | T a x kx b =>
      match ctx with
      | [] => t
      | [FL p kp c] => T a x kx (T b p kp c)
      | [FR c p kp] => T (T c p kp a) x kx b
      | FL p kp c :: FL g kg d :: ctx' =>
          splay_tree ctx' (T a x kx (T b p kp (T c g kg d)))
      | FR c p kp :: FR d g kg :: ctx' =>
          splay_tree ctx' (T (T (T d g kg c) p kp a) x kx b)
      | FR c p kp :: FL g kg d :: ctx' =>
          splay_tree ctx' (T (T c p kp a) x kx (T b g kg d))
      | FL p kp c :: FR d g kg :: ctx' =>
          splay_tree ctx' (T (T d g kg a) x kx (T b p kp c))
      end
  end.

(** Where the descent of [search] for [k] stops in [t] below [ctx]: on the
    node holding [k], or on the last node before an absent child. *)
Fixpoint search_path (k : Z) (ctx : list frame) (t : tree) : list frame * tree :=
  match t with
  | Leaf => (ctx, Leaf)
  | T l a ka r =>
      if k =? ka then (ctx, t)
      else if k <? ka then
        match l with
        | Leaf => (ctx, t)
        | _ => search_path k (FL a ka r :: ctx) l
        end
      else
        match r with
        | Leaf => (ctx, t)
        | _ => search_path k (FR l a ka :: ctx) r
        end
  end.

(** Whether the node the descent stops on holds [k]. *)
Definition found_at (k : Z) (s : tree) : bool :=
  match s with Leaf => false | T _ _ ks _ => k =? ks end.

Fixpoint height (t : tree) : nat :=
  match t with Leaf => O | T l _ _ r => S (Nat.max (height l) (height r)) end.

(** Whether [search k] finds the key. *)
Definition finds (k : Z) (t : tree) : bool :=
  found_at k (snd (search_path k [] t)).

(** The last node the descent for [k] visits. *)
Definition last_visited (k : Z) (t : tree) : ref :=
  root_of (snd (search_path k [] t)).

(** The tree after [search k]. *)
Definition search_tree (k : Z) (t : tree) : tree :=
  let '(ctx, s) := search_path k [] t in splay_tree ctx s.

(** Where the descent of [insert] for [k] stops: on the node holding [k], or
    at the absent position where the new node goes. *)
Fixpoint insert_path (k : Z) (ctx : list frame) (t : tree) : list frame * tree :=
  match t with
  | Leaf => (ctx, Leaf)
  | T l a ka r =>
      if k <? ka then insert_path k (FL a ka r :: ctx) l
      else if ka <? k then insert_path k (FR l a ka :: ctx) r
      else (ctx, t)
  end.

(** Whether [insert k] adds a node. *)
Definition inserts (k : Z) (t : tree) : bool :=
  match snd (insert_path k [] t) with Leaf => true | _ => false end.

(** The tree after [insert k] when the new node has identity [n]. *)
Definition insert_tree (k : Z) (n : positive) (t : tree) : tree :=
  match insert_path k [] t with
  | (ctx, Leaf) => splay_tree ctx (T Leaf n k Leaf)
  | (ctx, s) => splay_tree ctx s
  end.

(** The rightmost node of [t] below [ctx], as a zipper. *)
Fixpoint max_path (ctx : list frame) (t : tree) : list frame * tree :=
  match t with
  | Leaf => (ctx, Leaf)
  | T l a ka r =>
      match r with
      | Leaf => (ctx, t)
      | _ => max_path (FR l a ka :: ctx) r
      end
  end.

(** The leftmost node of [t] below [ctx], as a zipper. *)
Fixpoint min_path (ctx : list frame) (t : tree) : list frame * tree :=
  match t with
  | Leaf => (ctx, Leaf)
  | T l a ka r =>
      match l with
      | Leaf => (ctx, t)
      | _ => min_path (FL a ka r :: ctx) l
      end
  end.

Definition is_FR (f : frame) : Prop :=
  match f with FR _ _ _ => True | FL _ _ _ => False end.

(** The join of [delete]: the maximum of [l] splayed to its root, [r]
    attached as its right child. *)
Definition join (l r : tree) : tree :=
  match l, r with
  | Leaf, _ => r
  | _, Leaf => l
  | _, _ =>
      let '(ctx, s) := max_path [] l in
      match splay_tree ctx s with
      | T a m km _ => T a m km r
      | Leaf => Leaf
      end
  end.

(** The tree after [delete k]. *)
Definition delete_tree (k : Z) (t : tree) : tree :=
  match search_tree k t with
  | T l a ka r => if k =? ka then join l r else T l a ka r
  | Leaf => Leaf
  end.

(** A tree without right children: a path down the left links. *)
Fixpoint is_spine (t : tree) : Prop :=
  match t with
  | Leaf => True
  | T l _ _ r => r = Leaf ∧ is_spine l
  end.

(** The references reachable from the root through child links. *)
Inductive reach (st : SplayTree) : ref → Prop :=
| reach_root : reach st (root st)
| reach_left a n : reach st (Some a) → heap st !! a = Some n → reach st (left n)
| reach_right a n : reach st (Some a) → heap st !! a = Some n → reach st (right n).

(** Parent links agree with child links on the reachable nodes. *)
Definition parents_consistent (st : SplayTree) : Prop :=
  (∀ a n, root st = Some a → heap st !! a = Some n → parent n = None) ∧
  (∀ a n c m, reach st (Some a) → heap st !! a = Some n →
     left n = Some c ∨ right n = Some c →
     heap st !! c = Some m → parent m = Some a).

(** In-order traversal of the store from a reference, on fuel. *)
Fixpoint traverse (fuel : nat) (h : gmap positive SplayNode) (x : ref)
  : option (list Z) :=
  match fuel with
  | O => None
  | S fuel =>
      match x with
      | None => Some []
      | Some a =>
          n ← h !! a;
          l ← traverse fuel h (left n);
          r ← traverse fuel h (right n);
          Some (l ++ key n :: r)
      end
  end.

(** The tree the store holds under a reference, read on fuel. *)
Fixpoint read (fuel : nat) (h : gmap positive SplayNode) (x : ref) : option tree :=
  match fuel with
  | O => None
  | S fuel =>
      match x with
      | None => Some Leaf
      | Some a =>
          n ← h !! a;
          l ← read fuel h (left n);
          r ← read fuel h (right n);
          Some (T l a (key n) r)
      end
  end.

Definition tree_of (fuel : nat) (st : SplayTree) : option tree :=
  read fuel (heap st) (root st).

(** The search path for [k] from [x] down the store: the last node on it,
    [last] when there is none. *)
Fixpoint descend (fuel : nat) (h : gmap positive SplayNode) (k : Z) (x last : ref)
  : option ref :=
  match fuel with
  | O => None
  | S fuel =>
      match x with
      | None => Some last
      | Some a =>
          n ← h !! a;
          if k =? key n then Some x
          else if k <? key n then descend fuel h k (left n) x
          else descend fuel h k (right n) x
      end
  end.

(** The public operations and the states they reach from the empty tree. *)
Definition run_op (fuel : nat) (o : Keys.op) (st : SplayTree) : option SplayTree :=
  match o with
  | Keys.Insert k => snd <$> insert fuel k st
  | Keys.Search k => snd <$> search fuel k st
  | Keys.Delete k => snd <$> delete fuel k st
  end.

Fixpoint run_ops (fuel : nat) (os : list Keys.op) (st : SplayTree)
  : option SplayTree :=
  match os with
  | [] => Some st
  | o :: os' => st' ← run_op fuel o st; run_ops fuel os' st'
  end.

Definition reachable (st : SplayTree) : Prop :=
  ∃ fuel os, run_ops fuel os init = Some st.

(** ** Vocabulary of the proofs *)

Definition frame_loc (f : frame) : positive :=
  match f with FL a _ _ => a | FR _ a _ => a end.

Definition ctx_parent (ctx : list frame) : ref :=
  match ctx with [] => None | f :: _ => Some (frame_loc f) end.

Fixpoint ctx_root (ctx : list frame) (hole : ref) : ref :=
  match ctx with [] => hole | f :: ctx' => ctx_root ctx' (Some (frame_loc f)) end.

Fixpoint ctx_before (ctx : list frame) : list positive :=
  match ctx with
  | [] => []
  | FL _ _ _ :: ctx' => ctx_before ctx'
  | FR l a _ :: ctx' => ctx_before ctx' ++ locs l ++ [a]
  end.

Fixpoint ctx_after (ctx : list frame) : list positive :=
  match ctx with
  | [] => []
  | FL a _ r :: ctx' => a :: locs r ++ ctx_after ctx'
  | FR _ _ _ :: ctx' => ctx_after ctx'
  end.

Fixpoint kctx_before (ctx : list frame) : list Z :=
  match ctx with
  | [] => []
  | FL _ _ _ :: ctx' => kctx_before ctx'
  | FR l _ k :: ctx' => kctx_before ctx' ++ keys l ++ [k]
  end.

Fixpoint kctx_after (ctx : list frame) : list Z :=
  match ctx with
  | [] => []
  | FL _ k r :: ctx' => k :: keys r ++ kctx_after ctx'
  | FR _ _ _ :: ctx' => kctx_after ctx'
  end.

(** The store holds the frames of [ctx] around a hole filled by [hole]. *)
Fixpoint ctx_rep (h : gmap positive SplayNode) (ctx : list frame) (hole : ref) : Prop :=
  match ctx with
  | [] => True
  | FL a k r :: ctx' =>
      h !! a = Some (mkNode k hole (root_of r) (ctx_parent ctx')) ∧
      rep h (Some a) r ∧ ctx_rep h ctx' (Some a)
  | FR l a k :: ctx' =>
      h !! a = Some (mkNode k (root_of l) hole (ctx_parent ctx')) ∧
      rep h (Some a) l ∧ ctx_rep h ctx' (Some a)
  end.

Definition ctx_locs (ctx : list frame) : list positive := ctx_before ctx ++ ctx_after ctx.

(** The side of the last frame agrees with the comparison made there. *)
Definition dir_ok (k : Z) (ctx : list frame) : Prop :=
  match ctx with
  | [] => True
  | FL _ kp _ :: _ => k < kp
  | FR _ _ kp :: _ => kp < k
  end.

(** What the descent of [insert] returns. *)
Definition insert_found (k : Z) (ctx : list frame) (t : tree) : ref + ref :=
  match insert_path k ctx t with
  | (c, Leaf) => inr (ctx_parent c)
  | (c, T _ a _ _) => inl (Some a)
  end.

(** Recursive insertion of a new leaf. *)
Fixpoint bst_ins (k : Z) (n : positive) (t : tree) : tree :=
  match t with
  | Leaf => T Leaf n k Leaf
  | T l a ka r =>
      if k <? ka then T (bst_ins k n l) a ka r
      else if ka <? k then T l a ka (bst_ins k n r)
      else t
  end.

(** The tree a state holds after [op], given the tree before. *)
Definition op_tree (o : Keys.op) (n : positive) (t : tree) : tree :=
  match o with
  | Keys.Insert k => insert_tree k n t
  | Keys.Search k => search_tree k t
  | Keys.Delete k => delete_tree k t
  end.

(** The state holds a search tree whose node count is [size]. *)
Definition holds (st : SplayTree) (t : tree) : Prop :=
  represents st t ∧ Keys.ascending (keys t) ∧ size st = Z.of_nat (length (keys t)).

Definition enough (fuel : nat) (t : tree) : Prop :=
  (2 * length (keys t) < fuel)%nat.

End Splay.

(** * Red-Black tree (src/rb_tree.py) *)
Module RB.
Import Py.

(** [Color] *)
Inductive Color : Type := RED | BLACK.

Definition color_eqb (a b : Color) : bool :=
  match a, b with
  | RED, RED | BLACK, BLACK => true
  | _, _ => false
  end.

(** [RBNode]; the key of the sentinel is [None]. *)
Record RBNode : Type := mkNode {
  key : option Z;
  color : Color;
  left : ref;
  right : ref;
  parent : ref;
}.

(** [RedBlackTree] together with the store its nodes live in; [NIL] is the
    identity of the sentinel object. *)
Record RedBlackTree : Type := mkTree {
  heap : gmap positive RBNode;
  NIL : positive;
  root : ref;
  size : Z;
}.

(** [RedBlackTree.__init__]: the sentinel is the first object. *)
Definition init : RedBlackTree :=
  {| heap := {[ 1%positive := mkNode None BLACK None None None ]};
     NIL := 1%positive; root := Some 1%positive; size := 0 |}.

(** ** Store access *)

Definition load (x : ref) : M RedBlackTree RBNode :=
  λ st, match x with
        | Some a => match heap st !! a with
                    | Some n => Some (n, st)
                    | None => None
                    end
        | None => None
        end.

Definition store (x : ref) (n : RBNode) : M RedBlackTree unit :=
  λ st, match x with
        | Some a =>
            Some (tt, {| heap := <[a := n]> (heap st); NIL := NIL st;
                         root := root st; size := size st |})
        | None => None
        end.

(** [RBNode(key)]: a new RED object, distinct from all the others. *)
Definition new_node (k : Z) : M RedBlackTree ref :=
  λ st, let a := fresh (dom (heap st)) in
        Some (Some a,
              {| heap := <[a := mkNode (Some k) RED None None None]> (heap st);
                 NIL := NIL st; root := root st; size := size st |}).

Definition get_key (x : ref) : M RedBlackTree (option Z) :=
  let* n := load x in ret (key n).
Definition get_color (x : ref) : M RedBlackTree Color :=
  let* n := load x in ret (color n).
Definition get_left (x : ref) : M RedBlackTree ref :=
  let* n := load x in ret (left n).
Definition get_right (x : ref) : M RedBlackTree ref :=
  let* n := load x in ret (right n).
Definition get_parent (x : ref) : M RedBlackTree ref :=
  let* n := load x in ret (parent n).

Definition set_color (x : ref) (c : Color) : M RedBlackTree unit :=
  let* n := load x in
  store x {| key := key n; color := c; left := left n; right := right n;
             parent := parent n |}.
Definition set_left (x v : ref) : M RedBlackTree unit :=
  let* n := load x in
  store x {| key := key n; color := color n; left := v; right := right n;
             parent := parent n |}.
Definition set_right (x v : ref) : M RedBlackTree unit :=
  let* n := load x in
  store x {| key := key n; color := color n; left := left n; right := v;
             parent := parent n |}.
Definition set_parent (x v : ref) : M RedBlackTree unit :=
  let* n := load x in
  store x {| key := key n; color := color n; left := left n; right := right n;
             parent := v |}.

Definition get_nil : M RedBlackTree ref := λ st, Some (Some (NIL st), st).
Definition get_root : M RedBlackTree ref := λ st, Some (root st, st).
Definition set_root (v : ref) : M RedBlackTree unit :=
  λ st, Some (tt, {| heap := heap st; NIL := NIL st; root := v; size := size st |}).
Definition add_size (d : Z) : M RedBlackTree unit :=
  λ st, Some (tt, {| heap := heap st; NIL := NIL st; root := root st;
                     size := size st + d |}).

(** [k < node.key] and [k > node.key]; comparing with the sentinel's [None]
    key raises. *)
Definition key_lt (k : Z) (nk : option Z) : M RedBlackTree bool :=
  match nk with Some k' => ret (k <? k') | None => fail end.
Definition key_gt (k : Z) (nk : option Z) : M RedBlackTree bool :=
  match nk with Some k' => ret (k' <? k) | None => fail end.

(** [k == node.key] and [k != node.key]. *)
Definition key_eqb (k : Z) (nk : option Z) : bool :=
  match nk with Some k' => k =? k' | None => false end.

(** [x != self.NIL] *)
Definition not_nil (x : ref) : M RedBlackTree bool :=
  let* sentinel := get_nil in ret (negb (ref_eqb x sentinel)).

(** ** The methods *)

(** [rotate_left] *)
Definition rotate_left (x : ref) : M RedBlackTree unit :=
  let* y := get_right x in
  let* yl := get_left y in
  set_right x yl ;;
  let* yl := get_left y in
  let* c := not_nil yl in
  (if c : bool then let* yl := get_left y in set_parent yl x else ret tt) ;;
  let* xp := get_parent x in
  set_parent y xp ;;
  let* xp := get_parent x in
  (if negb (truthy xp) then set_root y
   else
     let* xp := get_parent x in
     let* xpl := get_left xp in
     if ref_eqb x xpl then let* xp := get_parent x in set_left xp y
     else let* xp := get_parent x in set_right xp y) ;;
  set_left y x ;;
  set_parent x y.

(** [rotate_right] *)
Definition rotate_right (y : ref) : M RedBlackTree unit :=
  let* x := get_left y in
  let* xr := get_right x in
  set_left y xr ;;
  let* xr := get_right x in
  let* c := not_nil xr in
  (if c : bool then let* xr := get_right x in set_parent xr y else ret tt) ;;
  let* yp := get_parent y in
  set_parent x yp ;;
  let* yp := get_parent y in
  (if negb (truthy yp) then set_root x
   else
     let* yp := get_parent y in
     let* ypr := get_right yp in
     if ref_eqb y ypr then let* yp := get_parent y in set_right yp x
     else let* yp := get_parent y in set_left yp x) ;;
  set_right x y ;;
  set_parent y x.

(** The [while current != self.NIL] loop of [insert]: [None] on a duplicate
    key (the method returns), else the parent found. *)
Fixpoint insert_loop (fuel : nat) (k : Z) (current parent : ref)
  : M RedBlackTree (option ref) :=
  match fuel with
  | O => fail
  | S fuel =>
      let* c := not_nil current in
      if c : bool then
        let* ck := get_key current in
        let* lt := key_lt k ck in
        if lt : bool then
          let* l := get_left current in insert_loop fuel k l current
        else
          let* ck := get_key current in
          let* gt := key_gt k ck in
          if gt : bool then
            let* r := get_right current in insert_loop fuel k r current
          else ret None
      else ret (Some parent)
  end.

(** [z.parent and z.parent.color == Color.RED] *)
Definition parent_is_red (z : ref) : M RedBlackTree bool :=
  let* p := get_parent z in
  if truthy p then
    let* p := get_parent z in
    let* c := get_color p in ret (color_eqb c RED)
  else ret false.

(** [z.parent.parent] *)
Definition grandparent (z : ref) : M RedBlackTree ref :=
  let* p := get_parent z in get_parent p.

(** Lines 160-163 and 179-182: cases 3 of [_insert_fixup]. *)
Definition recolor_parent_grandparent (z : ref) : M RedBlackTree unit :=
  let* p := get_parent z in
  set_color p BLACK ;;
  let* g := grandparent z in
  set_color g RED.

(** Lines 150-153 and 169-172: case 1 of [_insert_fixup]; returns the new [z]. *)
Definition recolor_uncle (z y : ref) : M RedBlackTree ref :=
  let* p := get_parent z in
  set_color p BLACK ;;
  set_color y BLACK ;;
  let* g := grandparent z in
  set_color g RED ;;
  grandparent z.

(** One round of the loop of [_insert_fixup]; returns the new [z]. *)
Definition insert_fixup_step (z : ref) : M RedBlackTree ref :=
  let* p := get_parent z in
  let* g := grandparent z in
  let* gl := get_left g in
  if ref_eqb p gl then
    let* g := grandparent z in
    let* y := get_right g in
    let* yc := get_color y in
    if color_eqb yc RED then recolor_uncle z y
    else
      let* p := get_parent z in
      let* pr := get_right p in
      let* z := (if ref_eqb z pr then
                   let* z := get_parent z in rotate_left z ;; ret z
                 else ret z) in
      recolor_parent_grandparent z ;;
      let* g := grandparent z in
      rotate_right g ;;
      ret z
  else
    let* g := grandparent z in
    let* y := get_left g in
    let* yc := get_color y in
    if color_eqb yc RED then recolor_uncle z y
    else
      let* p := get_parent z in
      let* pl := get_left p in
      let* z := (if ref_eqb z pl then
                   let* z := get_parent z in rotate_right z ;; ret z
                 else ret z) in
      recolor_parent_grandparent z ;;
      let* g := grandparent z in
      rotate_left g ;;
      ret z.

(** The [while] loop of [_insert_fixup]. *)
Fixpoint insert_fixup_loop (fuel : nat) (z : ref) : M RedBlackTree unit :=
  match fuel with
  | O => fail
  | S fuel =>
      let* c := parent_is_red z in
      if c : bool then
        let* z := insert_fixup_step z in insert_fixup_loop fuel z
      else ret tt
  end.

(** [_insert_fixup] *)
Definition _insert_fixup (fuel : nat) (z : ref) : M RedBlackTree unit :=
  insert_fixup_loop fuel z ;;
  let* r := get_root in
  set_color r BLACK.

(** Lines 123-130 of [insert]: the new node is linked below [parent]. *)
Definition attach (k : Z) (node parent : ref) : M RedBlackTree unit :=
  set_parent node parent ;;
  if negb (truthy parent) then set_root node
  else
    let* pk := get_key parent in
    let* lt := key_lt k pk in
    if lt : bool then set_left parent node else set_right parent node.

(** [insert] *)
Definition insert (fuel : nat) (k : Z) : M RedBlackTree unit :=
  let* node := new_node k in
  let* sentinel := get_nil in
  set_left node sentinel ;;
  let* sentinel := get_nil in
  set_right node sentinel ;;
  let* current := get_root in
  let* found := insert_loop fuel k current None in
  match found with
  | None => ret tt
  | Some parent =>
      attach k node parent ;;
      add_size 1 ;;
      _insert_fixup fuel node
  end.

(** The loop of [search]. *)
Fixpoint search_loop (fuel : nat) (k : Z) (current : ref) : M RedBlackTree bool :=
  match fuel with
  | O => fail
  | S fuel =>
      let* c := not_nil current in
      if c : bool then
        let* ck := get_key current in
        if key_eqb k ck then ret true
        else
          let* ck := get_key current in
          let* lt := key_lt k ck in
          if lt : bool then
            let* l := get_left current in search_loop fuel k l
          else
            let* r := get_right current in search_loop fuel k r
      else ret false
  end.

(** [search] *)
Definition search (fuel : nat) (k : Z) : M RedBlackTree bool :=
  let* current := get_root in search_loop fuel k current.

(** [_transplant] *)
Definition _transplant (u v : ref) : M RedBlackTree unit :=
  let* up := get_parent u in
  (if negb (truthy up) then set_root v
   else
     let* up := get_parent u in
     let* upl := get_left up in
     if ref_eqb u upl then let* up := get_parent u in set_left up v
     else let* up := get_parent u in set_right up v) ;;
  let* up := get_parent u in
  set_parent v up.

(** [_minimum] *)
Fixpoint _minimum (fuel : nat) (node : ref) : M RedBlackTree ref :=
  match fuel with
  | O => fail
  | S fuel =>
      let* l := get_left node in
      let* c := not_nil l in
      if c : bool then let* l := get_left node in _minimum fuel l
      else ret node
  end.

(** [_minimum] once more, with an outcome that tells a raised
    [AttributeError] ([node.left] on [None]) from running out of fuel; the
    loop only reads, so no state is returned. *)
Fixpoint _minimum_outcome (fuel : nat) (node : ref) (st : RedBlackTree)
  : outcome ref :=
  match fuel with
  | O => OutOfFuel
  | S fuel =>
      match node with
      | None => Raises
      | Some a =>
          match heap st !! a with
          | None => Raises
          | Some n =>
              if negb (ref_eqb (left n) (Some (NIL st)))
              then _minimum_outcome fuel (left n) st
              else Returns node
          end
      end
  end.

(** [_search_node] *)
Fixpoint _search_node_loop (fuel : nat) (k : Z) (current : ref)
  : M RedBlackTree ref :=
  match fuel with
  | O => fail
  | S fuel =>
      let* c := andM (not_nil current)
                     (let* ck := get_key current in ret (negb (key_eqb k ck))) in
      if c : bool then
        let* ck := get_key current in
        let* lt := key_lt k ck in
        if lt : bool then
          let* l := get_left current in _search_node_loop fuel k l
        else
          let* r := get_right current in _search_node_loop fuel k r
      else ret current
  end.

Definition _search_node (fuel : nat) (k : Z) : M RedBlackTree ref :=
  let* current := get_root in _search_node_loop fuel k current.

(** [w.color = x.parent.color; x.parent.color = BLACK] *)
Definition take_parent_color (x w : ref) : M RedBlackTree unit :=
  let* p := get_parent x in
  let* pc := get_color p in
  set_color w pc ;;
  let* p := get_parent x in
  set_color p BLACK.

(** Lines 298-324: the round of [_delete_fixup] for [x == x.parent.left];
    returns the new [x]. *)
Definition delete_fixup_left (x : ref) : M RedBlackTree ref :=
  let* p := get_parent x in
  let* w := get_right p in
  let* wc := get_color w in
  let* w := (if color_eqb wc RED then
               set_color w BLACK ;;
               let* p := get_parent x in
               set_color p RED ;;
               let* p := get_parent x in
               rotate_left p ;;
               let* p := get_parent x in
               get_right p
             else ret w) in
  let* wl := get_left w in
  let* wlc := get_color wl in
  let* both := (if color_eqb wlc BLACK then
                  let* wr := get_right w in
                  let* wrc := get_color wr in ret (color_eqb wrc BLACK)
                else ret false) in
  if both : bool then set_color w RED ;; get_parent x
  else
    let* wr := get_right w in
    let* wrc := get_color wr in
    let* w := (if color_eqb wrc BLACK then
                 let* wl := get_left w in
                 set_color wl BLACK ;;
                 set_color w RED ;;
                 rotate_right w ;;
                 let* p := get_parent x in
                 get_right p
               else ret w) in
    take_parent_color x w ;;
    let* wr := get_right w in
    set_color wr BLACK ;;
    let* p := get_parent x in
    rotate_left p ;;
    get_root.

(** Lines 326-352: the round for the other side. *)
Definition delete_fixup_right (x : ref) : M RedBlackTree ref :=
  let* p := get_parent x in
  let* w := get_left p in
  let* wc := get_color w in
  let* w := (if color_eqb wc RED then
               set_color w BLACK ;;
               let* p := get_parent x in
               set_color p RED ;;
               let* p := get_parent x in
               rotate_right p ;;
               let* p := get_parent x in
               get_left p
             else ret w) in
  let* wr := get_right w in
  let* wrc := get_color wr in
  let* both := (if color_eqb wrc BLACK then
                  let* wl := get_left w in
                  let* wlc := get_color wl in ret (color_eqb wlc BLACK)
                else ret false) in
  if both : bool then set_color w RED ;; get_parent x
  else
    let* wl := get_left w in
    let* wlc := get_color wl in
    let* w := (if color_eqb wlc BLACK then
                 let* wr := get_right w in
                 set_color wr BLACK ;;
                 set_color w RED ;;
                 rotate_left w ;;
                 let* p := get_parent x in
                 get_left p
               else ret w) in
    take_parent_color x w ;;
    let* wl := get_left w in
    set_color wl BLACK ;;
    let* p := get_parent x in
    rotate_right p ;;
    get_root.

(** The [while] loop of [_delete_fixup]; returns the final [x]. *)
Fixpoint delete_fixup_loop (fuel : nat) (x : ref) : M RedBlackTree ref :=
  match fuel with
  | O => fail
  | S fuel =>
      let* r := get_root in
      if negb (ref_eqb x r) then
        let* xc := get_color x in
        if color_eqb xc BLACK then
          let* p := get_parent x in
          let* pl := get_left p in
          let* x := (if ref_eqb x pl then delete_fixup_left x
                     else delete_fixup_right x) in
          delete_fixup_loop fuel x
        else ret x
      else ret x
  end.

(** [_delete_fixup] *)
Definition _delete_fixup (fuel : nat) (x : ref) : M RedBlackTree unit :=
  let* x := delete_fixup_loop fuel x in
  set_color x BLACK.

(** Lines 253-267 of [delete]: the successor [y] of a node [z] with two
    children takes the place of [z]; returns [x] and [y]'s original color. *)
Definition delete_two_children (fuel : nat) (z : ref) : M RedBlackTree (ref * Color) :=
  let* zr := get_right z in
  let* y := _minimum fuel zr in
  let* y_original_color := get_color y in
  let* x := get_right y in
  let* yp := get_parent y in
  (if ref_eqb yp z then set_parent x y
   else
     let* yr := get_right y in
     _transplant y yr ;;
     let* zr := get_right z in
     set_right y zr ;;
     let* yr := get_right y in
     set_parent yr y) ;;
  _transplant z y ;;
  let* zl := get_left z in
  set_left y zl ;;
  let* yl := get_left y in
  set_parent yl y ;;
  let* zc := get_color z in
  set_color y zc ;;
  ret (x, y_original_color).

(** Lines 243-267 of [delete]: the node [z] is unlinked; returns [x] and
    [y_original_color]. *)
Definition delete_node (fuel : nat) (z : ref) : M RedBlackTree (ref * Color) :=
  let* y_original_color := get_color z in
  let* zl := get_left z in
  let* c := not_nil zl in
  if negb c then
    let* x := get_right z in
    let* zr := get_right z in
    _transplant z zr ;;
    ret (x, y_original_color)
  else
    let* zr := get_right z in
    let* c := not_nil zr in
    if negb c then
      let* x := get_left z in
      let* zl := get_left z in
      _transplant z zl ;;
      ret (x, y_original_color)
    else delete_two_children fuel z.

(** [delete] *)
Definition delete (fuel : nat) (k : Z) : M RedBlackTree unit :=
  let* z := _search_node fuel k in
  let* c := not_nil z in
  if negb c then ret tt
  else
    add_size (-1) ;;
    let* removed := delete_node fuel z in
    let x := fst removed in
    let y_original_color := snd removed in
    if color_eqb y_original_color BLACK then _delete_fixup fuel x else ret tt.

(** [get_size] *)
Definition get_size (st : RedBlackTree) : Z := size st.

(** ** Specification vocabulary *)

(** The shape a store holds under a reference: every node with its color,
    identity and key; [Leaf] is a link to the sentinel. *)
Inductive tree : Type :=
| Leaf
| T (c : Color) (l : tree) (a : positive) (k : Z) (r : tree).

Definition root_of (nil : positive) (t : tree) : ref :=
  match t with Leaf => Some nil | T _ _ a _ _ => Some a end.

Definition color_of (t : tree) : Color :=
  match t with Leaf => BLACK | T c _ _ _ _ => c end.

(** Identities and keys in in-order. *)
Fixpoint locs (t : tree) : list positive :=
  match t with Leaf => [] | T _ l a _ r => locs l ++ a :: locs r end.

Fixpoint keys (t : tree) : list Z :=
  match t with Leaf => [] | T _ l _ k r => keys l ++ k :: keys r end.

Fixpoint height (t : tree) : nat :=
  match t with Leaf => O | T _ l _ _ r => S (Nat.max (height l) (height r)) end.

(** The store [h] holds the tree [t] below a node (or root slot) [par]. *)
Fixpoint rep (h : gmap positive RBNode) (nil : positive) (par : ref) (t : tree)
  : Prop :=
  match t with
  | Leaf => True
  | T c l a k r =>
      h !! a = Some (mkNode (Some k) c (root_of nil l) (root_of nil r) par) ∧
      rep h nil (Some a) l ∧ rep h nil (Some a) r
  end.

(** The sentinel is a BLACK object without key or children. *)
Definition sentinel_ok (st : RedBlackTree) : Prop :=
  ∃ p, heap st !! NIL st = Some (mkNode None BLACK None None p).

(** The state holds the tree [t]: [self.root] is its root, whose parent link
    is [None]; no node occurs twice and none is the sentinel. *)
Definition represents (st : RedBlackTree) (t : tree) : Prop :=
  root st = root_of (NIL st) t ∧ rep (heap st) (NIL st) None t ∧
  NoDup (NIL st :: locs t) ∧ sentinel_ok st.

(** A tree with a hole: the path from the hole up to the root. *)
Inductive frame : Type :=
| FL (c : Color) (a : positive) (k : Z) (r : tree)
| FR (c : Color) (l : tree) (a : positive) (k : Z).

Definition fill (f : frame) (t : tree) : tree :=
  match f with FL c a k r => T c t a k r | FR c l a k => T c l a k t end.

Fixpoint plug (ctx : list frame) (t : tree) : tree :=
  match ctx with [] => t | f :: ctx' => plug ctx' (fill f t) end.

Definition frame_loc (f : frame) : positive :=
  match f with FL _ a _ _ => a | FR _ _ a _ => a end.

Definition frame_color (f : frame) : Color :=
  match f with FL c _ _ _ => c | FR c _ _ _ => c end.

Definition ctx_parent (ctx : list frame) : ref :=
  match ctx with [] => None | f :: _ => Some (frame_loc f) end.

Fixpoint ctx_root (ctx : list frame) (hole : ref) : ref :=
  match ctx with [] => hole | f :: ctx' => ctx_root ctx' (Some (frame_loc f)) end.

Fixpoint ctx_before (ctx : list frame) : list positive :=
  match ctx with
  | [] => []
  | FL _ _ _ _ :: ctx' => ctx_before ctx'
  | FR _ l a _ :: ctx' => ctx_before ctx' ++ locs l ++ [a]
  end.

Fixpoint ctx_after (ctx : list frame) : list positive :=
  match ctx with
  | [] => []
  | FL _ a _ r :: ctx' => a :: locs r ++ ctx_after ctx'
  | FR _ _ _ _ :: ctx' => ctx_after ctx'
  end.

Fixpoint kctx_before (ctx : list frame) : list Z :=
  match ctx with
  | [] => []
  | FL _ _ _ _ :: ctx' => kctx_before ctx'
  | FR _ l _ k :: ctx' => kctx_before ctx' ++ keys l ++ [k]
  end.

Fixpoint kctx_after (ctx : list frame) : list Z :=
  match ctx with
  | [] => []
  | FL _ _ k r :: ctx' => k :: keys r ++ kctx_after ctx'
  | FR _ _ _ _ :: ctx' => kctx_after ctx'
  end.

Definition ctx_locs (ctx : list frame) : list positive :=
  ctx_before ctx ++ ctx_after ctx.

(** The store holds the frames of [ctx] around a hole filled by [hole]. *)
Fixpoint ctx_rep (h : gmap positive RBNode) (nil : positive) (ctx : list frame)
    (hole : ref) : Prop :=
  match ctx with
  | [] => True
  | FL c a k r :: ctx' =>
      h !! a = Some (mkNode (Some k) c hole (root_of nil r) (ctx_parent ctx')) ∧
      rep h nil (Some a) r ∧ ctx_rep h nil ctx' (Some a)
  | FR c l a k :: ctx' =>
      h !! a = Some (mkNode (Some k) c (root_of nil l) hole (ctx_parent ctx')) ∧
      rep h nil (Some a) l ∧ ctx_rep h nil ctx' (Some a)
  end.

(** [x.color = BLACK] on the root of a tree. *)
Definition blacken (t : tree) : tree :=
  match t with Leaf => Leaf | T _ l a k r => T BLACK l a k r end.

Definition redden (t : tree) : tree :=
  match t with Leaf => Leaf | T _ l a k r => T RED l a k r end.

Definition recolor (c : Color) (f : frame) : frame :=
  match f with FL _ a k r => FL c a k r | FR _ l a k => FR c l a k end.

(** What the loop of [_insert_fixup] makes of the tree [plug ctx t] when
    called on the root of [t]; [None] where the method raises. *)
Fixpoint ins_fix (ctx : list frame) (t : tree) : option tree :=
  match ctx with
  | [] => Some t
  | f1 :: ctx1 =>
      match frame_color f1 with
      | BLACK => Some (plug ctx t)
      | RED =>
          match ctx1 with
          | [] => None
          | FL cg g kg u :: ctx2 =>
              match u with
              | T RED ul uy uk ur =>
                  ins_fix ctx2 (T RED (fill (recolor BLACK f1) t) g kg
                                      (T BLACK ul uy uk ur))
              | _ =>
                  match f1, t with
                  | FL _ p kp s, _ =>
                      Some (plug ctx2 (T BLACK t p kp (T RED s g kg u)))
                  | FR _ s p kp, T cz a z kz b =>
                      Some (plug ctx2 (T BLACK (T RED s p kp a) z kz (T RED b g kg u)))
                  | FR _ _ _ _, Leaf => None
                  end
              end
          | FR cg u g kg :: ctx2 =>
              match u with
              | T RED ul uy uk ur =>
                  ins_fix ctx2 (T RED (T BLACK ul uy uk ur) g kg
                                      (fill (recolor BLACK f1) t))
              | _ =>
                  match f1, t with
                  | FR _ s p kp, _ =>
                      Some (plug ctx2 (T BLACK (T RED u g kg s) p kp t))
                  | FL _ p kp s, T cz a z kz b =>
                      Some (plug ctx2 (T BLACK (T RED u g kg a) z kz (T RED b p kp s)))
                  | FL _ _ _ _, Leaf => None
                  end
              end
          end
      end
  end.

(** Where the descent of [insert] for [k] stops: on the node holding [k], or
    at the sentinel link where the new node goes. *)
Fixpoint insert_path (k : Z) (ctx : list frame) (t : tree) : list frame * tree :=
  match t with
  | Leaf => (ctx, Leaf)
  | T c l a ka r =>
      if k <? ka then insert_path k (FL c a ka r :: ctx) l
      else if ka <? k then insert_path k (FR c l a ka :: ctx) r
      else (ctx, t)
  end.

(** Whether [insert k] adds a node. *)
Definition inserts (k : Z) (t : tree) : bool :=
  match snd (insert_path k [] t) with Leaf => true | _ => false end.

(** The tree after [insert k] when the new node has identity [n]. *)
Definition insert_tree (k : Z) (n : positive) (t : tree) : option tree :=
  match insert_path k [] t with
  | (ctx, Leaf) => blacken <$> ins_fix ctx (T RED Leaf n k Leaf)
  | (ctx, _) => Some t
  end.

(** The leftmost node of [t] below [ctx], as a zipper ([_minimum]). *)
Fixpoint min_path (ctx : list frame) (t : tree) : list frame * tree :=
  match t with
  | Leaf => (ctx, Leaf)
  | T c l a k r =>
      match l with
      | Leaf => (ctx, t)
      | _ => min_path (FL c a k r :: ctx) l
      end
  end.

Definition is_black (t : tree) : bool := color_eqb (color_of t) BLACK.

(** Cases 3 and 4 of [_delete_fixup] for a node [x] that is the left child of
    [p]: the subtree that replaces the one rooted at [p], whose color was
    [cp]; [t] is the subtree at [x] and [w] the one at its sibling. *)
Definition del_case34_left (cp : Color) (t : tree) (p : positive) (kp : Z)
    (w : tree) : option tree :=
  match w with
  | T _ wl wn wk (T RED wrl wrn wrk wrr) =>
      Some (T cp (T BLACK t p kp wl) wn wk (T BLACK wrl wrn wrk wrr))
  | T _ (T RED wll wln wlk wlr) wn wk wr =>
      Some (T cp (T BLACK t p kp wll) wln wlk (T BLACK wlr wn wk wr))
  | _ => None
  end.

Definition del_case34_right (cp : Color) (w : tree) (p : positive) (kp : Z)
    (t : tree) : option tree :=
  match w with
  | T _ (T RED wll wln wlk wlr) wn wk wr =>
      Some (T cp (T BLACK wll wln wlk wlr) wn wk (T BLACK wr p kp t))
  | T _ wl wn wk (T RED wrl wrn wrk wrr) =>
      Some (T cp (T BLACK wl wn wk wrl) wrn wrk (T BLACK wrr p kp t))
  | _ => None
  end.

(** What [_delete_fixup] makes of the tree [plug ctx t] when called on the
    root of [t] (the sentinel when [t] is [Leaf]); [None] where the method
    raises. *)
Fixpoint del_fix (ctx : list frame) (t : tree) : option tree :=
  match ctx with
  | [] => Some (blacken t)
  | f :: ctx' =>
      if negb (is_black t) then Some (plug ctx (blacken t))
      else
        match f with
        | FL cp p kp w =>
            match w with
            | Leaf => None
            | T RED wl wn wk wr =>
                match wl with
                | Leaf => None
                | T _ wll wln wlk wlr =>
                    if is_black wll && is_black wlr then
                      Some (plug ctx' (T BLACK (T BLACK t p kp (T RED wll wln wlk wlr))
                                         wn wk wr))
                    else
                      t34 ← del_case34_left RED t p kp wl;
                      Some (blacken (plug (FL BLACK wn wk wr :: ctx') t34))
                end
            | T BLACK wl wn wk wr =>
                if is_black wl && is_black wr then
                  del_fix ctx' (T cp t p kp (T RED wl wn wk wr))
                else
                  t34 ← del_case34_left cp t p kp w;
                  Some (blacken (plug ctx' t34))
            end
        | FR cp w p kp =>
            match w with
            | Leaf => None
            | T RED wl wn wk wr =>
                match wr with
                | Leaf => None
                | T _ wrl wrn wrk wrr =>
                    if is_black wrr && is_black wrl then
                      Some (plug ctx' (T BLACK wl wn wk
                                         (T BLACK (T RED wrl wrn wrk wrr) p kp t)))
                    else
                      t34 ← del_case34_right RED wr p kp t;
                      Some (blacken (plug (FR BLACK wl wn wk :: ctx') t34))
                end
            | T BLACK wl wn wk wr =>
                if is_black wr && is_black wl then
                  del_fix ctx' (T cp (T RED wl wn wk wr) p kp t)
                else
                  t34 ← del_case34_right cp w p kp t;
                  Some (blacken (plug ctx' t34))
            end
        end
  end.

(** The tree after the node in focus is unlinked (lines 243-267 of
    [delete]), as the zipper of the node [x] that moved, with the color
    that was removed. *)
Definition unlink (ctx : list frame) (t : tree) : option (list frame * tree * Color) :=
  match t with
  | Leaf => None
  | T cz Leaf z kz r => Some (ctx, r, cz)
  | T cz l z kz Leaf => Some (ctx, l, cz)
  | T cz l z kz r =>
      match min_path [] r with
      | (rctx, T cy _ y ky yr) => Some (rctx ++ FR cz l y ky :: ctx, yr, cy)
      | _ => None
      end
  end.

(** The tree after [delete k]. *)
Definition delete_tree (k : Z) (t : tree) : option tree :=
  match insert_path k [] t with
  | (ctx, Leaf) => Some t
  | (ctx, s) =>
      '(ctxx, tx, c) ← unlink ctx s;
      match c with
      | BLACK => del_fix ctxx tx
      | RED => Some (plug ctxx tx)
      end
  end.

(** Whether [delete k] removes a node. *)
Definition finds (k : Z) (t : tree) : bool := negb (inserts k t).

(** ** The Red-Black properties of a tree *)

Definition black (c : Color) : nat := match c with BLACK => 1 | RED => 0 end.

(** BLACK nodes on the leftmost path down to the sentinel, which counts. *)
Fixpoint black_height (t : tree) : nat :=
  match t with
  | Leaf => 1
  | T c l _ _ _ => black_height l + black c
  end.

(** Both subtrees of every node have the same black height. *)
Fixpoint black_balanced (t : tree) : Prop :=
  match t with
  | Leaf => True
  | T _ l _ _ r =>
      black_height l = black_height r ∧ black_balanced l ∧ black_balanced r
  end.

(** A RED node has BLACK children. *)
Fixpoint no_red_red (t : tree) : Prop :=
  match t with
  | Leaf => True
  | T c l _ _ r =>
      (c = RED → color_of l = BLACK ∧ color_of r = BLACK) ∧
      no_red_red l ∧ no_red_red r
  end.

Definition red_black (t : tree) : Prop :=
  color_of t = BLACK ∧ no_red_red t ∧ black_balanced t.

(** The same for a tree with a hole: the color of the root once the hole
    holds a tree of color [c], ... *)
Fixpoint ctx_top (ctx : list frame) (c : Color) : Color :=
  match ctx with [] => c | f :: ctx' => ctx_top ctx' (frame_color f) end.

(** ... no RED node with a RED child around a hole of color [c], ... *)
Fixpoint ctx_no_red_red (ctx : list frame) (c : Color) : Prop :=
  match ctx with
  | [] => True
  | FL cp _ _ r :: ctx' =>
      (cp = RED → c = BLACK ∧ color_of r = BLACK) ∧ no_red_red r ∧
      ctx_no_red_red ctx' cp
  | FR cp l _ _ :: ctx' =>
      (cp = RED → color_of l = BLACK ∧ c = BLACK) ∧ no_red_red l ∧
      ctx_no_red_red ctx' cp
  end.

(** ... and balance around a hole of black height [h]. *)
Fixpoint ctx_black_balanced (ctx : list frame) (h : nat) : Prop :=
  match ctx with
  | [] => True
  | FL cp _ _ r :: ctx' =>
      h = black_height r ∧ black_balanced r ∧
      ctx_black_balanced ctx' (h + black cp)
  | FR cp l _ _ :: ctx' =>
      black_height l = h ∧ black_balanced l ∧
      ctx_black_balanced ctx' (h + black cp)
  end.

(** BLACK nodes on every path from the root down to the sentinel. *)
Fixpoint black_counts (t : tree) : list nat :=
  match t with
  | Leaf => [1%nat]
  | T c l _ _ r => map (λ n, (n + black c)%nat) (black_counts l ++ black_counts r)
  end.

(** ** Reading the store *)

(** The tree the store holds under a reference, read on fuel; the sentinel
    ends a path. *)
Fixpoint read (fuel : nat) (h : gmap positive RBNode) (nil : positive) (x : ref)
  : option tree :=
  match fuel with
  | O => None
  | S fuel =>
      a ← x;
      if bool_decide (a = nil) then Some Leaf
      else
        n ← h !! a;
        k ← key n;
        l ← read fuel h nil (left n);
        r ← read fuel h nil (right n);
        Some (T (color n) l a k r)
  end.

Definition tree_of (fuel : nat) (st : RedBlackTree) : option tree :=
  read fuel (heap st) (NIL st) (root st).

(** In-order traversal of the store from a reference, on fuel. *)
Fixpoint traverse (fuel : nat) (h : gmap positive RBNode) (nil : positive) (x : ref)
  : option (list Z) :=
  match fuel with
  | O => None
  | S fuel =>
      a ← x;
      if bool_decide (a = nil) then Some []
      else
        n ← h !! a;
        k ← key n;
        l ← traverse fuel h nil (left n);
        r ← traverse fuel h nil (right n);
        Some (l ++ k :: r)
  end.

(** The references reachable from the root through the child links of real
    nodes. *)
Inductive reach (st : RedBlackTree) : ref → Prop :=
| reach_root : reach st (root st)
| reach_left a n :
    reach st (Some a) → a ≠ NIL st → heap st !! a = Some n → reach st (left n)
| reach_right a n :
    reach st (Some a) → a ≠ NIL st → heap st !! a = Some n → reach st (right n).

(** Parent links agree with child links on the reachable real nodes. *)
Definition parents_consistent (st : RedBlackTree) : Prop :=
  (∀ a n, root st = Some a → a ≠ NIL st → heap st !! a = Some n →
          parent n = None) ∧
  (∀ a n c m, reach st (Some a) → a ≠ NIL st → heap st !! a = Some n →
     left n = Some c ∨ right n = Some c → c ≠ NIL st →
     heap st !! c = Some m → parent m = Some a).

(** ** The public operations and the states they reach from the empty tree *)

Definition run_op (fuel : nat) (o : Keys.op) (st : RedBlackTree)
  : option RedBlackTree :=
  match o with
  | Keys.Insert k => snd <$> insert fuel k st
  | Keys.Search k => snd <$> search fuel k st
  | Keys.Delete k => snd <$> delete fuel k st
  end.

Fixpoint run_ops (fuel : nat) (os : list Keys.op) (st : RedBlackTree)
  : option RedBlackTree :=
  match os with
  | [] => Some st
  | o :: os' => st' ← run_op fuel o st; run_ops fuel os' st'
  end.

Definition reachable (st : RedBlackTree) : Prop :=
  ∃ fuel os, run_ops fuel os init = Some st.

(** ** Vocabulary of the proofs *)

(** The state [st'] holds [t'] after a step from a state holding [t] that
    wrote only nodes of [t]. *)
Definition step_to (st : RedBlackTree) (t : tree) (st' : RedBlackTree) (t' : tree)
  : Prop :=
  represents st' t' ∧ size st' = size st ∧ NIL st' = NIL st ∧
  (∀ z, z ∉ locs t → heap st' !! z = heap st !! z) ∧
  locs t' ≡ₚ locs t.

(** The side of the last frame agrees with the comparison made there. *)
Definition dir_ok (k : Z) (ctx : list frame) : Prop :=
  match ctx with
  | [] => True
  | FL _ _ kp _ :: _ => k < kp
  | FR _ _ _ kp :: _ => kp < k
  end.

(** What the descent of [insert] returns. *)
Definition insert_found (k : Z) (ctx : list frame) (t : tree) : option ref :=
  match insert_path k ctx t with
  | (c, Leaf) => Some (ctx_parent c)
  | (c, T _ _ _ _ _) => None
  end.

(** Whether the descent for [k] ends on a node. *)
Definition found_node (k : Z) (ctx : list frame) (t : tree) : bool :=
  match snd (insert_path k ctx t) with Leaf => false | _ => true end.

(** The outcome of [_transplant u v] when [v] is the only subtree of [u]. *)
Definition spliced (st : RedBlackTree) (ctx : list frame) (u : positive) (v : tree)
    (st' : RedBlackTree) : Prop :=
  represents st' (plug ctx v) ∧ size st' = size st ∧ NIL st' = NIL st ∧
  heap st' !! u = heap st !! u ∧
  (v = Leaf →
   heap st' !! NIL st = Some (mkNode None BLACK None None (ctx_parent ctx))).

(** The state after lines 243-267 of [delete]: it holds the tree without
    the node; when the node [x] that moved is the sentinel, the parent link
    of the sentinel points to the place it stands for. *)
Definition unlinked (st : RedBlackTree) (ctx : list frame) (x : tree)
    (st' : RedBlackTree) : Prop :=
  represents st' (plug ctx x) ∧ size st' = size st ∧ NIL st' = NIL st ∧
  (x = Leaf →
   heap st' !! NIL st = Some (mkNode None BLACK None None (ctx_parent ctx))).

(** Recursive insertion of a new RED leaf. *)
Fixpoint bst_ins (k : Z) (n : positive) (t : tree) : tree :=
  match t with
  | Leaf => T RED Leaf n k Leaf
  | T c l a ka r =>
      if k <? ka then T c (bst_ins k n l) a ka r
      else if ka <? k then T c l a ka (bst_ins k n r)
      else t
  end.

(** What holds of the zipper [unlink] returns, by the color that went. *)
Definition removed_ok (ctxx : list frame) (tx : tree) (c : Color) : Prop :=
  no_red_red tx ∧ black_balanced tx ∧
  match c with
  | RED =>
      ctx_top ctxx (color_of tx) = BLACK ∧ ctx_no_red_red ctxx (color_of tx) ∧
      ctx_black_balanced ctxx (black_height tx)
  | BLACK =>
      ctx_top ctxx BLACK = BLACK ∧ ctx_no_red_red ctxx BLACK ∧
      ctx_black_balanced ctxx (S (black_height tx))
  end.

(** The state holds a Red-Black search tree whose node count is [size]. *)
Definition holds (st : RedBlackTree) (t : tree) : Prop :=
  represents st t ∧ red_black t ∧ Keys.ascending (keys t) ∧
  size st = Z.of_nat (length (keys t)).

Definition enough (fuel : nat) (t : tree) : Prop := (height t + 2 < fuel)%nat.

End RB.

(** * Sample runs *)
Module Samples.
Import Keys.

Definition ops : list op :=
  [Insert 2; Insert 1; Insert 3; Search 1; Delete 2; Insert 5; Insert 4; Search 7].

Definition avl : AVL.AVLTree := default AVL.init (AVL.run_ops ops AVL.init).
Definition rb : RB.RedBlackTree := default RB.init (RB.run_ops 20 ops RB.init).
Definition splay : Splay.SplayTree :=
  default Splay.init (Splay.run_ops 20 ops Splay.init).

(** A Splay state on which [search 3] leaves a root with two subtrees. *)
Definition splay2 : Splay.SplayTree :=
  default Splay.init
    (Splay.run_ops 20 [Insert 1; Insert 5; Insert 3; Insert 2; Insert 4] Splay.init).

(** The state after [search 3] on it, and the tree it holds. *)
Definition found : Splay.SplayTree :=
  default splay2 (snd <$> Splay.search 20 3 splay2).

Definition found_tree : Splay.tree := default Splay.Leaf (Splay.tree_of 20 found).

Definition found_left : Splay.tree :=
  match found_tree with Splay.T l _ _ _ => l | Splay.Leaf => Splay.Leaf end.

Definition found_right : Splay.tree :=
  match found_tree with Splay.T _ _ _ r => r | Splay.Leaf => Splay.Leaf end.

Definition found_root : positive :=
  match found_tree with Splay.T _ a _ _ => a | Splay.Leaf => 1%positive end.

End Samples.

(** * More sample inputs *)
Module MoreSamples.
Import Keys.

(** An AVL subtree with a left child, and the same after [rotate_right]. *)
Definition avl_node : AVL.AVLNode :=
  AVL.Node 4 (AVL.Node 2 (AVL.Node 1 AVL.Nil AVL.Nil 1) (AVL.Node 3 AVL.Nil AVL.Nil 1) 2)
           (AVL.Node 5 AVL.Nil AVL.Nil 1) 3.

Definition avl_rotated : AVL.AVLNode :=
  default AVL.Nil (AVL.rotate_right avl_node).

(** The Splay sample after [search 3] and after [search 7]. *)
Definition splay_hit : Splay.SplayTree :=
  default Samples.splay (snd <$> Splay.search 20 3 Samples.splay).

Definition splay_miss : Splay.SplayTree :=
  default Samples.splay (snd <$> Splay.search 20 7 Samples.splay).

(** The left child of the root of the Splay sample. *)
Definition splay_inner : positive :=
  default 1%positive
    (n ← Splay.heap Samples.splay !! default 1%positive (Splay.root Samples.splay);
     Splay.left n).

(** The root of the second Splay sample, which has two children. *)
Definition splay2_root : positive := default 1%positive (Splay.root Samples.splay2).

(** The roots of the Red-Black and of the Splay sample. *)
Definition rb_root : positive := default 1%positive (RB.root Samples.rb).
Definition splay_root : positive := default 1%positive (Splay.root Samples.splay).

End MoreSamples.

(** * Facts about key sequences *)
Module KeysFacts.
Import Keys.

Lemma ascending_app l1 l2 :
  ascending (l1 ++ l2) ↔
  ascending l1 ∧ ascending l2 ∧ ∀ x y, x ∈ l1 → y ∈ l2 → x < y.
Proof.
  induction l1 as [|a l1 IH]; simpl.
  - split; [intros H; repeat split; auto; intros x y Hx; inversion Hx | tauto].
  - rewrite Forall_app, IH, !Forall_forall. split.
    + intros [[H1 H2] (H3 & H4 & H5)]. repeat split; auto.
      intros x y Hx Hy. apply elem_of_cons in Hx as [->|Hx]; auto.
    + intros [[H1 H2] [H3 H4]]. repeat split; auto.
      * intros y Hy. apply H4; [left | done].
      * intros x y Hx Hy. apply H4; [by right | done].
Qed.

Lemma ascending_cons x l :
  ascending (x :: l) ↔ (∀ y, y ∈ l → x < y) ∧ ascending l.
Proof. simpl. by rewrite Forall_forall. Qed.

Lemma ascending_mid l x r :
  ascending (l ++ x :: r) ↔
  ascending l ∧ ascending r ∧ (∀ y, y ∈ l → y < x) ∧ (∀ y, y ∈ r → x < y) ∧
  (∀ y z, y ∈ l → z ∈ r → y < z).
Proof.
  rewrite ascending_app, ascending_cons. split.
  - intros (H1 & [H2 H3] & H4). repeat split; auto.
    + intros y Hy. apply H4; [done | left].
    + intros y z Hy Hz. apply H4; [done | by right].
  - intros (H1 & H2 & H3 & H4 & H5). repeat split; auto.
    intros y z Hy Hz. apply elem_of_cons in Hz as [->|Hz]; auto.
Qed.

Lemma ascending_NoDup l : ascending l → NoDup l.
Proof.
  induction l as [|x l IH]; simpl; [constructor|].
  intros [H1 H2]. constructor; auto.
  intros Hx. rewrite Forall_forall in H1. specialize (H1 _ Hx). lia.
Qed.

Lemma elem_of_ins y k l : y ∈ ins k l ↔ y = k ∨ y ∈ l.
Proof.
  induction l as [|x l IH]; simpl.
  - set_solver.
  - destruct (Z.ltb_spec k x); [set_solver|].
    destruct (Z.ltb_spec x k); [set_solver|].
    assert (k = x) as -> by lia. set_solver.
Qed.

Lemma ascending_ins k l : ascending l → ascending (ins k l).
Proof.
  induction l as [|x l IH]; simpl; [by auto|].
  intros [H1 H2]. rewrite Forall_forall in H1.
  destruct (Z.ltb_spec k x).
  - simpl. repeat split; auto; [|by apply Forall_forall].
    constructor; [done|]. apply Forall_forall. intros y Hy.
    specialize (H1 _ Hy). lia.
  - destruct (Z.ltb_spec x k); simpl; [|by rewrite Forall_forall].
    split; auto. apply Forall_forall. intros y Hy.
    apply elem_of_ins in Hy as [->|Hy]; auto.
Qed.

Lemma ins_app_lt k l x r : k < x → ins k (l ++ x :: r) = ins k l ++ x :: r.
Proof.
  intros Hk. induction l as [|a l IH]; simpl.
  - by destruct (Z.ltb_spec k x); [|lia].
  - destruct (k <? a); [done|]. destruct (a <? k); [|done]. by rewrite IH.
Qed.

Lemma ins_app_gt k l x r :
  (∀ y, y ∈ l → y < x) → x < k → ins k (l ++ x :: r) = l ++ x :: ins k r.
Proof.
  intros Hl Hk. induction l as [|a l IH]; simpl.
  - destruct (Z.ltb_spec k x); [lia|]. by destruct (Z.ltb_spec x k); [|lia].
  - assert (a < x) by (apply Hl; left).
    destruct (Z.ltb_spec k a); [lia|]. destruct (Z.ltb_spec a k); [|lia].
    rewrite IH; [done|]. intros y Hy. apply Hl. by right.
Qed.

Lemma ins_app_eq l x r :
  (∀ y, y ∈ l → y < x) → ins x (l ++ x :: r) = l ++ x :: r.
Proof.
  intros Hl. induction l as [|a l IH]; simpl.
  - by rewrite Z.ltb_irrefl.
  - assert (a < x) by (apply Hl; left).
    destruct (Z.ltb_spec x a); [lia|]. destruct (Z.ltb_spec a x); [|lia].
    rewrite IH; [done|]. intros y Hy. apply Hl. by right.
Qed.

Lemma ins_elem k l : ascending l → k ∈ l → ins k l = l.
Proof.
  induction l as [|x l IH]; simpl; [by inversion 2|].
  intros [H1 H2] Hk. rewrite Forall_forall in H1.
  apply elem_of_cons in Hk as [->|Hk]; [by rewrite Z.ltb_irrefl|].
  specialize (H1 _ Hk).
  destruct (Z.ltb_spec k x); [lia|]. destruct (Z.ltb_spec x k); [|lia].
  by rewrite IH.
Qed.

Lemma length_ins k l : k ∉ l → length (ins k l) = S (length l).
Proof.
  induction l as [|x l IH]; simpl; [done|].
  intros Hk. apply not_elem_of_cons in Hk as [Hx Hk].
  destruct (Z.ltb_spec k x); [done|]. destruct (Z.ltb_spec x k); [|lia].
  simpl. by rewrite IH.
Qed.

Lemma del_app k l1 l2 : del k (l1 ++ l2) = del k l1 ++ del k l2.
Proof.
  induction l1 as [|a l1 IH]; simpl; [done|].
  destruct (k =? a); by rewrite IH.
Qed.

Lemma del_notin k l : k ∉ l → del k l = l.
Proof.
  induction l as [|x l IH]; simpl; [done|].
  intros Hk. apply not_elem_of_cons in Hk as [Hx Hk].
  destruct (Z.eqb_spec k x); [done|]. by rewrite IH.
Qed.

Lemma elem_of_del y k l : y ∈ del k l ↔ y ≠ k ∧ y ∈ l.
Proof.
  induction l as [|x l IH]; simpl; [set_solver|].
  destruct (Z.eqb_spec k x); set_solver.
Qed.

Lemma ascending_del k l : ascending l → ascending (del k l).
Proof.
  induction l as [|x l IH]; simpl; [done|].
  intros [H1 H2]. destruct (k =? x); [by auto|].
  simpl. split; auto. rewrite Forall_forall in *.
  intros y Hy. apply elem_of_del in Hy as [_ Hy]. auto.
Qed.

Lemma del_mid k l r :
  k ∉ l → k ∉ r → del k (l ++ k :: r) = l ++ r.
Proof.
  intros Hl Hr. rewrite del_app. simpl. rewrite Z.eqb_refl.
  by rewrite !del_notin.
Qed.

Lemma length_del k l :
  NoDup l → k ∈ l → S (length (del k l)) = length l.
Proof.
  induction l as [|x l IH]; simpl; [by inversion 2|].
  intros Hnd Hk. apply NoDup_cons in Hnd as [Hx Hnd].
  destruct (Z.eqb_spec k x) as [->|Hne].
  - by rewrite del_notin.
  - simpl. rewrite IH; set_solver.
Qed.

End KeysFacts.

(** * Running state transformers *)
Module PyFacts.
Import Py.

Section wp.
  Context {St : Type}.


Lemma wp_ret {A} (a : A) st (Q : A → St → Prop) : Q a st → wp (ret a) st Q.
  Proof. intros. by exists a, st. Qed.

Lemma wp_bind {A B} (m : M St A) (k : A → M St B) st (Q : B → St → Prop) :
    wp m st (λ a st', wp (k a) st' Q) → wp (bind m k) st Q.
  Proof.
    intros (a & st' & Hm & b & st'' & Hk & HQ).
    exists b, st''. unfold bind. by rewrite Hm.
  Qed.

Lemma wp_mono {A} (m : M St A) st (Q Q' : A → St → Prop) :
    wp m st Q → (∀ a st', Q a st' → Q' a st') → wp m st Q'.
  Proof. intros (a & st' & Hm & HQ) H. exists a, st'. auto. Qed.

Lemma wp_andM (c1 c2 : M St bool) st (Q : bool → St → Prop) :
    wp c1 st (λ b st', if b then wp c2 st' Q else Q false st') →
    wp (andM c1 c2) st Q.
  Proof.
    intros H. apply wp_bind. eapply wp_mono; [exact H|].
    intros [] st' H'; [done | by apply wp_ret].
  Qed.

Lemma wp_elim {A} (m : M St A) st (Q : A → St → Prop) a st' :
    wp m st Q → m st = Some (a, st') → Q a st'.
  Proof. intros (a' & st'' & Hm & HQ) E. congruence. Qed.

Lemma wp_intro {A} (m : M St A) st (Q : A → St → Prop) a st' :
    m st = Some (a, st') → Q a st' → wp m st Q.
  Proof. intros. by exists a, st'. Qed.
End wp.


Lemma mono_refl {St A} (m : M St A) : mono m m.
Proof. by intros st r. Qed.

Lemma mono_fail {St A} (m : M St A) : mono fail m.
Proof. by intros st r. Qed.

Lemma mono_bind {St A B} (m m' : M St A) (k k' : A → M St B) :
  mono m m' → (∀ a, mono (k a) (k' a)) → mono (bind m k) (bind m' k').
Proof.
  intros Hm Hk st r. unfold bind.
  destruct (m st) as [[a st1]|] eqn:E; [|done].
  rewrite (Hm _ _ E). apply Hk.
Qed.

Lemma mono_andM {St} (c1 c1' c2 c2' : M St bool) :
  mono c1 c1' → mono c2 c2' → mono (andM c1 c2) (andM c1' c2').
Proof.
  intros H1 H2. apply mono_bind; [done|]. intros []; [done | apply mono_refl].
Qed.

Ltac mono_step :=
  match goal with
  | |- mono ?m ?m => apply mono_refl
  | |- mono fail _ => apply mono_fail
  | |- mono (bind _ _) (bind _ _) => apply mono_bind; [|intros ?]
  | |- mono (andM _ _) (andM _ _) => apply mono_andM
  | |- mono (if ?b then _ else _) (if ?b then _ else _) => destruct b
  | |- mono (match ?x with _ => _ end) (match ?x with _ => _ end) => destruct x
  end.

(** Distinctness out of a duplicate-free list. *)
Lemma NoDup_sub {A} (l L : list A) : NoDup L → l ⊆+ L → NoDup l.
Proof.
  intros HL Hs. apply submseteq_Permutation in Hs as [k Hk].
  rewrite Hk in HL. by apply NoDup_app in HL as [? _].
Qed.

Lemma NoDup_sub_notin {A} (L : list A) x l :
  NoDup L → x :: l ⊆+ L → x ∉ l.
Proof. intros HL Hs. by apply (NoDup_sub _ _ HL), NoDup_cons in Hs as [? _]. Qed.

Lemma NoDup_sub_ne {A} (L : list A) x y : NoDup L → [x; y] ⊆+ L → x ≠ y.
Proof. intros HL Hs ->. eapply NoDup_sub_notin; [done..|left]. Qed.

End PyFacts.

(** * The key list after a sequence of operations *)
Module KeysModel.
Import Keys KeysFacts.

Lemma foldl_model_app l os1 os2 :
  foldl model_op l (os1 ++ os2) = foldl model_op (foldl model_op l os1) os2.
Proof. apply foldl_app. Qed.

Lemma model_app os1 os2 : model (os1 ++ os2) = foldl model_op (model os1) os2.
Proof. apply foldl_app. Qed.

Lemma foldl_model_ascending os : ∀ l, ascending l → ascending (foldl model_op l os).
Proof.
  induction os as [|o os IH]; intros l Hl; simpl; [done|]. apply IH.
  destruct o; simpl; [by apply ascending_ins | done | by apply ascending_del].
Qed.

Lemma model_ascending os : ascending (model os).
Proof. by apply foldl_model_ascending. Qed.

Lemma elem_of_inserts ks : ∀ l y,
  y ∈ foldl model_op l (Insert <$> ks) ↔ y ∈ l ∨ y ∈ ks.
Proof.
  induction ks as [|k ks IH]; intros l y; simpl; [set_solver|].
  rewrite IH, elem_of_ins. set_solver.
Qed.

Lemma elem_of_deletes ds : ∀ l y,
  y ∈ foldl model_op l (Delete <$> ds) ↔ y ∈ l ∧ y ∉ ds.
Proof.
  induction ds as [|d ds IH]; intros l y; simpl; [set_solver|].
  rewrite IH, elem_of_del. set_solver.
Qed.

(** Inserting keys and then deleting all of them leaves no key. *)
Lemma model_round_trip ks ds :
  ks ⊆ ds → model ((Insert <$> ks) ++ (Delete <$> ds)) = [].
Proof.
  intros Hsub. rewrite model_app.
  destruct (foldl model_op (model (Insert <$> ks)) (Delete <$> ds)) as [|y l] eqn:E;
    [done|].
  assert (Hy : y ∈ foldl model_op (model (Insert <$> ks)) (Delete <$> ds))
    by (rewrite E; left).
  apply elem_of_deletes in Hy as [Hy Hn]. apply elem_of_inserts in Hy as [Hy|Hy].
  - by apply elem_of_nil in Hy.
  - destruct Hn. by apply Hsub.
Qed.

Lemma length_inserts ks : ∀ l,
  ascending l → NoDup ks → (∀ k, k ∈ ks → k ∉ l) →
  length (foldl model_op l (Insert <$> ks)) = (length l + length ks)%nat.
Proof.
  induction ks as [|k ks IH]; intros l Hl Hnd Hnew; simpl; [lia|].
  apply NoDup_cons in Hnd as [Hk Hnd].
  rewrite IH; [| by apply ascending_ins | done |].
  - rewrite length_ins; [lia|]. apply Hnew. left.
  - intros k' Hk' Hin. apply elem_of_ins in Hin as [->|Hin]; [done|].
    apply (Hnew k'); [by right | done].
Qed.

Lemma length_del_count k l :
  ascending l →
  Z.of_nat (length (del k l)) =
  Z.of_nat (length l) - (if bool_decide (k ∈ l) then 1 else 0).
Proof.
  intros Hasc. case_bool_decide as Hin.
  - pose proof (length_del k l (ascending_NoDup _ Hasc) Hin). lia.
  - rewrite del_notin by done. lia.
Qed.

Lemma length_ins_count k l :
  ascending l →
  Z.of_nat (length (ins k l)) =
  Z.of_nat (length l) + (if bool_decide (k ∈ l) then 0 else 1).
Proof.
  intros Hasc. case_bool_decide as Hin.
  - rewrite ins_elem by done. lia.
  - rewrite length_ins by done. lia.
Qed.

End KeysModel.

(** * Facts about the AVL engine *)
Module AVLFacts.
Import Keys KeysFacts AVL.



Lemma get_height_nonneg t : heights_ok t → 0 <= get_height t.
Proof.
  induction t as [|k l IHl r IHr h]; simpl; [lia|].
  intros (-> & Hl & Hr). specialize (IHl Hl). lia.
Qed.

Lemma get_height_node k l r h : heights_ok (Node k l r h) → 1 <= h.
Proof.
  intros (-> & Hl & Hr). pose proof (get_height_nonneg _ Hl). lia.
Qed.

Lemma get_height_pos_inv t : heights_ok t → 0 < get_height t → t ≠ Nil.
Proof. destruct t; simpl; [lia | done]. Qed.

Lemma heights_ok_real t : heights_ok t → get_height t = real_height t.
Proof.
  induction t as [|k l IHl r IHr h]; simpl; [done|].
  intros (-> & Hl & Hr). by rewrite IHl, IHr.
Qed.

Ltac zcases :=
  repeat match goal with
  | |- context [Z.ltb ?a ?b] => destruct (Z.ltb_spec a b)
  | |- context [Z.leb ?a ?b] => destruct (Z.leb_spec a b)
  | |- context [Z.eqb ?a ?b] => destruct (Z.eqb_spec a b)
  end.

Ltac hsplit :=
  repeat match goal with
  | H : _ ∧ _ |- _ => destruct H
  | H : heights_ok Nil |- _ => clear H
  | H : balanced Nil |- _ => clear H
  end.

Lemma insert_rebalance_inorder node key b t' b' :
  insert_rebalance node key b = Some (t', b') →
  inorder t' = inorder node ∧ b' = b.
Proof.
  unfold insert_rebalance, and_key.
  destruct node as [|k l r h]; simpl; [done|].
  destruct l as [|lk [|ak a1 a2 ah] [|bk b1 b2 bh] lh];
    destruct r as [|rk [|ck c1 c2 ch] [|dk d1 d2 dh] rh]; simpl;
    zcases; simpl; intros; simplify_eq; simpl;
    rewrite <- ?app_assoc; simpl; rewrite <- ?app_assoc; done.
Qed.

Lemma delete_rebalance_inorder node t' :
  delete_rebalance node = Some t' → inorder t' = inorder node.
Proof.
  unfold delete_rebalance.
  destruct node as [|k l r h]; simpl; [done|].
  destruct l as [|lk [|ak a1 a2 ah] [|bk b1 b2 bh] lh];
    destruct r as [|rk [|ck c1 c2 ch] [|dk d1 d2 dh] rh]; simpl;
    zcases; simpl; intros; simplify_eq; simpl;
    rewrite <- ?app_assoc; simpl; rewrite <- ?app_assoc; done.
Qed.

Lemma insert_rebalance_left k l r h key b hl0 :
  heights_ok l → balanced l → heights_ok r → balanced r →
  key < k → 0 <= hl0 → -1 <= hl0 - get_height r <= 1 →
  (get_height l = hl0 ∨ (get_height l = hl0 + 1 ∧ grown key l)) →
  ∃ t', insert_rebalance (Node k l r h) key b = Some (t', b) ∧
        heights_ok t' ∧ balanced t' ∧
        (get_height t' = 1 + Z.max hl0 (get_height r) ∨
         (get_height t' = 2 + Z.max hl0 (get_height r) ∧ grown key t')).
Proof.
  intros Hl Bl Hr Br Hk H0 Hb Hg.
  pose proof (get_height_nonneg _ Hr) as Hr0.
  unfold insert_rebalance, and_key.
  destruct l as [|lk a c lh]; simpl in *.
  { zcases; try lia. eexists; split; [reflexivity|]. simpl. intuition lia. }
  destruct Hl as (-> & Ha & Hc).
  pose proof (get_height_nonneg _ Ha). pose proof (get_height_nonneg _ Hc).
  destruct Bl as (Bl & Ba & Bc).
  zcases; simpl; zcases; simpl; try lia.
  all: try (eexists; split; [reflexivity|]; simpl; intuition lia).
  (* left-right: the left child's right subtree is a node *)
  destruct c as [|ck c1 c2 ch]; simpl in *; [exfalso; intuition lia|].
  destruct Hc as (-> & Hc1 & Hc2). destruct Bc as (Bc & Bc1 & Bc2).
  pose proof (get_height_nonneg _ Hc1). pose proof (get_height_nonneg _ Hc2).
  eexists; split; [reflexivity|]. simpl. intuition lia.
Qed.

Lemma insert_rebalance_right k l r h key b hr0 :
  heights_ok l → balanced l → heights_ok r → balanced r →
  k < key → 0 <= hr0 → -1 <= get_height l - hr0 <= 1 →
  (get_height r = hr0 ∨ (get_height r = hr0 + 1 ∧ grown key r)) →
  ∃ t', insert_rebalance (Node k l r h) key b = Some (t', b) ∧
        heights_ok t' ∧ balanced t' ∧
        (get_height t' = 1 + Z.max (get_height l) hr0 ∨
         (get_height t' = 2 + Z.max (get_height l) hr0 ∧ grown key t')).
Proof.
  intros Hl Bl Hr Br Hk H0 Hb Hg.
  pose proof (get_height_nonneg _ Hl) as Hl0.
  unfold insert_rebalance, and_key.
  destruct r as [|rk a c rh]; simpl in *.
  { zcases; try lia. eexists; split; [reflexivity|]. simpl. intuition lia. }
  destruct Hr as (-> & Ha & Hc).
  pose proof (get_height_nonneg _ Ha). pose proof (get_height_nonneg _ Hc).
  destruct Br as (Br & Ba & Bc).
  zcases; simpl; zcases; simpl; try lia.
  all: try (eexists; split; [reflexivity|]; simpl; intuition lia).
  (* right-left: the right child's left subtree is a node *)
  destruct a as [|ak a1 a2 ah]; simpl in *; [exfalso; intuition lia|].
  destruct Ha as (-> & Ha1 & Ha2). destruct Ba as (Ba & Ba1 & Ba2).
  pose proof (get_height_nonneg _ Ha1). pose proof (get_height_nonneg _ Ha2).
  eexists; split; [reflexivity|]. simpl. intuition lia.
Qed.

Lemma insert_helper_shape t key :
  heights_ok t → balanced t →
  ∃ t' b, _insert_helper t key = Some (t', b) ∧ heights_ok t' ∧ balanced t' ∧
          (get_height t' = get_height t ∨
           (get_height t' = get_height t + 1 ∧ grown key t')).
Proof.
  induction t as [|k l IHl r IHr h]; simpl.
  { intros _ _. eexists _, _. split; [reflexivity|]. simpl. intuition lia. }
  intros (-> & Hl & Hr) (Hb & Bl & Br).
  pose proof (get_height_nonneg _ Hl). pose proof (get_height_nonneg _ Hr).
  destruct (Z.ltb_spec key k); [|destruct (Z.ltb_spec k key)].
  - destruct (IHl Hl Bl) as (l' & b & -> & Hl' & Bl' & Hg). simpl.
    destruct (insert_rebalance_left k l' r (1 + Z.max (get_height l) (get_height r))
                key b (get_height l)) as (t' & -> & ? & ? & Hh); auto.
    exists t', b. repeat split; auto. intuition lia.
  - destruct (IHr Hr Br) as (r' & b & -> & Hr' & Br' & Hg). simpl.
    destruct (insert_rebalance_right k l r' (1 + Z.max (get_height l) (get_height r))
                key b (get_height r)) as (t' & -> & ? & ? & Hh); auto.
    exists t', b. repeat split; auto. intuition lia.
  - eexists _, _. split; [reflexivity|]. simpl. intuition lia.
Qed.

Lemma inorder_node_asc k l r h :
  ascending (inorder (Node k l r h)) →
  ascending (inorder l) ∧ ascending (inorder r) ∧
  (∀ y, y ∈ inorder l → y < k) ∧ (∀ y, y ∈ inorder r → k < y).
Proof. simpl. rewrite ascending_mid. tauto. Qed.

Lemma insert_helper_inorder t key t' b :
  ascending (inorder t) → _insert_helper t key = Some (t', b) →
  inorder t' = ins key (inorder t) ∧ (b = true ↔ key ∉ inorder t).
Proof.
  revert t' b. induction t as [|k l IHl r IHr h]; intros t' b Hasc; simpl.
  { intros [= <- <-]. simpl. set_solver. }
  destruct (inorder_node_asc _ _ _ _ Hasc) as (Al & Ar & Hlk & Hrk).
  destruct (Z.ltb_spec key k); [|destruct (Z.ltb_spec k key)].
  - destruct (_insert_helper l key) as [[l' b']|] eqn:E; simpl; [|done].
    intros Hreb. apply insert_rebalance_inorder in Hreb as [-> ->].
    destruct (IHl _ _ Al eq_refl) as (Hin & Hb).
    simpl. rewrite Hin, ins_app_lt by done. split; [done|].
    rewrite Hb. rewrite elem_of_app, elem_of_cons.
    split; [|tauto]. intros Hn [?|[?|Hr]]; [done|lia|].
    specialize (Hrk _ Hr). lia.
  - destruct (_insert_helper r key) as [[r' b']|] eqn:E; simpl; [|done].
    intros Hreb. apply insert_rebalance_inorder in Hreb as [-> ->].
    destruct (IHr _ _ Ar eq_refl) as (Hin & Hb).
    simpl. rewrite Hin, ins_app_gt by done. split; [done|].
    rewrite Hb. rewrite elem_of_app, elem_of_cons.
    split; [|tauto]. intros Hn [Hl|[?|?]]; [|lia|done].
    specialize (Hlk _ Hl). lia.
  - intros [= <- <-]. assert (key = k) as -> by lia. simpl.
    rewrite ins_app_eq by done. split; [done|].
    split; [done|]. intros Hn. exfalso. apply Hn. set_solver.
Qed.

Lemma get_min_node_inorder r temp :
  get_min_node r = Some temp →
  ∃ tk tl, key_of temp = Some tk ∧ inorder r = tk :: tl.
Proof.
  induction r as [|k l IHl r' _ h]; simpl; [done|].
  destruct l as [|lk ll lr lh].
  - intros [= <-]. simpl. eauto.
  - intros Hm. destruct (IHl Hm) as (tk & tl & Hk & Hin).
    exists tk. rewrite Hin. simpl. eauto.
Qed.

Lemma get_min_node_some r : r ≠ Nil → is_Some (get_min_node r).
Proof.
  induction r as [|k l IHl r' _ h]; [done|]. intros _. simpl.
  destruct l; [by eexists|]. by apply IHl.
Qed.

Lemma delete_rebalance_shape k l r h :
  heights_ok l → balanced l → heights_ok r → balanced r →
  -2 <= get_height l - get_height r <= 2 →
  ∃ t', delete_rebalance (Node k l r h) = Some t' ∧
        heights_ok t' ∧ balanced t' ∧
        (get_height t' = 1 + Z.max (get_height l) (get_height r) ∨
         ((get_height l - get_height r = 2 ∨ get_height r - get_height l = 2) ∧
          get_height t' = Z.max (get_height l) (get_height r))).
Proof.
  intros Hl Bl Hr Br Hb.
  pose proof (get_height_nonneg _ Hl). pose proof (get_height_nonneg _ Hr).
  unfold delete_rebalance. simpl.
  destruct (Z.ltb_spec 1 (get_height l - get_height r)); simpl.
  { destruct l as [|lk a c lh]; simpl in *; [lia|].
    destruct Hl as (-> & Ha & Hc). destruct Bl as (Bl & Ba & Bc).
    pose proof (get_height_nonneg _ Ha). pose proof (get_height_nonneg _ Hc).
    zcases; simpl; try lia.
    all: try (eexists; split; [reflexivity|]; simpl; intuition lia).
    destruct c as [|ck c1 c2 ch]; simpl in *; [lia|].
    destruct Hc as (-> & Hc1 & Hc2). destruct Bc as (Bc & Bc1 & Bc2).
    pose proof (get_height_nonneg _ Hc1). pose proof (get_height_nonneg _ Hc2).
    eexists; split; [reflexivity|]. simpl. intuition lia. }
  destruct (Z.ltb_spec (get_height l - get_height r) (-1)); simpl.
  { destruct r as [|rk a c rh]; simpl in *; [lia|].
    destruct Hr as (-> & Ha & Hc). destruct Br as (Br & Ba & Bc).
    pose proof (get_height_nonneg _ Ha). pose proof (get_height_nonneg _ Hc).
    zcases; simpl; try lia.
    all: try (eexists; split; [reflexivity|]; simpl; intuition lia).
    destruct a as [|ak a1 a2 ah]; simpl in *; [lia|].
    destruct Ha as (-> & Ha1 & Ha2). destruct Ba as (Ba & Ba1 & Ba2).
    pose proof (get_height_nonneg _ Ha1). pose proof (get_height_nonneg _ Ha2).
    eexists; split; [reflexivity|]. simpl. intuition lia. }
  eexists; split; [reflexivity|]. simpl. intuition lia.
Qed.

Lemma delete_helper_shape t key :
  heights_ok t → balanced t →
  ∃ t', _delete_helper t key = Some t' ∧ heights_ok t' ∧ balanced t' ∧
        (get_height t' = get_height t ∨ get_height t' = get_height t - 1).
Proof.
  revert key. induction t as [|k l IHl r IHr h]; intros key; simpl.
  { intros _ _. exists Nil. simpl. auto. }
  intros (-> & Hl & Hr) (Hb & Bl & Br).
  pose proof (get_height_nonneg _ Hl). pose proof (get_height_nonneg _ Hr).
  destruct (Z.ltb_spec key k); [|destruct (Z.ltb_spec k key)].
  - destruct (IHl key Hl Bl) as (l' & -> & Hl' & Bl' & Hg). simpl.
    destruct (delete_rebalance_shape k l' r
                (1 + Z.max (get_height l) (get_height r)))
      as (t' & -> & ? & ? & Hh); auto; [lia|].
    exists t'. repeat split; auto. lia.
  - destruct (IHr key Hr Br) as (r' & -> & Hr' & Br' & Hg). simpl.
    destruct (delete_rebalance_shape k l r'
                (1 + Z.max (get_height l) (get_height r)))
      as (t' & -> & ? & ? & Hh); auto; [lia|].
    exists t'. repeat split; auto. lia.
  - destruct l as [|lk ll lr lh]; [exists r; repeat split; auto; simpl; lia|].
    pose proof (get_height_node _ _ _ _ Hl).
    destruct r as [|rk rl rr rh].
    { eexists; split; [reflexivity|]. split; [done|]. split; [done|].
      simpl. lia. }
    destruct (get_min_node_some (Node rk rl rr rh)) as [temp Ht]; [done|].
    rewrite Ht. simpl.
    destruct (get_min_node_inorder _ _ Ht) as (tk & tl & -> & _). simpl.
    destruct (IHr tk Hr Br) as (r' & Hdel & Hr' & Br' & Hg).
    simpl in Hdel. rewrite Hdel. simpl.
    destruct (delete_rebalance_shape tk (Node lk ll lr lh) r'
                (1 + Z.max lh rh))
      as (t' & -> & ? & ? & Hh); auto; [simpl in *; lia|].
    exists t'. repeat split; auto. simpl in *. lia.
Qed.

Lemma delete_helper_inorder t key t' :
  ascending (inorder t) → _delete_helper t key = Some t' →
  inorder t' = del key (inorder t).
Proof.
  revert key t'. induction t as [|k l IHl r IHr h]; intros key t' Hasc; simpl.
  { by intros [= <-]. }
  destruct (inorder_node_asc _ _ _ _ Hasc) as (Al & Ar & Hlk & Hrk).
  assert (k ∉ inorder l) by (intros Hin; specialize (Hlk _ Hin); lia).
  assert (k ∉ inorder r) by (intros Hin; specialize (Hrk _ Hin); lia).
  destruct (Z.ltb_spec key k); [|destruct (Z.ltb_spec k key)].
  - destruct (_delete_helper l key) as [l'|] eqn:E; simpl; [|done].
    intros Hreb. apply delete_rebalance_inorder in Hreb as ->. simpl.
    rewrite (IHl _ _ Al E), del_app. simpl.
    destruct (Z.eqb_spec key k); [lia|]. rewrite (del_notin key (inorder r)); [done|].
    intros Hin. specialize (Hrk _ Hin). lia.
  - destruct (_delete_helper r key) as [r'|] eqn:E; simpl; [|done].
    intros Hreb. apply delete_rebalance_inorder in Hreb as ->. simpl.
    rewrite (IHr _ _ Ar E), del_app. simpl.
    destruct (Z.eqb_spec key k); [lia|]. rewrite (del_notin key (inorder l)); [done|].
    intros Hin. specialize (Hlk _ Hin). lia.
  - assert (key = k) as -> by lia. rewrite del_mid by done.
    destruct l as [|lk ll lr lh]; [by intros [= <-]|].
    destruct r as [|rk rl rr rh]; [intros [= <-]; by rewrite app_nil_r|].
    remember (Node rk rl rr rh) as R eqn:ER.
    destruct (get_min_node R) as [temp|] eqn:Ht; [|done].
    destruct (get_min_node_inorder _ _ Ht) as (tk & tl & Hk & Hin).
    simpl. rewrite Hk. simpl.
    destruct (_delete_helper R tk) as [r'|] eqn:E; simpl; [|done].
    intros Hreb. apply delete_rebalance_inorder in Hreb as ->.
    change (inorder (Node tk (Node lk ll lr lh) r' h))
      with (inorder (Node lk ll lr lh) ++ tk :: inorder r').
    rewrite (IHr _ _ Ar E), Hin. cbn [del]. rewrite Z.eqb_refl.
    rewrite Hin in Ar. destruct Ar as [Ht1 Ht2].
    rewrite del_notin; [done|]. rewrite Forall_forall in Ht1.
    intros Hx. specialize (Ht1 _ Hx). lia.
Qed.

Lemma search_helper_spec t key :
  ascending (inorder t) → _search_helper t key = true ↔ key ∈ inorder t.
Proof.
  induction t as [|k l IHl r IHr h]; intros Hasc; simpl.
  { split; [done | by intros ?%elem_of_nil]. }
  destruct (inorder_node_asc _ _ _ _ Hasc) as (Al & Ar & Hlk & Hrk).
  rewrite elem_of_app, elem_of_cons.
  destruct (Z.eqb_spec key k); [tauto|].
  destruct (Z.ltb_spec key k).
  - rewrite (IHl Al). split; [tauto|]. intros [?|[?|Hr]]; [done|done|].
    specialize (Hrk _ Hr). lia.
  - rewrite (IHr Ar). split; [tauto|]. intros [Hl|[?|?]]; [|done|done].
    specialize (Hlk _ Hl). lia.
Qed.

(** ** The invariant of the states reached from the empty tree *)


Lemma init_inv : avl_inv init.
Proof. by repeat split. Qed.

Lemma insert_total k t :
  avl_inv t → ∃ t', insert k t = Some t' ∧ avl_inv t' ∧
    inorder (root t') = ins k (inorder (root t)) ∧
    size t' = (if bool_decide (k ∈ inorder (root t)) then size t else size t + 1).
Proof.
  intros (Hh & Hb & Ha). unfold insert.
  destruct (insert_helper_shape (root t) k Hh Hb) as (r' & b & E & Hh' & Hb' & _).
  rewrite E. simpl. eexists; split; [reflexivity|].
  destruct (insert_helper_inorder _ _ _ _ Ha E) as (Hin & Hbb).
  repeat split; simpl; auto.
  - rewrite Hin. by apply ascending_ins.
  - case_bool_decide as Hk; destruct b; try done.
    + exfalso. by apply Hbb.
    + exfalso. destruct Hbb as [_ Hbb]. by specialize (Hbb Hk).
Qed.

Lemma delete_total k t :
  avl_inv t → ∃ t', delete k t = Some t' ∧ avl_inv t' ∧
    inorder (root t') = del k (inorder (root t)) ∧ size t' = size t - 1.
Proof.
  intros (Hh & Hb & Ha). unfold delete.
  destruct (delete_helper_shape (root t) k Hh Hb) as (r' & E & Hh' & Hb' & _).
  rewrite E. simpl. eexists; split; [reflexivity|].
  pose proof (delete_helper_inorder _ _ _ Ha E) as Hin.
  repeat split; simpl; auto. rewrite Hin. by apply ascending_del.
Qed.

Lemma run_op_inv o t : avl_inv t → ∃ t', run_op o t = Some t' ∧ avl_inv t'.
Proof.
  intros Hi. destruct o as [k|k|k]; simpl.
  - destruct (insert_total k t Hi) as (t' & ? & ? & _); eauto.
  - eauto.
  - destruct (delete_total k t Hi) as (t' & ? & ? & _); eauto.
Qed.

Lemma run_ops_inv os t t' : avl_inv t → run_ops os t = Some t' → avl_inv t'.
Proof.
  revert t. induction os as [|o os IH]; intros t Hi; simpl.
  - by intros [= <-].
  - destruct (run_op_inv o t Hi) as (t1 & -> & Hi1). simpl. by apply IH.
Qed.

Lemma run_ops_total os t : avl_inv t → is_Some (run_ops os t).
Proof.
  revert t. induction os as [|o os IH]; intros t Hi; simpl; [by eexists|].
  destruct (run_op_inv o t Hi) as (t1 & -> & Hi1). simpl. by apply IH.
Qed.

Lemma reachable_inv t : reachable t → avl_inv t.
Proof. intros [os Hos]. eapply run_ops_inv; [apply init_inv | done]. Qed.

Lemma reachable_step o t t' : reachable t → run_op o t = Some t' → reachable t'.
Proof.
  intros [os Hos] Hstep. exists (os ++ [o]).
  revert Hos. generalize init. induction os as [|o' os IH]; intros t0; simpl.
  - intros [= ->]. by rewrite Hstep.
  - destruct (run_op o' t0); simpl; [apply IH | done].
Qed.


Lemma balanced_really t : heights_ok t → balanced t → really_balanced t.
Proof.
  induction t as [|k l IHl r IHr h]; simpl; [done|].
  intros (-> & Hl & Hr) (Hb & Bl & Br).
  rewrite <- !heights_ok_real by done. auto.
Qed.

End AVLFacts.

(** * The AVL engine: sequences of operations *)
Module AVLModel.
Import Keys KeysFacts KeysModel AVL AVLFacts.

Lemma avl_run_ops_app os1 os2 t :
  run_ops (os1 ++ os2) t = t' ← run_ops os1 t; run_ops os2 t'.
Proof.
  revert t. induction os1 as [|o os1 IH]; intros t; simpl; [done|].
  destruct (run_op o t) as [t1|]; simpl; [apply IH | done].
Qed.

Lemma avl_run_op_model o t t' :
  avl_inv t → run_op o t = Some t' →
  inorder (root t') = model_op (inorder (root t)) o.
Proof.
  intros Hi. destruct o as [k|k|k]; simpl.
  - destruct (insert_total k t Hi) as (t1 & -> & _ & Hk & _). by intros [= <-].
  - by intros [= <-].
  - destruct (delete_total k t Hi) as (t1 & -> & _ & Hk & _). by intros [= <-].
Qed.

Lemma avl_run_ops_model os : ∀ t t',
  avl_inv t → run_ops os t = Some t' →
  inorder (root t') = foldl model_op (inorder (root t)) os.
Proof.
  induction os as [|o os IH]; intros t t' Hi; simpl.
  - by intros [= <-].
  - destruct (run_op_inv o t Hi) as (t1 & E & Hi1). rewrite E. simpl.
    intros Hrun. rewrite (IH _ _ Hi1 Hrun). f_equal. by apply avl_run_op_model.
Qed.

Lemma avl_reachable_model os t :
  run_ops os init = Some t → inorder (root t) = model os.
Proof. intros H. by apply (avl_run_ops_model os init t init_inv). Qed.

(** The size counter: one up for each new key, one down for each [delete]. *)
Lemma avl_inserts_size ks : ∀ t,
  avl_inv t → NoDup ks → (∀ k, k ∈ ks → k ∉ inorder (root t)) →
  ∃ t', run_ops (Insert <$> ks) t = Some t' ∧ avl_inv t' ∧
        size t' = size t + Z.of_nat (length ks).
Proof.
  induction ks as [|k ks IH]; intros t Hi Hnd Hnew; simpl.
  { exists t. split; [done|]. split; [done|lia]. }
  apply NoDup_cons in Hnd as [Hk Hnd].
  destruct (insert_total k t Hi) as (t1 & -> & Hi1 & Hk1 & Hs1). simpl.
  rewrite bool_decide_eq_false_2 in Hs1 by (apply Hnew; left).
  destruct (IH t1 Hi1 Hnd) as (t' & E & Hi' & Hs').
  { intros k' Hk'. rewrite Hk1, elem_of_ins. intros [->|Hin]; [done|].
    apply (Hnew k'); [by right | done]. }
  exists t'. split; [done|]. split; [done|]. lia.
Qed.

Lemma avl_deletes_size ds : ∀ t,
  avl_inv t →
  ∃ t', run_ops (Delete <$> ds) t = Some t' ∧ avl_inv t' ∧
        size t' = size t - Z.of_nat (length ds).
Proof.
  induction ds as [|d ds IH]; intros t Hi; simpl.
  { exists t. split; [done|]. split; [done|lia]. }
  destruct (delete_total d t Hi) as (t1 & -> & Hi1 & _ & Hs1). simpl.
  destruct (IH t1 Hi1) as (t' & E & Hi' & Hs').
  exists t'. split; [done|]. split; [done|]. lia.
Qed.

Lemma inorder_nil t : inorder t = [] → t = Nil.
Proof.
  destruct t as [|k l r h]; [done|]. simpl. intros E.
  by apply app_eq_nil in E as [_ ?].
Qed.

End AVLModel.

(** * Facts about the Splay engine *)
Module SplayFacts.
Import Py PyFacts Keys KeysFacts Splay.

(** ** Running the store accesses *)

Section access.
  Context {A : Type} (st : SplayTree) (a : positive) (n : SplayNode).
  Hypothesis Hn : heap st !! a = Some n.

Lemma wp_load Q : Q n st → wp (load (Some a)) st Q.
  Proof. intros. exists n, st. unfold load. by rewrite Hn. Qed.

Lemma wp_get_key Q : Q (key n) st → wp (get_key (Some a)) st Q.
  Proof. intros. apply wp_bind, wp_load. by apply wp_ret. Qed.
Lemma wp_get_left Q : Q (left n) st → wp (get_left (Some a)) st Q.
  Proof. intros. apply wp_bind, wp_load. by apply wp_ret. Qed.
Lemma wp_get_right Q : Q (right n) st → wp (get_right (Some a)) st Q.
  Proof. intros. apply wp_bind, wp_load. by apply wp_ret. Qed.
Lemma wp_get_parent Q : Q (parent n) st → wp (get_parent (Some a)) st Q.
  Proof. intros. apply wp_bind, wp_load. by apply wp_ret. Qed.

Lemma wp_set_left v Q :
    Q tt {| heap := <[a := mkNode (key n) v (right n) (parent n)]> (heap st);
            root := root st; size := size st |} →
    wp (set_left (Some a) v) st Q.
  Proof. intros. apply wp_bind, wp_load. by eexists _, _. Qed.
Lemma wp_set_right v Q :
    Q tt {| heap := <[a := mkNode (key n) (left n) v (parent n)]> (heap st);
            root := root st; size := size st |} →
    wp (set_right (Some a) v) st Q.
  Proof. intros. apply wp_bind, wp_load. by eexists _, _. Qed.
Lemma wp_set_parent v Q :
    Q tt {| heap := <[a := mkNode (key n) (left n) (right n) v]> (heap st);
            root := root st; size := size st |} →
    wp (set_parent (Some a) v) st Q.
  Proof. intros. apply wp_bind, wp_load. by eexists _, _. Qed.
End access.

Lemma wp_get_root st Q : Q (root st) st → wp get_root st Q.
Proof. intros. by eexists _, _. Qed.
Lemma wp_set_root v st Q :
  Q tt {| heap := heap st; root := v; size := size st |} → wp (set_root v) st Q.
Proof. intros. by eexists _, _. Qed.
Lemma wp_add_size d st Q :
  Q tt {| heap := heap st; root := root st; size := size st + d |} →
  wp (add_size d) st Q.
Proof. intros. by eexists _, _. Qed.
Lemma wp_new_node k st Q :
  (∀ a, heap st !! a = None →
        Q (Some a) {| heap := <[a := mkNode k None None None]> (heap st);
                      root := root st; size := size st |}) →
  wp (new_node k) st Q.
Proof.
  intros H. eexists _, _. split; [reflexivity|]. apply H.
  apply not_elem_of_dom, is_fresh.
Qed.

(** ** Trees with a hole *)









Lemma locs_plug ctx t : locs (plug ctx t) = ctx_before ctx ++ locs t ++ ctx_after ctx.
Proof.
  revert t. induction ctx as [|[a k r|l a k] ctx IH]; intros t; simpl.
  - by rewrite app_nil_r.
  - rewrite IH. simpl. by rewrite <- !app_assoc.
  - rewrite IH. simpl. by rewrite <- !app_assoc.
Qed.

Lemma keys_plug ctx t : keys (plug ctx t) = kctx_before ctx ++ keys t ++ kctx_after ctx.
Proof.
  revert t. induction ctx as [|[a k r|l a k] ctx IH]; intros t; simpl.
  - by rewrite app_nil_r.
  - rewrite IH. simpl. by rewrite <- !app_assoc.
  - rewrite IH. simpl. by rewrite <- !app_assoc.
Qed.

Lemma root_of_plug ctx t : root_of (plug ctx t) = ctx_root ctx (root_of t).
Proof.
  revert t. induction ctx as [|[a k r|l a k] ctx IH]; intros t; simpl;
    [done | by rewrite IH..].
Qed.

Lemma rep_plug h ctx t :
  rep h None (plug ctx t) ↔ rep h (ctx_parent ctx) t ∧ ctx_rep h ctx (root_of t).
Proof.
  revert t. induction ctx as [|[a k r|l a k] ctx IH]; intros t; simpl.
  - tauto.
  - rewrite IH. simpl. tauto.
  - rewrite IH. simpl. tauto.
Qed.

Lemma rep_frame h h' par t :
  rep h par t → (∀ a, a ∈ locs t → h' !! a = h !! a) → rep h' par t.
Proof.
  revert par. induction t as [|l IHl a k r IHr]; intros par; simpl; [done|].
  intros (Ha & Hl & Hr) Hf. split; [|split].
  - rewrite Hf; [done|]. set_solver.
  - apply IHl; [done|]. intros; apply Hf. set_solver.
  - apply IHr; [done|]. intros; apply Hf. set_solver.
Qed.


Lemma ctx_rep_frame h h' ctx hole :
  ctx_rep h ctx hole → (∀ a, a ∈ ctx_locs ctx → h' !! a = h !! a) →
  ctx_rep h' ctx hole.
Proof.
  unfold ctx_locs.
  revert hole. induction ctx as [|[a k r|l a k] ctx IH]; intros hole; simpl; [done|..].
  - intros (Ha & Hr & Hc) Hf. split; [|split].
    + rewrite Hf; [done|]. set_solver.
    + eapply rep_frame; [done|]. intros; apply Hf. set_solver.
    + apply IH; [done|]. intros; apply Hf. set_solver.
  - intros (Ha & Hr & Hc) Hf. split; [|split].
    + rewrite Hf; [done|]. set_solver.
    + eapply rep_frame; [done|]. intros; apply Hf. set_solver.
    + apply IH; [done|]. intros; apply Hf. set_solver.
Qed.

Lemma root_of_locs t a : root_of t = Some a → a ∈ locs t.
Proof. destruct t; simpl; [done|]. intros [= ->]. set_solver. Qed.

Lemma rep_lookup h par t a : rep h par t → a ∈ locs t → is_Some (h !! a).
Proof.
  revert par. induction t as [|l IHl b k r IHr]; intros par; simpl.
  - by intros _ ?%elem_of_nil.
  - intros (Hb & Hl & Hr). rewrite elem_of_app, elem_of_cons.
    intros [?|[->|?]]; eauto.
Qed.

(** The record of a node in focus. *)
Lemma focus_lookup st ctx l a k r :
  represents st (plug ctx (T l a k r)) →
  heap st !! a = Some (mkNode k (root_of l) (root_of r) (ctx_parent ctx)).
Proof. intros (_ & Hrep & _). apply rep_plug in Hrep as [Hrep _]. apply Hrep. Qed.

(** ** Symbolic execution *)

Lemma ref_eqb_refl x : ref_eqb x x = true.
Proof. by apply bool_decide_eq_true_2. Qed.

Lemma ref_eqb_root_ne a t : a ∉ locs t → ref_eqb (Some a) (root_of t) = false.
Proof.
  intros Ha. apply bool_decide_eq_false_2. intros Heq. symmetry in Heq.
  by apply root_of_locs in Heq.
Qed.

Lemma ref_eqb_ne (a b : positive) : a ≠ b → ref_eqb (Some a) (Some b) = false.
Proof. intros. apply bool_decide_eq_false_2. congruence. Qed.

Ltac neq :=
  match goal with
  | H : NoDup ?L |- ?a ≠ ?b => apply (NoDup_sub_ne L a b H); solve_submseteq
  end.

Ltac notin :=
  match goal with
  | H : NoDup ?L |- ?a ∉ ?l => apply (NoDup_sub_notin L a l H); solve_submseteq
  end.

Lemma ref_eqb_none (a : positive) : ref_eqb (Some a) None = false.
Proof. by apply bool_decide_eq_false_2. Qed.

Ltac ref_simpl :=
  repeat first
    [ rewrite ref_eqb_refl
    | rewrite ref_eqb_none
    | rewrite ref_eqb_root_ne by notin
    | rewrite ref_eqb_ne by neq ].

Ltac lk := repeat first [rewrite lookup_insert_eq | rewrite lookup_insert_ne by neq].

Ltac lookup_solve := cbn [heap]; lk; first [reflexivity | eassumption].

Ltac wbind := repeat lazymatch goal with |- wp (bind _ _) _ _ => apply wp_bind end.

Ltac wstep :=
  wbind;
  lazymatch goal with
  | |- wp (get_key _) _ _ => eapply wp_get_key; [lookup_solve|]
  | |- wp (get_left _) _ _ => eapply wp_get_left; [lookup_solve|]
  | |- wp (get_right _) _ _ => eapply wp_get_right; [lookup_solve|]
  | |- wp (get_parent _) _ _ => eapply wp_get_parent; [lookup_solve|]
  | |- wp (set_left _ _) _ _ => eapply wp_set_left; [lookup_solve|]
  | |- wp (set_right _ _) _ _ => eapply wp_set_right; [lookup_solve|]
  | |- wp (set_parent _ _) _ _ => eapply wp_set_parent; [lookup_solve|]
  | |- wp get_root _ _ => apply wp_get_root
  | |- wp (set_root _) _ _ => apply wp_set_root
  | |- wp (add_size _) _ _ => apply wp_add_size
  | |- wp (ret _) _ _ => apply wp_ret
  | |- wp (andM _ _) _ _ => apply wp_andM
  | |- wp (is_left_child _) _ _ => unfold is_left_child
  | |- wp (is_right_child _) _ _ => unfold is_right_child
  | |- wp (parent_is_left_child _) _ _ => unfold parent_is_left_child
  | |- wp (parent_is_right_child _) _ _ => unfold parent_is_right_child
  | |- wp (rotate_right_parent _) _ _ => unfold rotate_right_parent
  | |- wp (rotate_left_parent _) _ _ => unfold rotate_left_parent
  | |- wp (rotate_right_grandparent _) _ _ => unfold rotate_right_grandparent
  | |- wp (rotate_left_grandparent _) _ _ => unfold rotate_left_grandparent
  | |- wp (if _ then _ else _) _ _ =>
      first [ progress cbn [truthy negb ctx_parent frame_loc root_of]
            | progress ref_simpl ]
  | |- context [ref_eqb _ _] => progress ref_simpl
  end;
  cbn [key left right parent root heap size truthy negb].

Ltac wsteps := repeat wstep.

(** A frame goal: the part of the store under [locs t] was not written. *)
Ltac frame_side z Hz :=
  let Heq := fresh in
  intros Heq; subst z;
  first
    [ by apply elem_of_nil in Hz
    | match goal with
      | H : NoDup ?L |- _ =>
          match type of Hz with
          | ?a ∈ ?l => exact (NoDup_sub_notin L a l H ltac:(solve_submseteq) Hz)
          end
      end ].

Ltac frame_solve :=
  let z := fresh "z" in let Hz := fresh "Hz" in
  intros z Hz; cbn [heap];
  repeat (rewrite lookup_insert_ne; [|frame_side z Hz]);
  reflexivity.

(** A goal about the store outside the tree. *)
Ltac outside_solve :=
  let z := fresh "z" in let Hz := fresh "Hz" in
  intros z Hz; rewrite ?locs_plug in Hz; simpl in Hz; cbn [heap];
  repeat (rewrite lookup_insert_ne; [|intros <-; apply Hz; clear; set_solver]);
  reflexivity.

Ltac rep_solve :=
  repeat match goal with
  | |- _ ∧ _ => split
  | |- True => exact I
  | |- _ !! _ = Some _ => lookup_solve
  | |- rep _ _ (T _ _ _ _) => simpl
  | |- rep _ _ Leaf => exact I
  | |- rep _ _ _ => eapply rep_frame; [eassumption | frame_solve]
  | |- ctx_rep _ (_ :: _) _ => simpl
  | |- ctx_rep _ [] _ => exact I
  | |- ctx_rep _ _ _ =>
      eapply ctx_rep_frame; [eassumption | unfold ctx_locs; frame_solve]
  end.

Lemma rotate_right_spec st ctx a y ky b x kx c Q :
  represents st (plug ctx (T (T a y ky b) x kx c)) →
  (∀ st', represents st' (plug ctx (T a y ky (T b x kx c))) →
          size st' = size st →
          (∀ z, z ∉ locs (plug ctx (T (T a y ky b) x kx c)) →
                heap st' !! z = heap st !! z) →
          Q tt st') →
  wp (rotate_right (Some x)) st Q.
Proof.
  intros (Hroot & Hrep & HND) HQ.
  apply rep_plug in Hrep as [Hrep Hctx]. simpl in Hrep.
  destruct Hrep as (Hx & (Hy & Ha & Hb) & Hc).
  rewrite root_of_plug in Hroot. simpl in Hroot.
  assert (HL : NoDup (locs (plug ctx (T a y ky (T b x kx c))))).
  { rewrite locs_plug in HND |- *. simpl in *.
    eapply NoDup_sub; [exact HND | solve_submseteq]. }
  pose proof HND as HND'. rewrite locs_plug in HND'. simpl in HND'.
  unfold rotate_right. simpl in Hx, Hy.
  wsteps.
  destruct b as [|b1 rb kb b2]; simpl in Hb, HND';
    [|destruct Hb as (Hrb & Hb1 & Hb2)];
    cbn [root_of truthy]; wsteps; unfold replace_child; wsteps.
  all: destruct ctx as [|[p kp r|l p kp] ctx']; simpl in Hctx, HND', Hroot;
    [|destruct Hctx as (Hp & Hr & Hctx)..]; cbn [ctx_parent frame_loc truthy negb];
    wsteps.
  all: apply HQ; [split; [|split] | reflexivity | outside_solve].
  all: try done.
  all: try (rewrite root_of_plug; simpl; done).
  all: apply rep_plug; simpl; rep_solve.
Qed.

Lemma rotate_left_spec st ctx a x kx b y ky c Q :
  represents st (plug ctx (T a x kx (T b y ky c))) →
  (∀ st', represents st' (plug ctx (T (T a x kx b) y ky c)) →
          size st' = size st →
          (∀ z, z ∉ locs (plug ctx (T a x kx (T b y ky c))) →
                heap st' !! z = heap st !! z) →
          Q tt st') →
  wp (rotate_left (Some x)) st Q.
Proof.
  intros (Hroot & Hrep & HND) HQ.
  apply rep_plug in Hrep as [Hrep Hctx]. simpl in Hrep.
  destruct Hrep as (Hx & Ha & (Hy & Hb & Hc)).
  rewrite root_of_plug in Hroot. simpl in Hroot.
  assert (HL : NoDup (locs (plug ctx (T (T a x kx b) y ky c)))).
  { rewrite locs_plug in HND |- *. simpl in *.
    eapply NoDup_sub; [exact HND | solve_submseteq]. }
  pose proof HND as HND'. rewrite locs_plug in HND'. simpl in HND'.
  unfold rotate_left. simpl in Hx, Hy.
  wsteps.
  destruct b as [|b1 rb kb b2]; simpl in Hb, HND';
    [|destruct Hb as (Hrb & Hb1 & Hb2)];
    cbn [root_of truthy]; wsteps; unfold replace_child; wsteps.
  all: destruct ctx as [|[p kp r|l p kp] ctx']; simpl in Hctx, HND', Hroot;
    [|destruct Hctx as (Hp & Hr & Hctx)..]; cbn [ctx_parent frame_loc truthy negb];
    wsteps.
  all: apply HQ; [split; [|split] | reflexivity | outside_solve].
  all: try done.
  all: try (rewrite root_of_plug; simpl; done).
  all: apply rep_plug; simpl; rep_solve.
Qed.

(** ** Focusing on a node of the represented tree *)

Ltac find_frames x t :=
  match t with
  | plug ?ctx ?t' => let c := find_frames x t' in constr:(c ++ ctx)
  | T _ x _ _ => constr:(@nil frame)
  | T ?l ?a ?k ?r => let c := find_frames x l in constr:(c ++ [FL a k r])
  | T ?l ?a ?k ?r => let c := find_frames x r in constr:(c ++ [FR l a k])
  end.

(** [focus H x]: the record of [x] in the state described by [H]. *)
Ltac focus H x :=
  match type of H with
  | represents ?st ?t =>
      let c := find_frames x t in
      let c' := eval cbn [app] in c in
      let Hx := fresh "Hlk" in
      pose proof (focus_lookup st c' _ x _ _ H) as Hx;
      cbn [ctx_parent frame_loc root_of] in Hx
  end.

Ltac nodup_of H :=
  let HND := fresh "HND" in
  pose proof H as (_ & _ & HND); rewrite ?locs_plug in HND; simpl in HND.

Lemma outside_perm (t t' : tree) z :
  locs t' ≡ₚ locs t → z ∉ locs t → z ∉ locs t'.
Proof. by intros ->. Qed.

Ltac perm_solve := rewrite ?locs_plug; simpl; solve_Permutation.

Ltac rot lem c H H1 Hf1 :=
  eapply (lem _ c); [exact H|]; intros ? H1 ? Hf1.

Ltac outside_chain Hz :=
  revert Hz; apply outside_perm; perm_solve.

Lemma splay_spec fuel : ∀ ctx a x kx b st Q,
  represents st (plug ctx (T a x kx b)) → (length ctx < fuel)%nat →
  (∀ st', represents st' (splay_tree ctx (T a x kx b)) →
          size st' = size st →
          (∀ z, z ∉ locs (plug ctx (T a x kx b)) → heap st' !! z = heap st !! z) →
          Q tt st') →
  wp (splay fuel (Some x)) st Q.
Proof.
  induction fuel as [|fuel IH]; intros ctx a x kx b st Q H Hfuel HQ; [lia|].
  simpl splay. focus H x. nodup_of H.
  destruct ctx as [|f1 ctx]; cbn [ctx_parent] in *; wsteps.
  { by apply HQ. }
  unfold splay_step.
  destruct f1 as [p kp c|c p kp]; cbn [plug fill frame_loc] in *;
    focus H p; wsteps.
  - destruct ctx as [|f2 ctx]; cbn [ctx_parent] in *; wsteps.
    + (* zig, left child *)
      rot rotate_right_spec (@nil frame) H H1 Hf1.
      apply (IH [] _ _ _ _ _ _ H1); [simpl in *; lia|].
      intros st2 K2 Ks2 Hf2. apply HQ; [exact K2 | congruence |].
      intros z Hz. rewrite Hf2, Hf1; [done|done|]. outside_chain Hz.
    + destruct f2 as [g kg d|d g kg]; cbn [plug fill frame_loc] in *;
        focus H g; wsteps.
      * (* zig-zig, left-left *)
        rot rotate_right_spec ctx H H1 Hf1. focus H1 x. wsteps.
        rot rotate_right_spec ctx H1 H2 Hf2.
        apply (IH ctx _ _ _ _ _ _ H2); [simpl in *; lia|].
        intros st3 K3 Ks3 Hf3. apply HQ; [exact K3 | congruence |].
        intros z Hz. rewrite Hf3, Hf2, Hf1; [done|done|..]; outside_chain Hz.
      * (* zig-zag, left child of a right child *)
        rot rotate_right_spec (FR d g kg :: ctx) H H1 Hf1. focus H1 x. wsteps.
        rot rotate_left_spec ctx H1 H2 Hf2.
        apply (IH ctx _ _ _ _ _ _ H2); [simpl in *; lia|].
        intros st3 K3 Ks3 Hf3. apply HQ; [exact K3 | congruence |].
        intros z Hz. rewrite Hf3, Hf2, Hf1; [done|done|..]; outside_chain Hz.
  - destruct ctx as [|f2 ctx]; cbn [ctx_parent] in *; wsteps.
    + (* zig, right child *)
      rot rotate_left_spec (@nil frame) H H1 Hf1.
      apply (IH [] _ _ _ _ _ _ H1); [simpl in *; lia|].
      intros st2 K2 Ks2 Hf2. apply HQ; [exact K2 | congruence |].
      intros z Hz. rewrite Hf2, Hf1; [done|done|]. outside_chain Hz.
    + destruct f2 as [g kg d|d g kg]; cbn [plug fill frame_loc] in *;
        focus H g; wsteps.
      * (* zig-zag, right child of a left child *)
        rot rotate_left_spec (FL g kg d :: ctx) H H1 Hf1. focus H1 x. wsteps.
        rot rotate_right_spec ctx H1 H2 Hf2.
        apply (IH ctx _ _ _ _ _ _ H2); [simpl in *; lia|].
        intros st3 K3 Ks3 Hf3. apply HQ; [exact K3 | congruence |].
        intros z Hz. rewrite Hf3, Hf2, Hf1; [done|done|..]; outside_chain Hz.
      * (* zig-zig, right-right *)
        rot rotate_left_spec ctx H H1 Hf1. focus H1 x. wsteps.
        rot rotate_left_spec ctx H1 H2 Hf2.
        apply (IH ctx _ _ _ _ _ _ H2); [simpl in *; lia|].
        intros st3 K3 Ks3 Hf3. apply HQ; [exact K3 | congruence |].
        intros z Hz. rewrite Hf3, Hf2, Hf1; [done|done|..]; outside_chain Hz.
Qed.

Lemma splay_tree_leaf ctx : splay_tree ctx Leaf = plug ctx Leaf.
Proof. by destruct ctx. Qed.

Lemma search_loop_spec fuel : ∀ k ctx t st Q,
  represents st (plug ctx t) → (2 * height t + length ctx < fuel)%nat →
  (∀ st', represents st' (splay_tree (search_path k ctx t).1 (search_path k ctx t).2) →
          size st' = size st →
          (∀ z, z ∉ locs (plug ctx t) → heap st' !! z = heap st !! z) →
          Q (found_at k (search_path k ctx t).2) st') →
  wp (search_loop fuel k (root_of t)) st Q.
Proof.
  induction fuel as [|fuel IH]; intros k ctx t st Q H Hfuel HQ; [lia|].
  destruct t as [|l a ka r]; cbn [search_loop root_of truthy].
  { apply wp_ret. apply HQ; [|done..]. cbn. by rewrite splay_tree_leaf. }
  focus H a. wsteps. revert HQ. cbn [search_path].
  destruct (Z.eqb_spec k ka) as [->|Hne].
  { intros HQ. wbind. eapply splay_spec; [exact H | simpl in *; lia |].
    intros st' H' Hs' Hf'. apply wp_ret. cbn [fst snd found_at] in HQ.
    rewrite Z.eqb_refl in HQ. by apply HQ. }
  destruct (Z.ltb_spec k ka); intros HQ; wsteps.
  - destruct l as [|ll la lk lr]; cbn [root_of truthy negb].
    + wbind. eapply splay_spec; [exact H | simpl in *; lia |].
      intros st' H' Hs' Hf'. apply wp_ret. cbn [fst snd found_at] in HQ.
      destruct (Z.eqb_spec k ka); [done|]. by apply HQ.
    + wsteps.
      apply (IH k (FL a ka r :: ctx) (T ll la lk lr)); [exact H | simpl in *; lia |].
      exact HQ.
  - destruct r as [|rl ra rk rr]; cbn [root_of truthy negb].
    + wbind. eapply splay_spec; [exact H | simpl in *; lia |].
      intros st' H' Hs' Hf'. apply wp_ret. cbn [fst snd found_at] in HQ.
      destruct (Z.eqb_spec k ka); [done|]. by apply HQ.
    + wsteps.
      apply (IH k (FR l a ka :: ctx) (T rl ra rk rr)); [exact H | simpl in *; lia |].
      exact HQ.
Qed.

Lemma search_spec fuel k t st Q :
  represents st t → (2 * height t < fuel)%nat →
  (∀ st', represents st' (search_tree k t) → size st' = size st →
          (∀ z, z ∉ locs t → heap st' !! z = heap st !! z) →
          Q (found_at k (search_path k [] t).2) st') →
  wp (search fuel k) st Q.
Proof.
  intros H Hfuel HQ. unfold search. wstep.
  destruct H as (Hr & H'). rewrite Hr.
  apply (search_loop_spec fuel k [] t); [by split | simpl; lia |].
  unfold search_tree in HQ. destruct (search_path k [] t). exact HQ.
Qed.

End SplayFacts.

(** * The Splay engine: insert and delete on the store *)
Module SplayUpdate.
Import Py PyFacts Keys KeysFacts Splay SplayFacts.

Lemma represents_frame st st' t :
  represents st t → root st' = root st →
  (∀ a, a ∈ locs t → heap st' !! a = heap st !! a) →
  represents st' t.
Proof.
  intros (Hr & Hrep & HND) Hroot Hf. split; [congruence|]. split; [|done].
  by eapply rep_frame.
Qed.

Lemma represents_lookup st t a : represents st t → a ∈ locs t → is_Some (heap st !! a).
Proof. intros (_ & Hrep & _). by eapply rep_lookup. Qed.

Lemma insert_path_length k : ∀ t ctx c s,
  insert_path k ctx t = (c, s) →
  (length c + height s ≤ length ctx + height t)%nat.
Proof.
  induction t as [|l IHl a ka r IHr]; intros ctx c s; simpl.
  - intros [= <- <-]. simpl. lia.
  - destruct (k <? ka); [|destruct (ka <? k)].
    + intros E. apply IHl in E. simpl in E. lia.
    + intros E. apply IHr in E. simpl in E. lia.
    + intros [= <- <-]. simpl. lia.
Qed.


Lemma insert_path_dir k : ∀ t ctx c s,
  insert_path k ctx t = (c, s) → dir_ok k ctx → dir_ok k c.
Proof.
  induction t as [|l IHl a ka r IHr]; intros ctx c s; simpl.
  - by intros [= <- <-].
  - destruct (Z.ltb_spec k ka); [|destruct (Z.ltb_spec ka k)].
    + intros E _. by apply IHl in E.
    + intros E _. by apply IHr in E.
    + by intros [= <- <-].
Qed.

Lemma insert_path_nonempty k l a ka r c :
  insert_path k [] (T l a ka r) = (c, Leaf) → c ≠ [].
Proof.
  intros E Hc. subst c.
  assert (∀ t ctx c s, insert_path k ctx t = (c, s) → (length ctx ≤ length c)%nat
          ∧ (s = Leaf → t ≠ Leaf → (length ctx < length c)%nat)) as Hlen.
  { clear. induction t as [|l IHl a ka r IHr]; intros ctx c s; simpl.
    - intros [= <- <-]. split; [lia | done].
    - destruct (k <? ka); [|destruct (ka <? k)].
      + intros E. apply IHl in E as [E _]. simpl in E. split; lia.
      + intros E. apply IHr in E as [E _]. simpl in E. split; lia.
      + intros [= <- <-]. split; [lia | done]. }
  apply Hlen in E as [_ E]. specialize (E eq_refl). simpl in E.
  assert (T l a ka r ≠ Leaf) as Hne by done. specialize (E Hne). lia.
Qed.


Lemma insert_loop_spec fuel : ∀ k ctx t st Q,
  represents st (plug ctx t) → (height t < fuel)%nat →
  Q (insert_found k ctx t) st →
  wp (insert_loop fuel k (root_of t) (ctx_parent ctx)) st Q.
Proof.
  induction fuel as [|fuel IH]; intros k ctx t st Q H Hfuel HQ; [lia|].
  destruct t as [|l a ka r]; cbn [insert_loop root_of truthy].
  { by apply wp_ret. }
  focus H a. wsteps. revert HQ. unfold insert_found. cbn [insert_path].
  destruct (Z.ltb_spec k ka); [|destruct (Z.ltb_spec ka k)]; intros HQ; wsteps.
  - apply (IH k (FL a ka r :: ctx) l); [exact H | simpl in *; lia | exact HQ].
  - apply (IH k (FR l a ka :: ctx) r); [exact H | simpl in *; lia | exact HQ].
  - exact HQ.
Qed.

Lemma NoDup_plug_leaf c n k :
  NoDup (locs (plug c Leaf)) → n ∉ locs (plug c Leaf) →
  NoDup (locs (plug c (T Leaf n k Leaf))).
Proof.
  rewrite !locs_plug. simpl. intros HND Hn.
  rewrite <- Permutation_middle. by constructor.
Qed.

(** Lines 145-150 of [insert]: the new node is linked below [parent]. *)
Lemma attach_spec st f c n k Q :
  represents st (plug (f :: c) Leaf) → dir_ok k (f :: c) →
  heap st !! n = Some (mkNode k None None None) →
  n ∉ locs (plug (f :: c) Leaf) →
  (∀ st', represents st' (plug (f :: c) (T Leaf n k Leaf)) →
          size st' = size st →
          (∀ z, z ∉ locs (plug (f :: c) (T Leaf n k Leaf)) →
                heap st' !! z = heap st !! z) →
          Q tt st') →
  wp (attach k (Some n) (ctx_parent (f :: c))) st Q.
Proof.
  intros H Hdir Hn Hnotin HQ. unfold attach.
  pose proof (NoDup_plug_leaf _ n k (proj2 (proj2 H)) Hnotin) as HND.
  pose proof HND as HND'. rewrite locs_plug in HND'. simpl in HND'.
  destruct H as (Hroot & Hrep & _).
  apply rep_plug in Hrep as [_ Hctx].
  rewrite root_of_plug in Hroot.
  destruct f as [p kp r|l p kp]; simpl in Hctx, Hdir, HND', Hroot;
    destruct Hctx as (Hp & Hr & Hctx); cbn [ctx_parent frame_loc]; wsteps.
  - destruct (Z.ltb_spec k kp); [|lia]. wsteps.
    apply HQ; [split; [|split] | reflexivity | outside_solve]; try done.
    { rewrite root_of_plug. simpl. done. }
    apply rep_plug; simpl; rep_solve.
  - destruct (Z.ltb_spec k kp); [lia|]. wsteps.
    apply HQ; [split; [|split] | reflexivity | outside_solve]; try done.
    { rewrite root_of_plug. simpl. done. }
    apply rep_plug; simpl; rep_solve.
Qed.

Lemma insert_path_plug k : ∀ t ctx c s,
  insert_path k ctx t = (c, s) → plug c s = plug ctx t.
Proof.
  induction t as [|l IHl a ka r IHr]; intros ctx c s; simpl.
  - by intros [= <- <-].
  - destruct (k <? ka); [|destruct (ka <? k)].
    + intros E. by apply IHl in E.
    + intros E. by apply IHr in E.
    + by intros [= <- <-].
Qed.

Lemma represents_size st t s :
  represents st t → represents {| heap := heap st; root := root st; size := s |} t.
Proof. done. Qed.

Lemma insert_spec fuel k t st Q :
  represents st t → (height t < fuel)%nat →
  (∀ st' n, n ∉ locs t → represents st' (insert_tree k n t) →
            size st' = size st + (if inserts k t then 1 else 0) → Q tt st') →
  wp (insert fuel k) st Q.
Proof.
  intros H Hfuel HQ. unfold insert. wbind. apply wp_new_node. intros n Hn.
  assert (Hnotin : n ∉ locs t).
  { intros Hin. destruct (represents_lookup _ _ _ H Hin) as [? E]. congruence. }
  set (st1 := {| heap := <[n:=mkNode k None None None]> (heap st);
                 root := root st; size := size st |}).
  assert (H1 : represents st1 t).
  { eapply represents_frame; [exact H | done |]. intros a Ha. simpl.
    rewrite lookup_insert_ne; [done|]. by intros <-. }
  assert (Hn1 : heap st1 !! n = Some (mkNode k None None None)).
  { simpl. by rewrite lookup_insert_eq. }
  assert (Hs1 : size st1 = size st) by done.
  clearbody st1. clear Hn H.
  wstep. pose proof H1 as (Hroot & _). rewrite Hroot.
  unfold insert_tree, inserts in HQ.
  destruct t as [|l a ka r]; cbn [root_of truthy negb].
  { wsteps. apply (HQ _ n Hnotin); [|simpl; lia].
    split; [done|]. split; [|simpl; apply NoDup_singleton]. simpl.
    rewrite Hn1. done. }
  wsteps. rewrite Hroot. cbn [root_of]. wbind.
  apply (insert_loop_spec fuel k [] (T l a ka r)); [exact H1 | lia |].
  unfold insert_found.
  destruct (insert_path k [] (T l a ka r)) as [c s] eqn:E.
  pose proof (insert_path_plug _ _ _ _ _ E) as Hplug. cbn [plug] in Hplug.
  pose proof (insert_path_length _ _ _ _ _ E) as Hlen.
  pose proof (insert_path_dir _ _ _ _ _ E I) as Hdir.
  rewrite <- Hplug in H1, Hnotin.
  destruct s as [|sl sa sk sr]; cbn [snd] in HQ.
  - destruct c as [|f c]; [by apply insert_path_nonempty in E|].
    wbind. eapply attach_spec; [exact H1 | exact Hdir | exact Hn1 | exact Hnotin |].
    intros st2 H2 Hs2 _. wsteps.
    eapply splay_spec; [apply represents_size, H2 | simpl in *; lia |].
    intros st3 H3 Hs3 _. apply (HQ _ n); [by rewrite <- Hplug | done |].
    simpl in Hs3. lia.
  - eapply splay_spec; [exact H1 | simpl in *; lia |].
    intros st3 H3 Hs3 _. apply (HQ _ n); [by rewrite <- Hplug | done | lia].
Qed.

(** ** The shape [splay] produces *)

Lemma ctx_ind2 (P : list frame → Prop) :
  P [] → (∀ f, P [f]) → (∀ f1 f2 ctx, P ctx → P (f1 :: f2 :: ctx)) →
  ∀ ctx, P ctx.
Proof.
  intros H0 H1 H2 ctx.
  enough (P ctx ∧ ∀ f, P (f :: ctx)) by tauto.
  induction ctx as [|f ctx [IH1 IH2]]; [by auto|].
  split; [apply IH2|]. intros f'. by apply H2.
Qed.

Ltac list_norm := simpl; repeat (rewrite <- app_assoc; simpl).

Lemma locs_splay_tree ctx : ∀ t, locs (splay_tree ctx t) = locs (plug ctx t).
Proof.
  induction ctx as [|f|f1 f2 ctx IH] using ctx_ind2; intros [|a x kx b];
    try reflexivity.
  - destruct f; simpl; by list_norm.
  - destruct f1, f2; simpl; rewrite IH, !locs_plug; by list_norm.
Qed.

Lemma keys_splay_tree ctx : ∀ t, keys (splay_tree ctx t) = keys (plug ctx t).
Proof.
  induction ctx as [|f|f1 f2 ctx IH] using ctx_ind2; intros [|a x kx b];
    try reflexivity.
  - destruct f; simpl; by list_norm.
  - destruct f1, f2; simpl; rewrite IH, !keys_plug; by list_norm.
Qed.

Lemma splay_tree_root ctx : ∀ a x kx b,
  ∃ a' b', splay_tree ctx (T a x kx b) = T a' x kx b'.
Proof.
  induction ctx as [|f|f1 f2 ctx IH] using ctx_ind2; intros a x kx b.
  - by eexists _, _.
  - destruct f; by eexists _, _.
  - destruct f1, f2; simpl; apply IH.
Qed.

Lemma splay_tree_max ctx : ∀ a x kx,
  Forall is_FR ctx → ∃ a', splay_tree ctx (T a x kx Leaf) = T a' x kx Leaf.
Proof.
  induction ctx as [|f|f1 f2 ctx IH] using ctx_ind2; intros a x kx Hctx.
  - by eexists.
  - destruct f; [by apply Forall_cons in Hctx as [[] _]|]. by eexists.
  - apply Forall_cons in Hctx as [H1 Hctx]. apply Forall_cons in Hctx as [H2 Hctx].
    destruct f1; [done|]. destruct f2; [done|]. simpl. by apply IH.
Qed.

Lemma height_le_locs t : (height t ≤ length (locs t))%nat.
Proof.
  induction t as [|l IHl a k r IHr]; simpl; [lia|].
  rewrite length_app. simpl. lia.
Qed.

Lemma max_path_spec : ∀ t ctx c s,
  max_path ctx t = (c, s) → t ≠ Leaf →
  (∃ sa m km, s = T sa m km Leaf) ∧ plug c s = plug ctx t ∧
  (Forall is_FR ctx → Forall is_FR c) ∧
  (length c + height s ≤ length ctx + height t)%nat.
Proof.
  induction t as [|l _ a ka r IHr]; intros ctx c s; [done|]. simpl.
  destruct r as [|rl ra rk rr].
  - intros [= <- <-] _. split; [by eexists _, _, _|]. split; [done|].
    split; [done|simpl; lia].
  - intros E _. apply IHr in E as (Hs & Hp & HF & Hl); [|done].
    split; [done|]. split; [done|]. split.
    + intros H. apply HF. by constructor.
    + simpl in *. lia.
Qed.

Lemma subtree_maximum_spec fuel : ∀ ctx t st Q,
  represents st (plug ctx t) → t ≠ Leaf → (height t ≤ fuel)%nat →
  Q (root_of (max_path ctx t).2) st →
  wp (_subtree_maximum fuel (root_of t)) st Q.
Proof.
  induction fuel as [|fuel IH]; intros ctx t st Q H Ht Hfuel HQ.
  { destruct t; [done | simpl in Hfuel; lia]. }
  destruct t as [|l a ka r]; [done|]. cbn [_subtree_maximum root_of].
  focus H a. wsteps. revert HQ. cbn [max_path].
  destruct r as [|rl ra rk rr]; cbn [root_of truthy]; intros HQ; wsteps.
  - exact HQ.
  - apply (IH (FR l a ka :: ctx) (T rl ra rk rr)); [exact H | done | simpl in *; lia |].
    exact HQ.
Qed.

Lemma search_path_spec k : ∀ t ctx c s,
  search_path k ctx t = (c, s) →
  plug c s = plug ctx t ∧ (s = Leaf → t = Leaf) ∧
  (length c + height s ≤ length ctx + height t)%nat.
Proof.
  induction t as [|l IHl a ka r IHr]; intros ctx c s; simpl.
  - by intros [= <- <-].
  - destruct (k =? ka); [by intros [= <- <-]|].
    destruct (k <? ka).
    + destruct l as [|ll la lk lr]; [by intros [= <- <-]|].
      intros E. apply IHl in E as (Hp & Hs & Hl). split; [done|].
      split; [intros ->; by specialize (Hs eq_refl) | simpl in *; lia].
    + destruct r as [|rl ra rk rr]; [by intros [= <- <-]|].
      intros E. apply IHr in E as (Hp & Hs & Hl). split; [done|].
      split; [intros ->; by specialize (Hs eq_refl) | simpl in *; lia].
Qed.

Lemma search_tree_shape k t :
  t ≠ Leaf →
  ∃ l a ka r, search_tree k t = T l a ka r ∧ finds k t = (k =? ka).
Proof.
  intros Ht. unfold search_tree, finds.
  destruct (search_path k [] t) as [c s] eqn:E.
  apply search_path_spec in E as (_ & Hs & _).
  destruct s as [|sl sa sk sr]; [by specialize (Hs eq_refl)|].
  destruct (splay_tree_root c sl sa sk sr) as (a' & b' & ->).
  by eexists _, _, _, _.
Qed.

Lemma search_tree_leaf k : search_tree k Leaf = Leaf.
Proof. done. Qed.

Lemma locs_search_tree k t : locs (search_tree k t) = locs t.
Proof.
  unfold search_tree. destruct (search_path k [] t) as [c s] eqn:E.
  apply search_path_spec in E as (Hp & _). by rewrite locs_splay_tree, Hp.
Qed.

Lemma keys_search_tree k t : keys (search_tree k t) = keys t.
Proof.
  unfold search_tree. destruct (search_path k [] t) as [c s] eqn:E.
  apply search_path_spec in E as (Hp & _). by rewrite keys_splay_tree, Hp.
Qed.

Lemma rep_root_parent h par par' t :
  rep h par t → NoDup (locs t) →
  match t with
  | Leaf => True
  | T l a k r =>
      rep (<[a := mkNode k (root_of l) (root_of r) par']> h) par' t
  end.
Proof.
  destruct t as [|l a k r]; [done|]. simpl. intros (Ha & Hl & Hr) HND.
  rep_solve.
Qed.

Ltac wsteps_root Hroot := repeat (wstep; rewrite ?Hroot).

Lemma delete_spec fuel k t st Q :
  represents st t → (2 * length (locs t) < fuel)%nat →
  (∀ st', represents st' (delete_tree k t) →
          size st' = size st - (if finds k t then 1 else 0) → Q tt st') →
  wp (delete fuel k) st Q.
Proof.
  intros H Hfuel HQ. unfold delete. wbind.
  pose proof (height_le_locs t) as Hht.
  eapply search_spec; [exact H | lia |].
  intros st1 H1 Hs1 _. fold (finds k t).
  destruct t as [|t1 ta tk t2] eqn:Et.
  { cbn. apply wp_ret. apply HQ; [exact H1 | cbn; lia]. }
  rewrite <- Et in *.
  destruct (search_tree_shape k t) as (l & a & ka & r & Hst & Hfind);
    [by rewrite Et|].
  unfold delete_tree in HQ. rewrite Hfind, Hst in HQ. rewrite Hfind.
  pose proof (locs_search_tree k t) as Hlocs. rewrite Hst in Hlocs, H1.
  clear Hst Hfind H Et t1 ta tk t2.
  destruct (k =? ka); cbn [negb].
  2:{ apply wp_ret. apply HQ; [exact H1 | lia]. }
  nodup_of H1. destruct H1 as (Hroot1 & Hrep1 & HND1). simpl in Hrep1, Hroot1.
  destruct Hrep1 as (Ha & Hl & Hr).
  assert (Hlen : (length (locs l) + length (locs r) < length (locs t))%nat).
  { rewrite <- Hlocs. simpl. rewrite length_app. simpl. lia. }
  wstep. rewrite Hroot1. wsteps.
  destruct l as [|l1 lb lk l2]; cbn [root_of truthy negb].
  - (* no left subtree *)
    wstep. rewrite Hroot1. wsteps. unfold clear_root_parent. wsteps.
    destruct r as [|r1 rb rk r2]; cbn [root_of truthy negb]; wsteps.
    + apply HQ; [|simpl; lia]. split; [done|]. split; [done|constructor].
    + simpl in Hr. destruct Hr as (Hrb & Hr1 & Hr2). wsteps.
      apply HQ; [|simpl; lia]. simpl in HND.
      split; [done|]. split; [simpl; rep_solve|].
      simpl. eapply NoDup_sub; [exact HND | solve_submseteq].
  - simpl in Hl. destruct Hl as (Hlb & Hl1 & Hl2).
    wstep. rewrite Hroot1. wsteps.
    destruct r as [|r1 rb rk r2]; cbn [root_of truthy negb].
    + (* no right subtree *)
      wstep. rewrite Hroot1. wsteps. unfold clear_root_parent. wsteps.
      apply HQ; [|simpl; lia]. simpl in HND.
      split; [done|]. split; [simpl; rep_solve|].
      simpl. eapply NoDup_sub; [exact HND | solve_submseteq].
    + (* both subtrees: the join *)
      simpl in Hr. destruct Hr as (Hrb & Hr1 & Hr2). simpl in HND.
      wsteps_root Hroot1.
      match goal with |- wp _ ?s _ => set (st2 := s) end.
      assert (H2 : represents st2 (T l1 lb lk l2)).
      { split; [done|]. split; [simpl; rep_solve|].
        simpl. eapply NoDup_sub; [exact HND | solve_submseteq]. }
      assert (Hr2' : rep (heap st2) None (T r1 rb rk r2)).
      { simpl. rep_solve. }
      assert (Hs2 : size st2 = size st1) by done.
      clearbody st2. clear Ha Hlb Hrb Hl1 Hl2 Hr1 Hr2 Hroot1.
      set (L := T l1 lb lk l2) in *.
      destruct (max_path [] L) as [c s] eqn:E.
      destruct (max_path_spec _ _ _ _ E) as ((sa & m & km & ->) & Hp & HF & Hlc);
        [done|].
      specialize (HF (Forall_nil_2 _)). cbn [plug] in Hp.
      pose proof (height_le_locs L) as HhL.
      wbind. eapply (subtree_maximum_spec fuel [] L); [exact H2 | done | simpl in *; lia |].
      rewrite E. cbn [snd root_of].
      wbind. rewrite <- Hp in H2.
      eapply splay_spec; [exact H2 | simpl in *; lia |].
      intros st3 H3 Hs3 Hf3.
      destruct (splay_tree_max c sa m km HF) as (a' & Ea).
      pose proof (locs_splay_tree c (T sa m km Leaf)) as HL3.
      rewrite Ea, Hp in HL3. simpl in HL3.
      assert (Hr3 : rep (heap st3) None (T r1 rb rk r2)).
      { eapply rep_frame; [exact Hr2'|]. intros z Hz. apply Hf3.
        rewrite Hp. intros Hz'. simpl in Hz, Hz'.
        pose proof HND as HH. apply NoDup_app in HH as (_ & Hdisj & _).
        apply (Hdisj z Hz'). right. exact Hz. }
      rewrite Ea in H3. destruct H3 as (Hroot3 & Hrep3 & _).
      simpl in Hrep3, Hroot3. destruct Hrep3 as (Hm & Ha' & _).
      simpl in Hr3. destruct Hr3 as (Hrb & Hr1 & Hr2).
      assert (HND3 : NoDup (locs a' ++ m :: locs r1 ++ rb :: locs r2)).
      { eapply NoDup_sub; [exact HND|]. rewrite <- HL3. solve_submseteq. }
      wsteps_root Hroot3.
      apply HQ; [|simpl; lia].
      unfold join, L. fold L. rewrite E, Ea.
      split; [done|]. split; [simpl; rep_solve | exact HND3].
Qed.

End SplayUpdate.

(** * The Splay engine: keys, order and the reachable states *)
Module SplayModel.
Import Py PyFacts Keys KeysFacts Splay SplayFacts SplayUpdate.

Lemma keys_node_asc l a k r :
  ascending (keys (T l a k r)) →
  ascending (keys l) ∧ ascending (keys r) ∧
  (∀ y, y ∈ keys l → y < k) ∧ (∀ y, y ∈ keys r → k < y).
Proof. simpl. rewrite ascending_mid. tauto. Qed.

(** ** Search *)

Lemma search_path_found k : ∀ t ctx,
  ascending (keys t) →
  found_at k (search_path k ctx t).2 = true ↔ k ∈ keys t.
Proof.
  induction t as [|l IHl a ka r IHr]; intros ctx Hasc.
  { simpl. split; [done | by intros ?%elem_of_nil]. }
  destruct (keys_node_asc _ _ _ _ Hasc) as (Al & Ar & Hlk & Hrk).
  cbn [search_path keys]. rewrite elem_of_app, elem_of_cons.
  destruct (Z.eqb_spec k ka) as [->|Hne].
  { simpl. rewrite Z.eqb_refl. tauto. }
  destruct (Z.ltb_spec k ka).
  - assert (k ∉ keys r) by (intros Hin; specialize (Hrk _ Hin); lia).
    destruct l as [|ll la lk lr].
    + simpl. destruct (Z.eqb_spec k ka); [done|]. split; [done|].
      intros [?%elem_of_nil|[?|?]]; done.
    + rewrite (IHl _ Al). tauto.
  - assert (k ∉ keys l) by (intros Hin; specialize (Hlk _ Hin); lia).
    destruct r as [|rl ra rk rr].
    + simpl. destruct (Z.eqb_spec k ka); [done|]. split; [done|].
      intros [?|[?|?%elem_of_nil]]; done.
    + rewrite (IHr _ Ar). tauto.
Qed.

Lemma finds_spec k t : ascending (keys t) → finds k t = true ↔ k ∈ keys t.
Proof. apply search_path_found. Qed.

Lemma search_tree_root k t :
  root_of (search_tree k t) = last_visited k t.
Proof.
  unfold search_tree, last_visited.
  destruct (search_path k [] t) as [c s] eqn:E. simpl.
  destruct s as [|sl sa sk sr].
  - pose proof (search_path_spec _ _ _ _ _ E) as (_ & Hs & _).
    specialize (Hs eq_refl). subst t. simpl in E. by simplify_eq.
  - by destruct (splay_tree_root c sl sa sk sr) as (a' & b' & ->).
Qed.

Lemma search_tree_root_key k t :
  k ∈ keys t → ascending (keys t) →
  ∃ l a r, search_tree k t = T l a k r.
Proof.
  intros Hin Hasc. destruct t as [|t1 ta tk t2] eqn:Et.
  { by apply elem_of_nil in Hin. }
  rewrite <- Et in *.
  destruct (search_tree_shape k t) as (l & a & ka & r & Hst & Hf); [by rewrite Et|].
  apply finds_spec in Hin; [|done]. rewrite Hin in Hf.
  symmetry in Hf. apply Z.eqb_eq in Hf as <-. by eexists _, _, _.
Qed.

(** ** Insert *)


Lemma insert_path_bst_ins k n : ∀ t ctx,
  plug (insert_path k ctx t).1
       (match (insert_path k ctx t).2 with
        | Leaf => T Leaf n k Leaf
        | s => s
        end) = plug ctx (bst_ins k n t).
Proof.
  induction t as [|l IHl a ka r IHr]; intros ctx; simpl; [done|].
  destruct (k <? ka); [|destruct (ka <? k)]; simpl; [| |done].
  - by rewrite IHl.
  - by rewrite IHr.
Qed.

Lemma keys_bst_ins k n t :
  ascending (keys t) → keys (bst_ins k n t) = ins k (keys t).
Proof.
  induction t as [|l IHl a ka r IHr]; intros Hasc; simpl; [done|].
  destruct (keys_node_asc _ _ _ _ Hasc) as (Al & Ar & Hlk & Hrk).
  destruct (Z.ltb_spec k ka); [|destruct (Z.ltb_spec ka k)]; simpl.
  - by rewrite IHl, ins_app_lt.
  - by rewrite IHr, ins_app_gt.
  - assert (k = ka) as -> by lia. by rewrite ins_app_eq.
Qed.

Lemma insert_path_leaf k : ∀ t ctx,
  ascending (keys t) →
  (insert_path k ctx t).2 = Leaf ↔ k ∉ keys t.
Proof.
  induction t as [|l IHl a ka r IHr]; intros ctx Hasc.
  { simpl. split; [by intros _ ?%elem_of_nil | done]. }
  destruct (keys_node_asc _ _ _ _ Hasc) as (Al & Ar & Hlk & Hrk).
  cbn [insert_path keys]. rewrite not_elem_of_app, not_elem_of_cons.
  destruct (Z.ltb_spec k ka); [|destruct (Z.ltb_spec ka k)].
  - rewrite (IHl _ Al). split; [|tauto]. intros Hn. split; [done|].
    split; [lia|]. intros Hin. specialize (Hrk _ Hin). lia.
  - rewrite (IHr _ Ar). split; [|tauto]. intros Hn. split; [|split; [lia|done]].
    intros Hin. specialize (Hlk _ Hin). lia.
  - simpl. split; [done|]. intros (_ & Hne & _). lia.
Qed.

Lemma inserts_spec k t : ascending (keys t) → inserts k t = true ↔ k ∉ keys t.
Proof.
  intros Hasc. rewrite <- (insert_path_leaf k t [] Hasc). unfold inserts.
  by destruct (insert_path k [] t).2.
Qed.

Lemma keys_insert_tree k n t :
  ascending (keys t) → keys (insert_tree k n t) = ins k (keys t).
Proof.
  intros Hasc. rewrite <- (keys_bst_ins k n t Hasc).
  pose proof (insert_path_bst_ins k n t []) as Hp. cbn [plug] in Hp.
  rewrite <- Hp. unfold insert_tree.
  destruct (insert_path k [] t) as [c s]. cbn [fst snd].
  destruct s; by rewrite keys_splay_tree.
Qed.

(** ** Delete *)

Lemma keys_join l r : keys (join l r) = keys l ++ keys r.
Proof.
  destruct l as [|l1 lb lk l2]; [done|].
  destruct r as [|r1 rb rk r2]; [by rewrite app_nil_r|].
  unfold join.
  destruct (max_path [] (T l1 lb lk l2)) as [c s] eqn:E.
  destruct (max_path_spec _ _ _ _ E) as ((sa & m & km & ->) & Hp & HF & _); [done|].
  specialize (HF (Forall_nil_2 _)). cbn [plug] in Hp.
  destruct (splay_tree_max c sa m km HF) as (a' & Ea).
  rewrite Ea, <- Hp, <- keys_splay_tree, Ea. simpl. by rewrite <- app_assoc.
Qed.

Lemma keys_delete_tree k t :
  ascending (keys t) → keys (delete_tree k t) = del k (keys t).
Proof.
  intros Hasc. unfold delete_tree.
  destruct t as [|t1 ta tk t2] eqn:Et; [done|]. rewrite <- Et in *.
  destruct (search_tree_shape k t) as (l & a & ka & r & Hst & Hf); [by rewrite Et|].
  pose proof (keys_search_tree k t) as HK. rewrite Hst in HK |- *.
  assert (Hasc' : ascending (keys (T l a ka r))) by (by rewrite HK).
  rewrite <- HK.
  destruct (keys_node_asc _ _ _ _ Hasc') as (Al & Ar & Hlk & Hrk).
  destruct (Z.eqb_spec k ka) as [->|Hne].
  - rewrite keys_join. simpl. rewrite del_mid; [done|..].
    + intros Hin. specialize (Hlk _ Hin). lia.
    + intros Hin. specialize (Hrk _ Hin). lia.
  - rewrite del_notin; [done|]. rewrite HK. intros Hin.
    apply finds_spec in Hin; [|done].
    rewrite Hin in Hf. done.
Qed.

(** ** More fuel does not change a result *)

Lemma splay_mono fuel : ∀ fuel' x, (fuel ≤ fuel')%nat →
  mono (splay fuel x) (splay fuel' x).
Proof.
  induction fuel as [|fuel IH]; intros fuel' x Hle; [apply mono_fail|].
  destruct fuel' as [|fuel']; [lia|]. simpl.
  repeat mono_step. apply IH. lia.
Qed.

Lemma insert_loop_mono fuel : ∀ fuel' k c p, (fuel ≤ fuel')%nat →
  mono (insert_loop fuel k c p) (insert_loop fuel' k c p).
Proof.
  induction fuel as [|fuel IH]; intros fuel' k c p Hle; [apply mono_fail|].
  destruct fuel' as [|fuel']; [lia|]. simpl.
  repeat mono_step; apply IH; lia.
Qed.

Lemma search_loop_mono fuel : ∀ fuel' k c, (fuel ≤ fuel')%nat →
  mono (search_loop fuel k c) (search_loop fuel' k c).
Proof.
  induction fuel as [|fuel IH]; intros fuel' k c Hle; [apply mono_fail|].
  destruct fuel' as [|fuel']; [lia|]. cbn [search_loop].
  repeat mono_step; first [apply IH; lia | apply splay_mono; lia].
Qed.

Lemma subtree_maximum_mono fuel : ∀ fuel' x, (fuel ≤ fuel')%nat →
  mono (_subtree_maximum fuel x) (_subtree_maximum fuel' x).
Proof.
  induction fuel as [|fuel IH]; intros fuel' x Hle; [apply mono_fail|].
  destruct fuel' as [|fuel']; [lia|]. simpl.
  repeat mono_step. apply IH. lia.
Qed.

Lemma insert_mono fuel fuel' k : (fuel ≤ fuel')%nat →
  mono (insert fuel k) (insert fuel' k).
Proof.
  intros Hle. unfold insert.
  repeat mono_step; first [by apply insert_loop_mono | by apply splay_mono].
Qed.

Lemma search_mono fuel fuel' k : (fuel ≤ fuel')%nat →
  mono (search fuel k) (search fuel' k).
Proof. intros Hle. unfold search. repeat mono_step. by apply search_loop_mono. Qed.

Lemma delete_mono fuel fuel' k : (fuel ≤ fuel')%nat →
  mono (delete fuel k) (delete fuel' k).
Proof.
  intros Hle. unfold delete.
  repeat mono_step;
    first [by apply search_mono | by apply splay_mono | by apply subtree_maximum_mono].
Qed.

Lemma run_op_mono fuel fuel' o st st' : (fuel ≤ fuel')%nat →
  run_op fuel o st = Some st' → run_op fuel' o st = Some st'.
Proof.
  intros Hle. destruct o as [k|k|k]; simpl.
  - destruct (insert fuel k st) as [[u s]|] eqn:E; [|done].
    by rewrite (insert_mono _ _ _ Hle _ _ E).
  - destruct (search fuel k st) as [[u s]|] eqn:E; [|done].
    by rewrite (search_mono _ _ _ Hle _ _ E).
  - destruct (delete fuel k st) as [[u s]|] eqn:E; [|done].
    by rewrite (delete_mono _ _ _ Hle _ _ E).
Qed.

(** ** The invariant of the reachable states *)




Lemma length_locs_keys t : length (locs t) = length (keys t).
Proof.
  induction t as [|l IHl a k r IHr]; simpl; [done|].
  rewrite !length_app. simpl. lia.
Qed.

Lemma init_holds : holds init Leaf.
Proof. split; [|done]. split; [done|]. split; [done | constructor]. Qed.

Lemma run_op_holds fuel o st t :
  holds st t → enough fuel t →
  ∃ st' n, run_op fuel o st = Some st' ∧ holds st' (op_tree o n t) ∧
           keys (op_tree o n t) = model_op (keys t) o.
Proof.
  intros (H & Hasc & Hsize) Hfuel. unfold enough in Hfuel.
  pose proof (length_locs_keys t) as Hlen.
  pose proof (height_le_locs t) as Hht.
  destruct o as [k|k|k]; simpl.
  - destruct (insert_spec fuel k t st
               (λ _ st', ∃ n, holds st' (insert_tree k n t))) as (u & st' & E & n & Hh);
      [done | lia | |].
    + intros st' n Hn H' Hs'. exists n. split; [done|].
      rewrite keys_insert_tree by done. split; [by apply ascending_ins|].
      rewrite Hs', Hsize. destruct (inserts k t) eqn:Ei.
      * apply inserts_spec in Ei; [|done]. rewrite length_ins by done. lia.
      * rewrite ins_elem; [lia | done |].
        destruct (decide (k ∈ keys t)) as [|Hn']; [done|].
        apply inserts_spec in Hn'; [congruence | done].
    + rewrite E. exists st', n. split; [done|]. split; [done|].
      by apply keys_insert_tree.
  - destruct (search_spec fuel k t st
               (λ _ st', holds st' (search_tree k t))) as (u & st' & E & Hh);
      [done | lia | |].
    + intros st' H' Hs' _. split; [done|]. rewrite keys_search_tree.
      split; [done | congruence].
    + rewrite E. exists st', 1%positive. split; [done|]. split; [done|].
      apply keys_search_tree.
  - destruct (delete_spec fuel k t st
               (λ _ st', holds st' (delete_tree k t))) as (u & st' & E & Hh);
      [done | lia | |].
    + intros st' H' Hs'. split; [done|].
      rewrite keys_delete_tree by done. split; [by apply ascending_del|].
      rewrite Hs', Hsize. destruct (finds k t) eqn:Ef.
      * apply finds_spec in Ef; [|done].
        pose proof (length_del k (keys t) (ascending_NoDup _ Hasc) Ef). lia.
      * rewrite del_notin; [lia|]. intros Hin.
        apply finds_spec in Hin; [congruence | done].
    + rewrite E. exists st', 1%positive. split; [done|]. split; [done|].
      by apply keys_delete_tree.
Qed.

Lemma run_op_holds_any fuel o st st' t :
  holds st t → run_op fuel o st = Some st' →
  ∃ n, holds st' (op_tree o n t).
Proof.
  intros Hh E.
  set (F := Nat.max fuel (S (2 * length (keys t)))).
  destruct (run_op_holds F o st t Hh) as (st'' & n & E' & Hh' & _).
  { unfold enough, F. lia. }
  apply (run_op_mono fuel F) in E; [|unfold F; lia].
  exists n. congruence.
Qed.

Lemma run_ops_holds fuel : ∀ os st st' t,
  holds st t → run_ops fuel os st = Some st' →
  ∃ t', holds st' t' ∧ keys t' = foldl model_op (keys t) os.
Proof.
  induction os as [|o os IH]; intros st st' t Hh; simpl.
  - intros [= <-]. by exists t.
  - destruct (run_op fuel o st) as [st1|] eqn:E; simpl; [|done].
    intros Hrun. destruct (run_op_holds_any _ _ _ _ _ Hh E) as (n & Hh1).
    destruct (IH _ _ _ Hh1 Hrun) as (t' & Hh' & Hk). exists t'. split; [done|].
    rewrite Hk. f_equal.
    destruct Hh as (_ & Hasc & _).
    destruct o as [k|k|k]; simpl.
    + by apply keys_insert_tree.
    + apply keys_search_tree.
    + by apply keys_delete_tree.
Qed.

Lemma reachable_holds st : reachable st → ∃ t, holds st t.
Proof.
  intros (fuel & os & Hrun).
  destruct (run_ops_holds fuel os init st Leaf init_holds Hrun) as (t & Hh & _).
  by exists t.
Qed.

Lemma splay_reachable_step fuel o st st' :
  reachable st → run_op fuel o st = Some st' → reachable st'.
Proof.
  intros (fuel0 & os & Hrun) Hstep.
  exists (Nat.max fuel fuel0), (os ++ [o]).
  assert (∀ os st0 st1, run_ops fuel0 os st0 = Some st1 →
                        run_ops (Nat.max fuel fuel0) os st0 = Some st1) as Hm.
  { clear. induction os as [|o os IH]; intros st0 st1; simpl; [done|].
    destruct (run_op fuel0 o st0) as [st2|] eqn:E; simpl; [|done].
    rewrite (run_op_mono fuel0 (Nat.max fuel fuel0) _ _ _ ltac:(lia) E). simpl.
    apply IH. }
  apply Hm in Hrun. revert Hrun. generalize init.
  induction os as [|o' os IH]; intros st0; simpl.
  - intros [= ->]. rewrite (run_op_mono fuel (Nat.max fuel fuel0) _ _ _ ltac:(lia) Hstep).
    done.
  - destruct (run_op (Nat.max fuel fuel0) o' st0); simpl; [apply IH | done].
Qed.

End SplayModel.

(** * The Splay engine: what can be observed of a state *)
Module SplayObs.
Import Py PyFacts Keys KeysFacts Splay SplayFacts SplayUpdate SplayModel.

(** ** Reading the store gives the tree it holds *)

Lemma read_rep h : ∀ t par fuel,
  rep h par t → (height t < fuel)%nat → read fuel h (root_of t) = Some t.
Proof.
  induction t as [|l IHl a k r IHr]; intros par fuel Hrep Hfuel;
    (destruct fuel as [|fuel]; [lia|]); simpl; [done|].
  destruct Hrep as (Ha & Hl & Hr). rewrite Ha. simpl in *.
  rewrite (IHl _ _ Hl), (IHr _ _ Hr) by lia. done.
Qed.

Lemma read_mono h : ∀ fuel fuel' x t,
  read fuel h x = Some t → (fuel ≤ fuel')%nat → read fuel' h x = Some t.
Proof.
  induction fuel as [|fuel IH]; intros fuel' x t; [done|].
  destruct fuel' as [|fuel']; [lia|]. simpl.
  destruct x as [a|]; [|done]. destruct (h !! a) as [n|]; [|done]. simpl.
  destruct (read fuel h (left n)) as [l|] eqn:El; [|done]. simpl.
  destruct (read fuel h (right n)) as [r|] eqn:Er; [|done]. simpl.
  intros E Hle. rewrite (IH fuel' _ _ El), (IH fuel' _ _ Er) by lia. done.
Qed.

Lemma traverse_read h : ∀ fuel x, traverse fuel h x = keys <$> read fuel h x.
Proof.
  induction fuel as [|fuel IH]; intros x; [done|]. simpl.
  destruct x as [a|]; [|done]. destruct (h !! a) as [n|]; [|done]. simpl.
  rewrite !IH. destruct (read fuel h (left n)); [|done]. simpl.
  by destruct (read fuel h (right n)).
Qed.

Lemma tree_of_represents st t fuel :
  represents st t → (height t < fuel)%nat → tree_of fuel st = Some t.
Proof.
  intros (Hroot & Hrep & _) Hfuel. unfold tree_of. rewrite Hroot.
  by eapply read_rep.
Qed.

Lemma tree_of_unique st t fuel t' :
  represents st t → tree_of fuel st = Some t' → t' = t.
Proof.
  intros H E.
  pose proof (tree_of_represents st t (Nat.max fuel (S (height t))) H ltac:(lia)) as E'.
  apply (read_mono _ _ (Nat.max fuel (S (height t)))) in E; [|lia].
  unfold tree_of in E'. congruence.
Qed.

Lemma traverse_represents st t fuel :
  represents st t → (height t < fuel)%nat →
  traverse fuel (heap st) (root st) = Some (keys t).
Proof.
  intros H Hfuel. rewrite traverse_read.
  pose proof (tree_of_represents _ _ _ H Hfuel) as E. unfold tree_of in E.
  by rewrite E.
Qed.

(** The search path on the store ends where the one on the tree does. *)
Lemma descend_rep h k : ∀ t par ctx fuel last,
  rep h par t → (height t < fuel)%nat →
  descend fuel h k (root_of t) last =
  Some (match t with Leaf => last | _ => root_of (search_path k ctx t).2 end).
Proof.
  induction t as [|l IHl a ka r IHr]; intros par ctx fuel last Hrep Hfuel;
    (destruct fuel as [|fuel]; [lia|]); simpl; [done|].
  destruct Hrep as (Ha & Hl & Hr). rewrite Ha. simpl in *.
  destruct (k =? ka); [done|]. destruct (k <? ka).
  - rewrite (IHl _ (FL a ka r :: ctx) _ _ Hl) by lia. by destruct l.
  - rewrite (IHr _ (FR l a ka :: ctx) _ _ Hr) by lia. by destruct r.
Qed.

(** ** Parent links *)

Lemma splay_plug_app c1 c2 t : plug (c1 ++ c2) t = plug c2 (plug c1 t).
Proof. revert t. induction c1 as [|f c1 IH]; intros t; simpl; [done | apply IH]. Qed.

(** A reachable reference is the root of a subtree of the tree. *)
Lemma reach_focus st t x :
  represents st t → reach st x → ∃ ctx s, t = plug ctx s ∧ x = root_of s.
Proof.
  intros H. induction 1 as [|a n _ IH Hn|a n _ IH Hn].
  - exists [], t. split; [done | apply H].
  - destruct IH as (ctx & s & -> & Hs).
    destruct s as [|l b k r]; [done|]. simpl in Hs. simplify_eq.
    rewrite (focus_lookup _ _ _ _ _ _ H) in Hn. simplify_eq. simpl.
    by exists (FL b k r :: ctx), l.
  - destruct IH as (ctx & s & -> & Hs).
    destruct s as [|l b k r]; [done|]. simpl in Hs. simplify_eq.
    rewrite (focus_lookup _ _ _ _ _ _ H) in Hn. simplify_eq. simpl.
    by exists (FR l b k :: ctx), r.
Qed.

Lemma represents_parents st t : represents st t → parents_consistent st.
Proof.
  intros H. split.
  - intros a n Hroot Hn. destruct H as (Hr & Hrep & _).
    rewrite Hr in Hroot. destruct t as [|l b k r]; [done|].
    simpl in Hroot, Hrep. simplify_eq. destruct Hrep as (Hb & _).
    rewrite Hb in Hn. by simplify_eq.
  - intros a n c m Hreach Hn Hc Hm.
    destruct (reach_focus _ _ _ H Hreach) as (ctx & s & -> & Hs).
    destruct s as [|l b k r]; [done|]. simpl in Hs. simplify_eq.
    rewrite (focus_lookup _ _ _ _ _ _ H) in Hn. simplify_eq. simpl in Hc.
    destruct H as (_ & Hrep & _). apply rep_plug in Hrep as [Hrep _].
    simpl in Hrep. destruct Hrep as (_ & Hl & Hr).
    destruct Hc as [Hc|Hc].
    + destruct l as [|ll lb lk lr]; [done|]. simpl in Hc, Hl. simplify_eq.
      destruct Hl as (Hl & _). rewrite Hl in Hm. by simplify_eq.
    + destruct r as [|rl rb rk rr]; [done|]. simpl in Hc, Hr. simplify_eq.
      destruct Hr as (Hr & _). rewrite Hr in Hm. by simplify_eq.
Qed.

End SplayObs.

(** * The Splay engine: sequences of operations *)
Module SplayRun.
Import Py PyFacts Keys KeysFacts KeysModel Splay SplayFacts SplayUpdate SplayModel SplayObs.

Lemma splay_run_ops_mono fuel fuel' : (fuel ≤ fuel')%nat → ∀ os st st',
  run_ops fuel os st = Some st' → run_ops fuel' os st = Some st'.
Proof.
  intros Hle. induction os as [|o os IH]; intros st st'; simpl; [done|].
  destruct (run_op fuel o st) as [st1|] eqn:E; simpl; [|done].
  rewrite (run_op_mono fuel fuel' _ _ _ Hle E). simpl. apply IH.
Qed.

Lemma splay_run_ops_app fuel os1 os2 st :
  run_ops fuel (os1 ++ os2) st = st' ← run_ops fuel os1 st; run_ops fuel os2 st'.
Proof.
  revert st. induction os1 as [|o os1 IH]; intros st; simpl; [done|].
  destruct (run_op fuel o st) as [st1|]; simpl; [apply IH | done].
Qed.

(** Every sequence of operations runs to the end, given enough fuel. *)
Lemma splay_run_ops_total os :
  ∃ fuel st t, run_ops fuel os init = Some st ∧ holds st t ∧ keys t = model os.
Proof.
  induction os as [|o os IH] using rev_ind.
  { exists O, init, Leaf. split; [done|]. split; [apply init_holds | done]. }
  destruct IH as (fuel & st & t & Hrun & Hh & Hk).
  pose (F := S (2 * length (keys t))).
  destruct (run_op_holds F o st t Hh) as (st' & n & E & Hh' & Hk');
    [unfold enough, F; lia|].
  assert (HF : (F ≤ Nat.max fuel F)%nat) by lia.
  assert (Hf : (fuel ≤ Nat.max fuel F)%nat) by lia.
  clearbody F.
  exists (Nat.max fuel F), st', (op_tree o n t).
  split; [|split; [done|]].
  - rewrite splay_run_ops_app.
    rewrite (splay_run_ops_mono _ _ Hf _ _ _ Hrun). simpl.
    by rewrite (run_op_mono _ _ _ _ _ HF E).
  - unfold model. rewrite foldl_app. simpl. fold (model os). by rewrite Hk', Hk.
Qed.

Lemma splay_height_keys t : (height t ≤ length (keys t))%nat.
Proof. rewrite <- length_locs_keys. apply height_le_locs. Qed.

(** The in-order traversal of a state that holds [t]. *)
Lemma holds_traverse st t fuel :
  holds st t → enough fuel t → traverse fuel (heap st) (root st) = Some (keys t).
Proof.
  intros (H & _) Hf. apply traverse_represents; [done|].
  pose proof (splay_height_keys t). unfold enough in Hf. lia.
Qed.

Lemma holds_tree_of st t fuel :
  holds st t → enough fuel t → tree_of fuel st = Some t.
Proof.
  intros (H & _) Hf. apply tree_of_represents; [done|].
  pose proof (splay_height_keys t). unfold enough in Hf. lia.
Qed.

(** [search] on a state that holds [t]. *)
Lemma splay_search_holds fuel k st t :
  holds st t → enough fuel t →
  ∃ st', search fuel k st = Some (bool_decide (k ∈ keys t), st') ∧
         holds st' (search_tree k t).
Proof.
  intros (H & Hasc & Hsize) Hfuel. unfold enough in Hfuel.
  pose proof (splay_height_keys t) as Hht.
  destruct (search_spec fuel k t st
              (λ b st', b = bool_decide (k ∈ keys t) ∧ holds st' (search_tree k t)))
    as (b & st' & E & -> & Hh); [done | lia | | by exists st'].
  intros st' H' Hs' _. split.
  - fold (finds k t). destruct (finds k t) eqn:Ef.
    + apply finds_spec in Ef; [|done]. by rewrite bool_decide_eq_true_2.
    + rewrite bool_decide_eq_false_2; [done|]. intros Hin.
      apply finds_spec in Hin; [congruence|done].
  - split; [done|]. rewrite keys_search_tree. split; [done | congruence].
Qed.

Lemma splay_delete_holds fuel k st t :
  holds st t → enough fuel t →
  ∃ st', delete fuel k st = Some (tt, st') ∧ holds st' (delete_tree k t) ∧
         size st' = size st - (if bool_decide (k ∈ keys t) then 1 else 0).
Proof.
  intros (H & Hasc & Hsize) Hfuel. unfold enough in Hfuel.
  pose proof (length_locs_keys t) as Hlen.
  destruct (delete_spec fuel k t st
              (λ _ st', holds st' (delete_tree k t) ∧
                 size st' = size st - (if bool_decide (k ∈ keys t) then 1 else 0)))
    as ([] & st' & E & Hh & Hs); [done | lia | | by exists st'].
  intros st' H' Hs'.
  assert (Hd : (if finds k t then 1 else 0) =
               (if bool_decide (k ∈ keys t) then 1 else 0)).
  { destruct (finds k t) eqn:Ef.
    - apply finds_spec in Ef; [|done]. by rewrite bool_decide_eq_true_2.
    - rewrite bool_decide_eq_false_2; [done|]. intros Hin.
      apply finds_spec in Hin; [congruence|done]. }
  rewrite Hd in Hs'. split; [|done]. split; [done|].
  rewrite keys_delete_tree by done. split; [by apply ascending_del|].
  rewrite Hs', Hsize. case_bool_decide as Hin.
  - pose proof (length_del k (keys t) (ascending_NoDup _ Hasc) Hin). lia.
  - rewrite del_notin by done. lia.
Qed.

(** ** The root after [search] *)

Lemma search_root fuel k st t :
  holds st t → enough fuel t →
  ∃ st', search fuel k st = Some (bool_decide (k ∈ keys t), st') ∧
         holds st' (search_tree k t) ∧
         (k ∈ keys t → ∃ a n, root st' = Some a ∧ heap st' !! a = Some n ∧ key n = k) ∧
         (t ≠ Leaf → descend fuel (heap st) k (root st) None = Some (root st') ∧
                     root st' ≠ None).
Proof.
  intros Hh Hfuel.
  destruct (splay_search_holds fuel k st t Hh Hfuel) as (st' & E & Hh').
  exists st'. split; [done|]. split; [done|].
  destruct Hh as (H & Hasc & _). destruct Hh' as ((Hr' & Hrep' & _) & _).
  split.
  - intros Hin.
    destruct (search_tree_root_key k t Hin Hasc) as (l & a & r & Es).
    rewrite Es in Hr', Hrep'. simpl in Hrep'. destruct Hrep' as (Ha & _).
    by eexists _, _.
  - intros Ht. rewrite Hr', search_tree_root. unfold last_visited.
    destruct H as (Hr & Hrep & _). rewrite Hr.
    pose proof (splay_height_keys t). unfold enough in Hfuel.
    rewrite (descend_rep _ k t None [] fuel None Hrep) by lia.
    destruct t as [|tl ta tk tr]; [done|]. split; [done|].
    destruct (search_path k [] (T tl ta tk tr)) as [c s] eqn:Ep.
    apply search_path_spec in Ep as (_ & Hs & _). simpl.
    destruct s; [by specialize (Hs eq_refl)|done].
Qed.

(** ** The join of [delete] *)

Lemma delete_tree_join k t l z r :
  ascending (keys t) →
  search_tree k t = T l z k r → l ≠ Leaf → r ≠ Leaf →
  ∃ l' m km, delete_tree k t = T l' m km r ∧ m ∈ locs l ∧
             keys l' ++ [km] = keys l ∧ (∀ y, y ∈ keys l → y ≤ km) ∧ km < k.
Proof.
  intros Hasc Es Hl Hr. unfold delete_tree. rewrite Es, Z.eqb_refl.
  assert (Hasc' : ascending (keys (T l z k r))) by (by rewrite <- Es, keys_search_tree).
  destruct (keys_node_asc _ _ _ _ Hasc') as (Al & _ & Hlk & _).
  destruct l as [|l1 lb lk l2]; [done|]. destruct r as [|r1 rb rk r2]; [done|].
  unfold join.
  destruct (max_path [] (T l1 lb lk l2)) as [c s] eqn:E.
  destruct (max_path_spec _ _ _ _ E) as ((sa & m & km & ->) & Hp & HF & _); [done|].
  specialize (HF (Forall_nil_2 _)). cbn [plug] in Hp.
  destruct (splay_tree_max c sa m km HF) as (a' & Ea). rewrite Ea.
  assert (Hk : keys a' ++ [km] = keys (T l1 lb lk l2)).
  { rewrite <- Hp, <- keys_splay_tree, Ea. simpl. done. }
  exists a', m, km. split; [done|]. split; [|split; [done|]].
  - rewrite <- Hp, <- locs_splay_tree, Ea. simpl. set_solver.
  - rewrite <- Hk in Al |- *. apply ascending_mid in Al as (_ & _ & Hlt & _).
    split.
    + intros y [Hy|Hy]%elem_of_app; [specialize (Hlt _ Hy); lia|].
      assert (y = km) by set_solver. lia.
    + apply Hlk. rewrite <- Hk. set_solver.
Qed.

End SplayRun.

(** * Facts about the Red-Black engine: the store *)
Module RBFacts.
Import Py PyFacts Keys KeysFacts RB.

(** ** Running the store accesses *)

Section access.
  Context {A : Type} (st : RedBlackTree) (a : positive) (n : RBNode).
  Hypothesis Hn : heap st !! a = Some n.

Lemma rb_wp_load Q : Q n st → wp (load (Some a)) st Q.
  Proof. intros. exists n, st. unfold load. by rewrite Hn. Qed.

Lemma rb_wp_get_key Q : Q (key n) st → wp (get_key (Some a)) st Q.
  Proof. intros. apply wp_bind, rb_wp_load. by apply wp_ret. Qed.
Lemma wp_get_color Q : Q (color n) st → wp (get_color (Some a)) st Q.
  Proof. intros. apply wp_bind, rb_wp_load. by apply wp_ret. Qed.
Lemma rb_wp_get_left Q : Q (left n) st → wp (get_left (Some a)) st Q.
  Proof. intros. apply wp_bind, rb_wp_load. by apply wp_ret. Qed.
Lemma rb_wp_get_right Q : Q (right n) st → wp (get_right (Some a)) st Q.
  Proof. intros. apply wp_bind, rb_wp_load. by apply wp_ret. Qed.
Lemma rb_wp_get_parent Q : Q (parent n) st → wp (get_parent (Some a)) st Q.
  Proof. intros. apply wp_bind, rb_wp_load. by apply wp_ret. Qed.

Lemma wp_set_color v Q :
    Q tt {| heap := <[a := mkNode (key n) v (left n) (right n) (parent n)]> (heap st);
            NIL := NIL st; root := root st; size := size st |} →
    wp (set_color (Some a) v) st Q.
  Proof. intros. apply wp_bind, rb_wp_load. by eexists _, _. Qed.
Lemma rb_wp_set_left v Q :
    Q tt {| heap := <[a := mkNode (key n) (color n) v (right n) (parent n)]> (heap st);
            NIL := NIL st; root := root st; size := size st |} →
    wp (set_left (Some a) v) st Q.
  Proof. intros. apply wp_bind, rb_wp_load. by eexists _, _. Qed.
Lemma rb_wp_set_right v Q :
    Q tt {| heap := <[a := mkNode (key n) (color n) (left n) v (parent n)]> (heap st);
            NIL := NIL st; root := root st; size := size st |} →
    wp (set_right (Some a) v) st Q.
  Proof. intros. apply wp_bind, rb_wp_load. by eexists _, _. Qed.
Lemma rb_wp_set_parent v Q :
    Q tt {| heap := <[a := mkNode (key n) (color n) (left n) (right n) v]> (heap st);
            NIL := NIL st; root := root st; size := size st |} →
    wp (set_parent (Some a) v) st Q.
  Proof. intros. apply wp_bind, rb_wp_load. by eexists _, _. Qed.
End access.

Lemma wp_get_nil st Q : Q (Some (NIL st)) st → wp get_nil st Q.
Proof. intros. by eexists _, _. Qed.
Lemma rb_wp_get_root st Q : Q (root st) st → wp get_root st Q.
Proof. intros. by eexists _, _. Qed.
Lemma rb_wp_set_root v st Q :
  Q tt {| heap := heap st; NIL := NIL st; root := v; size := size st |} →
  wp (set_root v) st Q.
Proof. intros. by eexists _, _. Qed.
Lemma rb_wp_add_size d st Q :
  Q tt {| heap := heap st; NIL := NIL st; root := root st; size := size st + d |} →
  wp (add_size d) st Q.
Proof. intros. by eexists _, _. Qed.
Lemma rb_wp_new_node k st Q :
  (∀ a, heap st !! a = None →
        Q (Some a) {| heap := <[a := mkNode (Some k) RED None None None]> (heap st);
                      NIL := NIL st; root := root st; size := size st |}) →
  wp (new_node k) st Q.
Proof.
  intros H. eexists _, _. split; [reflexivity|]. apply H.
  apply not_elem_of_dom, is_fresh.
Qed.
Lemma wp_key_lt k k' (st : RedBlackTree) Q :
  Q (k <? k') st → wp (key_lt k (Some k')) st Q.
Proof. intros. by apply wp_ret. Qed.
Lemma wp_key_gt k k' (st : RedBlackTree) Q :
  Q (k' <? k) st → wp (key_gt k (Some k')) st Q.
Proof. intros. by apply wp_ret. Qed.

(** ** Trees with a hole *)

Lemma rb_locs_plug ctx t : locs (plug ctx t) = ctx_before ctx ++ locs t ++ ctx_after ctx.
Proof.
  revert t. induction ctx as [|[c a k r|c l a k] ctx IH]; intros t; simpl.
  - by rewrite app_nil_r.
  - rewrite IH. simpl. by rewrite <- !app_assoc.
  - rewrite IH. simpl. by rewrite <- !app_assoc.
Qed.

Lemma rb_keys_plug ctx t : keys (plug ctx t) = kctx_before ctx ++ keys t ++ kctx_after ctx.
Proof.
  revert t. induction ctx as [|[c a k r|c l a k] ctx IH]; intros t; simpl.
  - by rewrite app_nil_r.
  - rewrite IH. simpl. by rewrite <- !app_assoc.
  - rewrite IH. simpl. by rewrite <- !app_assoc.
Qed.

Lemma rb_root_of_plug nil ctx t :
  root_of nil (plug ctx t) = ctx_root ctx (root_of nil t).
Proof.
  revert t. induction ctx as [|[c a k r|c l a k] ctx IH]; intros t; simpl;
    [done | by rewrite IH..].
Qed.

Lemma rb_rep_plug h nil ctx t :
  rep h nil None (plug ctx t) ↔
  rep h nil (ctx_parent ctx) t ∧ ctx_rep h nil ctx (root_of nil t).
Proof.
  revert t. induction ctx as [|[c a k r|c l a k] ctx IH]; intros t; simpl.
  - tauto.
  - rewrite IH. simpl. tauto.
  - rewrite IH. simpl. tauto.
Qed.

Lemma rb_rep_frame h h' nil par t :
  rep h nil par t → (∀ a, a ∈ locs t → h' !! a = h !! a) → rep h' nil par t.
Proof.
  revert par. induction t as [|c l IHl a k r IHr]; intros par; simpl; [done|].
  intros (Ha & Hl & Hr) Hf. split; [|split].
  - rewrite Hf; [done|]. set_solver.
  - apply IHl; [done|]. intros; apply Hf. set_solver.
  - apply IHr; [done|]. intros; apply Hf. set_solver.
Qed.

Lemma rb_ctx_rep_frame h h' nil ctx hole :
  ctx_rep h nil ctx hole → (∀ a, a ∈ ctx_locs ctx → h' !! a = h !! a) →
  ctx_rep h' nil ctx hole.
Proof.
  unfold ctx_locs.
  revert hole. induction ctx as [|[c a k r|c l a k] ctx IH]; intros hole; simpl; [done|..].
  - intros (Ha & Hr & Hc) Hf. split; [|split].
    + rewrite Hf; [done|]. set_solver.
    + eapply rb_rep_frame; [done|]. intros; apply Hf. set_solver.
    + apply IH; [done|]. intros; apply Hf. set_solver.
  - intros (Ha & Hr & Hc) Hf. split; [|split].
    + rewrite Hf; [done|]. set_solver.
    + eapply rb_rep_frame; [done|]. intros; apply Hf. set_solver.
    + apply IH; [done|]. intros; apply Hf. set_solver.
Qed.

Lemma rb_rep_lookup h nil par t a : rep h nil par t → a ∈ locs t → is_Some (h !! a).
Proof.
  revert par. induction t as [|c l IHl b k r IHr]; intros par; simpl.
  - by intros _ ?%elem_of_nil.
  - intros (Hb & Hl & Hr). rewrite elem_of_app, elem_of_cons.
    intros [?|[->|?]]; eauto.
Qed.

(** The record of a node in focus. *)
Lemma rb_focus_lookup st ctx c l a k r :
  represents st (plug ctx (T c l a k r)) →
  heap st !! a =
  Some (mkNode (Some k) c (root_of (NIL st) l) (root_of (NIL st) r) (ctx_parent ctx)).
Proof. intros (_ & Hrep & _). apply rb_rep_plug in Hrep as [Hrep _]. apply Hrep. Qed.

(** ** Symbolic execution *)

Lemma rb_ref_eqb_refl x : ref_eqb x x = true.
Proof. by apply bool_decide_eq_true_2. Qed.

Lemma rb_ref_eqb_ne (a b : positive) : a ≠ b → ref_eqb (Some a) (Some b) = false.
Proof. intros. apply bool_decide_eq_false_2. congruence. Qed.

Lemma rb_ref_eqb_none (a : positive) : ref_eqb (Some a) None = false.
Proof. by apply bool_decide_eq_false_2. Qed.

Lemma ref_eqb_none_l (a : positive) : ref_eqb None (Some a) = false.
Proof. by apply bool_decide_eq_false_2. Qed.

Lemma rb_root_of_locs nil t a : root_of nil t = Some a → a = nil ∨ a ∈ locs t.
Proof. destruct t; simpl; intros [= ->]; [by left | right; set_solver]. Qed.

Lemma rb_ref_eqb_root_ne nil a t :
  a ≠ nil → a ∉ locs t → ref_eqb (Some a) (root_of nil t) = false.
Proof.
  intros Hn Ha. apply bool_decide_eq_false_2. intros Heq. symmetry in Heq.
  by apply rb_root_of_locs in Heq as [?|?].
Qed.

Ltac neq :=
  match goal with
  | H : NoDup ?L |- ?a ≠ ?b => apply (NoDup_sub_ne L a b H); solve_submseteq
  | H : NoDup ?L |- ?a ≠ ?b =>
      apply not_eq_sym; apply (NoDup_sub_ne L b a H); solve_submseteq
  end.

Ltac notin :=
  match goal with
  | H : NoDup ?L |- ?a ∉ ?l => apply (NoDup_sub_notin L a l H); solve_submseteq
  end.

Ltac ref_simpl :=
  repeat first
    [ rewrite rb_ref_eqb_refl
    | rewrite rb_ref_eqb_none
    | rewrite ref_eqb_none_l
    | rewrite rb_ref_eqb_ne by neq
    | rewrite rb_ref_eqb_root_ne by first [neq | notin] ].

Ltac lk := repeat first [rewrite lookup_insert_eq | rewrite lookup_insert_ne by neq].

Ltac lookup_solve := cbn [heap]; lk; first [reflexivity | eassumption].

Ltac wbind := repeat lazymatch goal with |- wp (bind _ _) _ _ => apply wp_bind end.

Ltac wsimpl :=
  cbn [key color left right parent root heap size NIL truthy negb color_eqb
       root_of color_of ctx_parent frame_loc fst snd].

Ltac wstep :=
  wbind;
  lazymatch goal with
  | |- wp (get_key _) _ _ => eapply rb_wp_get_key; [lookup_solve|]
  | |- wp (get_color _) _ _ => eapply wp_get_color; [lookup_solve|]
  | |- wp (get_left _) _ _ => eapply rb_wp_get_left; [lookup_solve|]
  | |- wp (get_right _) _ _ => eapply rb_wp_get_right; [lookup_solve|]
  | |- wp (get_parent _) _ _ => eapply rb_wp_get_parent; [lookup_solve|]
  | |- wp (set_color _ _) _ _ => eapply wp_set_color; [lookup_solve|]
  | |- wp (set_left _ _) _ _ => eapply rb_wp_set_left; [lookup_solve|]
  | |- wp (set_right _ _) _ _ => eapply rb_wp_set_right; [lookup_solve|]
  | |- wp (set_parent _ _) _ _ => eapply rb_wp_set_parent; [lookup_solve|]
  | |- wp get_nil _ _ => apply wp_get_nil
  | |- wp get_root _ _ => apply rb_wp_get_root
  | |- wp (set_root _) _ _ => apply rb_wp_set_root
  | |- wp (add_size _) _ _ => apply rb_wp_add_size
  | |- wp (ret _) _ _ => apply wp_ret
  | |- wp (key_lt _ (Some _)) _ _ => apply wp_key_lt
  | |- wp (key_gt _ (Some _)) _ _ => apply wp_key_gt
  | |- wp (andM _ _) _ _ => apply wp_andM
  | |- wp (not_nil _) _ _ => unfold not_nil
  | |- wp (grandparent _) _ _ => unfold grandparent
  | |- wp (if _ then _ else _) _ _ => first [ progress wsimpl | progress ref_simpl ]
  | |- context [ref_eqb _ _] => progress ref_simpl
  end;
  wsimpl.

Ltac wsteps := repeat wstep.

(** A frame goal: the part of the store under [locs t] was not written. *)
Ltac frame_side z Hz :=
  let Heq := fresh in
  intros Heq; subst z;
  first
    [ by apply elem_of_nil in Hz
    | match goal with
      | H : NoDup ?L |- _ =>
          match type of Hz with
          | ?a ∈ ?l => exact (NoDup_sub_notin L a l H ltac:(solve_submseteq) Hz)
          end
      end ].

Ltac frame_solve :=
  let z := fresh "z" in let Hz := fresh "Hz" in
  intros z Hz; cbn [heap];
  repeat (rewrite lookup_insert_ne; [|frame_side z Hz]);
  reflexivity.

(** A goal about the store outside the tree. *)
Ltac outside_solve :=
  let z := fresh "z" in let Hz := fresh "Hz" in
  intros z Hz; rewrite ?rb_locs_plug in Hz; simpl in Hz; cbn [heap];
  repeat (rewrite lookup_insert_ne; [|intros <-; apply Hz; clear; set_solver]);
  reflexivity.

Ltac rep_solve :=
  repeat match goal with
  | |- _ ∧ _ => split
  | |- True => exact I
  | |- _ !! _ = Some _ => lookup_solve
  | |- rep _ _ _ (T _ _ _ _ _) => simpl
  | |- rep _ _ _ Leaf => exact I
  | |- rep _ _ _ _ => eapply rb_rep_frame; [eassumption | frame_solve]
  | |- ctx_rep _ _ (_ :: _) _ => simpl
  | |- ctx_rep _ _ [] _ => exact I
  | |- ctx_rep _ _ _ _ =>
      eapply rb_ctx_rep_frame; [eassumption | unfold ctx_locs; frame_solve]
  end.

(** ** Focusing on a node of the represented tree *)

Ltac find_frames x t :=
  match t with
  | plug ?ctx ?t' => let c := find_frames x t' in constr:(c ++ ctx)
  | T _ _ x _ _ => constr:(@nil frame)
  | T ?c ?l ?a ?k ?r => let f := find_frames x l in constr:(f ++ [FL c a k r])
  | T ?c ?l ?a ?k ?r => let f := find_frames x r in constr:(f ++ [FR c l a k])
  end.

Ltac focus H x :=
  match type of H with
  | represents ?st ?t =>
      let c := find_frames x t in
      let c' := eval cbn [app] in c in
      let Hx := fresh "Hlk" in
      pose proof (rb_focus_lookup st c' _ _ x _ _ H) as Hx;
      cbn [ctx_parent frame_loc root_of] in Hx
  end.

Ltac nodup_of H :=
  let HND := fresh "HND" in
  pose proof H as (_ & _ & HND & _); rewrite ?rb_locs_plug in HND; simpl in HND.

Lemma rb_outside_perm (t t' : tree) z :
  locs t' ≡ₚ locs t → z ∉ locs t → z ∉ locs t'.
Proof. by intros ->. Qed.

Ltac perm_solve := rewrite ?rb_locs_plug; simpl; solve_Permutation.

Ltac outside_chain Hz := revert Hz; apply rb_outside_perm; perm_solve.

(** ** Rotations *)


Ltac sentinel_solve :=
  match goal with
  | H : sentinel_ok _ |- sentinel_ok _ =>
      let p := fresh "p" in let Hp := fresh "Hp" in
      destruct H as [p Hp]; exists p; cbn [heap NIL]; lk; exact Hp
  end.

Ltac nodup_solve :=
  match goal with
  | H : NoDup ?L |- NoDup _ =>
      rewrite ?rb_locs_plug; simpl; eapply NoDup_sub; [exact H | solve_submseteq]
  end.

Ltac step_to_solve :=
  split; [split; [|split; [|split]]
         | split; [reflexivity | split; [reflexivity | split; [outside_solve|]]]];
  [ first [done | rewrite rb_root_of_plug; simpl; done]
  | apply rb_rep_plug; simpl; rep_solve
  | nodup_solve
  | sentinel_solve
  | perm_solve ].

Lemma rb_rotate_left_spec st ctx cx a x kx cy b y ky c Q :
  represents st (plug ctx (T cx a x kx (T cy b y ky c))) →
  (∀ st', step_to st (plug ctx (T cx a x kx (T cy b y ky c)))
                  st' (plug ctx (T cy (T cx a x kx b) y ky c)) → Q tt st') →
  wp (rotate_left (Some x)) st Q.
Proof.
  intros (Hroot & Hrep & HND & Hnil) HQ.
  apply rb_rep_plug in Hrep as [Hrep Hctx]. simpl in Hrep.
  destruct Hrep as (Hx & Ha & (Hy & Hb & Hc)).
  rewrite rb_root_of_plug in Hroot. simpl in Hroot.
  rewrite rb_locs_plug in HND. simpl in HND.
  unfold rotate_left. wsteps.
  destruct b as [|cb b1 rb kb b2]; simpl in Hb, HND;
    [|destruct Hb as (Hrb & Hb1 & Hb2)]; wsteps.
  all: destruct ctx as [|[cp p kp r|cp l p kp] ctx']; simpl in Hctx, HND, Hroot;
    [|destruct Hctx as (Hp & Hr & Hctx)..]; wsteps.
  all: apply HQ; step_to_solve.
Qed.

Lemma rb_rotate_right_spec st ctx cy cx a x kx b y ky c Q :
  represents st (plug ctx (T cy (T cx a x kx b) y ky c)) →
  (∀ st', step_to st (plug ctx (T cy (T cx a x kx b) y ky c))
                  st' (plug ctx (T cx a x kx (T cy b y ky c))) → Q tt st') →
  wp (rotate_right (Some y)) st Q.
Proof.
  intros (Hroot & Hrep & HND & Hnil) HQ.
  apply rb_rep_plug in Hrep as [Hrep Hctx]. simpl in Hrep.
  destruct Hrep as (Hy & (Hx & Ha & Hb) & Hc).
  rewrite rb_root_of_plug in Hroot. simpl in Hroot.
  rewrite rb_locs_plug in HND. simpl in HND.
  unfold rotate_right. wsteps.
  destruct b as [|cb b1 rb kb b2]; simpl in Hb, HND;
    [|destruct Hb as (Hrb & Hb1 & Hb2)]; wsteps.
  all: destruct ctx as [|[cp p kp r|cp l p kp] ctx']; simpl in Hctx, HND, Hroot;
    [|destruct Hctx as (Hp & Hr & Hctx)..]; wsteps.
  all: apply HQ; step_to_solve.
Qed.

(** [x.color = c] on a node in focus. *)
Lemma set_color_spec st ctx c' c l a k r Q :
  represents st (plug ctx (T c l a k r)) →
  (∀ st', step_to st (plug ctx (T c l a k r)) st' (plug ctx (T c' l a k r)) →
          Q tt st') →
  wp (set_color (Some a) c') st Q.
Proof.
  intros (Hroot & Hrep & HND & Hnil) HQ.
  apply rb_rep_plug in Hrep as [Hrep Hctx]. simpl in Hrep.
  destruct Hrep as (Ha & Hl & Hr).
  rewrite rb_root_of_plug in Hroot. simpl in Hroot.
  rewrite rb_locs_plug in HND. simpl in HND.
  wsteps. apply HQ; step_to_solve.
Qed.

(** Composition of steps. *)
Lemma step_to_trans st t st1 t1 st2 t2 :
  step_to st t st1 t1 → step_to st1 t1 st2 t2 → step_to st t st2 t2.
Proof.
  intros (H1 & Hs1 & Hn1 & Hf1 & Hp1) (H2 & Hs2 & Hn2 & Hf2 & Hp2).
  split; [done|]. split; [congruence|]. split; [congruence|].
  split; [|by rewrite Hp2].
  intros z Hz. rewrite Hf2, Hf1; [done|done|]. by rewrite Hp1.
Qed.

Lemma step_to_refl st t : represents st t → step_to st t st t.
Proof. by intros H. Qed.

Lemma step_to_represents st0 t0 st t : step_to st0 t0 st t → represents st t.
Proof. by intros [? _]. Qed.

Lemma step_to_nil st0 t0 st t : step_to st0 t0 st t → NIL st = NIL st0.
Proof. by intros (_ & _ & ? & _). Qed.

End RBFacts.

(** * The Red-Black engine: insertion on the store *)
Module RBInsert.
Import Py PyFacts Keys KeysFacts RB RBFacts.

(** ** Stepping through a method against the tree the state holds

    The proofs below keep one hypothesis [step_to st0 t0 st t] for the
    current state [st] and one equation [NIL st = nil]. *)

Lemma represents_sentinel st t :
  represents st t → ∃ p, heap st !! NIL st = Some (mkNode None BLACK None None p).
Proof. by intros (_ & _ & _ & ?). Qed.

Ltac nil_norm :=
  repeat match goal with
  | Hn : NIL ?st = _ |- context [NIL ?st] => rewrite Hn
  end.

(** Runs [tac] with the record of [a] in the current state at hand. *)
Ltac with_lookup a tac :=
  lazymatch goal with
  | |- wp _ ?st _ =>
      lazymatch goal with
      | Hacc : step_to _ _ st ?t, Hn : NIL st = _ |- _ =>
          first
            [ let f := find_frames a t in
              let f' := eval cbn [app] in f in
              let Hx := fresh "Hlk" in
              pose proof (rb_focus_lookup st f' _ _ a _ _ (step_to_represents _ _ _ _ Hacc)) as Hx;
              cbn [ctx_parent frame_loc root_of] in Hx; rewrite ?Hn in Hx;
              tac; clear Hx
            | let Hx := fresh "Hlk" in
              let p := fresh "pn" in
              destruct (represents_sentinel _ _ (step_to_represents _ _ _ _ Hacc)) as [p Hx];
              rewrite ?Hn in Hx; tac; clear Hx ]
      end
  end.

Ltac rstep :=
  wbind; wsimpl;
  first
    [ wstep
    | lazymatch goal with
      | |- wp (get_key (Some ?a)) _ _ => with_lookup a ltac:(wstep)
      | |- wp (get_color (Some ?a)) _ _ => with_lookup a ltac:(wstep)
      | |- wp (get_left (Some ?a)) _ _ => with_lookup a ltac:(wstep)
      | |- wp (get_right (Some ?a)) _ _ => with_lookup a ltac:(wstep)
      | |- wp (get_parent (Some ?a)) _ _ => with_lookup a ltac:(wstep)
      | |- wp (parent_is_red _) _ _ => unfold parent_is_red
      | |- wp (recolor_uncle _ _) _ _ => unfold recolor_uncle
      | |- wp (recolor_parent_grandparent _) _ _ => unfold recolor_parent_grandparent
      | |- wp (insert_fixup_step _) _ _ => unfold insert_fixup_step
      end ];
  nil_norm.

(** After a step proved by a lemma: the new state becomes the current one. *)
Ltac advance Hacc Hn :=
  let st' := fresh "st" in
  let Hs := fresh "Hs" in
  let Hn' := fresh "Hn" in
  intros st' Hs;
  assert (Hn' : NIL st' = NIL st') by reflexivity;
  rewrite (step_to_nil _ _ _ _ Hs) in Hn' at 2; rewrite Hn in Hn';
  apply (step_to_trans _ _ _ _ _ _ Hacc) in Hs;
  cbn [plug fill] in Hs;
  clear Hacc Hn; rename Hs into Hacc; rename Hn' into Hn.

Ltac col :=
  wbind;
  lazymatch goal with
  | |- wp (set_color (Some ?a) ?c') ?st _ =>
      lazymatch goal with
      | Hacc : step_to _ _ st ?t, Hn : NIL st = _ |- _ =>
          let f := find_frames a t in
          let f' := eval cbn [app] in f in
          eapply (set_color_spec st f' c');
          [exact (step_to_represents _ _ _ _ Hacc)|];
          advance Hacc Hn
      end
  end.

Ltac rotl :=
  wbind;
  lazymatch goal with
  | |- wp (rotate_left (Some ?a)) ?st _ =>
      lazymatch goal with
      | Hacc : step_to _ _ st ?t, Hn : NIL st = _ |- _ =>
          let f := find_frames a t in
          let f' := eval cbn [app] in f in
          eapply (rb_rotate_left_spec st f');
          [exact (step_to_represents _ _ _ _ Hacc)|];
          advance Hacc Hn
      end
  end.

Ltac rotr :=
  wbind;
  lazymatch goal with
  | |- wp (rotate_right (Some ?a)) ?st _ =>
      lazymatch goal with
      | Hacc : step_to _ _ st ?t, Hn : NIL st = _ |- _ =>
          let f := find_frames a t in
          let f' := eval cbn [app] in f in
          eapply (rb_rotate_right_spec st f');
          [exact (step_to_represents _ _ _ _ Hacc)|];
          advance Hacc Hn
      end
  end.

Ltac go := repeat first [rstep | col | rotl | rotr].

(** Starts a proof in this style from [H : represents st t]. *)
Ltac start H nil :=
  let Hacc := fresh "Hacc" in
  let Hn := fresh "Hn" in
  let HND := fresh "HND" in
  nodup_of H;
  pose proof (step_to_refl _ _ H) as Hacc;
  match type of H with
  | represents ?st _ => remember (NIL st) as nil eqn:Hn; symmetry in Hn
  end;
  cbn [plug fill] in Hacc.

Lemma ins_fix_spec fuel : ∀ ctx cz a z kz b st t' Q,
  represents st (plug ctx (T cz a z kz b)) →
  ins_fix ctx (T cz a z kz b) = Some t' → (length ctx < fuel)%nat →
  (∀ st', step_to st (plug ctx (T cz a z kz b)) st' t' → Q tt st') →
  wp (insert_fixup_loop fuel (Some z)) st Q.
Proof.
  induction fuel as [|fuel IH]; intros ctx cz a z kz b st t' Q H Hfix Hfuel HQ; [lia|].
  cbn [insert_fixup_loop]. start H nl.
  destruct ctx as [|f1 ctx]; cbn [plug fill] in *.
  { go. simpl in Hfix. simplify_eq. by apply HQ. }
  destruct f1 as [[] p kp s|[] s p kp]; cbn [plug fill] in *;
    simpl in Hfix, HND; go.
  2,4: simplify_eq; by apply HQ.
  all: destruct ctx as [|f2 ctx2]; [done|].
  all: destruct f2 as [cg g kg u|cg u g kg]; cbn [plug fill] in *; simpl in HND; go.
  all: destruct u as [|[] ul uy uk ur]; simpl in HND; go.
  all: simpl in Hfix.
  all: first
    [ eapply IH;
      [ exact (step_to_represents _ _ _ _ Hacc) | exact Hfix
      | simpl in Hfuel; lia | ];
      intros st' Hs; apply HQ;
      eapply step_to_trans; [exact Hacc | exact Hs]
    | destruct fuel as [|fuel']; [simpl in Hfuel; lia|];
      cbn [insert_fixup_loop]; go; simplify_eq; apply HQ; exact Hacc ].
Qed.

Lemma rb_represents_frame st st' t :
  represents st t → root st' = root st → NIL st' = NIL st →
  (∀ a, a ∈ NIL st :: locs t → heap st' !! a = heap st !! a) →
  represents st' t.
Proof.
  intros (Hr & Hrep & HND & [p Hp]) Hroot Hnil Hf.
  rewrite <- Hnil in *. split; [congruence|]. split; [|split; [done|]].
  - eapply rb_rep_frame; [done|]. intros a Ha. apply Hf. by right.
  - exists p. rewrite Hf; [done | left].
Qed.

Lemma rb_represents_lookup st t a : represents st t → a ∈ NIL st :: locs t → is_Some (heap st !! a).
Proof.
  intros (_ & Hrep & _ & [p Hp]) [->|Ha]%elem_of_cons; [by eexists|].
  by eapply rb_rep_lookup.
Qed.

Lemma rb_represents_size st t s :
  represents st t →
  represents {| heap := heap st; NIL := NIL st; root := root st; size := s |} t.
Proof. done. Qed.

Lemma rb_insert_path_length k : ∀ t ctx c s,
  insert_path k ctx t = (c, s) →
  (length c + height s ≤ length ctx + height t)%nat.
Proof.
  induction t as [|co l IHl a ka r IHr]; intros ctx c s; simpl.
  - intros [= <- <-]. simpl. lia.
  - destruct (k <? ka); [|destruct (ka <? k)].
    + intros E. apply IHl in E. simpl in E. lia.
    + intros E. apply IHr in E. simpl in E. lia.
    + intros [= <- <-]. simpl. lia.
Qed.

Lemma rb_insert_path_plug k : ∀ t ctx c s,
  insert_path k ctx t = (c, s) → plug c s = plug ctx t.
Proof.
  induction t as [|co l IHl a ka r IHr]; intros ctx c s; simpl.
  - by intros [= <- <-].
  - destruct (k <? ka); [|destruct (ka <? k)].
    + intros E. by apply IHl in E.
    + intros E. by apply IHr in E.
    + by intros [= <- <-].
Qed.


Lemma rb_insert_path_dir k : ∀ t ctx c s,
  insert_path k ctx t = (c, s) → dir_ok k ctx → dir_ok k c.
Proof.
  induction t as [|co l IHl a ka r IHr]; intros ctx c s; simpl.
  - by intros [= <- <-].
  - destruct (Z.ltb_spec k ka); [|destruct (Z.ltb_spec ka k)].
    + intros E _. by apply IHl in E.
    + intros E _. by apply IHr in E.
    + by intros [= <- <-].
Qed.


Lemma rb_insert_loop_spec fuel : ∀ k ctx t st Q,
  represents st (plug ctx t) → (height t < fuel)%nat →
  Q (insert_found k ctx t) st →
  wp (insert_loop fuel k (root_of (NIL st) t) (ctx_parent ctx)) st Q.
Proof.
  induction fuel as [|fuel IH]; intros k ctx t st Q H Hfuel HQ; [lia|].
  cbn [insert_loop]. nodup_of H.
  destruct t as [|c l a ka r]; simpl in HND; wsteps.
  { exact HQ. }
  focus H a. wsteps. revert HQ. unfold insert_found. cbn [insert_path].
  destruct (Z.ltb_spec k ka); intros HQ; wsteps.
  { apply (IH k (FL c a ka r :: ctx) l); [exact H | simpl in *; lia | exact HQ]. }
  destruct (Z.ltb_spec ka k); wsteps.
  - apply (IH k (FR c l a ka :: ctx) r); [exact H | simpl in *; lia | exact HQ].
  - exact HQ.
Qed.

Lemma rb_NoDup_plug_leaf nil c n co k :
  NoDup (nil :: locs (plug c Leaf)) → n ∉ nil :: locs (plug c Leaf) →
  NoDup (nil :: locs (plug c (T co Leaf n k Leaf))).
Proof.
  rewrite !rb_locs_plug. simpl. intros HND Hn.
  assert (nil :: ctx_before c ++ n :: ctx_after c
          ≡ₚ n :: nil :: ctx_before c ++ ctx_after c) as -> by solve_Permutation.
  by constructor.
Qed.

Lemma rb_attach_spec st c n k Q :
  represents st (plug c Leaf) → dir_ok k c →
  heap st !! n = Some (mkNode (Some k) RED (Some (NIL st)) (Some (NIL st)) None) →
  n ∉ NIL st :: locs (plug c Leaf) →
  (∀ st', represents st' (plug c (T RED Leaf n k Leaf)) →
          size st' = size st → NIL st' = NIL st → Q tt st') →
  wp (attach k (Some n) (ctx_parent c)) st Q.
Proof.
  intros H Hdir Hn Hnotin HQ. unfold attach.
  pose proof (rb_NoDup_plug_leaf _ _ n RED k (proj1 (proj2 (proj2 H))) Hnotin) as HND.
  rewrite rb_locs_plug in HND. simpl in HND.
  destruct H as (Hroot & Hrep & _ & Hnil).
  apply rb_rep_plug in Hrep as [_ Hctx].
  rewrite rb_root_of_plug in Hroot.
  destruct c as [|[cp p kp r|cp l p kp] c']; simpl in Hctx, Hdir, HND, Hroot;
    [|destruct Hctx as (Hp & Hr & Hctx)..]; wsteps.
  2: destruct (Z.ltb_spec k kp); [|lia]; wsteps.
  3: destruct (Z.ltb_spec k kp); [lia|]; wsteps.
  all: apply HQ; [|reflexivity..].
  all: split; [|split; [|split]];
    [ first [done | rewrite rb_root_of_plug; simpl; done]
    | apply rb_rep_plug; simpl; rep_solve
    | nodup_solve
    | sentinel_solve ].
Qed.

Lemma plug_T ctx c l a k r : ∃ c' l' a' k' r', plug ctx (T c l a k r) = T c' l' a' k' r'.
Proof.
  revert c l a k r. induction ctx as [|[]ctx IH]; intros; simpl;
    [by eexists _, _, _, _, _| apply IH..].
Qed.

Lemma rb_ctx_ind2 (P : list frame → Prop) :
  P [] → (∀ f, P [f]) → (∀ f1 f2 ctx, P ctx → P (f1 :: f2 :: ctx)) →
  ∀ ctx, P ctx.
Proof.
  intros H0 H1 H2 ctx.
  enough (P ctx ∧ ∀ f, P (f :: ctx)) by tauto.
  induction ctx as [|f ctx [IH1 IH2]]; [by auto|].
  split; [apply IH2|]. intros f'. by apply H2.
Qed.

Lemma ins_fix_T ctx : ∀ c l a k r t',
  ins_fix ctx (T c l a k r) = Some t' →
  ∃ c' l' a' k' r', t' = T c' l' a' k' r'.
Proof.
  induction ctx as [|f|f1 f2 ctx IH] using rb_ctx_ind2; intros c l a k r t'.
  - intros [= <-]. by eexists _, _, _, _, _.
  - destruct f as [[]|[]]; simpl; intros [= <-]; by eexists _, _, _, _, _.
  - destruct f1 as [[] p kp s|[] s p kp]; simpl.
    2,4: intros [= <-]; destruct f2; apply plug_T.
    all: destruct f2 as [cg g kg u|cg u g kg]; destruct u as [|[] ul uy uk ur];
      first [ apply IH | intros [= <-]; apply plug_T ].
Qed.

(** [_insert_fixup] *)
Lemma insert_fixup_spec fuel ctx cz a z kz b st t' Q :
  represents st (plug ctx (T cz a z kz b)) →
  ins_fix ctx (T cz a z kz b) = Some t' → (length ctx < fuel)%nat →
  (∀ st', step_to st (plug ctx (T cz a z kz b)) st' (blacken t') → Q tt st') →
  wp (_insert_fixup fuel (Some z)) st Q.
Proof.
  intros H Hfix Hfuel HQ. unfold _insert_fixup. wbind.
  eapply ins_fix_spec; [exact H | exact Hfix | exact Hfuel |].
  intros st1 Hacc.
  destruct (ins_fix_T _ _ _ _ _ _ _ Hfix) as (c' & l' & a' & k' & r' & ->).
  wstep. rewrite (proj1 (proj1 Hacc)). cbn [root_of].
  eapply (set_color_spec st1 [] BLACK); [exact (proj1 Hacc)|].
  intros st2 Hs. apply HQ. eapply step_to_trans; [exact Hacc | exact Hs].
Qed.

Lemma rb_insert_spec fuel k t st Q :
  represents st t → (height t < fuel)%nat →
  (∀ n, n ∉ NIL st :: locs t → is_Some (insert_tree k n t)) →
  (∀ st' n t', n ∉ NIL st :: locs t → insert_tree k n t = Some t' →
               represents st' t' → NIL st' = NIL st →
               size st' = size st + (if inserts k t then 1 else 0) → Q tt st') →
  wp (insert fuel k) st Q.
Proof.
  intros H Hfuel Hsome HQ. unfold insert. wbind. apply rb_wp_new_node. intros n Hn.
  assert (Hnotin : n ∉ NIL st :: locs t).
  { intros Hin. destruct (rb_represents_lookup _ _ _ H Hin) as [? E]. congruence. }
  specialize (Hsome n Hnotin).
  pose proof (λ st' t', HQ st' n t' Hnotin) as HQ'. clear HQ. rename HQ' into HQ.
  wsteps. pose proof (proj1 H) as Hroot.
  match goal with |- wp _ ?s _ => set (st2 := s) end.
  assert (H2 : represents st2 t).
  { eapply rb_represents_frame; [exact H | reflexivity | reflexivity |].
    intros a Ha. simpl. rewrite !lookup_insert_ne; [done|by intros <-..]. }
  assert (Hn2 : heap st2 !! n
                = Some (mkNode (Some k) RED (Some (NIL st2)) (Some (NIL st2)) None)).
  { simpl. by rewrite lookup_insert_eq. }
  assert (Hs2 : size st2 = size st) by reflexivity.
  assert (Hnil2 : NIL st2 = NIL st) by reflexivity.
  clearbody st2. clear Hn H. rewrite Hroot. rewrite <- Hnil2 in Hnotin |- *.
  wbind.
  apply (rb_insert_loop_spec fuel k [] t); [exact H2 | lia |].
  unfold insert_found. unfold insert_tree, inserts in *.
  destruct (insert_path k [] t) as [c s] eqn:E.
  pose proof (rb_insert_path_plug _ _ _ _ _ E) as Hplug. cbn [plug] in Hplug.
  pose proof (rb_insert_path_length _ _ _ _ _ E) as Hlen.
  pose proof (rb_insert_path_dir _ _ _ _ _ E I) as Hdir.
  destruct s as [|sc sl sa sk sr]; cbn [snd] in HQ.
  - rewrite <- Hplug in H2, Hnotin.
    destruct Hsome as [t' Ht'].
    destruct (ins_fix c (T RED Leaf n k Leaf)) as [t''|] eqn:Efix; [|done].
    simpl in Ht'. simplify_eq.
    wbind. eapply rb_attach_spec; [exact H2 | exact Hdir | exact Hn2 | exact Hnotin |].
    intros st3 H3 Hs3 Hnil3. wsteps.
    eapply insert_fixup_spec;
      [apply rb_represents_size, H3 | exact Efix | simpl in *; lia |].
    intros st4 (H4 & Hs4 & Hnil4 & _).
    apply (HQ _ (blacken t'')); [done | done | simpl in *; congruence |].
    simpl in Hs4. lia.
  - apply wp_ret. apply (HQ _ t); [done | done | done | lia].
Qed.

End RBInsert.

(** * The Red-Black engine: search and deletion on the store *)
Module RBDelete.
Import Py PyFacts Keys KeysFacts RB RBFacts RBInsert.

(** ** Read-only loops *)


Lemma rb_search_loop_spec fuel : ∀ k ctx t st Q,
  represents st (plug ctx t) → (height t < fuel)%nat →
  Q (found_node k ctx t) st →
  wp (search_loop fuel k (root_of (NIL st) t)) st Q.
Proof.
  induction fuel as [|fuel IH]; intros k ctx t st Q H Hfuel HQ; [lia|].
  cbn [search_loop]. nodup_of H.
  destruct t as [|c l a ka r]; simpl in HND; wsteps.
  { exact HQ. }
  focus H a. wsteps. revert HQ. unfold found_node. cbn [insert_path key_eqb].
  destruct (Z.eqb_spec k ka) as [->|Hne].
  { rewrite Z.ltb_irrefl. intros HQ. wsteps. exact HQ. }
  intros HQ. wsteps.
  destruct (Z.ltb_spec k ka); wsteps.
  { apply (IH k (FL c a ka r :: ctx) l); [exact H | simpl in *; lia | exact HQ]. }
  destruct (Z.ltb_spec ka k); [|lia].
  apply (IH k (FR c l a ka :: ctx) r); [exact H | simpl in *; lia | exact HQ].
Qed.

Lemma rb_search_spec fuel k t st Q :
  represents st t → (height t < fuel)%nat →
  Q (finds k t) st → wp (search fuel k) st Q.
Proof.
  intros H Hfuel HQ. unfold search. wstep. rewrite (proj1 H).
  apply (rb_search_loop_spec fuel k [] t); [exact H | lia |].
  unfold finds, inserts in HQ. unfold found_node.
  by destruct (insert_path k [] t).2.
Qed.

Lemma search_node_loop_spec fuel : ∀ k ctx t st Q,
  represents st (plug ctx t) → (height t < fuel)%nat →
  Q (root_of (NIL st) (snd (insert_path k ctx t))) st →
  wp (_search_node_loop fuel k (root_of (NIL st) t)) st Q.
Proof.
  induction fuel as [|fuel IH]; intros k ctx t st Q H Hfuel HQ; [lia|].
  cbn [_search_node_loop]. nodup_of H.
  destruct t as [|c l a ka r]; simpl in HND; wsteps.
  { exact HQ. }
  focus H a. wsteps. revert HQ. cbn [insert_path key_eqb].
  destruct (Z.eqb_spec k ka) as [->|Hne]; cbn [negb].
  { rewrite Z.ltb_irrefl. intros HQ. wsteps. exact HQ. }
  intros HQ. wsteps.
  destruct (Z.ltb_spec k ka); wsteps.
  { apply (IH k (FL c a ka r :: ctx) l); [exact H | simpl in *; lia | exact HQ]. }
  destruct (Z.ltb_spec ka k); [|lia].
  apply (IH k (FR c l a ka :: ctx) r); [exact H | simpl in *; lia | exact HQ].
Qed.

Lemma min_path_spec : ∀ t ctx,
  t ≠ Leaf →
  ∃ rctx cy y ky yr,
    min_path ctx t = (rctx ++ ctx, T cy Leaf y ky yr) ∧
    min_path [] t = (rctx, T cy Leaf y ky yr) ∧
    plug rctx (T cy Leaf y ky yr) = t ∧ (length rctx < height t)%nat.
Proof.
  induction t as [|c l IHl a k r _]; intros ctx Ht; [done|]. simpl.
  destruct l as [|lc ll la lk lr].
  - exists [], c, a, k, r. repeat split; simpl; lia.
  - destruct (IHl (FL c a k r :: ctx)) as (rctx & cy & y & ky & yr & E1 & E2 & Hp & Hl);
      [done|].
    destruct (IHl [FL c a k r]) as (rctx' & cy' & y' & ky' & yr' & E1' & E2' & _);
      [done|].
    rewrite E2 in E2'. simplify_eq.
    exists (rctx' ++ [FL c a k r]), cy', y', ky', yr'.
    rewrite E1, E1', <- app_assoc. simpl. split; [done|]. split; [done|]. split.
    + clear -Hp. revert Hp. generalize (T cy' Leaf y' ky' yr').
      induction rctx' as [|f rc IH]; intros t0; simpl; [by intros ->|]. apply IH.
    + rewrite length_app. simpl in *. lia.
Qed.

Lemma minimum_spec fuel : ∀ ctx t st Q,
  represents st (plug ctx t) → t ≠ Leaf → (height t ≤ fuel)%nat →
  Q (root_of (NIL st) (snd (min_path ctx t))) st →
  wp (_minimum fuel (root_of (NIL st) t)) st Q.
Proof.
  induction fuel as [|fuel IH]; intros ctx t st Q H Ht Hfuel HQ.
  { destruct t; [done | simpl in Hfuel; lia]. }
  destruct t as [|c l a ka r]; [done|]. cbn [_minimum root_of]. nodup_of H.
  focus H a. wsteps. revert HQ. cbn [min_path].
  destruct l as [|lc ll la lk lr]; simpl in HND; intros HQ; wsteps.
  - exact HQ.
  - apply (IH (FL c a ka r :: ctx) (T lc ll la lk lr));
      [exact H | done | simpl in *; lia | exact HQ].
Qed.

(** ** Unlinking a node *)


Ltac sentinel_solve' :=
  first [ sentinel_solve | eexists; lookup_solve ].

Ltac represents_solve :=
  split; [|split; [|split]];
  [ first [done | rewrite rb_root_of_plug; simpl; done]
  | apply rb_rep_plug; simpl; rep_solve
  | nodup_solve
  | sentinel_solve' ].

Lemma transplant_right_spec st ctx cu u ku v Q :
  represents st (plug ctx (T cu Leaf u ku v)) →
  (∀ st', spliced st ctx u v st' → Q tt st') →
  wp (_transplant (Some u) (root_of (NIL st) v)) st Q.
Proof.
  intros (Hroot & Hrep & HND & Hnil) HQ.
  apply rb_rep_plug in Hrep as [Hrep Hctx]. simpl in Hrep.
  destruct Hrep as (Hu & _ & Hv).
  rewrite rb_root_of_plug in Hroot. simpl in Hroot.
  rewrite rb_locs_plug in HND. simpl in HND.
  unfold _transplant. wsteps.
  destruct ctx as [|[cp p kp r|cp l p kp] ctx']; simpl in Hctx, HND, Hroot;
    [|destruct Hctx as (Hp & Hr & Hctx)..]; wsteps.
  all: destruct v as [|cv v1 rv kv v2]; simpl in Hv, HND;
    [destruct Hnil as [pn Hpn]|destruct Hv as (Hrv & Hv1 & Hv2)]; wsteps.
  all: apply HQ; split; [represents_solve|].
  all: split; [reflexivity|]; split; [reflexivity|]; split; [by lookup_solve|].
  all: first [done | intros _; lookup_solve].
Qed.

Lemma transplant_left_spec st ctx cu u ku v Q :
  represents st (plug ctx (T cu v u ku Leaf)) →
  (∀ st', spliced st ctx u v st' → Q tt st') →
  wp (_transplant (Some u) (root_of (NIL st) v)) st Q.
Proof.
  intros (Hroot & Hrep & HND & Hnil) HQ.
  apply rb_rep_plug in Hrep as [Hrep Hctx]. simpl in Hrep.
  destruct Hrep as (Hu & Hv & _).
  rewrite rb_root_of_plug in Hroot. simpl in Hroot.
  rewrite rb_locs_plug in HND. simpl in HND.
  unfold _transplant. wsteps.
  destruct ctx as [|[cp p kp r|cp l p kp] ctx']; simpl in Hctx, HND, Hroot;
    [|destruct Hctx as (Hp & Hr & Hctx)..]; wsteps.
  all: destruct v as [|cv v1 rv kv v2]; simpl in Hv, HND;
    [destruct Hnil as [pn Hpn]|destruct Hv as (Hrv & Hv1 & Hv2)]; wsteps.
  all: apply HQ; split; [represents_solve|].
  all: split; [reflexivity|]; split; [reflexivity|]; split; [by lookup_solve|].
  all: first [done | intros _; lookup_solve].
Qed.

Lemma plug_app c1 c2 t : plug (c1 ++ c2) t = plug c2 (plug c1 t).
Proof. revert t. induction c1 as [|f c1 IH]; intros t; simpl; [done | apply IH]. Qed.

(** The leftmost node of a subtree is its root, or lies below the left
    child of the root. *)
Lemma min_path_shape cr rl ra rk rr rctx cy y ky yr :
  min_path [] (T cr rl ra rk rr) = (rctx, T cy Leaf y ky yr) →
  (rctx = [] ∧ rl = Leaf ∧ cy = cr ∧ y = ra ∧ ky = rk ∧ yr = rr) ∨
  (∃ rctx', rctx = rctx' ++ [FL cr ra rk rr] ∧
            plug rctx' (T cy Leaf y ky yr) = rl).
Proof.
  simpl. destruct rl as [|lc ll la lk lr].
  - intros ?. simplify_eq. by left.
  - intros E. right.
    destruct (min_path_spec (T lc ll la lk lr) [FL cr ra rk rr])
      as (rc & cy' & y' & ky' & yr' & E1 & E2 & Hp & _); [done|].
    rewrite E1 in E. simplify_eq. by exists rc.
Qed.

Lemma ctx_parent_app_in c1 c2 t :
  c1 ≠ [] →
  ∃ q, ctx_parent (c1 ++ c2) = Some q ∧ ctx_parent c1 = Some q ∧
       q ∈ locs (plug c1 t).
Proof.
  destruct c1 as [|f c1]; [done|]. intros _. exists (frame_loc f).
  split; [done|]. split; [done|]. rewrite rb_locs_plug.
  destruct f; simpl; set_solver.
Qed.


Lemma spliced_unlinked st ctx u v st' : spliced st ctx u v st' → unlinked st ctx v st'.
Proof. intros (? & ? & ? & _ & ?). by split; [|split; [|split]]. Qed.

Lemma delete_node_spec fuel st ctx cz l z kz r ctxx tx c Q :
  represents st (plug ctx (T cz l z kz r)) →
  unlink ctx (T cz l z kz r) = Some (ctxx, tx, c) →
  (height r ≤ fuel)%nat →
  (∀ st', unlinked st ctxx tx st' → Q (root_of (NIL st) tx, c) st') →
  wp (delete_node fuel (Some z)) st Q.
Proof.
  intros H Hun Hfuel HQ. unfold delete_node. nodup_of H. focus H z.
  destruct l as [|cl ll la lk lr].
  { simpl in Hun. simplify_eq. wsteps. wbind.
    eapply transplant_right_spec; [exact H|]. intros st' Hs. wsteps.
    by apply HQ, (spliced_unlinked _ _ z). }
  destruct r as [|cr rl ra rk rr].
  { simpl in Hun. simplify_eq. simpl in HND. wsteps. wbind.
    eapply (transplant_left_spec st _ _ z _ (T cl ll la lk lr)); [exact H|].
    intros st' Hs. wsteps.
    by apply HQ, (spliced_unlinked _ _ z). }
  simpl in HND. cbn [root_of] in Hlk. wsteps. unfold delete_two_children.
  destruct (min_path_spec (T cr rl ra rk rr) (FR cz (T cl ll la lk lr) z kz :: ctx))
    as (rctx & cy & y & ky & yr & E1 & E2 & Hp & Hlen); [done|].
  cbn [unlink] in Hun. rewrite E2 in Hun. simplify_eq.
  rename c into cy, tx into yr.
  wsteps. wbind.
  eapply (minimum_spec fuel (FR cz (T cl ll la lk lr) z kz :: ctx) (T cr rl ra rk rr));
    [exact H | done | exact Hfuel |].
  rewrite E1. cbn [snd root_of]. clear E1 Hlk HND.
  destruct (min_path_shape _ _ _ _ _ _ _ _ _ _ E2)
    as [(-> & -> & -> & -> & -> & ->)|(rctx' & -> & Hrl)]; clear E2 Hp.
  - (* [y] is the right child of [z] *)
    destruct H as (Hroot & Hrep & HND & Hnil).
    apply rb_rep_plug in Hrep as [Hrep Hctx]. simpl in Hrep.
    destruct Hrep as (Hz & (Hla & Hll & Hlr) & (Hra & _ & Hrr)).
    rewrite rb_root_of_plug in Hroot. simpl in Hroot.
    rewrite rb_locs_plug in HND. simpl in HND.
    wsteps. cbn [app] in HQ.
    destruct rr as [|cv v1 rv kv v2]; simpl in Hrr, HND;
      [destruct Hnil as [pn Hpn]|destruct Hrr as (Hrv & Hv1 & Hv2)]; wsteps.
    all: unfold _transplant; wsteps.
    all: destruct ctx as [|[cp p kp r|cp l p kp] ctx']; simpl in Hctx, HND, Hroot;
      [|destruct Hctx as (Hp & Hr & Hctx)..]; wsteps.
    all: apply HQ; split; [represents_solve|].
    all: split; [reflexivity|]; split; [reflexivity|].
    all: first [done | intros _; lookup_solve].
  - (* [y] lies deeper: it is spliced out, then takes the place of [z] *)
    assert (H1 : represents st
              (plug ((rctx' ++ [FL cr ra rk rr]) ++ FR cz (T cl ll la lk lr) z kz :: ctx)
                    (T cy Leaf y ky yr))).
    { rewrite !plug_app. simpl. rewrite Hrl. exact H. }
    nodup_of H.
    assert (Hperm : locs rl ≡ₚ y :: locs (plug rctx' yr)).
    { rewrite <- Hrl, !rb_locs_plug. simpl. solve_Permutation. }
    rewrite Hperm in HND.
    destruct (ctx_parent_app_in (rctx' ++ [FL cr ra rk rr])
                (FR cz (T cl ll la lk lr) z kz :: ctx) (T cy Leaf y ky yr))
      as (q & Eq & Eq0 & Hq); [by destruct rctx'|].
    destruct (ctx_parent_app_in (rctx' ++ [FL cr ra rk rr])
                (FR cz (T cl ll la lk lr) y ky :: ctx) (T cy Leaf y ky yr))
      as (q' & Eq' & Eq'' & _); [by destruct rctx'|].
    assert (Hqz : q ≠ z).
    { rewrite plug_app in Hq. simpl in Hq. rewrite Hrl in Hq. simpl in Hq.
      rewrite Hperm in Hq. intros ->.
      apply (NoDup_sub_notin _ z (y :: locs (plug rctx' yr) ++ ra :: locs rr) HND);
        [solve_submseteq | set_solver]. }
    pose proof (rb_focus_lookup _ _ _ _ _ _ _ H1) as Hy. cbn [root_of] in Hy.
    rewrite Eq in Hy. wsteps. rewrite (rb_ref_eqb_ne _ _ Hqz). wsteps. wbind.
    eapply transplant_right_spec; [exact H1|].
    intros st1 (H2 & Hs & Hn & Hy1 & Hnp).
    rewrite Hy in Hy1. rewrite Eq in Hnp.
    assert (HQ' : ∀ st',
      represents st' (plug ctx (T cz (T cl ll la lk lr) y ky
                                 (T cr (plug rctx' yr) ra rk rr))) →
      size st' = size st1 → NIL st' = NIL st →
      heap st' !! NIL st = heap st1 !! NIL st →
      Q (root_of (NIL st) yr, cy) st').
    { intros st' Hr' Hs' Hn' Hnil'. apply HQ. split; [|split; [|split]].
      - rewrite !plug_app. simpl. exact Hr'.
      - congruence.
      - exact Hn'.
      - intros Hl. rewrite Hnil', Eq', (Hnp Hl). congruence. }
    clear HQ Hnp Eq Eq0 Eq' Eq'' Hq Hy H1 H Hperm Hrl Hlen Hfuel.
    rewrite !plug_app in H2. simpl in H2.
    generalize dependent (plug rctx' yr). intros s HND H2 HQ.
    destruct H2 as (Hroot & Hrep & _ & Hnil). rewrite Hn in *.
    apply rb_rep_plug in Hrep as [Hrep Hctx]. simpl in Hrep.
    destruct Hrep as (Hz & (Hla & Hll & Hlr) & (Hra & Hrs & Hrr)).
    rewrite rb_root_of_plug in Hroot. simpl in Hroot.
    wsteps. unfold _transplant. wsteps.
    destruct ctx as [|[cp p kp r|cp l p kp] ctx']; simpl in Hctx, HND, Hroot;
      [|destruct Hctx as (Hp & Hr & Hctx)..]; wsteps.
    all: apply HQ; [|reflexivity|exact Hn|by lookup_solve].
    all: unfold represents; cbn [NIL root heap]; rewrite Hn.
    all: (split; [|split; [|split]]);
      [ first [done | rewrite rb_root_of_plug; simpl; done]
      | apply rb_rep_plug; simpl; rep_solve
      | nodup_solve
      | destruct Hnil as [pn Hpn]; exists pn; cbn [heap NIL];
        rewrite Hn in Hpn; lookup_solve ].
Qed.

(** ** [_delete_fixup] *)

Lemma ctx_root_in ctx p :
  ∃ q, ctx_root ctx (Some p) = Some q ∧ (q = p ∨ q ∈ ctx_locs ctx).
Proof.
  revert p. induction ctx as [|f ctx IH]; intros p; simpl.
  - exists p. by split; [|left].
  - destruct (IH (frame_loc f)) as (q & E & Hq). exists q. split; [done|].
    right. unfold ctx_locs in *. destruct f; simpl; set_solver.
Qed.

(** A node below a frame is not the root. *)
Lemma not_root st f ctx t :
  represents st (plug (f :: ctx) t) →
  ref_eqb (root_of (NIL st) t) (root st) = false.
Proof.
  intros (Hroot & _ & HND & _). rewrite Hroot, rb_root_of_plug. cbn [ctx_root].
  destruct (ctx_root_in ctx (frame_loc f)) as (q & -> & Hq).
  apply bool_decide_eq_false_2. intros Heq.
  rewrite rb_locs_plug in HND.
  assert (Hin : q ∈ ctx_locs (f :: ctx)).
  { unfold ctx_locs in *. destruct f; simpl in *; set_solver. }
  unfold ctx_locs in Hin.
  apply NoDup_cons in HND as [Hnil HND].
  apply rb_root_of_locs in Heq as [->|Hqt].
  - apply Hnil. set_solver.
  - apply NoDup_app in HND as (_ & Hd1 & HND).
    apply NoDup_app in HND as (_ & Hd2 & _).
    apply elem_of_app in Hin as [Hin|Hin].
    + apply (Hd1 q Hin). set_solver.
    + by apply (Hd2 q Hqt).
Qed.

Lemma step_to_outside st0 t0 st t z :
  step_to st0 t0 st t → z ∉ locs t0 → heap st !! z = heap st0 !! z.
Proof. intros (_ & _ & _ & Hf & _). apply Hf. Qed.

Lemma step_to_size st0 t0 st t : step_to st0 t0 st t → size st = size st0.
Proof. by intros (_ & ? & _). Qed.

(** Runs [tac] with the record of [a] in the current state at hand; the
    record of the sentinel is the one of the first state when that is
    known. *)
Ltac with_lookup a tac :=
  lazymatch goal with
  | |- wp _ ?st _ =>
      lazymatch goal with
      | Hacc : step_to ?st0 _ st ?t, Hn : NIL st = _ |- _ =>
          first
            [ let f := find_frames a t in
              let f' := eval cbn [app] in f in
              let Hx := fresh "Hlk" in
              pose proof (rb_focus_lookup st f' _ _ a _ _ (step_to_represents _ _ _ _ Hacc)) as Hx;
              cbn [ctx_parent frame_loc root_of] in Hx; rewrite ?Hn in Hx;
              tac; clear Hx
            | lazymatch goal with
              | Hnp : heap st0 !! a = Some _, Hout : a ∉ locs _ |- _ =>
                  let Hx := fresh "Hlk" in
                  pose proof (step_to_outside _ _ _ _ a Hacc Hout) as Hx;
                  rewrite Hnp in Hx; tac; clear Hx
              end
            | let Hx := fresh "Hlk" in
              let p := fresh "pn" in
              destruct (represents_sentinel _ _ (step_to_represents _ _ _ _ Hacc)) as [p Hx];
              rewrite ?Hn in Hx; tac; clear Hx ]
      end
  end.

(** [x != self.root] for a node [x] below the root. *)
Ltac notroot :=
  lazymatch goal with
  | |- context [ref_eqb (Some ?a) (root ?st)] =>
      lazymatch goal with
      | Hacc : step_to _ _ st ?t |- _ =>
          let f := find_frames a t in
          let f' := eval cbn [app] in f in
          lazymatch f' with
          | ?f0 :: ?c0 =>
              let Hx := fresh "Hnr" in
              pose proof (not_root st f0 c0 _ (step_to_represents _ _ _ _ Hacc)) as Hx;
              cbn [root_of] in Hx; rewrite Hx; clear Hx
          end
      end
  end.

Ltac rstep :=
  wbind; wsimpl; wbind;
  first
    [ wstep
    | lazymatch goal with
      | |- wp (get_key (Some ?a)) _ _ => with_lookup a ltac:(wstep)
      | |- wp (get_color (Some ?a)) _ _ => with_lookup a ltac:(wstep)
      | |- wp (get_left (Some ?a)) _ _ => with_lookup a ltac:(wstep)
      | |- wp (get_right (Some ?a)) _ _ => with_lookup a ltac:(wstep)
      | |- wp (get_parent (Some ?a)) _ _ => with_lookup a ltac:(wstep)
      | |- wp (delete_fixup_left _) _ _ => unfold delete_fixup_left
      | |- wp (delete_fixup_right _) _ _ => unfold delete_fixup_right
      | |- wp (take_parent_color _ _) _ _ => unfold take_parent_color
      | |- context [ref_eqb (Some _) (root _)] => notroot
      end ];
  nil_norm.

Ltac go := repeat first [rstep | col | rotl | rotr].

Ltac fin HQ Hacc Hn :=
  apply HQ;
  [ exact (step_to_represents _ _ _ _ Hacc)
  | exact (step_to_size _ _ _ _ Hacc)
  | exact Hn ].

Ltac unroll Hfuel :=
  lazymatch goal with
  | |- wp (delete_fixup_loop ?f _) _ _ =>
      destruct f; [simpl in Hfuel; lia|]; cbn [delete_fixup_loop]
  end.

(** [x.color = BLACK] on the root. *)
Lemma blacken_root_spec st t Q :
  represents st t → t ≠ Leaf →
  (∀ st', step_to st t st' (blacken t) → Q tt st') →
  wp (set_color (root st) BLACK) st Q.
Proof.
  intros H Ht HQ. destruct t as [|c l a k r]; [done|].
  rewrite (proj1 H). cbn [root_of].
  by eapply (set_color_spec st [] BLACK).
Qed.

Lemma plug_not_leaf ctx c l a k r : plug ctx (T c l a k r) ≠ Leaf.
Proof. by destruct (plug_T ctx c l a k r) as (? & ? & ? & ? & ? & ->). Qed.

(** The end of a round of the loop: the next round is the induction
    hypothesis, or the loop ends. *)
Ltac close_fix :=
  lazymatch goal with
  | IH : context [delete_fixup_loop], Hfix : del_fix _ _ = Some _,
    Hacc : step_to _ _ ?st (plug ?c ?t), Hn : NIL ?st = _,
    Hfuel : (_ < _)%nat, HQ : ∀ st', represents st' _ → _
    |- wp (delete_fixup_loop _ _) ?st _ =>
      eapply (IH c t st);
      [ exact (step_to_represents _ _ _ _ Hacc) | done | exact Hfix
      | simpl in Hfuel |- *; lia | ];
      let st' := fresh "st" in
      let Hr := fresh in let Hs := fresh in let Hn' := fresh in
      intros st' Hr Hs Hn'; apply HQ;
      [ exact Hr | rewrite Hs; exact (step_to_size _ _ _ _ Hacc) | congruence ]
  | Hfix : Some _ = Some _, Hacc : step_to _ _ ?st _, Hn : NIL ?st = _,
    Hfuel : (_ < _)%nat, HQ : ∀ st', represents st' _ → _
    |- wp (delete_fixup_loop _ _) ?st _ =>
      injection Hfix as <-; unroll Hfuel; go;
      first
        [ fin HQ Hacc Hn
        | eapply blacken_root_spec;
          [ exact (step_to_represents _ _ _ _ Hacc) | apply plug_not_leaf | ];
          let st' := fresh "st" in let Hs := fresh in
          intros st' Hs; apply HQ;
          [ exact (step_to_represents _ _ _ _ Hs)
          | rewrite (step_to_size _ _ _ _ Hs); exact (step_to_size _ _ _ _ Hacc)
          | rewrite (step_to_nil _ _ _ _ Hs); exact Hn ] ]
  end.

(** Case 2 of a round: both children [u] and [v] of the sibling are BLACK. *)
Ltac case2 u v HND :=
  destruct u as [|[] ? ? ? ?]; [|done|];
  (destruct v as [|[] ? ? ? ?]; [|done|]);
  simpl in HND; go; close_fix.

(** Cases 3 and 4: one of them is RED. *)
Ltac case34 u v Hb Hfix HND :=
  destruct u as [|[] ? ? ? ?]; (destruct v as [|[] ? ? ? ?]);
  simpl in Hb, Hfix; try done;
  simpl in HND; go; close_fix.

Lemma del_fix_spec fuel : ∀ ctx t st t' Q,
  represents st (plug ctx t) →
  (t = Leaf →
   heap st !! NIL st = Some (mkNode None BLACK None None (ctx_parent ctx))) →
  del_fix ctx t = Some t' → (S (length ctx) < fuel)%nat →
  (∀ st', represents st' t' → size st' = size st → NIL st' = NIL st → Q tt st') →
  wp (delete_fixup_loop fuel (root_of (NIL st) t)) st
     (λ x st1, wp (set_color x BLACK) st1 Q).
Proof.
  induction fuel as [|fuel IH]; intros ctx t st t' Q H Hnp Hfix Hfuel HQ; [lia|].
  cbn [delete_fixup_loop]. wstep.
  destruct ctx as [|f ctx].
  { (* [x] is the root *)
    rewrite (proj1 H). cbn [plug]. rewrite rb_ref_eqb_refl. wsteps.
    simpl in Hfix. simplify_eq.
    destruct t as [|c l a k r].
    - destruct H as (Hroot & _ & HND & [pn Hpn]). simpl in *. wsteps.
      apply HQ; [|reflexivity..].
      split; [exact Hroot|]. split; [exact I|]. split; [exact HND|].
      eexists. lookup_solve.
    - eapply (set_color_spec st [] BLACK); [exact H|].
      intros st' (H' & Hs & Hn & _). by apply HQ. }
  rewrite (not_root _ _ _ _ H). cbn [negb].
  assert (Hout : NIL st ∉ locs (plug (f :: ctx) t)).
  { destruct H as (_ & _ & HND & _). by apply NoDup_cons in HND as [? _]. }
  start H nl. clear H.
  destruct t as [|[] a x kx b]; cbn [root_of]; simpl in Hfix.
  2: { (* [x] is RED *)
    injection Hfix as <-. simpl in HND. destruct f; cbn [fill] in Hacc; go; fin HQ Hacc Hn. }
  1: specialize (Hnp eq_refl). 2: clear Hnp.
  all: destruct f as [cp p kp w|cp w p kp]; cbn [fill ctx_parent frame_loc] in *.
  all: destruct w as [|[] wl wn wk wr]; [done|..].
  all: simpl in HND.
  1,5: destruct wl as [|cwl wll wln wlk wlr]; [done|];
    destruct (is_black wll && is_black wlr) eqn:Hb;
    [case2 wll wlr HND | case34 wll wlr Hb Hfix HND].
  1,4: destruct (is_black wl && is_black wr) eqn:Hb;
    [case2 wl wr HND | case34 wl wr Hb Hfix HND].
  1,3: destruct wr as [|cwr wrl wrn wrk wrr]; [done|];
    destruct (is_black wrr && is_black wrl) eqn:Hb;
    [case2 wrr wrl HND | case34 wrr wrl Hb Hfix HND].
  all: destruct (is_black wr && is_black wl) eqn:Hb;
    [case2 wr wl HND | case34 wr wl Hb Hfix HND].
Qed.
End RBDelete.

(** * The Red-Black engine: [delete] on the store *)
Module RBUpdate.
Import Py PyFacts Keys KeysFacts RB RBFacts RBInsert RBDelete.

Lemma unlink_length ctx s ctxx tx c :
  unlink ctx s = Some (ctxx, tx, c) →
  (length ctxx < length ctx + height s)%nat.
Proof.
  destruct s as [|cz l z kz r]; [done|].
  destruct l as [|cl ll la lk lr].
  { intros [= <- <- <-]. simpl. lia. }
  destruct r as [|cr rl ra rk rr].
  { intros [= <- <- <-]. simpl. lia. }
  cbn [unlink].
  destruct (min_path_spec (T cr rl ra rk rr) []) as (rctx & cy & y & ky & yr & E1 & _ & _ & Hl);
    [done|].
  rewrite app_nil_r in E1. rewrite E1. intros [= <- <- <-].
  rewrite length_app. simpl in *. lia.
Qed.

Lemma rb_delete_spec fuel k t st t' Q :
  represents st t → delete_tree k t = Some t' → (height t + 2 < fuel)%nat →
  (∀ st', represents st' t' → NIL st' = NIL st →
          size st' = size st - (if finds k t then 1 else 0) → Q tt st') →
  wp (delete fuel k) st Q.
Proof.
  intros H Hdel Hfuel HQ. unfold delete, _search_node. wstep.
  rewrite (proj1 H). wbind.
  apply (search_node_loop_spec fuel k [] t); [exact H | lia |].
  unfold delete_tree in Hdel. unfold finds, inserts in HQ.
  destruct (insert_path k [] t) as [ctx s] eqn:E.
  pose proof (rb_insert_path_plug _ _ _ _ _ E) as Hplug. cbn [plug] in Hplug.
  pose proof (rb_insert_path_length _ _ _ _ _ E) as Hlen. cbn [length] in Hlen.
  subst t. cbn [snd] in *.
  destruct s as [|cz l z kz r].
  { simplify_eq. wsteps. apply HQ; [done | done | simpl; lia]. }
  destruct (unlink ctx (T cz l z kz r)) as [[[ctxx tx] c]|] eqn:Eu; [|done].
  pose proof (unlink_length _ _ _ _ _ Eu) as Hlx.
  simpl in Hdel. nodup_of H. wsteps. wbind.
  eapply (delete_node_spec fuel _ ctx cz l z kz r);
    [apply rb_represents_size, H | exact Eu | simpl in *; lia |].
  intros st1 (H1 & Hs1 & Hn1 & Hnp). cbn [size NIL] in Hs1, Hn1, Hnp. wsimpl.
  destruct c; wsimpl.
  - simplify_eq. wsteps. apply HQ; [done | done | simpl; lia].
  - unfold _delete_fixup. wbind. rewrite <- Hn1 in Hnp |- *.
    eapply del_fix_spec; [exact H1 | exact Hnp | exact Hdel | lia |].
    intros st2 H2 Hs2 Hn2. apply HQ; [done | congruence | simpl; lia].
Qed.

End RBUpdate.

(** * The Red-Black engine: the fix-ups restore the Red-Black properties *)
Module RBColor.
Import Py PyFacts Keys KeysFacts RB RBFacts RBInsert.

Lemma color_of_plug ctx t : color_of (plug ctx t) = ctx_top ctx (color_of t).
Proof.
  revert t. induction ctx as [|[c a k r|c l a k] ctx IH]; intros t; simpl;
    [done | by rewrite IH..].
Qed.

Lemma no_red_red_plug ctx t :
  no_red_red (plug ctx t) ↔ no_red_red t ∧ ctx_no_red_red ctx (color_of t).
Proof.
  revert t. induction ctx as [|[c a k r|c l a k] ctx IH]; intros t; simpl.
  - tauto.
  - rewrite IH. simpl. tauto.
  - rewrite IH. simpl. tauto.
Qed.

Lemma black_balanced_plug ctx t :
  black_balanced (plug ctx t) ↔
  black_balanced t ∧ ctx_black_balanced ctx (black_height t).
Proof.
  revert t. induction ctx as [|[c a k r|c l a k] ctx IH]; intros t; simpl.
  - tauto.
  - rewrite IH. simpl. tauto.
  - rewrite IH. simpl. split.
    + intros ((E & ? & ?) & ?). rewrite <- E. tauto.
    + intros (? & E & ? & ?). rewrite E. tauto.
Qed.

Lemma ctx_no_red_red_black f ctx c c' :
  frame_color f = BLACK →
  ctx_no_red_red (f :: ctx) c → ctx_no_red_red (f :: ctx) c'.
Proof. destruct f; simpl; intros ->; intuition congruence. Qed.

Lemma ctx_top_cons f ctx c c' : ctx_top (f :: ctx) c = ctx_top (f :: ctx) c'.
Proof. done. Qed.

Lemma ctx_no_red_red_weaken ctx c :
  ctx_no_red_red ctx c → ctx_no_red_red ctx BLACK.
Proof. destruct ctx as [|[]]; simpl; intuition congruence. Qed.

Lemma ctx_top_weaken ctx c : ctx_top ctx c = BLACK → ctx_top ctx BLACK = BLACK.
Proof. by destruct ctx. Qed.

Lemma no_red_red_blacken t : no_red_red t → no_red_red (blacken t).
Proof. destruct t; simpl; intuition congruence. Qed.

Lemma black_balanced_blacken t : black_balanced (blacken t) ↔ black_balanced t.
Proof. by destruct t. Qed.

Lemma color_of_blacken t : color_of (blacken t) = BLACK.
Proof. by destruct t. Qed.

Lemma keys_blacken t : keys (blacken t) = keys t.
Proof. by destruct t. Qed.

Lemma color_not_red t :
  match t with T RED _ _ _ _ => False | _ => True end → color_of t = BLACK.
Proof. by destruct t as [|[]]. Qed.

Ltac break :=
  repeat match goal with
  | H : _ ∧ _ |- _ => destruct H
  | H : RED = RED → _ |- _ => specialize (H eq_refl)
  | H : BLACK = RED → _ |- _ => clear H
  | H : RED = BLACK |- _ => discriminate H
  | H : BLACK = RED |- _ => discriminate H
  end.

Ltac rb_solve :=
  simpl in *; break;
  repeat match goal with
  | |- _ ∧ _ => split
  | |- _ → _ => intros
  end;
  simpl in *; break;
  first
    [ done | lia | congruence | by intuition congruence
    | by eapply ctx_no_red_red_weaken | by eapply ctx_top_weaken
    | by rewrite ?keys_blacken, ?rb_keys_plug; simpl;
         repeat (rewrite <- !app_assoc; simpl)
    | match goal with
      | H : ctx_black_balanced ?c ?m |- ctx_black_balanced ?c ?n =>
          replace n with m by lia; exact H
      end ].

(** ** [_insert_fixup] *)

Lemma ins_fix_ok : ∀ ctx a z kz b,
  no_red_red (T RED a z kz b) → black_balanced (T RED a z kz b) →
  ctx_no_red_red ctx BLACK →
  ctx_black_balanced ctx (black_height (T RED a z kz b)) →
  ctx_top ctx BLACK = BLACK →
  ∃ t', ins_fix ctx (T RED a z kz b) = Some t' ∧
        no_red_red (blacken t') ∧ black_balanced t' ∧
        keys t' = keys (plug ctx (T RED a z kz b)).
Proof.
  induction ctx as [|f|f1 f2 ctx IH] using rb_ctx_ind2; intros a z kz b Hn Hb Hcn Hcb Htop.
  - eexists. split; [reflexivity|]. rb_solve.
  - destruct f as [c p kp s|c s p kp]; simpl in Htop; subst c;
      (eexists; split; [reflexivity|]); rb_solve.
  - destruct f1 as [[] p kp s|[] s p kp].
    2,4: eexists; split; [reflexivity|];
      split; [|split; [|done]];
      [ apply no_red_red_blacken, no_red_red_plug; split; [done|];
        by eapply ctx_no_red_red_black
      | by apply black_balanced_plug ].
    all: destruct f2 as [cg g kg u|cg u g kg].
    all: assert (cg = BLACK) as -> by (simpl in Hcn; by destruct cg; break).
    all: destruct u as [|[] ul uy uk ur]; cbn [ins_fix frame_color recolor fill].
    all: simpl in Hn, Hb, Hcn, Hcb, Htop; break.
    all: first
      [ edestruct IH as (t' & E & Hn' & Hb' & Hk);
        [..| exists t'; split; [exact E|]; split; [done|]; split; [done|];
             rewrite Hk; rb_solve ];
        rb_solve
      | eexists; split; [reflexivity|]; split; [|split];
        [ apply no_red_red_blacken, no_red_red_plug; split; rb_solve
        | apply black_balanced_plug; split; rb_solve
        | rb_solve ] ].
Qed.

(** ** [_delete_fixup] *)

Lemma black_height_pos t : (1 ≤ black_height t)%nat.
Proof. induction t; simpl; lia. Qed.

Ltac heights :=
  repeat match goal with
  | x : tree |- _ =>
      lazymatch goal with
      | H : (1 ≤ black_height x)%nat |- _ => fail
      | _ => pose proof (black_height_pos x)
      end
  end.

Ltac red_black_solve :=
  split; [|split];
  [ rewrite ?color_of_blacken, ?color_of_plug; simpl; done
  | try apply no_red_red_blacken; apply no_red_red_plug; split; rb_solve
  | rewrite ?black_balanced_blacken; apply black_balanced_plug; split; rb_solve ].

Lemma del_fix_ok : ∀ ctx t,
  no_red_red (blacken t) → black_balanced t →
  ctx_no_red_red ctx BLACK → ctx_black_balanced ctx (S (black_height t)) →
  ctx_top ctx BLACK = BLACK →
  ∃ t', del_fix ctx t = Some t' ∧ red_black t' ∧ keys t' = keys (plug ctx t).
Proof.
  induction ctx as [|f ctx IH]; intros t Hn Hb Hcn Hcb Htop.
  { eexists. split; [reflexivity|]. split; [|by rewrite keys_blacken].
    split; [apply color_of_blacken|]. split; [done|].
    by apply black_balanced_blacken. }
  destruct f as [cp p kp w|cp w p kp]; destruct t as [|[] a x kx b].
  2,5: eexists; (split; [reflexivity|]); (split; [|rb_solve]);
       simpl in Hn, Hb, Hcn, Hcb, Htop; break; red_black_solve.
  all: destruct w as [|[] wl wn wk wr].
  all: heights; simpl in Hn, Hb, Hcn, Hcb, Htop; break; try (exfalso; lia).
  all: lazymatch goal with
    | |- ∃ _, del_fix (FL _ _ _ (T RED ?wl _ _ _) :: _) _ = _ ∧ _ =>
        destruct wl as [|? wll ? ? wlr]; [exfalso; simpl in *; lia|];
        destruct wll as [|[] ? ? ? ?]; destruct wlr as [|[] ? ? ? ?]
    | |- ∃ _, del_fix (FR _ (T RED _ _ _ ?wr) _ _ :: _) _ = _ ∧ _ =>
        destruct wr as [|? wrl ? ? wrr]; [exfalso; simpl in *; lia|];
        destruct wrl as [|[] ? ? ? ?]; destruct wrr as [|[] ? ? ? ?]
    | |- ∃ _, del_fix (_ (T BLACK ?wl _ _ ?wr) :: _) _ = _ ∧ _ =>
        destruct wl as [|[] ? ? ? ?]; destruct wr as [|[] ? ? ? ?]
    | |- ∃ _, del_fix (FR _ (T BLACK ?wl _ _ ?wr) _ _ :: _) _ = _ ∧ _ =>
        destruct wl as [|[] ? ? ? ?]; destruct wr as [|[] ? ? ? ?]
    end.
  all: destruct cp; simpl in *; break; subst; simpl in *; break;
    try (exfalso; lia).
  all: first
    [ by (eexists; split; [reflexivity|]; split; [red_black_solve | rb_solve])
    | lazymatch goal with
      | |- ∃ t', del_fix ?c ?X = Some t' ∧ _ =>
          destruct (IH X) as (t' & E & Hrb & Hk);
          [..| exists t'; split; [exact E|]; split; [exact Hrb|];
               rewrite Hk; rb_solve ];
          rb_solve
      end ].
Qed.

End RBColor.

(** * The Red-Black engine: what insert and delete make of a Red-Black tree *)
Module RBModel.
Import Py PyFacts Keys KeysFacts RB RBFacts RBInsert RBDelete RBColor.

Lemma rb_keys_node_asc c l a k r :
  ascending (keys (T c l a k r)) →
  ascending (keys l) ∧ ascending (keys r) ∧
  (∀ y, y ∈ keys l → y < k) ∧ (∀ y, y ∈ keys r → k < y).
Proof. simpl. rewrite ascending_mid. tauto. Qed.

(** ** Insert *)


Lemma rb_insert_path_bst_ins k n : ∀ t ctx,
  plug (insert_path k ctx t).1
       (match (insert_path k ctx t).2 with
        | Leaf => T RED Leaf n k Leaf
        | s => s
        end) = plug ctx (bst_ins k n t).
Proof.
  induction t as [|c l IHl a ka r IHr]; intros ctx; simpl; [done|].
  destruct (k <? ka); [|destruct (ka <? k)]; simpl; [| |done].
  - by rewrite IHl.
  - by rewrite IHr.
Qed.

Lemma rb_keys_bst_ins k n t :
  ascending (keys t) → keys (bst_ins k n t) = ins k (keys t).
Proof.
  induction t as [|c l IHl a ka r IHr]; intros Hasc; simpl; [done|].
  destruct (rb_keys_node_asc _ _ _ _ _ Hasc) as (Al & Ar & Hlk & Hrk).
  destruct (Z.ltb_spec k ka); [|destruct (Z.ltb_spec ka k)]; simpl.
  - by rewrite IHl, ins_app_lt.
  - by rewrite IHr, ins_app_gt.
  - assert (k = ka) as -> by lia. by rewrite ins_app_eq.
Qed.

Lemma rb_insert_path_leaf k : ∀ t ctx,
  ascending (keys t) →
  (insert_path k ctx t).2 = Leaf ↔ k ∉ keys t.
Proof.
  induction t as [|c l IHl a ka r IHr]; intros ctx Hasc.
  { simpl. split; [by intros _ ?%elem_of_nil | done]. }
  destruct (rb_keys_node_asc _ _ _ _ _ Hasc) as (Al & Ar & Hlk & Hrk).
  cbn [insert_path keys]. rewrite not_elem_of_app, not_elem_of_cons.
  destruct (Z.ltb_spec k ka); [|destruct (Z.ltb_spec ka k)].
  - rewrite (IHl _ Al). split; [|tauto]. intros Hn. split; [done|].
    split; [lia|]. intros Hin. specialize (Hrk _ Hin). lia.
  - rewrite (IHr _ Ar). split; [|tauto]. intros Hn. split; [|split; [lia|done]].
    intros Hin. specialize (Hlk _ Hin). lia.
  - simpl. split; [done|]. intros (_ & Hne & _). lia.
Qed.

Lemma rb_insert_path_key k : ∀ t ctx c cs l a ka r,
  insert_path k ctx t = (c, T cs l a ka r) → ka = k.
Proof.
  induction t as [|co tl IHl ta tk tr IHr]; intros ctx c cs l a ka r; simpl; [done|].
  destruct (Z.ltb_spec k tk); [|destruct (Z.ltb_spec tk k)].
  - apply IHl.
  - apply IHr.
  - intros [= _ _ _ _ <- _]. lia.
Qed.

Lemma rb_inserts_spec k t : ascending (keys t) → inserts k t = true ↔ k ∉ keys t.
Proof.
  intros Hasc. rewrite <- (rb_insert_path_leaf k t [] Hasc). unfold inserts.
  by destruct (insert_path k [] t).2.
Qed.

Lemma rb_finds_spec k t : ascending (keys t) → finds k t = true ↔ k ∈ keys t.
Proof.
  intros Hasc. unfold finds. destruct (inserts k t) eqn:E; simpl.
  - apply rb_inserts_spec in E; [|done]. split; [done|]. by intros ?.
  - split; [intros _|done]. destruct (decide (k ∈ keys t)) as [|Hn]; [done|].
    apply rb_inserts_spec in Hn; [congruence|done].
Qed.

Lemma init_red_black : red_black Leaf.
Proof. by split. Qed.

(** [insert] keeps a Red-Black tree one, and never raises on it. *)
Lemma insert_tree_ok k n t :
  red_black t → ascending (keys t) →
  ∃ t', insert_tree k n t = Some t' ∧ red_black t' ∧ keys t' = ins k (keys t).
Proof.
  intros (Hc & Hn & Hb) Hasc. unfold insert_tree.
  pose proof (rb_insert_path_bst_ins k n t []) as Hp. cbn [plug] in Hp.
  destruct (insert_path k [] t) as [ctx s] eqn:E. cbn [fst snd] in Hp.
  pose proof (rb_insert_path_plug _ _ _ _ _ E) as Hplug. cbn [plug] in Hplug.
  destruct s as [|cs sl sa sk sr].
  - subst t. apply no_red_red_plug in Hn as [_ Hcn].
    apply black_balanced_plug in Hb as [_ Hcb].
    rewrite color_of_plug in Hc.
    destruct (ins_fix_ok ctx Leaf n k Leaf) as (t' & Ef & Hn' & Hb' & Hk);
      [done..|].
    rewrite Ef. exists (blacken t'). split; [done|]. split.
    + split; [apply color_of_blacken|]. split; [done|].
      by apply black_balanced_blacken.
    + rewrite keys_blacken, Hk, Hp. by apply rb_keys_bst_ins.
  - exists t. split; [done|]. split; [done|].
    rewrite <- (rb_keys_bst_ins k n t Hasc). by rewrite <- Hp, Hplug.
Qed.

(** ** Delete *)

Lemma kctx_before_app c1 c2 :
  kctx_before (c1 ++ c2) = kctx_before c2 ++ kctx_before c1.
Proof.
  induction c1 as [|[] c1 IH]; simpl; [by rewrite app_nil_r|done|].
  by rewrite IH, <- !app_assoc.
Qed.

Lemma kctx_after_app c1 c2 :
  kctx_after (c1 ++ c2) = kctx_after c1 ++ kctx_after c2.
Proof.
  induction c1 as [|[] c1 IH]; simpl; [done| |done].
  by rewrite IH, <- !app_assoc.
Qed.

(** The path to the leftmost node goes through left links only. *)
Lemma min_path_before t : ∀ ctx,
  ∃ rc, (min_path ctx t).1 = rc ++ ctx ∧ kctx_before rc = [].
Proof.
  induction t as [|c l IHl a k r _]; intros ctx; simpl.
  { by exists []. }
  destruct l as [|lc ll la lk lr].
  { by exists []. }
  destruct (IHl (FL c a k r :: ctx)) as (rc & E & Hb).
  exists (rc ++ [FL c a k r]). rewrite E, <- app_assoc. split; [done|].
  by rewrite kctx_before_app.
Qed.

(** The invariants around a hole do not look at the identities and keys of
    the frames. *)
Lemma relabel_top rctx cz l z kz y ky ctx c :
  ctx_top (rctx ++ FR cz l z kz :: ctx) c = ctx_top (rctx ++ FR cz l y ky :: ctx) c.
Proof. revert c. induction rctx as [|f rctx IH]; intros c; simpl; [done|apply IH]. Qed.

Lemma relabel_no_red_red rctx cz l z kz y ky ctx c :
  ctx_no_red_red (rctx ++ FR cz l z kz :: ctx) c ↔
  ctx_no_red_red (rctx ++ FR cz l y ky :: ctx) c.
Proof.
  revert c. induction rctx as [|[fc fa fk fr|fc fl fa fk] rctx IH]; intros c; simpl;
    [done | by rewrite IH..].
Qed.

Lemma relabel_black_balanced rctx cz l z kz y ky ctx h :
  ctx_black_balanced (rctx ++ FR cz l z kz :: ctx) h ↔
  ctx_black_balanced (rctx ++ FR cz l y ky :: ctx) h.
Proof.
  revert h. induction rctx as [|[] rctx IH]; intros h; simpl;
    [done | by rewrite IH..].
Qed.


Lemma remove_left_leaf ctx cy y ky yr :
  red_black (plug ctx (T cy Leaf y ky yr)) → removed_ok ctx yr cy.
Proof.
  intros (Hc & Hn & Hb). rewrite color_of_plug in Hc.
  apply no_red_red_plug in Hn as [Hn Hcn].
  apply black_balanced_plug in Hb as [Hb Hcb].
  destruct cy; simpl in *; break.
  - split; [done|]. split; [done|].
    match goal with H : color_of yr = BLACK |- _ => rewrite H end.
    match goal with H : _ = black_height yr |- _ => rewrite <- H end.
    split; [by eapply ctx_top_weaken|]. split; [by eapply ctx_no_red_red_weaken|done].
  - split; [done|]. split; [done|].
    match goal with H : _ = black_height yr |- _ => rewrite <- H end.
    done.
Qed.

Lemma remove_right_leaf ctx cy yl y ky :
  red_black (plug ctx (T cy yl y ky Leaf)) → removed_ok ctx yl cy.
Proof.
  intros (Hc & Hn & Hb). rewrite color_of_plug in Hc.
  apply no_red_red_plug in Hn as [Hn Hcn].
  apply black_balanced_plug in Hb as [Hb Hcb].
  destruct cy; simpl in *; break.
  - split; [done|]. split; [done|].
    match goal with H : color_of yl = BLACK |- _ => rewrite H end.
    rewrite Nat.add_0_r in Hcb.
    split; [by eapply ctx_top_weaken|]. split; [by eapply ctx_no_red_red_weaken|done].
  - split; [done|]. split; [done|]. rewrite Nat.add_1_r in Hcb. done.
Qed.

Lemma unlink_ok ctx cz l z kz r :
  red_black (plug ctx (T cz l z kz r)) →
  ∃ ctxx tx c,
    unlink ctx (T cz l z kz r) = Some (ctxx, tx, c) ∧ removed_ok ctxx tx c ∧
    keys (plug ctxx tx) = kctx_before ctx ++ (keys l ++ keys r) ++ kctx_after ctx.
Proof.
  intros H. destruct l as [|cl ll la lk lr].
  { exists ctx, r, cz. split; [done|]. split; [by eapply remove_left_leaf|].
    by rewrite rb_keys_plug. }
  destruct r as [|cr rl ra rk rr].
  { exists ctx, (T cl ll la lk lr), cz. split; [done|].
    split; [by eapply remove_right_leaf|].
    by rewrite rb_keys_plug, app_nil_r. }
  cbn [unlink].
  destruct (min_path_spec (T cr rl ra rk rr) [])
    as (rctx & cy & y & ky & yr & _ & E & Hp & _); [done|].
  destruct (min_path_before (T cr rl ra rk rr) []) as (rc & Erc & Hrc).
  rewrite E, app_nil_r in Erc. cbn [fst] in Erc. subst rc.
  rewrite E. eexists _, _, _. split; [reflexivity|].
  rewrite <- Hp in H |- *.
  change (plug ctx (T cz (T cl ll la lk lr) z kz (plug rctx (T cy Leaf y ky yr))))
    with (plug (FR cz (T cl ll la lk lr) z kz :: ctx) (plug rctx (T cy Leaf y ky yr)))
    in H.
  rewrite <- plug_app in H. apply remove_left_leaf in H.
  split.
  - destruct H as (? & ? & H). split; [done|]. split; [done|].
    destruct cy;
      rewrite <- (relabel_top _ _ _ z kz), <- (relabel_no_red_red _ _ _ z kz),
        <- (relabel_black_balanced _ _ _ z kz);
      exact H.
  - rewrite !rb_keys_plug, kctx_before_app, kctx_after_app, Hrc. simpl.
    rewrite <- ?app_assoc. simpl. by rewrite <- ?app_assoc.
Qed.

(** [delete] keeps a Red-Black tree one, and never raises on it. *)
Lemma delete_tree_ok k t :
  red_black t → ascending (keys t) →
  ∃ t', delete_tree k t = Some t' ∧ red_black t' ∧ keys t' = del k (keys t).
Proof.
  intros Hrb Hasc. unfold delete_tree.
  pose proof (rb_insert_path_leaf k t [] Hasc) as Hleaf.
  destruct (insert_path k [] t) as [ctx s] eqn:E. cbn [snd] in Hleaf.
  pose proof (rb_insert_path_plug _ _ _ _ _ E) as Hplug. cbn [plug] in Hplug.
  destruct s as [|cz l z kz r].
  { exists t. split; [done|]. split; [done|].
    rewrite del_notin; [done|]. by apply Hleaf. }
  assert (kz = k) as -> by (by eapply rb_insert_path_key).
  subst t. destruct (unlink_ok _ _ _ _ _ _ Hrb) as (ctxx & tx & c & Eu & Hok & Hk).
  rewrite Eu. simpl.
  assert (Hdel : del k (keys (plug ctx (T cz l z k r))) = keys (plug ctxx tx)).
  { rewrite Hk, rb_keys_plug in *. simpl in *.
    replace (kctx_before ctx ++ (keys l ++ k :: keys r) ++ kctx_after ctx)
      with ((kctx_before ctx ++ keys l) ++ k :: (keys r ++ kctx_after ctx)) in *
      by (by rewrite <- !app_assoc).
    apply ascending_mid in Hasc as (_ & _ & Hlt & Hgt & _).
    rewrite del_mid; [by rewrite <- !app_assoc|..].
    - intros Hin. specialize (Hlt _ Hin). lia.
    - intros Hin. specialize (Hgt _ Hin). lia. }
  destruct Hok as (Hn & Hb & Hc). destruct c.
  - exists (plug ctxx tx). split; [done|]. split; [|done].
    destruct Hc as (? & ? & ?). split; [by rewrite color_of_plug|].
    split; [by apply no_red_red_plug | by apply black_balanced_plug].
  - destruct Hc as (? & ? & ?).
    destruct (del_fix_ok ctxx tx) as (t' & Ef & Hrb' & Hk');
      [by apply no_red_red_blacken | done..|].
    exists t'. split; [done|]. split; [done|]. congruence.
Qed.

End RBModel.

(** * The Red-Black engine: the reachable states *)
Module RBReach.
Import Py PyFacts Keys KeysFacts RB RBFacts RBInsert RBDelete RBUpdate RBColor RBModel.

(** ** More fuel does not change a result *)

Lemma rb_insert_loop_mono fuel : ∀ fuel' k c p, (fuel ≤ fuel')%nat →
  mono (insert_loop fuel k c p) (insert_loop fuel' k c p).
Proof.
  induction fuel as [|fuel IH]; intros fuel' k c p Hle; [apply mono_fail|].
  destruct fuel' as [|fuel']; [lia|]. simpl.
  repeat mono_step; apply IH; lia.
Qed.

Lemma insert_fixup_loop_mono fuel : ∀ fuel' z, (fuel ≤ fuel')%nat →
  mono (insert_fixup_loop fuel z) (insert_fixup_loop fuel' z).
Proof.
  induction fuel as [|fuel IH]; intros fuel' z Hle; [apply mono_fail|].
  destruct fuel' as [|fuel']; [lia|]. simpl.
  repeat mono_step; apply IH; lia.
Qed.

Lemma rb_search_loop_mono fuel : ∀ fuel' k c, (fuel ≤ fuel')%nat →
  mono (search_loop fuel k c) (search_loop fuel' k c).
Proof.
  induction fuel as [|fuel IH]; intros fuel' k c Hle; [apply mono_fail|].
  destruct fuel' as [|fuel']; [lia|]. cbn [search_loop].
  repeat mono_step; apply IH; lia.
Qed.

Lemma minimum_mono fuel : ∀ fuel' x, (fuel ≤ fuel')%nat →
  mono (_minimum fuel x) (_minimum fuel' x).
Proof.
  induction fuel as [|fuel IH]; intros fuel' x Hle; [apply mono_fail|].
  destruct fuel' as [|fuel']; [lia|]. simpl.
  repeat mono_step. apply IH. lia.
Qed.

Lemma search_node_loop_mono fuel : ∀ fuel' k c, (fuel ≤ fuel')%nat →
  mono (_search_node_loop fuel k c) (_search_node_loop fuel' k c).
Proof.
  induction fuel as [|fuel IH]; intros fuel' k c Hle; [apply mono_fail|].
  destruct fuel' as [|fuel']; [lia|]. cbn [_search_node_loop].
  repeat mono_step; apply IH; lia.
Qed.

Lemma delete_fixup_loop_mono fuel : ∀ fuel' x, (fuel ≤ fuel')%nat →
  mono (delete_fixup_loop fuel x) (delete_fixup_loop fuel' x).
Proof.
  induction fuel as [|fuel IH]; intros fuel' x Hle; [apply mono_fail|].
  destruct fuel' as [|fuel']; [lia|]. cbn [delete_fixup_loop].
  repeat mono_step; apply IH; lia.
Qed.

Lemma rb_insert_mono fuel fuel' k : (fuel ≤ fuel')%nat →
  mono (insert fuel k) (insert fuel' k).
Proof.
  intros Hle. unfold insert, _insert_fixup.
  repeat mono_step;
    first [by apply rb_insert_loop_mono | by apply insert_fixup_loop_mono].
Qed.

Lemma rb_search_mono fuel fuel' k : (fuel ≤ fuel')%nat →
  mono (search fuel k) (search fuel' k).
Proof. intros Hle. unfold search. repeat mono_step. by apply rb_search_loop_mono. Qed.

Lemma rb_delete_mono fuel fuel' k : (fuel ≤ fuel')%nat →
  mono (delete fuel k) (delete fuel' k).
Proof.
  intros Hle. unfold delete, _search_node, delete_node, delete_two_children,
    _delete_fixup.
  repeat mono_step;
    first [ by apply search_node_loop_mono | by apply minimum_mono
          | by apply delete_fixup_loop_mono ].
Qed.

Lemma rb_run_op_mono fuel fuel' o st st' : (fuel ≤ fuel')%nat →
  run_op fuel o st = Some st' → run_op fuel' o st = Some st'.
Proof.
  intros Hle. destruct o as [k|k|k]; simpl.
  - destruct (insert fuel k st) as [[u s]|] eqn:E; [|done].
    by rewrite (rb_insert_mono _ _ _ Hle _ _ E).
  - destruct (search fuel k st) as [[u s]|] eqn:E; [|done].
    by rewrite (rb_search_mono _ _ _ Hle _ _ E).
  - destruct (delete fuel k st) as [[u s]|] eqn:E; [|done].
    by rewrite (rb_delete_mono _ _ _ Hle _ _ E).
Qed.

(** ** The invariant of the reachable states *)



Lemma rb_init_holds : holds init Leaf.
Proof.
  split; [|done]. split; [done|]. split; [done|]. split.
  - apply NoDup_singleton.
  - by eexists.
Qed.

Lemma rb_insert_holds fuel k st t :
  holds st t → enough fuel t →
  ∃ st' t', insert fuel k st = Some (tt, st') ∧ holds st' t' ∧
            keys t' = ins k (keys t) ∧ NIL st' = NIL st.
Proof.
  intros (H & Hrb & Hasc & Hsize) Hfuel. unfold enough in Hfuel.
  destruct (rb_insert_spec fuel k t st
              (λ _ st', ∃ t', holds st' t' ∧ keys t' = ins k (keys t) ∧
                              NIL st' = NIL st))
    as ([] & st' & E & t' & Hh & Hk & Hn); [done | lia | | |].
  - intros n _. destruct (insert_tree_ok k n t Hrb Hasc) as (t' & -> & _). by eexists.
  - intros st' n t' _ Et H' Hn Hs.
    destruct (insert_tree_ok k n t Hrb Hasc) as (t'' & Et' & Hrb' & Hk).
    rewrite Et in Et'. simplify_eq. exists t''. split; [|done].
    split; [done|]. split; [done|]. rewrite Hk. split; [by apply ascending_ins|].
    rewrite Hs, Hsize. destruct (inserts k t) eqn:Ei.
    + apply rb_inserts_spec in Ei; [|done]. rewrite length_ins by done. lia.
    + rewrite ins_elem; [lia | done |].
      destruct (decide (k ∈ keys t)) as [|Hn']; [done|].
      apply rb_inserts_spec in Hn'; [congruence | done].
  - by exists st', t'.
Qed.

Lemma rb_search_holds fuel k st t :
  holds st t → enough fuel t →
  search fuel k st = Some (bool_decide (k ∈ keys t), st).
Proof.
  intros (H & Hrb & Hasc & Hsize) Hfuel. unfold enough in Hfuel.
  destruct (rb_search_spec fuel k t st
              (λ b st', b = bool_decide (k ∈ keys t) ∧ st' = st))
    as (b & st' & E & -> & ->); [done | lia | | done].
  split; [|done]. destruct (finds k t) eqn:Ef.
  - apply rb_finds_spec in Ef; [|done]. by rewrite bool_decide_eq_true_2.
  - rewrite bool_decide_eq_false_2; [done|]. intros Hin.
    apply rb_finds_spec in Hin; [congruence|done].
Qed.

Lemma rb_delete_holds fuel k st t :
  holds st t → enough fuel t →
  ∃ st' t', delete fuel k st = Some (tt, st') ∧ holds st' t' ∧
            keys t' = del k (keys t) ∧ NIL st' = NIL st.
Proof.
  intros (H & Hrb & Hasc & Hsize) Hfuel. unfold enough in Hfuel.
  destruct (delete_tree_ok k t Hrb Hasc) as (t' & Et & Hrb' & Hk).
  destruct (rb_delete_spec fuel k t st t'
              (λ _ st', holds st' t' ∧ NIL st' = NIL st))
    as ([] & st' & E & Hh & Hn); [done | done | lia | |].
  - intros st' H' Hn Hs. split; [|done]. split; [done|]. split; [done|].
    rewrite Hk. split; [by apply ascending_del|].
    rewrite Hs, Hsize. destruct (finds k t) eqn:Ef.
    + apply rb_finds_spec in Ef; [|done].
      pose proof (length_del k (keys t) (ascending_NoDup _ Hasc) Ef). lia.
    + rewrite del_notin; [lia|]. intros Hin.
      apply rb_finds_spec in Hin; [congruence | done].
  - by exists st', t'.
Qed.

Lemma rb_run_op_holds fuel o st t :
  holds st t → enough fuel t →
  ∃ st' t', run_op fuel o st = Some st' ∧ holds st' t' ∧
            keys t' = model_op (keys t) o.
Proof.
  intros Hh Hfuel. destruct o as [k|k|k]; simpl.
  - destruct (rb_insert_holds fuel k st t Hh Hfuel) as (st' & t' & -> & ? & ? & _).
    by exists st', t'.
  - rewrite (rb_search_holds fuel k st t Hh Hfuel). by exists st, t.
  - destruct (rb_delete_holds fuel k st t Hh Hfuel) as (st' & t' & -> & ? & ? & _).
    by exists st', t'.
Qed.

Lemma rb_run_op_holds_any fuel o st st' t :
  holds st t → run_op fuel o st = Some st' →
  ∃ t', holds st' t' ∧ keys t' = model_op (keys t) o.
Proof.
  intros Hh E.
  set (F := Nat.max fuel (height t + 3)).
  destruct (rb_run_op_holds F o st t Hh) as (st'' & t' & E' & Hh' & Hk).
  { unfold enough, F. lia. }
  apply (rb_run_op_mono fuel F) in E; [|unfold F; lia].
  exists t'. split; [congruence | done].
Qed.

Lemma rb_run_ops_holds fuel : ∀ os st st' t,
  holds st t → run_ops fuel os st = Some st' →
  ∃ t', holds st' t' ∧ keys t' = foldl model_op (keys t) os.
Proof.
  induction os as [|o os IH]; intros st st' t Hh; simpl.
  - intros [= <-]. by exists t.
  - destruct (run_op fuel o st) as [st1|] eqn:E; simpl; [|done].
    intros Hrun. destruct (rb_run_op_holds_any _ _ _ _ _ Hh E) as (t1 & Hh1 & Hk1).
    destruct (IH _ _ _ Hh1 Hrun) as (t' & Hh' & Hk). exists t'. split; [done|].
    by rewrite Hk, Hk1.
Qed.

Lemma rb_reachable_holds st : reachable st → ∃ t, holds st t.
Proof.
  intros (fuel & os & Hrun).
  destruct (rb_run_ops_holds fuel os init st Leaf rb_init_holds Hrun) as (t & Hh & _).
  by exists t.
Qed.

Lemma rb_reachable_step fuel o st st' :
  reachable st → run_op fuel o st = Some st' → reachable st'.
Proof.
  intros (fuel0 & os & Hrun) Hstep.
  exists (Nat.max fuel fuel0), (os ++ [o]).
  assert (∀ os st0 st1, run_ops fuel0 os st0 = Some st1 →
                        run_ops (Nat.max fuel fuel0) os st0 = Some st1) as Hm.
  { clear. induction os as [|o os IH]; intros st0 st1; simpl; [done|].
    destruct (run_op fuel0 o st0) as [st2|] eqn:E; simpl; [|done].
    rewrite (rb_run_op_mono fuel0 (Nat.max fuel fuel0) _ _ _ ltac:(lia) E). simpl.
    apply IH. }
  apply Hm in Hrun. revert Hrun. generalize init.
  induction os as [|o' os IH]; intros st0; simpl.
  - intros [= ->].
    rewrite (rb_run_op_mono fuel (Nat.max fuel fuel0) _ _ _ ltac:(lia) Hstep).
    done.
  - destruct (run_op (Nat.max fuel fuel0) o' st0); simpl; [apply IH | done].
Qed.

End RBReach.

(** * The Red-Black engine: what can be observed of a state *)
Module RBObs.
Import Py PyFacts Keys KeysFacts RB RBFacts RBInsert RBDelete RBUpdate RBColor RBModel RBReach.

(** ** Reading the store gives the tree it holds *)

Lemma rb_read_rep h nil : ∀ t par fuel,
  rep h nil par t → nil ∉ locs t → (height t < fuel)%nat →
  read fuel h nil (root_of nil t) = Some t.
Proof.
  induction t as [|c l IHl a k r IHr]; intros par fuel Hrep Hnil Hfuel;
    (destruct fuel as [|fuel]; [lia|]); simpl.
  { by rewrite bool_decide_eq_true_2. }
  destruct Hrep as (Ha & Hl & Hr). simpl in Hnil.
  rewrite bool_decide_eq_false_2 by set_solver. rewrite Ha. simpl in *.
  rewrite (IHl _ _ Hl), (IHr _ _ Hr) by (set_solver || lia). done.
Qed.

Lemma rb_read_mono h nil : ∀ fuel fuel' x t,
  read fuel h nil x = Some t → (fuel ≤ fuel')%nat → read fuel' h nil x = Some t.
Proof.
  induction fuel as [|fuel IH]; intros fuel' x t; [done|].
  destruct fuel' as [|fuel']; [lia|]. simpl.
  destruct x as [a|]; [|done]. simpl. destruct (bool_decide (a = nil)); [done|].
  destruct (h !! a) as [n|]; [|done]. simpl.
  destruct (key n) as [k|]; [|done]. simpl.
  destruct (read fuel h nil (left n)) as [l|] eqn:El; [|done]. simpl.
  destruct (read fuel h nil (right n)) as [r|] eqn:Er; [|done]. simpl.
  intros E Hle. rewrite (IH fuel' _ _ El), (IH fuel' _ _ Er) by lia. done.
Qed.

Lemma rb_traverse_read h nil : ∀ fuel x,
  traverse fuel h nil x = keys <$> read fuel h nil x.
Proof.
  induction fuel as [|fuel IH]; intros x; [done|]. simpl.
  destruct x as [a|]; [|done]. simpl. destruct (bool_decide (a = nil)); [done|].
  destruct (h !! a) as [n|]; [|done]. simpl.
  destruct (key n) as [k|]; [|done]. simpl.
  rewrite !IH. destruct (read fuel h nil (left n)); [|done]. simpl.
  by destruct (read fuel h nil (right n)).
Qed.

Lemma rb_tree_of_represents st t fuel :
  represents st t → (height t < fuel)%nat → tree_of fuel st = Some t.
Proof.
  intros (Hroot & Hrep & HND & _) Hfuel. unfold tree_of. rewrite Hroot.
  eapply rb_read_rep; [done | | done]. by apply NoDup_cons in HND as [? _].
Qed.

Lemma rb_tree_of_unique st t fuel t' :
  represents st t → tree_of fuel st = Some t' → t' = t.
Proof.
  intros H E.
  pose proof (rb_tree_of_represents st t (Nat.max fuel (S (height t))) H ltac:(lia)) as E'.
  apply (rb_read_mono _ _ _ (Nat.max fuel (S (height t)))) in E; [|lia].
  unfold tree_of in E'. congruence.
Qed.

Lemma rb_traverse_represents st t fuel :
  represents st t → (height t < fuel)%nat →
  traverse fuel (heap st) (NIL st) (root st) = Some (keys t).
Proof.
  intros H Hfuel. rewrite rb_traverse_read.
  pose proof (rb_tree_of_represents _ _ _ H Hfuel) as E. unfold tree_of in E.
  by rewrite E.
Qed.

(** ** Parent links *)

(** A reachable reference is the root of a subtree of the tree. *)
Lemma rb_reach_focus st t x :
  represents st t → reach st x →
  ∃ ctx s, t = plug ctx s ∧ x = root_of (NIL st) s.
Proof.
  intros H. induction 1 as [|a n _ IH Ha Hn|a n _ IH Ha Hn].
  - exists [], t. split; [done | apply H].
  - destruct IH as (ctx & s & -> & Hs).
    destruct s as [|c l b k r]; simpl in Hs; simplify_eq.
    rewrite (rb_focus_lookup _ _ _ _ _ _ _ H) in Hn. simplify_eq. simpl.
    by exists (FL c b k r :: ctx), l.
  - destruct IH as (ctx & s & -> & Hs).
    destruct s as [|c l b k r]; simpl in Hs; simplify_eq.
    rewrite (rb_focus_lookup _ _ _ _ _ _ _ H) in Hn. simplify_eq. simpl.
    by exists (FR c l b k :: ctx), r.
Qed.

Lemma rb_represents_parents st t : represents st t → parents_consistent st.
Proof.
  intros H. split.
  - intros a n Hroot Ha Hn. destruct H as (Hr & Hrep & _).
    rewrite Hr in Hroot. destruct t as [|c l b k r]; simpl in Hroot; simplify_eq.
    simpl in Hrep. destruct Hrep as (Hb & _).
    rewrite Hb in Hn. by simplify_eq.
  - intros a n c m Hreach Ha Hn Hc Hcn Hm.
    destruct (rb_reach_focus _ _ _ H Hreach) as (ctx & s & -> & Hs).
    destruct s as [|co l b k r]; simpl in Hs; simplify_eq.
    rewrite (rb_focus_lookup _ _ _ _ _ _ _ H) in Hn. simplify_eq. simpl in Hc.
    destruct H as (_ & Hrep & _). apply rb_rep_plug in Hrep as [Hrep _].
    simpl in Hrep. destruct Hrep as (_ & Hl & Hr).
    destruct Hc as [Hc|Hc].
    + destruct l as [|lc ll lb lk lr]; simpl in Hc, Hl; simplify_eq.
      destruct Hl as (Hl & _). rewrite Hl in Hm. by simplify_eq.
    + destruct r as [|rc rl rb rk rr]; simpl in Hc, Hr; simplify_eq.
      destruct Hr as (Hr & _). rewrite Hr in Hm. by simplify_eq.
Qed.

(** ** Black counts *)

Lemma black_counts_balanced t :
  black_balanced t → ∀ n, n ∈ black_counts t → n = black_height t.
Proof.
  induction t as [|c l IHl a k r IHr]; simpl.
  - intros _ n Hn. set_solver.
  - intros (E & Hl & Hr) n Hn.
    apply list_elem_of_In, in_map_iff in Hn as (m & <- & Hm%list_elem_of_In).
    apply elem_of_app in Hm as [Hm|Hm].
    + by rewrite (IHl Hl _ Hm).
    + by rewrite (IHr Hr _ Hm), E.
Qed.

End RBObs.

(** * The Red-Black engine: sequences of operations *)
Module RBRun.
Import Py PyFacts Keys KeysFacts KeysModel RB RBFacts RBInsert RBDelete RBUpdate RBColor RBModel RBReach RBObs.

Lemma rb_run_ops_mono fuel fuel' : (fuel ≤ fuel')%nat → ∀ os st st',
  run_ops fuel os st = Some st' → run_ops fuel' os st = Some st'.
Proof.
  intros Hle. induction os as [|o os IH]; intros st st'; simpl; [done|].
  destruct (run_op fuel o st) as [st1|] eqn:E; simpl; [|done].
  rewrite (rb_run_op_mono fuel fuel' _ _ _ Hle E). simpl. apply IH.
Qed.

Lemma rb_run_ops_app fuel os1 os2 st :
  run_ops fuel (os1 ++ os2) st = st' ← run_ops fuel os1 st; run_ops fuel os2 st'.
Proof.
  revert st. induction os1 as [|o os1 IH]; intros st; simpl; [done|].
  destruct (run_op fuel o st) as [st1|]; simpl; [apply IH | done].
Qed.

(** Every sequence of operations runs to the end, given enough fuel. *)
Lemma rb_run_ops_total os :
  ∃ fuel st t, run_ops fuel os init = Some st ∧ holds st t ∧ keys t = model os.
Proof.
  induction os as [|o os IH] using rev_ind.
  { exists O, init, Leaf. split; [done|]. split; [apply rb_init_holds | done]. }
  destruct IH as (fuel & st & t & Hrun & Hh & Hk).
  pose (F := (height t + 3)%nat).
  destruct (rb_run_op_holds F o st t Hh) as (st' & t' & E & Hh' & Hk');
    [unfold enough, F; lia|].
  assert (HF : (F ≤ Nat.max fuel F)%nat) by lia.
  assert (Hf : (fuel ≤ Nat.max fuel F)%nat) by lia.
  clearbody F.
  exists (Nat.max fuel F), st', t'.
  split; [|split; [done|]].
  - rewrite rb_run_ops_app.
    rewrite (rb_run_ops_mono _ _ Hf _ _ _ Hrun). simpl.
    by rewrite (rb_run_op_mono _ _ _ _ _ HF E).
  - unfold model. rewrite foldl_app. simpl. fold (model os). by rewrite Hk', Hk.
Qed.

Lemma rb_holds_traverse st t fuel :
  holds st t → enough fuel t →
  traverse fuel (heap st) (NIL st) (root st) = Some (keys t).
Proof.
  intros (H & _) Hf. apply rb_traverse_represents; [done|].
  unfold enough in Hf. lia.
Qed.

Lemma rb_holds_tree_of st t fuel :
  holds st t → enough fuel t → tree_of fuel st = Some t.
Proof.
  intros (H & _) Hf. apply rb_tree_of_represents; [done|].
  unfold enough in Hf. lia.
Qed.

(** The colors of the root and of the sentinel in a state that holds a
    Red-Black tree. *)
Lemma holds_root_black st t :
  holds st t →
  (∃ a n, root st = Some a ∧ heap st !! a = Some n ∧ color n = BLACK) ∧
  (∃ n, heap st !! NIL st = Some n ∧ color n = BLACK).
Proof.
  intros ((Hr & Hrep & _ & [p Hp]) & (Hc & _) & _). split; [|by eexists].
  destruct t as [|c l a k r]; simpl in *.
  - by eexists _, _.
  - destruct Hrep as (Ha & _). subst c. by eexists _, _.
Qed.

Lemma tree_leaf_keys t : keys t = [] → t = Leaf.
Proof.
  destruct t as [|c l a k r]; [done|]. simpl. intros E.
  by apply app_eq_nil in E as [_ ?].
Qed.

End RBRun.

(** * More about the AVL engine *)
Module AVLMore.
Import Keys KeysFacts KeysModel AVL AVLFacts.

(** ** Rotations *)

Lemma avl_rotate_right_inorder z y : rotate_right z = Some y → inorder y = inorder z.
Proof.
  destruct z as [|zk [|yk yl T3 yh] zr zh]; simpl; try done.
  intros [= <-]. simpl. by rewrite <- app_assoc.
Qed.

Lemma avl_rotate_left_inorder z y : rotate_left z = Some y → inorder y = inorder z.
Proof.
  destruct z as [|zk zl [|yk T2 yr yh] zh]; simpl; try done.
  intros [= <-]. simpl. by rewrite <- app_assoc.
Qed.

Lemma avl_rotate_right_left z y :
  heights_ok z → rotate_right z = Some y → rotate_left y = Some z.
Proof.
  destruct z as [|zk [|yk yl T3 yh] zr zh]; simpl; try done.
  intros (-> & (-> & _) & _) [= <-]. simpl. done.
Qed.

Lemma avl_rotate_left_right z y :
  heights_ok z → rotate_left z = Some y → rotate_right y = Some z.
Proof.
  destruct z as [|zk zl [|yk T2 yr yh] zh]; simpl; try done.
  intros (-> & _ & (-> & _)) [= <-]. simpl. done.
Qed.

Lemma avl_rotate_right_heights z y :
  heights_ok z → rotate_right z = Some y → heights_ok y.
Proof.
  destruct z as [|zk [|yk yl T3 yh] zr zh]; simpl; try done.
  intros (-> & (-> & Hyl & HT3) & Hzr) [= <-]. simpl. done.
Qed.

Lemma avl_rotate_left_heights z y :
  heights_ok z → rotate_left z = Some y → heights_ok y.
Proof.
  destruct z as [|zk zl [|yk T2 yr yh] zh]; simpl; try done.
  intros (-> & Hzl & (-> & HT2 & Hyr)) [= <-]. simpl. done.
Qed.

(** ** The leftmost node *)


(** ** Inserting a stored key *)

Lemma avl_insert_rebalance_same k l r h key :
  heights_ok (Node k l r h) → balanced (Node k l r h) →
  insert_rebalance (Node k l r h) key false = Some (Node k l r h, false).
Proof.
  intros (Hh & _) (Hb & _). unfold insert_rebalance. simpl.
  rewrite <- Hh. unfold and_key. simpl.
  destruct (Z.ltb_spec 1 (get_height l - get_height r)); [lia|].
  destruct (Z.ltb_spec (get_height l - get_height r) (-1)); [lia|].
  done.
Qed.

Lemma avl_insert_helper_dup t key :
  heights_ok t → balanced t → ascending (inorder t) → key ∈ inorder t →
  _insert_helper t key = Some (t, false).
Proof.
  induction t as [|k l IHl r IHr h]; [by inversion 4|].
  intros Hh Hb Hasc Hin.
  destruct (inorder_node_asc _ _ _ _ Hasc) as (Al & Ar & Hlt & Hgt).
  pose proof Hh as (_ & Hl & Hr). pose proof Hb as (_ & Bl & Br).
  simpl in Hin. apply elem_of_app in Hin as [Hin|Hin].
  - specialize (Hlt _ Hin). simpl.
    destruct (Z.ltb_spec key k); [|lia].
    rewrite (IHl Hl Bl Al Hin). simpl. by apply avl_insert_rebalance_same.
  - apply elem_of_cons in Hin as [->|Hin].
    + simpl. by rewrite Z.ltb_irrefl.
    + specialize (Hgt _ Hin). simpl.
      destruct (Z.ltb_spec key k); [lia|]. destruct (Z.ltb_spec k key); [|lia].
      rewrite (IHr Hr Br Ar Hin). simpl. by apply avl_insert_rebalance_same.
Qed.

Lemma avl_insert_dup k t :
  avl_inv t → k ∈ inorder (root t) → insert k t = Some t.
Proof.
  intros (Hh & Hb & Hasc) Hin. unfold insert.
  rewrite (avl_insert_helper_dup _ _ Hh Hb Hasc Hin). simpl. by destruct t.
Qed.

(** ** Searching *)

Lemma avl_search_decide k t :
  avl_inv t → search k t = bool_decide (k ∈ inorder (root t)).
Proof.
  intros (_ & _ & Hasc). unfold search.
  pose proof (search_helper_spec (root t) k Hasc) as Hs.
  case_bool_decide as Hin; [by apply Hs|].
  destruct (_search_helper (root t) k); [|done]. destruct Hin. by apply Hs.
Qed.

Lemma avl_search_after_insert k t :
  avl_inv t →
  ∃ t', insert k t = Some t' ∧ avl_inv t' ∧ search k t' = true ∧
        (∀ j, j ≠ k → search j t' = search j t) ∧
        size t' = size t + (if search k t then 0 else 1).
Proof.
  intros Hinv. destruct (insert_total k t Hinv) as (t' & E & Hinv' & Hk & Hs).
  exists t'. split; [done|]. split; [done|].
  rewrite !(avl_search_decide _ _ Hinv'), (avl_search_decide _ _ Hinv), Hk.
  split; [|split].
  - apply bool_decide_eq_true. apply elem_of_ins. by left.
  - intros j Hj. rewrite !(avl_search_decide _ _ Hinv'), (avl_search_decide _ _ Hinv), Hk.
    apply bool_decide_ext. rewrite elem_of_ins. tauto.
  - rewrite Hs. case_bool_decide; lia.
Qed.

Lemma avl_search_after_delete k t :
  avl_inv t →
  ∃ t', delete k t = Some t' ∧ avl_inv t' ∧ search k t' = false ∧
        (∀ j, j ≠ k → search j t' = search j t).
Proof.
  intros Hinv. destruct (delete_total k t Hinv) as (t' & E & Hinv' & Hk & Hs).
  exists t'. split; [done|]. split; [done|].
  rewrite (avl_search_decide _ _ Hinv'), Hk. split.
  - apply bool_decide_eq_false. rewrite elem_of_del. tauto.
  - intros j Hj. rewrite (avl_search_decide _ _ Hinv'), (avl_search_decide _ _ Hinv), Hk.
    apply bool_decide_ext. rewrite elem_of_del. tauto.
Qed.

(** ** The size counter *)

Lemma avl_run_ops_size os : ∀ t,
  avl_inv t →
  ∃ t', run_ops os t = Some t' ∧ avl_inv t' ∧
        size t' - Z.of_nat (length (inorder (root t'))) =
        size t - Z.of_nat (length (inorder (root t)))
        - absent_deletes (inorder (root t)) os.
Proof.
  induction os as [|o os IH]; intros t Hinv.
  - exists t. simpl. split; [done|]. split; [done|]. lia.
  - pose proof Hinv as (_ & _ & Hasc). destruct o as [k|k|k].
    + destruct (insert_total k t Hinv) as (t1 & E & Hinv1 & Hk & Hs).
      destruct (IH t1 Hinv1) as (t' & E' & Hinv' & Hs').
      exists t'. cbn [run_ops run_op]. rewrite E. simpl.
      split; [done|]. split; [done|]. rewrite Hs', Hk, Hs.
      rewrite (length_ins_count k _ Hasc). repeat case_bool_decide; lia.
    + destruct (IH t Hinv) as (t' & E' & Hinv' & Hs').
      exists t'. cbn [run_ops run_op]. simpl.
      split; [done|]. split; [done|]. rewrite Hs'. lia.
    + destruct (delete_total k t Hinv) as (t1 & E & Hinv1 & Hk & Hs).
      destruct (IH t1 Hinv1) as (t' & E' & Hinv' & Hs').
      exists t'. cbn [run_ops run_op]. rewrite E. simpl.
      split; [done|]. split; [done|]. rewrite Hs', Hk, Hs.
      rewrite (length_del_count k _ Hasc). repeat case_bool_decide; lia.
Qed.

(** ** The height *)

Lemma avl_height_log t :
  heights_ok t → balanced t →
  2 ^ (get_height t / 2) <= Z.of_nat (length (inorder t)) + 1.
Proof.
  induction t as [|k l IHl r IHr h]; [intros _ _; by cbv|].
  intros (-> & Hl & Hr) (Hb & Bl & Br).
  specialize (IHl Hl Bl). specialize (IHr Hr Br).
  pose proof (get_height_nonneg _ Hl) as Pl.
  pose proof (get_height_nonneg _ Hr) as Pr.
  cbn [get_height inorder]. rewrite length_app. cbn [length].
  set (hl := get_height l) in *. set (hr := get_height r) in *.
  set (e := (1 + Z.max hl hr) / 2).
  assert (He : 0 <= e) by (unfold e; apply Z.div_pos; lia).
  destruct (decide (e = 0)) as [->|Hne]; [simpl; lia|].
  assert (E : 2 ^ e = 2 * 2 ^ (e - 1)).
  { rewrite <- Z.pow_succ_r by lia. f_equal. lia. }
  assert (e - 1 <= hl / 2 ∧ e - 1 <= hr / 2) as [H1 H2].
  { unfold e. clearbody hl hr. clear -Hb Pl Pr.
    pose proof (Z.div_mod (1 + Z.max hl hr) 2 ltac:(lia)).
    pose proof (Z.mod_pos_bound (1 + Z.max hl hr) 2 ltac:(lia)).
    pose proof (Z.div_mod hl 2 ltac:(lia)).
    pose proof (Z.mod_pos_bound hl 2 ltac:(lia)).
    pose proof (Z.div_mod hr 2 ltac:(lia)).
    pose proof (Z.mod_pos_bound hr 2 ltac:(lia)). lia. }
  pose proof (Z.pow_le_mono_r 2 (e - 1) (hl / 2) ltac:(lia) H1).
  pose proof (Z.pow_le_mono_r 2 (e - 1) (hr / 2) ltac:(lia) H2).
  lia.
Qed.

(** ** Deleting a key that is not stored *)

Lemma avl_delete_rebalance_same k l r h :
  heights_ok (Node k l r h) → balanced (Node k l r h) →
  delete_rebalance (Node k l r h) = Some (Node k l r h).
Proof.
  intros (Hh & _) (Hb & _). unfold delete_rebalance. simpl.
  rewrite <- Hh.
  destruct (Z.ltb_spec 1 (get_height l - get_height r)); [lia|].
  destruct (Z.ltb_spec (get_height l - get_height r) (-1)); [lia|].
  done.
Qed.

Lemma avl_delete_helper_absent t key :
  heights_ok t → balanced t → ascending (inorder t) → key ∉ inorder t →
  _delete_helper t key = Some t.
Proof.
  induction t as [|k l IHl r IHr h]; [done|].
  intros Hh Hb Hasc Hin.
  destruct (inorder_node_asc _ _ _ _ Hasc) as (Al & Ar & Hlt & Hgt).
  pose proof Hh as (_ & Hl & Hr). pose proof Hb as (_ & Bl & Br).
  simpl in Hin. apply not_elem_of_app in Hin as [Hinl Hin].
  apply not_elem_of_cons in Hin as [Hne Hinr]. simpl.
  destruct (Z.ltb_spec key k).
  - rewrite (IHl Hl Bl Al Hinl). simpl. by apply avl_delete_rebalance_same.
  - destruct (Z.ltb_spec k key); [|lia].
    rewrite (IHr Hr Br Ar Hinr). simpl. by apply avl_delete_rebalance_same.
Qed.

Lemma avl_delete_absent k t :
  avl_inv t → k ∉ inorder (root t) →
  delete k t = Some {| root := root t; size := size t - 1 |}.
Proof.
  intros (Hh & Hb & Hasc) Hin. unfold delete.
  by rewrite (avl_delete_helper_absent _ _ Hh Hb Hasc Hin).
Qed.

End AVLMore.

(** * More about the Splay engine *)
Module SplayMore.
Import Py PyFacts Keys KeysFacts KeysModel Splay SplayFacts SplayUpdate SplayModel SplayObs SplayRun.

(** ** The leftmost and the rightmost node of a subtree *)








(** ** The root after an insert *)

Lemma splay_insert_path_key k : ∀ t ctx c s,
  insert_path k ctx t = (c, s) → s = Leaf ∨ ∃ l a r, s = T l a k r.
Proof.
  induction t as [|l IHl a ka r IHr]; intros ctx c s; simpl.
  - intros [= <- <-]. by left.
  - destruct (Z.ltb_spec k ka); [apply IHl|].
    destruct (Z.ltb_spec ka k); [apply IHr|].
    intros [= <- <-]. right. assert (ka = k) as -> by lia. by eexists _, _, _.
Qed.

Lemma splay_insert_tree_root k n t : ∃ l a r, insert_tree k n t = T l a k r.
Proof.
  unfold insert_tree. destruct (insert_path k [] t) as [c s] eqn:E.
  destruct (splay_insert_path_key _ _ _ _ _ E) as [->|(l & a & r & ->)].
  - destruct (splay_tree_root c Leaf n k Leaf) as (a' & b' & ->). by eexists _, _, _.
  - destruct (splay_tree_root c l a k r) as (a' & b' & ->). by eexists _, _, _.
Qed.

Lemma splay_holds_root_key st l a k r :
  holds st (T l a k r) →
  root st = Some a ∧ ∃ n, heap st !! a = Some n ∧ key n = k ∧ parent n = None.
Proof.
  intros ((Hr & Hrep & _) & _). split; [done|]. destruct Hrep as (Ha & _).
  by eexists.
Qed.

Lemma splay_insert_holds fuel k st t :
  holds st t → enough fuel t →
  ∃ st' n, insert fuel k st = Some (tt, st') ∧ holds st' (insert_tree k n t) ∧
           keys (insert_tree k n t) = ins k (keys t).
Proof.
  intros Hh Hf. destruct (run_op_holds fuel (Insert k) st t Hh Hf)
    as (st' & n & E & Hh' & Hk).
  exists st', n. split; [|done]. simpl in E.
  destruct (insert fuel k st) as [[[] st1]|]; simpl in E; by simplify_eq.
Qed.

(** ** Searching twice *)

Lemma splay_search_at_root fuel st l a k r :
  represents st (T l a k r) → search (S fuel) k st = Some (true, st).
Proof.
  intros (Hr & (Ha & _) & _). unfold search, get_root, bind. rewrite Hr.
  cbn [search_loop root_of truthy]. unfold get_key, load, bind. rewrite Ha.
  cbn [ret key]. rewrite Z.eqb_refl. cbn [splay].
  unfold get_parent, load, bind. rewrite Ha. by cbn.
Qed.

(** ** Deleting a key that is not stored *)

Lemma splay_delete_absent fuel k st st' :
  search fuel k st = Some (false, st') → delete fuel k st = Some (tt, st').
Proof. intros E. unfold delete, bind. by rewrite E. Qed.

(** ** What [search] says before and after an update *)

Lemma splay_search_answer f k st t b st' :
  holds st t → search f k st = Some (b, st') →
  b = bool_decide (k ∈ keys t) ∧ holds st' (search_tree k t).
Proof.
  intros Hh E.
  apply (search_mono f (Nat.max f (S (2 * length (keys t)))) k ltac:(lia)) in E.
  destruct (splay_search_holds (Nat.max f (S (2 * length (keys t)))) k st t Hh)
    as (st1 & E1 & Hh1); [unfold enough; lia|].
  rewrite E1 in E. by simplify_eq.
Qed.

Lemma splay_search_keeps f k st t b st' :
  holds st t → search f k st = Some (b, st') →
  size st' = size st ∧
  ∃ f', traverse f' (heap st) (root st) = Some (keys t) ∧
        traverse f' (heap st') (root st') = Some (keys t).
Proof.
  intros Hh E. destruct (splay_search_answer _ _ _ _ _ _ Hh E) as (_ & Hh').
  split.
  - destruct Hh as (_ & _ & Hs). destruct Hh' as (_ & _ & Hs').
    rewrite Hs', Hs. by rewrite keys_search_tree.
  - exists (S (2 * length (keys t))). split.
    + apply holds_traverse; [done | unfold enough; lia].
    + rewrite <- (keys_search_tree k t). apply holds_traverse; [done|].
      unfold enough. rewrite keys_search_tree. lia.
Qed.

Lemma splay_update_search st t k :
  holds st t →
  ∃ f0, ∀ f, (f0 ≤ f)%nat →
    ∃ st1 st2 st2',
      insert f k st = Some (tt, st1) ∧ search f k st1 = Some (true, st1) ∧
      delete f k st = Some (tt, st2) ∧ search f k st2 = Some (false, st2') ∧
      (∀ j, j ≠ k → ∃ b s s1 s2, search f j st = Some (b, s) ∧
                                 search f j st1 = Some (b, s1) ∧
                                 search f j st2 = Some (b, s2)).
Proof.
  intros Hh. pose (f0 := (2 * length (keys t) + 4)%nat).
  destruct (splay_insert_holds f0 k st t Hh) as (st1 & n & E1 & Hh1 & K1);
    [unfold enough, f0; lia|].
  destruct (splay_delete_holds f0 k st t Hh) as (st2 & E2 & Hh2 & _);
    [unfold enough, f0; lia|].
  exists f0. intros f Hf.
  assert (L2 : (length (keys (delete_tree k t)) ≤ length (keys t))%nat).
  { destruct Hh as (_ & Hasc & _). rewrite keys_delete_tree by done.
    pose proof (length_del_count k _ Hasc). case_bool_decide; lia. }
  destruct (splay_search_holds f k st2 _ Hh2) as (st2' & E2' & _);
    [unfold enough, f0 in *; lia|].
  exists st1, st2, st2'.
  split; [apply (insert_mono f0 f k Hf), E1|].
  split.
  { destruct (splay_insert_tree_root k n t) as (l & a & r & Et).
    rewrite Et in Hh1. destruct f as [|f]; [unfold f0 in Hf; lia|].
    apply (splay_search_at_root f st1 l a k r), Hh1. }
  split; [apply (delete_mono f0 f k Hf), E2|].
  pose proof Hh as (_ & Hasc & _).
  split.
  { rewrite E2'. do 2 f_equal. apply bool_decide_eq_false.
    rewrite keys_delete_tree by done. rewrite elem_of_del. tauto. }
  intros j Hj.
  assert (L1 : (length (keys (insert_tree k n t)) ≤ S (length (keys t)))%nat).
  { rewrite K1. pose proof (length_ins_count k _ Hasc). case_bool_decide; lia. }
  destruct (splay_search_holds f j st t Hh) as (s & Es & _);
    [unfold enough, f0 in *; lia|].
  destruct (splay_search_holds f j st1 _ Hh1) as (s1 & Es1 & _);
    [unfold enough, f0 in *; lia|].
  destruct (splay_search_holds f j st2 _ Hh2) as (s2 & Es2 & _);
    [unfold enough, f0 in *; lia|].
  exists (bool_decide (j ∈ keys t)), s, s1, s2. split; [done|]. split.
  - rewrite Es1. do 2 f_equal. apply bool_decide_ext.
    rewrite K1, elem_of_ins. tauto.
  - rewrite Es2. do 2 f_equal. apply bool_decide_ext.
    rewrite keys_delete_tree by done. rewrite elem_of_del. tauto.
Qed.

(** ** Rotations and [splay] as operations of their own *)

Lemma splay_rep_agree h h' : ∀ t par,
  rep h par t → rep h' par t → ∀ a, a ∈ locs t → h' !! a = h !! a.
Proof.
  induction t as [|l IHl b k r IHr]; intros par H H' a Ha; [by inversion Ha|].
  destruct H as (Hb & Hl & Hr). destruct H' as (Hb' & Hl' & Hr').
  simpl in Ha. apply elem_of_app in Ha as [Ha|Ha]; [by apply (IHl (Some b))|].
  apply elem_of_cons in Ha as [->|Ha]; [congruence | by apply (IHr (Some b))].
Qed.

Lemma splay_state_eq st st' t :
  represents st t → represents st' t →
  (∀ z, z ∉ locs t → heap st' !! z = heap st !! z) → size st' = size st →
  st' = st.
Proof.
  intros (Hr & Hrep & _) (Hr' & Hrep' & _) Hout Hs.
  destruct st as [h r s], st' as [h' r' s']. simpl in *. f_equal; [|congruence|done].
  apply map_eq. intros z. destruct (decide (z ∈ locs t)) as [Hz|Hz].
  - by apply (splay_rep_agree h h' t None).
  - by apply Hout.
Qed.

Lemma splay_reach_node st t x :
  represents st t → reach st (Some x) →
  ∃ ctx a kx b, t = plug ctx (T a x kx b).
Proof.
  intros H Hx. destruct (reach_focus _ _ _ H Hx) as (ctx & s & -> & Hs).
  destruct s as [|a x' kx b]; [done|]. simpl in Hs. simplify_eq.
  by exists ctx, a, kx, b.
Qed.

Lemma splay_get_right_inv st ctx a x kx r y :
  represents st (plug ctx (T a x kx r)) →
  get_right (Some x) st = Some (y, st) → root_of r = y.
Proof.
  intros H. unfold get_right, load, bind, ret.
  rewrite (focus_lookup _ _ _ _ _ _ H). simpl. by intros [= <-].
Qed.

Lemma splay_get_left_inv st ctx l x kx b y :
  represents st (plug ctx (T l x kx b)) →
  get_left (Some x) st = Some (y, st) → root_of l = y.
Proof.
  intros H. unfold get_left, load, bind, ret.
  rewrite (focus_lookup _ _ _ _ _ _ H). simpl. by intros [= <-].
Qed.

Lemma splay_rotate_left_right st t x y :
  represents st t → reach st (Some x) →
  get_right (Some x) st = Some (Some y, st) →
  ∃ st1 t1, rotate_left (Some x) st = Some (tt, st1) ∧
            represents st1 t1 ∧ keys t1 = keys t ∧ size st1 = size st ∧
            rotate_right (Some y) st1 = Some (tt, st).
Proof.
  intros H Hx Hy. destruct (splay_reach_node _ _ _ H Hx) as (ctx & a & kx & r & ->).
  pose proof (splay_get_right_inv _ _ _ _ _ _ _ H Hy) as Hr.
  destruct r as [|b y' ky c]; [done|]. simpl in Hr. simplify_eq.
  destruct (rotate_left_spec st ctx a x kx b y ky c
    (λ _ st1, represents st1 (plug ctx (T (T a x kx b) y ky c)) ∧
              size st1 = size st ∧
              rotate_right (Some y) st1 = Some (tt, st)))
    as ([] & st1 & E & H1 & Hs & Hback); [done| |].
  - intros st1 H1 Hs1 Hf1. split; [done|]. split; [done|].
    destruct (rotate_right_spec st1 ctx a x kx b y ky c (λ _ st2, st2 = st))
      as ([] & st2 & E2 & ->); [done | | done].
    intros st2 H2 Hs2 Hf2. apply (splay_state_eq _ _ _ H H2); [|congruence].
    intros z Hz. rewrite Hf2, Hf1; [done | done |].
    revert Hz. apply outside_perm. rewrite !locs_plug. simpl. solve_Permutation.
  - exists st1, (plug ctx (T (T a x kx b) y ky c)). split; [done|].
    split; [done|]. split; [|done]. rewrite !keys_plug. simpl.
    do 2 f_equal. by rewrite <- app_assoc.
Qed.

Lemma splay_rotate_right_left st t x y :
  represents st t → reach st (Some x) →
  get_left (Some x) st = Some (Some y, st) →
  ∃ st1 t1, rotate_right (Some x) st = Some (tt, st1) ∧
            represents st1 t1 ∧ keys t1 = keys t ∧ size st1 = size st ∧
            rotate_left (Some y) st1 = Some (tt, st).
Proof.
  intros H Hx Hy. destruct (splay_reach_node _ _ _ H Hx) as (ctx & l & kx & c & ->).
  pose proof (splay_get_left_inv _ _ _ _ _ _ _ H Hy) as Hl.
  destruct l as [|a y' ky b]; [done|]. simpl in Hl. simplify_eq.
  destruct (rotate_right_spec st ctx a y ky b x kx c
    (λ _ st1, represents st1 (plug ctx (T a y ky (T b x kx c))) ∧
              size st1 = size st ∧
              rotate_left (Some y) st1 = Some (tt, st)))
    as ([] & st1 & E & H1 & Hs & Hback); [done| |].
  - intros st1 H1 Hs1 Hf1. split; [done|]. split; [done|].
    destruct (rotate_left_spec st1 ctx a y ky b x kx c (λ _ st2, st2 = st))
      as ([] & st2 & E2 & ->); [done | | done].
    intros st2 H2 Hs2 Hf2. apply (splay_state_eq _ _ _ H H2); [|congruence].
    intros z Hz. rewrite Hf2, Hf1; [done | done |].
    revert Hz. apply outside_perm. rewrite !locs_plug. simpl. solve_Permutation.
  - exists st1, (plug ctx (T a y ky (T b x kx c))). split; [done|].
    split; [done|]. split; [|done]. rewrite !keys_plug. simpl.
    do 2 f_equal. by rewrite <- app_assoc.
Qed.

(** Without the child that moves up, a rotation raises. *)
Lemma splay_rotate_left_none st x :
  get_right (Some x) st = Some (None, st) → rotate_left (Some x) st = None.
Proof. intros E. unfold rotate_left, bind. by rewrite E. Qed.

Lemma splay_rotate_right_none st x :
  get_left (Some x) st = Some (None, st) → rotate_right (Some x) st = None.
Proof. intros E. unfold rotate_right, bind. by rewrite E. Qed.

(** [splay] on a node of the tree brings it to the root. *)
Lemma splay_to_root st t x :
  holds st t → reach st (Some x) →
  ∃ f0, ∀ f, (f0 ≤ f)%nat →
    ∃ st' t', splay f (Some x) st = Some (tt, st') ∧ holds st' t' ∧
              keys t' = keys t ∧ root st' = Some x.
Proof.
  intros (H & Hasc & Hs) Hx.
  destruct (splay_reach_node _ _ _ H Hx) as (ctx & a & kx & b & ->).
  exists (S (length ctx)). intros f Hf.
  destruct (splay_spec f ctx a x kx b st
    (λ _ st', represents st' (splay_tree ctx (T a x kx b)) ∧ size st' = size st))
    as ([] & st' & E & H' & Hs'); [done | lia | by intros | ].
  exists st', (splay_tree ctx (T a x kx b)). split; [done|].
  rewrite keys_splay_tree. split; [|split; [done|]].
  - split; [done|]. rewrite keys_splay_tree. split; [done | congruence].
  - destruct (splay_tree_root ctx a x kx b) as (a' & b' & Et).
    rewrite Et in H'. apply H'.
Qed.

(** ** Inserting keys in ascending order *)

Lemma splay_insert_spine k n t :
  is_spine t → (∀ y, y ∈ keys t → y < k) → insert_tree k n t = T t n k Leaf.
Proof.
  destruct t as [|l a ka r]; [done|]. intros [-> Hl] Hlt.
  assert (ka < k) by (apply Hlt; simpl; set_solver).
  unfold insert_tree. simpl.
  destruct (Z.ltb_spec k ka); [lia|]. by destruct (Z.ltb_spec ka k); [|lia].
Qed.

Lemma splay_spine_height t : is_spine t → height t = length (keys t).
Proof.
  induction t as [|l IHl a k r _]; [done|]. intros [-> Hl]. simpl.
  rewrite length_app. simpl. rewrite IHl by done. lia.
Qed.

Lemma splay_sequential n :
  ∃ fuel st t,
    run_ops fuel (Insert <$> (Z.of_nat <$> seq 0 n)) init = Some st ∧
    holds st t ∧ is_spine t ∧ keys t = Z.of_nat <$> seq 0 n.
Proof.
  induction n as [|n IH].
  { exists O, init, Leaf. split; [done|]. split; [apply init_holds | done]. }
  destruct IH as (fuel & st & t & Hrun & Hh & Hsp & Hk).
  pose (F := S (2 * length (keys t))).
  destruct (run_op_holds F (Insert (Z.of_nat n)) st t Hh) as (st' & a & E & Hh' & _);
    [unfold enough, F; lia|].
  assert (HF : (F ≤ Nat.max fuel F)%nat) by lia.
  assert (Hf : (fuel ≤ Nat.max fuel F)%nat) by lia.
  clearbody F. cbn [op_tree] in Hh'.
  rewrite (splay_insert_spine _ a t Hsp) in Hh'.
  2:{ intros y Hy. rewrite Hk in Hy. apply list_elem_of_fmap in Hy as (i & -> & Hi).
      apply elem_of_seq in Hi. lia. }
  exists (Nat.max fuel F), st', (T t a (Z.of_nat n) Leaf).
  split; [|split; [done|split; [done|]]].
  - rewrite seq_S, Nat.add_0_l, !fmap_app, splay_run_ops_app.
    rewrite (splay_run_ops_mono _ _ Hf _ _ _ Hrun). cbn [mbind option_bind].
    cbn [fmap list_fmap run_ops].
    by rewrite (run_op_mono _ _ _ _ _ HF E).
  - rewrite seq_S, fmap_app. simpl. by rewrite Hk.
Qed.

(** ** The extremes: raising told apart from running out of fuel *)



End SplayMore.

(** * More about the Red-Black engine *)
Module RBMore.
Import Py PyFacts Keys KeysFacts KeysModel RB RBFacts RBInsert RBDelete RBUpdate RBColor RBModel RBReach RBObs RBRun.

(** ** Inserting a stored key *)

Lemma rb_insert_tree_dup k n t :
  ascending (keys t) → k ∈ keys t → insert_tree k n t = Some t.
Proof.
  intros Hasc Hin. unfold insert_tree.
  pose proof (rb_insert_path_leaf k t [] Hasc) as Hl.
  destruct (insert_path k [] t) as [c s]. destruct s; [|done].
  simpl in Hl. destruct (proj1 Hl eq_refl Hin).
Qed.

Lemma rb_insert_dup fuel k st t :
  holds st t → enough fuel t → k ∈ keys t →
  ∃ st', insert fuel k st = Some (tt, st') ∧ holds st' t ∧
         root st' = root st ∧ size st' = size st ∧ NIL st' = NIL st.
Proof.
  intros (H & Hrb & Hasc & Hsize) Hfuel Hin. unfold enough in Hfuel.
  destruct (rb_insert_spec fuel k t st
              (λ _ st', holds st' t ∧ root st' = root st ∧
                        size st' = size st ∧ NIL st' = NIL st))
    as ([] & st' & E & HQ); [done | lia | | |].
  - intros n _. rewrite rb_insert_tree_dup by done. by eexists.
  - intros st' n t' _ Et H' Hn Hs. rewrite rb_insert_tree_dup in Et by done.
    injection Et as <-. assert (Ei : inserts k t = false).
    { destruct (inserts k t) eqn:Ei; [|done].
      apply rb_inserts_spec in Ei; [done|done]. }
    rewrite Ei in Hs. split; [|split; [|split; [lia|done]]].
    + split; [done|]. split; [done|]. split; [done|]. lia.
    + rewrite (proj1 H'), (proj1 H). by rewrite Hn.
  - by exists st'.
Qed.

(** ** The leftmost node of a subtree *)



Lemma rb_sentinel_not_in st t : represents st t → NIL st ∉ locs t.
Proof. intros (_ & _ & HND & _). by apply NoDup_cons in HND as [? _]. Qed.


(** ** Finding the node of a key *)

Lemma rb_search_node_holds fuel k st t :
  holds st t → enough fuel t →
  ∃ x, _search_node fuel k st = Some (x, st) ∧
       (k ∉ keys t → x = Some (NIL st)) ∧
       (k ∈ keys t → ∃ a n, x = Some a ∧ a ≠ NIL st ∧
                            heap st !! a = Some n ∧ key n = Some k).
Proof.
  intros (H & _ & Hasc & _) Hfuel. unfold enough in Hfuel.
  pose proof (rb_insert_path_leaf k t [] Hasc) as Hleaf.
  destruct (insert_path k [] t) as [c s] eqn:E.
  pose proof (rb_insert_path_plug _ _ _ _ _ E) as Hp. simpl in Hp, Hleaf.
  exists (root_of (NIL st) s).
  split; [|split].
  - unfold _search_node, bind, get_root. rewrite (proj1 H).
    destruct (search_node_loop_spec fuel k [] t st
                (λ z st', z = root_of (NIL st) s ∧ st' = st))
      as (z & st' & E' & -> & ->); [done | lia | by rewrite E | done].
  - intros Hn. apply Hleaf in Hn. by subst s.
  - intros Hin. destruct s as [|cs l a ka r]; [by apply Hleaf in Hin|].
    pose proof (rb_insert_path_key _ _ _ _ _ _ _ _ _ E) as ->.
    rewrite <- Hp in H. eexists a, _. split; [done|].
    split; [|split; [apply (rb_focus_lookup _ _ _ _ _ _ _ H) | done]].
    pose proof (rb_sentinel_not_in _ _ H) as Hn. rewrite rb_locs_plug in Hn.
    intros ->. apply Hn. set_solver.
Qed.

(** ** Deleting a key that is not stored *)

Lemma rb_delete_absent fuel k st t :
  holds st t → enough fuel t → k ∉ keys t → delete fuel k st = Some (tt, st).
Proof.
  intros Hh Hf Hn.
  destruct (rb_search_node_holds fuel k st t Hh Hf) as (x & E & Hx & _).
  rewrite (Hx Hn) in E. unfold delete, bind. rewrite E.
  unfold not_nil, get_nil, bind, ret. by rewrite rb_ref_eqb_refl.
Qed.

(** ** The height *)

Lemma rb_height_black t :
  no_red_red t → black_balanced t →
  (height t + 2 ≤ 2 * black_height t + (1 - black (color_of t)))%nat.
Proof.
  induction t as [|c l IHl a k r IHr]; [simpl; lia|].
  intros (Hc & Nl & Nr) (Hb & Bl & Br).
  specialize (IHl Nl Bl). specialize (IHr Nr Br). rewrite <- Hb in IHr.
  cbn [height black_height color_of]. destruct c; cbn [black] in *.
  - destruct (Hc eq_refl) as [El Er]. rewrite El in IHl. rewrite Er in IHr.
    cbn [black] in *. lia.
  - destruct (color_of l), (color_of r); cbn [black] in *; lia.
Qed.

Lemma rb_size_black t :
  black_balanced t → (2 ^ (black_height t - 1) ≤ length (keys t) + 1)%nat.
Proof.
  induction t as [|c l IHl a k r IHr]; [simpl; lia|].
  intros (Hb & Bl & Br). specialize (IHl Bl). specialize (IHr Br).
  rewrite <- Hb in IHr. pose proof (black_height_pos l) as Hp.
  cbn [black_height keys]. rewrite length_app. cbn [length].
  destruct c; cbn [black].
  - rewrite Nat.add_0_r. lia.
  - replace (black_height l + 1 - 1)%nat with (S (black_height l - 1)) by lia.
    rewrite Nat.pow_succ_r'. lia.
Qed.

Lemma rb_height_log t :
  red_black t → (2 ^ (height t / 2) ≤ length (keys t) + 1)%nat.
Proof.
  intros (Hc & Hn & Hb). pose proof (rb_height_black t Hn Hb) as Hh.
  rewrite Hc in Hh. cbn [black] in Hh.
  pose proof (rb_size_black t Hb) as Hs.
  assert (height t / 2 ≤ black_height t - 1)%nat as Hle.
  { pose proof (Nat.div_mod (height t) 2 ltac:(lia)).
    pose proof (Nat.mod_upper_bound (height t) 2 ltac:(lia)). lia. }
  pose proof (Nat.pow_le_mono_r 2 _ _ ltac:(lia) Hle). lia.
Qed.

(** ** What [search] says before and after an update *)

Lemma rb_search_answer f k st t b st' :
  holds st t → search f k st = Some (b, st') →
  b = bool_decide (k ∈ keys t) ∧ st' = st.
Proof.
  intros Hh E.
  apply (rb_search_mono f (Nat.max f (height t + 3)) k ltac:(lia)) in E.
  rewrite (rb_search_holds _ k st t Hh) in E by (unfold enough; lia).
  by simplify_eq.
Qed.

Lemma rb_update_search st t k :
  holds st t →
  ∃ f0, ∀ f, (f0 ≤ f)%nat →
    ∃ st1 st2,
      insert f k st = Some (tt, st1) ∧ search f k st1 = Some (true, st1) ∧
      delete f k st = Some (tt, st2) ∧ search f k st2 = Some (false, st2) ∧
      (∀ j, j ≠ k → ∃ b, search f j st = Some (b, st) ∧
                         search f j st1 = Some (b, st1) ∧
                         search f j st2 = Some (b, st2)).
Proof.
  intros Hh.
  destruct (rb_insert_holds (height t + 3) k st t Hh) as (st1 & t1 & E1 & Hh1 & K1 & _);
    [unfold enough; lia|].
  destruct (rb_delete_holds (height t + 3) k st t Hh) as (st2 & t2 & E2 & Hh2 & K2 & _);
    [unfold enough; lia|].
  exists (Nat.max (height t + 3) (Nat.max (height t1 + 3) (height t2 + 3))).
  intros f Hf. exists st1, st2.
  split; [apply (rb_insert_mono (height t + 3) f k ltac:(lia)), E1|].
  split.
  { rewrite (rb_search_holds f k st1 t1 Hh1) by (unfold enough; lia).
    rewrite bool_decide_eq_true_2; [done|]. rewrite K1. apply elem_of_ins. by left. }
  split; [apply (rb_delete_mono (height t + 3) f k ltac:(lia)), E2|].
  split.
  { rewrite (rb_search_holds f k st2 t2 Hh2) by (unfold enough; lia).
    rewrite bool_decide_eq_false_2; [done|]. rewrite K2, elem_of_del. tauto. }
  intros j Hj. exists (bool_decide (j ∈ keys t)).
  split; [apply rb_search_holds; [done | unfold enough; lia]|].
  split.
  - rewrite (rb_search_holds f j st1 t1 Hh1) by (unfold enough; lia).
    do 2 f_equal. apply bool_decide_ext. rewrite K1, elem_of_ins. tauto.
  - rewrite (rb_search_holds f j st2 t2 Hh2) by (unfold enough; lia).
    do 2 f_equal. apply bool_decide_ext. rewrite K2, elem_of_del. tauto.
Qed.

(** ** Rotations as operations of their own *)

Lemma rb_rep_agree h h' nil : ∀ t par,
  rep h nil par t → rep h' nil par t → ∀ a, a ∈ locs t → h' !! a = h !! a.
Proof.
  induction t as [|c l IHl b k r IHr]; intros par H H' a Ha; [by inversion Ha|].
  destruct H as (Hb & Hl & Hr). destruct H' as (Hb' & Hl' & Hr').
  simpl in Ha. apply elem_of_app in Ha as [Ha|Ha]; [by apply (IHl (Some b))|].
  apply elem_of_cons in Ha as [->|Ha]; [congruence | by apply (IHr (Some b))].
Qed.

Lemma rb_state_eq st st' t :
  represents st t → represents st' t →
  (∀ z, z ∉ locs t → heap st' !! z = heap st !! z) →
  size st' = size st → NIL st' = NIL st → st' = st.
Proof.
  intros (Hr & Hrep & _) (Hr' & Hrep' & _) Hout Hs Hn.
  destruct st as [h n r s], st' as [h' n' r' s']. simpl in *. subst n'.
  f_equal; [|congruence|done].
  apply map_eq. intros z. destruct (decide (z ∈ locs t)) as [Hz|Hz].
  - by apply (rb_rep_agree h h' n t None).
  - by apply Hout.
Qed.

Lemma rb_reach_node st t x :
  represents st t → reach st (Some x) → x ≠ NIL st →
  ∃ ctx c a kx b, t = plug ctx (T c a x kx b).
Proof.
  intros H Hx Hn. destruct (rb_reach_focus _ _ _ H Hx) as (ctx & s & -> & Hs).
  destruct s as [|c a x' kx b]; simpl in Hs; simplify_eq.
  by exists ctx, c, a, kx, b.
Qed.

Lemma rb_get_right_inv st ctx c a x kx r y :
  represents st (plug ctx (T c a x kx r)) →
  get_right (Some x) st = Some (y, st) → root_of (NIL st) r = y.
Proof.
  intros H. unfold get_right, load, bind, ret.
  rewrite (rb_focus_lookup _ _ _ _ _ _ _ H). simpl. by intros [= <-].
Qed.

Lemma rb_get_left_inv st ctx c l x kx b y :
  represents st (plug ctx (T c l x kx b)) →
  get_left (Some x) st = Some (y, st) → root_of (NIL st) l = y.
Proof.
  intros H. unfold get_left, load, bind, ret.
  rewrite (rb_focus_lookup _ _ _ _ _ _ _ H). simpl. by intros [= <-].
Qed.

Lemma rb_rotate_left_right st t x y :
  represents st t → reach st (Some x) → x ≠ NIL st →
  get_right (Some x) st = Some (Some y, st) → y ≠ NIL st →
  ∃ st1 t1, rotate_left (Some x) st = Some (tt, st1) ∧
            represents st1 t1 ∧ keys t1 = keys t ∧
            size st1 = size st ∧ NIL st1 = NIL st ∧
            rotate_right (Some y) st1 = Some (tt, st).
Proof.
  intros H Hx Hxn Hy Hyn.
  destruct (rb_reach_node _ _ _ H Hx Hxn) as (ctx & cx & a & kx & r & ->).
  pose proof (rb_get_right_inv _ _ _ _ _ _ _ _ H Hy) as Hr.
  destruct r as [|cy b y' ky c]; simpl in Hr; simplify_eq.
  destruct (rb_rotate_left_spec st ctx cx a x kx cy b y ky c
    (λ _ st1, represents st1 (plug ctx (T cy (T cx a x kx b) y ky c)) ∧
              size st1 = size st ∧ NIL st1 = NIL st ∧
              rotate_right (Some y) st1 = Some (tt, st)))
    as ([] & st1 & E & H1 & Hs & Hn & Hback); [done| |].
  - intros st1 (H1 & Hs1 & Hn1 & Hf1 & Hp1). split; [done|]. split; [done|].
    split; [done|].
    destruct (rb_rotate_right_spec st1 ctx cy cx a x kx b y ky c (λ _ st2, st2 = st))
      as ([] & st2 & E2 & ->); [done | | done].
    intros st2 (H2 & Hs2 & Hn2 & Hf2 & Hp2).
    apply (rb_state_eq _ _ _ H H2); [|congruence|congruence].
    intros z Hz. rewrite Hf2, Hf1; [done | done |].
    revert Hz. by apply rb_outside_perm.
  - exists st1, (plug ctx (T cy (T cx a x kx b) y ky c)). split; [done|].
    split; [done|]. split; [|done]. rewrite !rb_keys_plug. simpl.
    do 2 f_equal. by rewrite <- app_assoc.
Qed.

Lemma rb_rotate_right_left st t y x :
  represents st t → reach st (Some y) → y ≠ NIL st →
  get_left (Some y) st = Some (Some x, st) → x ≠ NIL st →
  ∃ st1 t1, rotate_right (Some y) st = Some (tt, st1) ∧
            represents st1 t1 ∧ keys t1 = keys t ∧
            size st1 = size st ∧ NIL st1 = NIL st ∧
            rotate_left (Some x) st1 = Some (tt, st).
Proof.
  intros H Hy Hyn Hx Hxn.
  destruct (rb_reach_node _ _ _ H Hy Hyn) as (ctx & cy & l & ky & c & ->).
  pose proof (rb_get_left_inv _ _ _ _ _ _ _ _ H Hx) as Hl.
  destruct l as [|cx a x' kx b]; simpl in Hl; simplify_eq.
  destruct (rb_rotate_right_spec st ctx cy cx a x kx b y ky c
    (λ _ st1, represents st1 (plug ctx (T cx a x kx (T cy b y ky c))) ∧
              size st1 = size st ∧ NIL st1 = NIL st ∧
              rotate_left (Some x) st1 = Some (tt, st)))
    as ([] & st1 & E & H1 & Hs & Hn & Hback); [done| |].
  - intros st1 (H1 & Hs1 & Hn1 & Hf1 & Hp1). split; [done|]. split; [done|].
    split; [done|].
    destruct (rb_rotate_left_spec st1 ctx cx a x kx cy b y ky c (λ _ st2, st2 = st))
      as ([] & st2 & E2 & ->); [done | | done].
    intros st2 (H2 & Hs2 & Hn2 & Hf2 & Hp2).
    apply (rb_state_eq _ _ _ H H2); [|congruence|congruence].
    intros z Hz. rewrite Hf2, Hf1; [done | done |].
    revert Hz. by apply rb_outside_perm.
  - exists st1, (plug ctx (T cx a x kx (T cy b y ky c))). split; [done|].
    split; [done|]. split; [|done]. rewrite !rb_keys_plug. simpl.
    do 2 f_equal. by rewrite <- app_assoc.
Qed.

(** When the child that would move up is the sentinel, a rotation raises:
    the sentinel has no [left] or [right] to hand over. *)
Lemma rb_rotate_left_nil st t x :
  represents st t → x ≠ NIL st →
  get_right (Some x) st = Some (Some (NIL st), st) →
  rotate_left (Some x) st = None.
Proof.
  intros (_ & _ & _ & p & Hp) Hx E. unfold rotate_left, bind. rewrite E.
  unfold get_right, load, bind, ret in E.
  destruct (heap st !! x) as [n|] eqn:En; [|done].
  unfold get_left at 1. unfold load, bind, ret. rewrite Hp. cbn.
  unfold set_right, load, store, bind. rewrite En. cbn.
  unfold get_left at 1. unfold load, bind, ret. cbn.
  rewrite lookup_insert_ne by done. rewrite Hp. cbn.
  unfold not_nil, get_nil, bind, ret, ref_eqb. cbn.
  rewrite bool_decide_eq_false_2 by done. cbn.
  unfold get_left, load, bind, ret. cbn.
  rewrite lookup_insert_ne by done. rewrite Hp. by cbn.
Qed.

Lemma rb_rotate_right_nil st t y :
  represents st t → y ≠ NIL st →
  get_left (Some y) st = Some (Some (NIL st), st) →
  rotate_right (Some y) st = None.
Proof.
  intros (_ & _ & _ & p & Hp) Hy E. unfold rotate_right, bind. rewrite E.
  unfold get_left, load, bind, ret in E.
  destruct (heap st !! y) as [n|] eqn:En; [|done].
  unfold get_right at 1. unfold load, bind, ret. rewrite Hp. cbn.
  unfold set_left, load, store, bind. rewrite En. cbn.
  unfold get_right at 1. unfold load, bind, ret. cbn.
  rewrite lookup_insert_ne by done. rewrite Hp. cbn.
  unfold not_nil, get_nil, bind, ret, ref_eqb. cbn.
  rewrite bool_decide_eq_false_2 by done. cbn.
  unfold get_right, load, bind, ret. cbn.
  rewrite lookup_insert_ne by done. rewrite Hp. by cbn.
Qed.

(** ** [_minimum]: raising told apart from running out of fuel *)

Lemma rb_minimum_outcome_agrees fuel : ∀ x st,
  _minimum fuel x st =
  match _minimum_outcome fuel x st with
  | Returns m => Some (m, st)
  | _ => None
  end.
Proof.
  induction fuel as [|fuel IH]; intros x st; [done|].
  cbn [_minimum _minimum_outcome]. unfold get_left, not_nil, get_nil, load, bind, ret.
  destruct x as [a|]; [|done]. destruct (heap st !! a) as [n|] eqn:En; [|done].
  cbn. destruct (ref_eqb (left n) (Some (NIL st))); cbn; [done|].
  rewrite En. cbn. apply IH.
Qed.

Lemma rb_minimum_outcome_nil fuel st t :
  represents st t → _minimum_outcome (S (S fuel)) (Some (NIL st)) st = Raises.
Proof.
  intros (_ & _ & _ & p & Hp). cbn [_minimum_outcome]. rewrite Hp. cbn [left].
  unfold ref_eqb. by rewrite bool_decide_eq_false_2.
Qed.

End RBMore.

(** * The claims of the specification *)
Module Spec.
Import Keys KeysFacts KeysModel.

Lemma sample_avl : AVL.run_ops Samples.ops AVL.init = Some Samples.avl.
Proof. vm_compute. reflexivity. Qed.

Lemma sample_rb : RB.run_ops 20 Samples.ops RB.init = Some Samples.rb.
Proof. vm_compute. reflexivity. Qed.

Lemma sample_splay : Splay.run_ops 20 Samples.ops Splay.init = Some Samples.splay.
Proof. vm_compute. reflexivity. Qed.

(** C1 (size consistency, every engine): the AVL engine breaks it.  On the
    empty AVL tree, [delete 5] removes nothing, no key is stored afterwards,
    and [get_size] answers [-1]. *)
Theorem C1_avl_delete_absent_miscounts :
  ∃ t, AVL.run_ops [Delete 5] AVL.init = Some t ∧
       AVL.inorder (AVL.root t) = [] ∧ AVL.get_size t = -1.
Proof. eexists. split; [reflexivity|]. by split. Qed.

(** C2: [AVLTree.delete] takes one off the size counter on every call, also
    when the key is absent (the keys stay as they were, the counter goes
    down); [RedBlackTree.delete] and [SplayTree.delete] take one off exactly
    when the key was stored.  In every engine the keys of the tree after the
    call are the keys before it without [k]. *)
Theorem C2_delete_size_accounting (k : Z) (t : AVL.AVLTree)
    (rb : RB.RedBlackTree) (sp : Splay.SplayTree) :
  AVL.reachable t → RB.reachable rb → Splay.reachable sp →
  (∃ t', AVL.delete k t = Some t' ∧
         AVL.get_size t' = AVL.get_size t - 1 ∧
         AVL.inorder (AVL.root t') = del k (AVL.inorder (AVL.root t)) ∧
         (k ∉ AVL.inorder (AVL.root t) →
          AVL.inorder (AVL.root t') = AVL.inorder (AVL.root t))) ∧
  (∃ f ks rb',
      RB.traverse f (RB.heap rb) (RB.NIL rb) (RB.root rb) = Some ks ∧
      RB.delete f k rb = Some (tt, rb') ∧
      RB.traverse f (RB.heap rb') (RB.NIL rb') (RB.root rb') = Some (del k ks) ∧
      RB.get_size rb' = RB.get_size rb - (if bool_decide (k ∈ ks) then 1 else 0)) ∧
  (∃ f ks sp',
      Splay.traverse f (Splay.heap sp) (Splay.root sp) = Some ks ∧
      Splay.delete f k sp = Some (tt, sp') ∧
      Splay.traverse f (Splay.heap sp') (Splay.root sp') = Some (del k ks) ∧
      Splay.get_size sp' =
      Splay.get_size sp - (if bool_decide (k ∈ ks) then 1 else 0)).
Proof.
  intros Ht Hrb Hsp. split; [|split].
  - destruct (AVLFacts.delete_total k t (AVLFacts.reachable_inv _ Ht))
      as (t' & E & _ & Hk & Hs).
    exists t'. split; [done|]. split; [done|]. split; [done|]. intros Hn.
    by rewrite Hk, del_notin.
  - destruct (RBReach.rb_reachable_holds _ Hrb) as (tr & Hh).
    destruct (RBReach.rb_delete_holds (RB.height tr + 3) k rb tr Hh)
      as (rb' & tr' & E & Hh' & Hk & _); [unfold RB.enough; lia|].
    pose (f := Nat.max (RB.height tr + 3) (RB.height tr' + 3)).
    exists f, (RB.keys tr), rb'.
    split; [apply RBRun.rb_holds_traverse; [done | unfold RB.enough, f; lia]|].
    split; [apply (RBReach.rb_delete_mono (RB.height tr + 3) f k); [unfold f; lia | done]|].
    split.
    + rewrite <- Hk.
      apply RBRun.rb_holds_traverse; [done | unfold RB.enough, f; lia].
    + destruct Hh as (_ & _ & Hasc & Hs). destruct Hh' as (_ & _ & _ & Hs').
      unfold RB.get_size. rewrite Hs', Hs, Hk. by apply length_del_count.
  - destruct (SplayModel.reachable_holds _ Hsp) as (ts & Hh).
    pose (f := S (2 * length (Splay.keys ts))).
    assert (Hf : Splay.enough f ts) by (unfold Splay.enough, f; lia).
    destruct (SplayRun.splay_delete_holds f k sp ts Hh Hf) as (sp' & E & Hh' & Hs).
    pose proof Hh as (_ & Hasc & _).
    pose proof (SplayModel.keys_delete_tree k ts Hasc) as Hk.
    exists f, (Splay.keys ts), sp'. split; [by apply SplayRun.holds_traverse|].
    split; [done|]. split; [|done].
    rewrite <- Hk. apply SplayRun.holds_traverse; [done|].
    unfold Splay.enough, f. rewrite Hk.
    pose proof (length_del_count k _ Hasc). case_bool_decide; lia.
Qed.

Lemma C2_delete_size_accounting_witness :
  (∃ t', AVL.delete 7 Samples.avl = Some t' ∧
         AVL.get_size t' = AVL.get_size Samples.avl - 1 ∧
         AVL.inorder (AVL.root t') = del 7 (AVL.inorder (AVL.root Samples.avl)) ∧
         (7 ∉ AVL.inorder (AVL.root Samples.avl) →
          AVL.inorder (AVL.root t') = AVL.inorder (AVL.root Samples.avl))) ∧
  (∃ f ks rb',
      RB.traverse f (RB.heap Samples.rb) (RB.NIL Samples.rb) (RB.root Samples.rb)
      = Some ks ∧
      RB.delete f 7 Samples.rb = Some (tt, rb') ∧
      RB.traverse f (RB.heap rb') (RB.NIL rb') (RB.root rb') = Some (del 7 ks) ∧
      RB.get_size rb' =
      RB.get_size Samples.rb - (if bool_decide (7 ∈ ks) then 1 else 0)) ∧
  (∃ f ks sp',
      Splay.traverse f (Splay.heap Samples.splay) (Splay.root Samples.splay)
      = Some ks ∧
      Splay.delete f 7 Samples.splay = Some (tt, sp') ∧
      Splay.traverse f (Splay.heap sp') (Splay.root sp') = Some (del 7 ks) ∧
      Splay.get_size sp' =
      Splay.get_size Samples.splay - (if bool_decide (7 ∈ ks) then 1 else 0)).
Proof.
  apply (C2_delete_size_accounting 7 Samples.avl Samples.rb Samples.splay).
  - exists Samples.ops. vm_compute. reflexivity.
  - exists 20%nat, Samples.ops. vm_compute. reflexivity.
  - exists 20%nat, Samples.ops. vm_compute. reflexivity.
Defined.

(** C3: for every engine and every sequence of operations from the empty
    tree, the operations run to the end and an in-order traversal of the
    tree yields the keys stored at that point ([model os]: every inserted
    key that was not deleted since), in strictly ascending order. *)
Theorem C3_inorder_traversal_sorted (os : list op) :
  ascending (model os) ∧
  (∃ t, AVL.run_ops os AVL.init = Some t ∧
        AVL.inorder (AVL.root t) = model os) ∧
  (∃ f rb, RB.run_ops f os RB.init = Some rb ∧
           ∃ f', RB.traverse f' (RB.heap rb) (RB.NIL rb) (RB.root rb)
                 = Some (model os)) ∧
  (∃ f sp, Splay.run_ops f os Splay.init = Some sp ∧
           ∃ f', Splay.traverse f' (Splay.heap sp) (Splay.root sp)
                 = Some (model os)).
Proof.
  split; [apply model_ascending|]. split; [|split].
  - destruct (AVLFacts.run_ops_total os AVL.init AVLFacts.init_inv) as [t E].
    exists t. split; [done|]. by apply AVLModel.avl_reachable_model.
  - destruct (RBRun.rb_run_ops_total os) as (f & rb & t & E & Hh & Hk).
    exists f, rb. split; [done|]. exists (RB.height t + 3)%nat. rewrite <- Hk.
    apply RBRun.rb_holds_traverse; [done|]. unfold RB.enough. lia.
  - destruct (SplayRun.splay_run_ops_total os) as (f & sp & t & E & Hh & Hk).
    exists f, sp. split; [done|]. exists (S (2 * length (Splay.keys t))).
    rewrite <- Hk. apply SplayRun.holds_traverse; [done|].
    unfold Splay.enough. lia.
Qed.

(** C4: after an insert or a delete (or a search) from any reachable state
    of the AVL engine, each node's stored height is one more than the larger
    of its children's heights (0 for an absent child), and the heights of the
    two subtrees of every node differ by at most one, as stored and as
    shapes. *)
Theorem C4_avl_balance (t : AVL.AVLTree) (o : op) :
  AVL.reachable t →
  ∃ t', AVL.run_op o t = Some t' ∧
        AVL.heights_ok (AVL.root t') ∧ AVL.balanced (AVL.root t') ∧
        AVL.really_balanced (AVL.root t').
Proof.
  intros Ht.
  destruct (AVLFacts.run_op_inv o t (AVLFacts.reachable_inv _ Ht))
    as (t' & E & Hh & Hb & _).
  exists t'. split; [done|]. split; [done|]. split; [done|].
  by apply AVLFacts.balanced_really.
Qed.

Lemma C4_avl_balance_witness :
  ∃ t', AVL.run_op (Insert 6) Samples.avl = Some t' ∧
        AVL.heights_ok (AVL.root t') ∧ AVL.balanced (AVL.root t') ∧
        AVL.really_balanced (AVL.root t').
Proof.
  apply (C4_avl_balance Samples.avl (Insert 6)).
  exists Samples.ops. vm_compute. reflexivity.
Defined.

(** C5: after an insert or a delete (or a search) from any reachable state
    of the Red-Black engine, the root object is BLACK, the sentinel is BLACK,
    no RED node of the tree has a RED child, and all paths from the root
    down to the sentinel count the same number of BLACK nodes. *)
Theorem C5_red_black_invariants (rb : RB.RedBlackTree) (o : op) :
  RB.reachable rb →
  ∃ f rb' t,
    RB.run_op f o rb = Some rb' ∧
    RB.tree_of f rb' = Some t ∧
    (∃ a n, RB.root rb' = Some a ∧ RB.heap rb' !! a = Some n ∧
            RB.color n = RB.BLACK) ∧
    (∃ n, RB.heap rb' !! RB.NIL rb' = Some n ∧ RB.color n = RB.BLACK) ∧
    RB.color_of t = RB.BLACK ∧ RB.no_red_red t ∧
    (∀ n m, n ∈ RB.black_counts t → m ∈ RB.black_counts t → n = m).
Proof.
  intros Hrb. destruct (RBReach.rb_reachable_holds _ Hrb) as (t0 & Hh0).
  destruct (RBReach.rb_run_op_holds (RB.height t0 + 3) o rb t0 Hh0)
    as (rb' & t & E & Hh & _); [unfold RB.enough; lia|].
  pose (F := Nat.max (RB.height t0 + 3) (RB.height t + 3)).
  exists F, rb', t.
  split; [apply (RBReach.rb_run_op_mono (RB.height t0 + 3)); [unfold F; lia|done]|].
  split; [apply RBRun.rb_holds_tree_of; [done|unfold RB.enough, F; lia]|].
  destruct (RBRun.holds_root_black _ _ Hh) as (Hroot & Hnil).
  split; [done|]. split; [done|].
  destruct Hh as (_ & (Hc & Hn & Hb) & _). split; [done|]. split; [done|].
  intros n m Hn' Hm'.
  rewrite (RBObs.black_counts_balanced t Hb n Hn').
  by rewrite (RBObs.black_counts_balanced t Hb m Hm').
Qed.

Lemma C5_red_black_invariants_witness :
  ∃ f rb' t,
    RB.run_op f (Delete 1) Samples.rb = Some rb' ∧
    RB.tree_of f rb' = Some t ∧
    (∃ a n, RB.root rb' = Some a ∧ RB.heap rb' !! a = Some n ∧
            RB.color n = RB.BLACK) ∧
    (∃ n, RB.heap rb' !! RB.NIL rb' = Some n ∧ RB.color n = RB.BLACK) ∧
    RB.color_of t = RB.BLACK ∧ RB.no_red_red t ∧
    (∀ n m, n ∈ RB.black_counts t → m ∈ RB.black_counts t → n = m).
Proof.
  apply (C5_red_black_invariants Samples.rb (Delete 1)).
  exists 20%nat, Samples.ops. vm_compute. reflexivity.
Defined.

(** C6: on every reachable state of the Splay engine, [search k] returns;
    when [k] is stored the root then holds [k]; when [k] is not stored and
    the tree is not empty, the root then is the last node on the search path
    for [k] in the tree as it was. *)
Theorem C6_splay_root_after_search (sp : Splay.SplayTree) (k : Z) :
  Splay.reachable sp →
  ∃ f ks b sp',
    Splay.traverse f (Splay.heap sp) (Splay.root sp) = Some ks ∧
    Splay.search f k sp = Some (b, sp') ∧
    (k ∈ ks → ∃ a n, Splay.root sp' = Some a ∧ Splay.heap sp' !! a = Some n ∧
                     Splay.key n = k) ∧
    (k ∉ ks → Splay.root sp ≠ None →
     Splay.root sp' ≠ None ∧
     Splay.descend f (Splay.heap sp) k (Splay.root sp) None
     = Some (Splay.root sp')).
Proof.
  intros Hsp. destruct (SplayModel.reachable_holds _ Hsp) as (t & Hh).
  pose (f := S (2 * length (Splay.keys t))).
  assert (Hf : Splay.enough f t) by (unfold Splay.enough, f; lia).
  destruct (SplayRun.search_root f k sp t Hh Hf) as (sp' & E & _ & Hin & Hout).
  exists f, (Splay.keys t), (bool_decide (k ∈ Splay.keys t)), sp'.
  split; [by apply SplayRun.holds_traverse|]. split; [done|]. split; [done|].
  intros _ Hroot. destruct Hout as [Hd Hr'].
  { intros ->. apply Hroot. by rewrite (proj1 (proj1 Hh)). }
  done.
Qed.

Lemma C6_splay_root_after_search_witness :
  ∃ f ks b sp',
    Splay.traverse f (Splay.heap Samples.splay) (Splay.root Samples.splay)
    = Some ks ∧
    Splay.search f 2 Samples.splay = Some (b, sp') ∧
    (2 ∈ ks → ∃ a n, Splay.root sp' = Some a ∧ Splay.heap sp' !! a = Some n ∧
                     Splay.key n = 2) ∧
    (2 ∉ ks → Splay.root Samples.splay ≠ None →
     Splay.root sp' ≠ None ∧
     Splay.descend f (Splay.heap Samples.splay) 2 (Splay.root Samples.splay) None
     = Some (Splay.root sp')).
Proof.
  apply (C6_splay_root_after_search Samples.splay 2).
  exists 20%nat, Samples.ops. vm_compute. reflexivity.
Defined.

(** C7: on every reachable state, [search k] answers whether [k] is among
    the stored keys.  The AVL and Red-Black engines leave the state as it
    is; the Splay engine may restructure, and keeps the keys and the size. *)
Theorem C7_search_membership (k : Z) (t : AVL.AVLTree) (rb : RB.RedBlackTree)
    (sp : Splay.SplayTree) :
  AVL.reachable t → RB.reachable rb → Splay.reachable sp →
  (AVL.search k t = bool_decide (k ∈ AVL.inorder (AVL.root t)) ∧
   AVL.run_op (Search k) t = Some t) ∧
  (∃ f ks,
      RB.traverse f (RB.heap rb) (RB.NIL rb) (RB.root rb) = Some ks ∧
      RB.search f k rb = Some (bool_decide (k ∈ ks), rb)) ∧
  (∃ f ks sp',
      Splay.traverse f (Splay.heap sp) (Splay.root sp) = Some ks ∧
      Splay.search f k sp = Some (bool_decide (k ∈ ks), sp') ∧
      Splay.traverse f (Splay.heap sp') (Splay.root sp') = Some ks ∧
      Splay.get_size sp' = Splay.get_size sp).
Proof.
  intros Ht Hrb Hsp. split; [|split].
  - split; [|done].
    destruct (AVLFacts.reachable_inv _ Ht) as (_ & _ & Hasc).
    pose proof (AVLFacts.search_helper_spec (AVL.root t) k Hasc) as Hs.
    unfold AVL.search. case_bool_decide as Hin.
    + by apply Hs.
    + destruct (AVL._search_helper (AVL.root t) k); [|done].
      destruct Hin. by apply Hs.
  - destruct (RBReach.rb_reachable_holds _ Hrb) as (tr & Hh).
    pose (f := (RB.height tr + 3)%nat).
    assert (Hf : RB.enough f tr) by (unfold RB.enough, f; lia).
    exists f, (RB.keys tr). split; [by apply RBRun.rb_holds_traverse|].
    by apply RBReach.rb_search_holds.
  - destruct (SplayModel.reachable_holds _ Hsp) as (ts & Hh).
    pose (f := S (2 * length (Splay.keys ts))).
    assert (Hf : Splay.enough f ts) by (unfold Splay.enough, f; lia).
    destruct (SplayRun.splay_search_holds f k sp ts Hh Hf) as (sp' & E & Hh').
    exists f, (Splay.keys ts), sp'. split; [by apply SplayRun.holds_traverse|].
    split; [done|]. split.
    + rewrite <- (SplayUpdate.keys_search_tree k ts).
      apply SplayRun.holds_traverse; [done|].
      unfold Splay.enough. rewrite SplayUpdate.keys_search_tree.
      unfold f. lia.
    + destruct Hh as (_ & _ & Hs). destruct Hh' as (_ & _ & Hs').
      unfold Splay.get_size. rewrite Hs', Hs.
      by rewrite SplayUpdate.keys_search_tree.
Qed.

Lemma C7_search_membership_witness :
  (AVL.search 4 Samples.avl
   = bool_decide (4 ∈ AVL.inorder (AVL.root Samples.avl)) ∧
   AVL.run_op (Search 4) Samples.avl = Some Samples.avl) ∧
  (∃ f ks,
      RB.traverse f (RB.heap Samples.rb) (RB.NIL Samples.rb) (RB.root Samples.rb)
      = Some ks ∧
      RB.search f 4 Samples.rb = Some (bool_decide (4 ∈ ks), Samples.rb)) ∧
  (∃ f ks sp',
      Splay.traverse f (Splay.heap Samples.splay) (Splay.root Samples.splay)
      = Some ks ∧
      Splay.search f 4 Samples.splay = Some (bool_decide (4 ∈ ks), sp') ∧
      Splay.traverse f (Splay.heap sp') (Splay.root sp') = Some ks ∧
      Splay.get_size sp' = Splay.get_size Samples.splay).
Proof.
  apply (C7_search_membership 4 Samples.avl Samples.rb Samples.splay).
  - exists Samples.ops. vm_compute. reflexivity.
  - exists 20%nat, Samples.ops. vm_compute. reflexivity.
  - exists 20%nat, Samples.ops. vm_compute. reflexivity.
Defined.

(** C8: take a reachable state of the Splay engine on which [search k]
    finds [k] and leaves a root with a left subtree [l] and a right subtree
    [r], both non-empty.  Then [delete k] on that state ends in a tree whose
    root is a node [m] of [l] holding the largest key of [l] (the in-order
    predecessor of [k]), whose right subtree is [r] as it was, and whose
    left subtree holds the other keys of [l]. *)
Theorem C8_splay_delete_join (sp : Splay.SplayTree) (k : Z) (f : nat)
    (sp1 : Splay.SplayTree) (l r : Splay.tree) (z : positive) :
  Splay.reachable sp →
  Splay.search f k sp = Some (true, sp1) →
  Splay.tree_of f sp1 = Some (Splay.T l z k r) →
  l ≠ Splay.Leaf → r ≠ Splay.Leaf →
  ∃ f' sp2 l' m km,
    Splay.delete f' k sp = Some (tt, sp2) ∧
    Splay.tree_of f' sp2 = Some (Splay.T l' m km r) ∧
    m ∈ Splay.locs l ∧ Splay.keys l' ++ [km] = Splay.keys l ∧
    (∀ y, y ∈ Splay.keys l → y ≤ km) ∧ km < k.
Proof.
  intros Hsp Hsearch Htree Hl Hr.
  destruct (SplayModel.reachable_holds _ Hsp) as (t & Hh).
  pose (F := Nat.max f (S (2 * length (Splay.keys t)))).
  assert (HF : Splay.enough F t) by (unfold Splay.enough, F; lia).
  destruct (SplayRun.splay_search_holds F k sp t Hh HF) as (sp1' & E1 & Hh1).
  apply (SplayModel.search_mono f F k ltac:(unfold F; lia)) in Hsearch.
  rewrite E1 in Hsearch. injection Hsearch as _ ->.
  pose proof (SplayObs.tree_of_unique _ _ _ _ (proj1 Hh1) Htree) as Es.
  symmetry in Es.
  destruct (SplayRun.delete_tree_join k t l z r (proj1 (proj2 Hh)) Es Hl Hr)
    as (l' & m & km & Ed & Hm & Hk & Hmax & Hlt).
  destruct (SplayRun.splay_delete_holds F k sp t Hh HF) as (sp2 & E2 & Hh2 & _).
  rewrite Ed in Hh2.
  pose (F' := Nat.max F (S (2 * length (Splay.keys (Splay.T l' m km r))))).
  exists F', sp2, l', m, km.
  split; [apply (SplayModel.delete_mono F F' k ltac:(unfold F'; lia)), E2|].
  split; [|done].
  apply SplayRun.holds_tree_of; [done|]. unfold Splay.enough, F'. lia.
Qed.

Lemma C8_splay_delete_join_witness :
  ∃ f' sp2 l' m km,
    Splay.delete f' 3 Samples.splay2 = Some (tt, sp2) ∧
    Splay.tree_of f' sp2 = Some (Splay.T l' m km Samples.found_right) ∧
    m ∈ Splay.locs Samples.found_left ∧
    Splay.keys l' ++ [km] = Splay.keys Samples.found_left ∧
    (∀ y, y ∈ Splay.keys Samples.found_left → y ≤ km) ∧ km < 3.
Proof.
  apply (C8_splay_delete_join Samples.splay2 3 20 Samples.found
           Samples.found_left Samples.found_right Samples.found_root).
  - exists 20%nat, [Insert 1; Insert 5; Insert 3; Insert 2; Insert 4].
    vm_compute. reflexivity.
  - vm_compute. reflexivity.
  - vm_compute. reflexivity.
  - vm_compute. discriminate.
  - vm_compute. discriminate.
Defined.

(** C9: for every engine, inserting distinct keys into the empty tree and
    then deleting all of them, in any order, runs to the end and leaves the
    empty tree with size 0. *)
Theorem C9_round_trip (ks ds : list Z) :
  NoDup ks → ds ≡ₚ ks →
  (∃ t, AVL.run_ops ((Insert <$> ks) ++ (Delete <$> ds)) AVL.init = Some t ∧
        AVL.root t = AVL.Nil ∧ AVL.get_size t = 0) ∧
  (∃ f rb, RB.run_ops f ((Insert <$> ks) ++ (Delete <$> ds)) RB.init = Some rb ∧
           RB.root rb = Some (RB.NIL rb) ∧ RB.get_size rb = 0) ∧
  (∃ f sp, Splay.run_ops f ((Insert <$> ks) ++ (Delete <$> ds)) Splay.init
           = Some sp ∧
           Splay.root sp = None ∧ Splay.get_size sp = 0).
Proof.
  intros Hnd Hperm.
  assert (Hm : model ((Insert <$> ks) ++ (Delete <$> ds)) = []).
  { apply model_round_trip. intros k Hk. by rewrite Hperm. }
  split; [|split].
  - destruct (AVLModel.avl_inserts_size ks AVL.init AVLFacts.init_inv Hnd)
      as (t1 & E1 & Hi1 & Hs1); [by intros k _ ?%elem_of_nil|].
    destruct (AVLModel.avl_deletes_size ds t1 Hi1) as (t2 & E2 & _ & Hs2).
    exists t2. rewrite AVLModel.avl_run_ops_app, E1. simpl.
    split; [done|]. split.
    + apply AVLModel.inorder_nil. rewrite <- Hm.
      apply AVLModel.avl_reachable_model.
      rewrite AVLModel.avl_run_ops_app, E1. done.
    + unfold AVL.get_size. rewrite Hs2, Hs1, Hperm. simpl. lia.
  - destruct (RBRun.rb_run_ops_total ((Insert <$> ks) ++ (Delete <$> ds)))
      as (f & rb & t & E & Hh & Hk).
    rewrite Hm in Hk. apply RBRun.tree_leaf_keys in Hk. subst t.
    exists f, rb. split; [done|].
    destruct Hh as ((Hr & _) & _ & _ & Hs). split; [done|]. done.
  - destruct (SplayRun.splay_run_ops_total ((Insert <$> ks) ++ (Delete <$> ds)))
      as (f & sp & t & E & Hh & Hk).
    rewrite Hm in Hk.
    assert (t = Splay.Leaf) as ->.
    { destruct t as [|tl ta tk tr]; [done|]. simpl in Hk.
      by apply app_eq_nil in Hk as [_ ?]. }
    exists f, sp. split; [done|].
    destruct Hh as ((Hr & _) & _ & Hs). split; [done|]. done.
Qed.

Lemma C9_round_trip_witness :
  (∃ t, AVL.run_ops ((Insert <$> [3; 1; 2]) ++ (Delete <$> [2; 3; 1])) AVL.init
        = Some t ∧
        AVL.root t = AVL.Nil ∧ AVL.get_size t = 0) ∧
  (∃ f rb, RB.run_ops f ((Insert <$> [3; 1; 2]) ++ (Delete <$> [2; 3; 1])) RB.init
           = Some rb ∧
           RB.root rb = Some (RB.NIL rb) ∧ RB.get_size rb = 0) ∧
  (∃ f sp, Splay.run_ops f ((Insert <$> [3; 1; 2]) ++ (Delete <$> [2; 3; 1]))
             Splay.init = Some sp ∧
           Splay.root sp = None ∧ Splay.get_size sp = 0).
Proof.
  apply (C9_round_trip [3; 1; 2] [2; 3; 1]).
  - apply (bool_decide_unpack (NoDup [3; 1; 2])). vm_compute. exact I.
  - apply (bool_decide_unpack ([2; 3; 1] ≡ₚ [3; 1; 2])). vm_compute. exact I.
Defined.

(** C10: after any public operation from a reachable state of the Red-Black
    or the Splay engine, the parent link of the real root is [None], and
    every real child of a node reachable from the root points back to that
    node. *)
Theorem C10_parent_links (rb : RB.RedBlackTree) (sp : Splay.SplayTree) (o : op) :
  RB.reachable rb → Splay.reachable sp →
  (∃ f rb', RB.run_op f o rb = Some rb' ∧ RB.parents_consistent rb') ∧
  (∃ f sp', Splay.run_op f o sp = Some sp' ∧ Splay.parents_consistent sp').
Proof.
  intros Hrb Hsp. split.
  - destruct (RBReach.rb_reachable_holds _ Hrb) as (t & Hh).
    destruct (RBReach.rb_run_op_holds (RB.height t + 3) o rb t Hh)
      as (rb' & t' & E & Hh' & _); [unfold RB.enough; lia|].
    exists (RB.height t + 3)%nat, rb'. split; [done|].
    by apply (RBObs.rb_represents_parents rb' t'), Hh'.
  - destruct (SplayModel.reachable_holds _ Hsp) as (t & Hh).
    destruct (SplayModel.run_op_holds (S (2 * length (Splay.keys t))) o sp t Hh)
      as (sp' & n & E & Hh' & _); [unfold Splay.enough; lia|].
    exists (S (2 * length (Splay.keys t))), sp'. split; [done|].
    by apply (SplayObs.represents_parents sp' (Splay.op_tree o n t)), Hh'.
Qed.

Lemma C10_parent_links_witness :
  (∃ f rb', RB.run_op f (Delete 1) Samples.rb = Some rb' ∧
            RB.parents_consistent rb') ∧
  (∃ f sp', Splay.run_op f (Delete 1) Samples.splay = Some sp' ∧
            Splay.parents_consistent sp').
Proof.
  apply (C10_parent_links Samples.rb Samples.splay (Delete 1)).
  - exists 20%nat, Samples.ops. vm_compute. reflexivity.
  - exists 20%nat, Samples.ops. vm_compute. reflexivity.
Defined.

End Spec.

(** * Further properties of the three engines *)
Module Extra.
Import Keys KeysFacts KeysModel.

(** ** AVL *)

(** X1: [AVLTree.rotate_right] raises exactly when the node is [None] or has
    no left child, [rotate_left] exactly when it is [None] or has no right
    child; a rotation that returns keeps the in-order sequence of keys. *)
Theorem X1_avl_rotations_keep_order (z : AVL.AVLNode) :
  (AVL.rotate_right z = None ↔ ∀ k l r h, z = AVL.Node k l r h → l = AVL.Nil) ∧
  (AVL.rotate_left z = None ↔ ∀ k l r h, z = AVL.Node k l r h → r = AVL.Nil) ∧
  (∀ y, AVL.rotate_right z = Some y → AVL.inorder y = AVL.inorder z) ∧
  (∀ y, AVL.rotate_left z = Some y → AVL.inorder y = AVL.inorder z).
Proof.
  split; [|split; [|split]].
  - destruct z as [|k [|yk yl yr yh] r h]; simpl.
    + split; [by intros _ ???? | done].
    + split; [by intros _ ???? [=] | done].
    + split; [done|]. intros H. by specialize (H _ _ _ _ eq_refl).
  - destruct z as [|k l [|yk yl yr yh] h]; simpl.
    + split; [by intros _ ???? | done].
    + split; [by intros _ ???? [=] | done].
    + split; [done|]. intros H. by specialize (H _ _ _ _ eq_refl).
  - apply AVLMore.avl_rotate_right_inorder.
  - apply AVLMore.avl_rotate_left_inorder.
Qed.

(** X2: on a node whose stored heights are consistent, the two AVL
    rotations undo each other: [rotate_left] applied to the result of
    [rotate_right] gives the node back, heights included, and the other way
    round; the rotated node has consistent heights again. *)
Theorem X2_avl_rotations_inverse (z y : AVL.AVLNode) :
  AVL.heights_ok z →
  (AVL.rotate_right z = Some y → AVL.rotate_left y = Some z ∧ AVL.heights_ok y) ∧
  (AVL.rotate_left z = Some y → AVL.rotate_right y = Some z ∧ AVL.heights_ok y).
Proof.
  intros Hz. split; intros E.
  - split; [by apply AVLMore.avl_rotate_right_left |
            by apply (AVLMore.avl_rotate_right_heights z)].
  - split; [by apply AVLMore.avl_rotate_left_right |
            by apply (AVLMore.avl_rotate_left_heights z)].
Qed.

Lemma X2_avl_rotations_inverse_witness :
  (AVL.rotate_right MoreSamples.avl_node = Some MoreSamples.avl_rotated →
   AVL.rotate_left MoreSamples.avl_rotated = Some MoreSamples.avl_node ∧
   AVL.heights_ok MoreSamples.avl_rotated) ∧
  (AVL.rotate_left MoreSamples.avl_node = Some MoreSamples.avl_rotated →
   AVL.rotate_right MoreSamples.avl_rotated = Some MoreSamples.avl_node ∧
   AVL.heights_ok MoreSamples.avl_rotated).
Proof.
  apply (X2_avl_rotations_inverse MoreSamples.avl_node MoreSamples.avl_rotated).
  vm_compute. repeat split; reflexivity.
Defined.


(** X4: on every reachable AVL tree, inserting a key that [search] finds
    returns the very same tree: no node, no stored height and not the size
    counter changes. *)
Theorem X4_avl_insert_stored_key (t : AVL.AVLTree) (k : Z) :
  AVL.reachable t → AVL.search k t = true → AVL.insert k t = Some t.
Proof.
  intros Ht Hs. pose proof (AVLFacts.reachable_inv _ Ht) as Hinv.
  apply AVLMore.avl_insert_dup; [done|].
  rewrite (AVLMore.avl_search_decide k t Hinv) in Hs.
  by apply bool_decide_eq_true in Hs.
Qed.

Lemma X4_avl_insert_stored_key_witness :
  AVL.insert 4 Samples.avl = Some Samples.avl.
Proof.
  apply (X4_avl_insert_stored_key Samples.avl 4).
  - exists Samples.ops. vm_compute. reflexivity.
  - vm_compute. reflexivity.
Defined.

(** X5: after any sequence of operations on an AVL tree, [insert k]
    returns, [search k] is true afterwards, the answer of [search] for every
    other key is unchanged, and the size counter grew by one exactly when
    [search k] was false before. *)
Theorem X5_avl_insert_then_search (os : list op) (k : Z) :
  ∃ t t', AVL.run_ops os AVL.init = Some t ∧ AVL.insert k t = Some t' ∧
          AVL.search k t' = true ∧
          (∀ j, j ≠ k → AVL.search j t' = AVL.search j t) ∧
          AVL.get_size t' = AVL.get_size t + (if AVL.search k t then 0 else 1).
Proof.
  destruct (AVLFacts.run_ops_total os AVL.init AVLFacts.init_inv) as [t E].
  pose proof (AVLFacts.run_ops_inv _ _ _ AVLFacts.init_inv E) as Hinv.
  destruct (AVLMore.avl_search_after_insert k t Hinv) as (t' & E' & _ & H).
  by exists t, t'.
Qed.

(** X6: after any sequence of operations on an AVL tree, [delete k]
    returns, [search k] is false afterwards, and the answer of [search] for
    every other key is unchanged. *)
Theorem X6_avl_delete_then_search (os : list op) (k : Z) :
  ∃ t t', AVL.run_ops os AVL.init = Some t ∧ AVL.delete k t = Some t' ∧
          AVL.search k t' = false ∧
          (∀ j, j ≠ k → AVL.search j t' = AVL.search j t).
Proof.
  destruct (AVLFacts.run_ops_total os AVL.init AVLFacts.init_inv) as [t E].
  pose proof (AVLFacts.run_ops_inv _ _ _ AVLFacts.init_inv E) as Hinv.
  destruct (AVLMore.avl_search_after_delete k t Hinv) as (t' & E' & _ & H).
  by exists t, t'.
Qed.

(** X7: the size counter of the AVL engine after any sequence of
    operations is the number of stored keys minus the number of [delete]
    calls that asked for a key that was not stored; so [get_size] counts the
    nodes as long as no such call was made. *)
Theorem X7_avl_size_accounting (os : list op) :
  ∃ t, AVL.run_ops os AVL.init = Some t ∧
       AVL.get_size t =
       Z.of_nat (length (AVL.inorder (AVL.root t))) - absent_deletes [] os.
Proof.
  destruct (AVLMore.avl_run_ops_size os AVL.init AVLFacts.init_inv)
    as (t & E & _ & Hs).
  exists t. split; [done|]. unfold AVL.get_size. simpl in Hs. lia.
Qed.

(** X8: after any sequence of operations the height stored at the root of
    the AVL tree is the height of the tree, and it is logarithmic in the
    number [n] of stored keys: [2 ^ (height / 2) <= n + 1]. *)
Theorem X8_avl_height_logarithmic (os : list op) :
  ∃ t, AVL.run_ops os AVL.init = Some t ∧
       AVL.get_height (AVL.root t) = AVL.real_height (AVL.root t) ∧
       2 ^ (AVL.get_height (AVL.root t) / 2)
       <= Z.of_nat (length (AVL.inorder (AVL.root t))) + 1.
Proof.
  destruct (AVLFacts.run_ops_total os AVL.init AVLFacts.init_inv) as [t E].
  destruct (AVLFacts.run_ops_inv _ _ _ AVLFacts.init_inv E) as (Hh & Hb & _).
  exists t. split; [done|]. split.
  - by apply AVLFacts.heights_ok_real.
  - by apply AVLMore.avl_height_log.
Qed.

(** X26: on every reachable AVL tree, deleting a key that [search] does not
    find leaves the tree itself exactly as it is (no rotation, no height
    is changed); only the size counter goes down by one. *)
Theorem X26_avl_delete_absent_key (t : AVL.AVLTree) (k : Z) :
  AVL.reachable t → AVL.search k t = false →
  ∃ t', AVL.delete k t = Some t' ∧ AVL.root t' = AVL.root t ∧
        AVL.get_size t' = AVL.get_size t - 1.
Proof.
  intros Ht Hs. pose proof (AVLFacts.reachable_inv _ Ht) as Hinv.
  rewrite (AVLMore.avl_search_decide k t Hinv) in Hs.
  apply bool_decide_eq_false in Hs.
  rewrite (AVLMore.avl_delete_absent k t Hinv Hs). by eexists.
Qed.

Lemma X26_avl_delete_absent_key_witness :
  ∃ t', AVL.delete 7 Samples.avl = Some t' ∧ AVL.root t' = AVL.root Samples.avl ∧
        AVL.get_size t' = AVL.get_size Samples.avl - 1.
Proof.
  apply (X26_avl_delete_absent_key Samples.avl 7).
  - exists Samples.ops. vm_compute. reflexivity.
  - vm_compute. reflexivity.
Defined.

(** ** Red-Black *)

(** X9: after any sequence of operations on a Red-Black tree, [get_size]
    is the number of keys an in-order traversal of the tree yields. *)
Theorem X9_rb_size_counts_keys (os : list op) :
  ∃ f rb ks,
    RB.run_ops f os RB.init = Some rb ∧
    RB.traverse f (RB.heap rb) (RB.NIL rb) (RB.root rb) = Some ks ∧
    RB.get_size rb = Z.of_nat (length ks).
Proof.
  destruct (RBRun.rb_run_ops_total os) as (f0 & rb & t & E & Hh & _).
  exists (Nat.max f0 (RB.height t + 3)), rb, (RB.keys t).
  split; [apply (RBRun.rb_run_ops_mono f0); [lia | done]|].
  split; [apply RBRun.rb_holds_traverse; [done | unfold RB.enough; lia]|].
  apply Hh.
Qed.

(** X10: on every reachable state of the Red-Black engine, inserting a
    key that [search] finds changes neither the tree (nodes, keys, colors,
    shape) nor the root nor the size counter. *)
Theorem X10_rb_insert_stored_key (rb : RB.RedBlackTree) (k : Z) (f : nat) :
  RB.reachable rb → RB.search f k rb = Some (true, rb) →
  ∃ f' rb' t,
    RB.insert f' k rb = Some (tt, rb') ∧
    RB.tree_of f' rb = Some t ∧ RB.tree_of f' rb' = Some t ∧
    RB.root rb' = RB.root rb ∧ RB.NIL rb' = RB.NIL rb ∧
    RB.get_size rb' = RB.get_size rb.
Proof.
  intros Hrb Hs. destruct (RBReach.rb_reachable_holds _ Hrb) as (t & Hh).
  destruct (RBMore.rb_search_answer _ _ _ _ _ _ Hh Hs) as (Hb & _).
  symmetry in Hb. apply bool_decide_eq_true in Hb.
  assert (Hf : RB.enough (RB.height t + 3) t) by (unfold RB.enough; lia).
  destruct (RBMore.rb_insert_dup _ k rb t Hh Hf Hb) as (rb' & E & Hh' & Hr & Hsz & Hn).
  exists (RB.height t + 3)%nat, rb', t. split; [done|].
  split; [by apply RBRun.rb_holds_tree_of|].
  split; [by apply RBRun.rb_holds_tree_of|]. done.
Qed.

Lemma X10_rb_insert_stored_key_witness :
  ∃ f' rb' t,
    RB.insert f' 4 Samples.rb = Some (tt, rb') ∧
    RB.tree_of f' Samples.rb = Some t ∧ RB.tree_of f' rb' = Some t ∧
    RB.root rb' = RB.root Samples.rb ∧ RB.NIL rb' = RB.NIL Samples.rb ∧
    RB.get_size rb' = RB.get_size Samples.rb.
Proof.
  apply (X10_rb_insert_stored_key Samples.rb 4 20).
  - exists 20%nat, Samples.ops. vm_compute. reflexivity.
  - vm_compute. reflexivity.
Defined.



(** X12: after any sequence of operations on a Red-Black tree,
    [_search_node k] returns without changing the state; it returns the
    sentinel when [k] is not among the keys of the tree, and otherwise a
    real node that holds [k]. *)
Theorem X12_rb_search_node (os : list op) (k : Z) :
  ∃ f rb ks x,
    RB.run_ops f os RB.init = Some rb ∧
    RB.traverse f (RB.heap rb) (RB.NIL rb) (RB.root rb) = Some ks ∧
    RB._search_node f k rb = Some (x, rb) ∧
    (k ∉ ks → x = Some (RB.NIL rb)) ∧
    (k ∈ ks → ∃ a n, x = Some a ∧ a ≠ RB.NIL rb ∧
                     RB.heap rb !! a = Some n ∧ RB.key n = Some k).
Proof.
  destruct (RBRun.rb_run_ops_total os) as (f0 & rb & t & E & Hh & _).
  pose (F := Nat.max f0 (RB.height t + 3)).
  assert (Hf : RB.enough F t) by (unfold RB.enough, F; lia).
  destruct (RBMore.rb_search_node_holds F k rb t Hh Hf) as (x & Ex & H1 & H2).
  exists F, rb, (RB.keys t), x.
  split; [apply (RBRun.rb_run_ops_mono f0); [unfold F; lia | done]|].
  split; [by apply RBRun.rb_holds_traverse|]. done.
Qed.

(** X13: on every reachable state of the Red-Black engine, deleting a key
    that [search] does not find returns and leaves the whole state as it
    is: no link, no color and not the size counter is written. *)
Theorem X13_rb_delete_absent_key (rb : RB.RedBlackTree) (k : Z) (f : nat) :
  RB.reachable rb → RB.search f k rb = Some (false, rb) →
  ∃ f', RB.delete f' k rb = Some (tt, rb).
Proof.
  intros Hrb Hs. destruct (RBReach.rb_reachable_holds _ Hrb) as (t & Hh).
  destruct (RBMore.rb_search_answer _ _ _ _ _ _ Hh Hs) as (Hb & _).
  symmetry in Hb. apply bool_decide_eq_false in Hb.
  exists (RB.height t + 3)%nat.
  apply (RBMore.rb_delete_absent _ k rb t); [done | unfold RB.enough; lia | done].
Qed.

Lemma X13_rb_delete_absent_key_witness :
  ∃ f', RB.delete f' 7 Samples.rb = Some (tt, Samples.rb).
Proof.
  apply (X13_rb_delete_absent_key Samples.rb 7 20).
  - exists 20%nat, Samples.ops. vm_compute. reflexivity.
  - vm_compute. reflexivity.
Defined.

(** X14: after any sequence of operations the height of the Red-Black tree
    is logarithmic in the number [n] of stored keys:
    [2 ^ (height / 2) <= n + 1]. *)
Theorem X14_rb_height_logarithmic (os : list op) :
  ∃ f rb t,
    RB.run_ops f os RB.init = Some rb ∧ RB.tree_of f rb = Some t ∧
    (2 ^ (RB.height t / 2) ≤ length (RB.keys t) + 1)%nat.
Proof.
  destruct (RBRun.rb_run_ops_total os) as (f0 & rb & t & E & Hh & _).
  exists (Nat.max f0 (RB.height t + 3)), rb, t.
  split; [apply (RBRun.rb_run_ops_mono f0); [lia | done]|].
  split; [apply RBRun.rb_holds_tree_of; [done | unfold RB.enough; lia]|].
  apply RBMore.rb_height_log, Hh.
Qed.

(** X15: after any sequence of operations on a Red-Black tree, [insert k]
    returns and [search k] is true afterwards; [delete k] returns and
    [search k] is false afterwards; the answer of [search] for every other
    key is the same before and after either update. *)
Theorem X15_rb_update_then_search (os : list op) (k : Z) :
  ∃ f rb rb1 rb2,
    RB.run_ops f os RB.init = Some rb ∧
    RB.insert f k rb = Some (tt, rb1) ∧ RB.search f k rb1 = Some (true, rb1) ∧
    RB.delete f k rb = Some (tt, rb2) ∧ RB.search f k rb2 = Some (false, rb2) ∧
    (∀ j, j ≠ k → ∃ b, RB.search f j rb = Some (b, rb) ∧
                       RB.search f j rb1 = Some (b, rb1) ∧
                       RB.search f j rb2 = Some (b, rb2)).
Proof.
  destruct (RBRun.rb_run_ops_total os) as (f0 & rb & t & E & Hh & _).
  destruct (RBMore.rb_update_search rb t k Hh) as (f1 & H).
  destruct (H (Nat.max f0 f1) ltac:(lia)) as (rb1 & rb2 & H').
  exists (Nat.max f0 f1), rb, rb1, rb2.
  split; [apply (RBRun.rb_run_ops_mono f0); [lia | done]|]. done.
Qed.

(** X16: on every reachable state of the Red-Black engine and every real
    node [x] reachable from the root: [rotate_left x] raises when the right
    child of [x] is the sentinel and [rotate_right x] raises when the left
    child is; otherwise the rotation returns, the in-order traversal yields
    the same keys, and the opposite rotation on the child [y] that moved up
    restores the state exactly. *)
Theorem X16_rb_rotations_inverse (rb : RB.RedBlackTree) (x : positive) :
  RB.reachable rb → RB.reach rb (Some x) → x ≠ RB.NIL rb →
  (RB.get_right (Some x) rb = Some (Some (RB.NIL rb), rb) →
   RB.rotate_left (Some x) rb = None) ∧
  (RB.get_left (Some x) rb = Some (Some (RB.NIL rb), rb) →
   RB.rotate_right (Some x) rb = None) ∧
  (∀ y, RB.get_right (Some x) rb = Some (Some y, rb) → y ≠ RB.NIL rb →
        ∃ rb1 f ks,
          RB.rotate_left (Some x) rb = Some (tt, rb1) ∧
          RB.traverse f (RB.heap rb) (RB.NIL rb) (RB.root rb) = Some ks ∧
          RB.traverse f (RB.heap rb1) (RB.NIL rb1) (RB.root rb1) = Some ks ∧
          RB.rotate_right (Some y) rb1 = Some (tt, rb)) ∧
  (∀ y, RB.get_left (Some x) rb = Some (Some y, rb) → y ≠ RB.NIL rb →
        ∃ rb1 f ks,
          RB.rotate_right (Some x) rb = Some (tt, rb1) ∧
          RB.traverse f (RB.heap rb) (RB.NIL rb) (RB.root rb) = Some ks ∧
          RB.traverse f (RB.heap rb1) (RB.NIL rb1) (RB.root rb1) = Some ks ∧
          RB.rotate_left (Some y) rb1 = Some (tt, rb)).
Proof.
  intros Hrb Hx Hn. destruct (RBReach.rb_reachable_holds _ Hrb) as (t & H & _).
  split; [by apply (RBMore.rb_rotate_left_nil rb t)|].
  split; [by apply (RBMore.rb_rotate_right_nil rb t)|].
  split; intros y Hy Hyn.
  - destruct (RBMore.rb_rotate_left_right rb t x y H Hx Hn Hy Hyn)
      as (rb1 & t1 & E & H1 & Hk & _ & _ & Hback).
    exists rb1, (S (Nat.max (RB.height t) (RB.height t1))), (RB.keys t).
    split; [done|].
    split; [apply RBObs.rb_traverse_represents; [done | lia]|].
    split; [|done]. rewrite <- Hk. apply RBObs.rb_traverse_represents; [done | lia].
  - destruct (RBMore.rb_rotate_right_left rb t x y H Hx Hn Hy Hyn)
      as (rb1 & t1 & E & H1 & Hk & _ & _ & Hback).
    exists rb1, (S (Nat.max (RB.height t) (RB.height t1))), (RB.keys t).
    split; [done|].
    split; [apply RBObs.rb_traverse_represents; [done | lia]|].
    split; [|done]. rewrite <- Hk. apply RBObs.rb_traverse_represents; [done | lia].
Qed.

Lemma X16_rb_rotations_inverse_witness :
  (RB.get_right (Some MoreSamples.rb_root) Samples.rb
   = Some (Some (RB.NIL Samples.rb), Samples.rb) →
   RB.rotate_left (Some MoreSamples.rb_root) Samples.rb = None) ∧
  (RB.get_left (Some MoreSamples.rb_root) Samples.rb
   = Some (Some (RB.NIL Samples.rb), Samples.rb) →
   RB.rotate_right (Some MoreSamples.rb_root) Samples.rb = None) ∧
  (∀ y, RB.get_right (Some MoreSamples.rb_root) Samples.rb
        = Some (Some y, Samples.rb) → y ≠ RB.NIL Samples.rb →
        ∃ rb1 f ks,
          RB.rotate_left (Some MoreSamples.rb_root) Samples.rb = Some (tt, rb1) ∧
          RB.traverse f (RB.heap Samples.rb) (RB.NIL Samples.rb) (RB.root Samples.rb)
          = Some ks ∧
          RB.traverse f (RB.heap rb1) (RB.NIL rb1) (RB.root rb1) = Some ks ∧
          RB.rotate_right (Some y) rb1 = Some (tt, Samples.rb)) ∧
  (∀ y, RB.get_left (Some MoreSamples.rb_root) Samples.rb
        = Some (Some y, Samples.rb) → y ≠ RB.NIL Samples.rb →
        ∃ rb1 f ks,
          RB.rotate_right (Some MoreSamples.rb_root) Samples.rb = Some (tt, rb1) ∧
          RB.traverse f (RB.heap Samples.rb) (RB.NIL Samples.rb) (RB.root Samples.rb)
          = Some ks ∧
          RB.traverse f (RB.heap rb1) (RB.NIL rb1) (RB.root rb1) = Some ks ∧
          RB.rotate_left (Some y) rb1 = Some (tt, Samples.rb)).
Proof.
  apply (X16_rb_rotations_inverse Samples.rb MoreSamples.rb_root).
  - exists 20%nat, Samples.ops. vm_compute. reflexivity.
  - assert (E : RB.root Samples.rb = Some MoreSamples.rb_root)
      by (vm_compute; reflexivity).
    rewrite <- E. apply RB.reach_root.
  - vm_compute. discriminate.
Defined.

(** X27: [RedBlackTree._minimum] called on the sentinel raises.  The run
    [_minimum_outcome] tells a raised [AttributeError] from running out of
    fuel and agrees with [_minimum] on every input; on every reachable
    state and on any fuel from two on, its outcome on the sentinel is
    [Raises]: the sentinel's [left] is [None], which is not the sentinel,
    so the loop goes on to read [None.left]. *)
Theorem X27_rb_minimum_raises_on_sentinel (rb : RB.RedBlackTree) (f : nat) :
  RB.reachable rb →
  (∀ g x st, RB._minimum g x st =
             match RB._minimum_outcome g x st with
             | Py.Returns m => Some (m, st)
             | _ => None
             end) ∧
  RB._minimum_outcome (S (S f)) (Some (RB.NIL rb)) rb = Py.Raises.
Proof.
  intros Hrb. destruct (RBReach.rb_reachable_holds _ Hrb) as (t & Hh & _).
  split.
  - intros g x st. apply RBMore.rb_minimum_outcome_agrees.
  - by apply (RBMore.rb_minimum_outcome_nil f rb t).
Qed.

Lemma X27_rb_minimum_raises_on_sentinel_witness :
  (∀ g x st, RB._minimum g x st =
             match RB._minimum_outcome g x st with
             | Py.Returns m => Some (m, st)
             | _ => None
             end) ∧
  RB._minimum_outcome 2 (Some (RB.NIL Samples.rb)) Samples.rb = Py.Raises.
Proof.
  apply (X27_rb_minimum_raises_on_sentinel Samples.rb 0).
  exists 20%nat, Samples.ops. vm_compute. reflexivity.
Defined.

(** ** Splay *)

(** X17: after any sequence of operations on a Splay tree, [get_size] is
    the number of keys an in-order traversal of the tree yields. *)
Theorem X17_splay_size_counts_keys (os : list op) :
  ∃ f sp ks,
    Splay.run_ops f os Splay.init = Some sp ∧
    Splay.traverse f (Splay.heap sp) (Splay.root sp) = Some ks ∧
    Splay.get_size sp = Z.of_nat (length ks).
Proof.
  destruct (SplayRun.splay_run_ops_total os) as (f0 & sp & t & E & Hh & _).
  exists (Nat.max f0 (S (2 * length (Splay.keys t)))), sp, (Splay.keys t).
  split; [apply (SplayRun.splay_run_ops_mono f0); [lia | done]|].
  split; [apply SplayRun.holds_traverse; [done | unfold Splay.enough; lia]|].
  apply Hh.
Qed.

(** X18: after any sequence of operations on a Splay tree, [insert k]
    returns and leaves a node holding [k] at the root, with parent link
    [None], whether [k] was new or already stored; the traversal then yields
    the old keys with [k] added in order, and the size counter grew by one
    exactly when [k] was new. *)
Theorem X18_splay_insert_to_root (os : list op) (k : Z) :
  ∃ f sp ks sp' a n,
    Splay.run_ops f os Splay.init = Some sp ∧
    Splay.traverse f (Splay.heap sp) (Splay.root sp) = Some ks ∧
    Splay.insert f k sp = Some (tt, sp') ∧
    Splay.root sp' = Some a ∧ Splay.heap sp' !! a = Some n ∧
    Splay.key n = k ∧ Splay.parent n = None ∧
    Splay.traverse f (Splay.heap sp') (Splay.root sp') = Some (ins k ks) ∧
    Splay.get_size sp' =
    Splay.get_size sp + (if bool_decide (k ∈ ks) then 0 else 1).
Proof.
  destruct (SplayRun.splay_run_ops_total os) as (f0 & sp & t & E & Hh & _).
  pose (F := Nat.max f0 (2 * length (Splay.keys t) + 4)).
  assert (Hf : Splay.enough F t) by (unfold Splay.enough, F; lia).
  destruct (SplayMore.splay_insert_holds F k sp t Hh Hf) as (sp' & n & E' & Hh' & Hk).
  destruct (SplayMore.splay_insert_tree_root k n t) as (l & a & r & Et).
  pose proof Hh' as Hroot. rewrite Et in Hroot.
  apply SplayMore.splay_holds_root_key in Hroot as (Hr & nd & Ha & Hkey & Hpar).
  pose proof Hh as (_ & Hasc & Hs). pose proof Hh' as (_ & _ & Hs').
  pose proof (length_ins_count k _ Hasc) as Hlen.
  exists F, sp, (Splay.keys t), sp', a, nd.
  split; [apply (SplayRun.splay_run_ops_mono f0); [unfold F; lia | done]|].
  split; [by apply SplayRun.holds_traverse|].
  split; [done|]. split; [done|]. split; [done|]. split; [done|]. split; [done|].
  split.
  - rewrite <- Hk. apply SplayRun.holds_traverse; [done|].
    unfold Splay.enough. rewrite Hk. unfold F. case_bool_decide; lia.
  - unfold Splay.get_size. rewrite Hs', Hs, Hk. lia.
Qed.



(** X20: on every reachable state of the Splay engine, once [search k]
    has found [k], searching [k] again (on any fuel but zero) finds it and
    changes nothing: the key is at the root and no rotation is made. *)
Theorem X20_splay_search_again (sp : Splay.SplayTree) (k : Z) (f : nat)
    (sp1 : Splay.SplayTree) (f' : nat) :
  Splay.reachable sp → Splay.search f k sp = Some (true, sp1) →
  Splay.search (S f') k sp1 = Some (true, sp1).
Proof.
  intros Hsp Hs. destruct (SplayModel.reachable_holds _ Hsp) as (t & Hh).
  destruct (SplayMore.splay_search_answer _ _ _ _ _ _ Hh Hs) as (Hb & Hh1).
  symmetry in Hb. apply bool_decide_eq_true in Hb.
  destruct (SplayModel.search_tree_root_key k t Hb (proj1 (proj2 Hh)))
    as (l & a & r & Et).
  rewrite Et in Hh1. apply (SplayMore.splay_search_at_root f' sp1 l a k r), Hh1.
Qed.

Lemma X20_splay_search_again_witness :
  Splay.search 1 3 MoreSamples.splay_hit = Some (true, MoreSamples.splay_hit).
Proof.
  apply (X20_splay_search_again Samples.splay 3 20 MoreSamples.splay_hit 0).
  - exists 20%nat, Samples.ops. vm_compute. reflexivity.
  - vm_compute. reflexivity.
Defined.

(** X21: on every reachable state of the Splay engine, [delete k] of a key
    that [search] does not find still restructures the tree: it ends in
    exactly the state that [search k] ends in, with the same keys in the
    traversal and the same size counter as before. *)
Theorem X21_splay_delete_absent_key (sp : Splay.SplayTree) (k : Z) (f : nat)
    (sp1 : Splay.SplayTree) :
  Splay.reachable sp → Splay.search f k sp = Some (false, sp1) →
  Splay.delete f k sp = Some (tt, sp1) ∧
  Splay.get_size sp1 = Splay.get_size sp ∧
  ∃ f' ks, Splay.traverse f' (Splay.heap sp) (Splay.root sp) = Some ks ∧
           Splay.traverse f' (Splay.heap sp1) (Splay.root sp1) = Some ks ∧
           k ∉ ks.
Proof.
  intros Hsp Hs. destruct (SplayModel.reachable_holds _ Hsp) as (t & Hh).
  split; [by apply SplayMore.splay_delete_absent|].
  destruct (SplayMore.splay_search_keeps _ _ _ _ _ _ Hh Hs) as (Hsz & f' & T1 & T2).
  split; [done|]. exists f', (Splay.keys t). split; [done|]. split; [done|].
  destruct (SplayMore.splay_search_answer _ _ _ _ _ _ Hh Hs) as (Hb & _).
  symmetry in Hb. by apply bool_decide_eq_false in Hb.
Qed.

Lemma X21_splay_delete_absent_key_witness :
  Splay.delete 20 7 Samples.splay = Some (tt, MoreSamples.splay_miss) ∧
  Splay.get_size MoreSamples.splay_miss = Splay.get_size Samples.splay ∧
  ∃ f' ks,
    Splay.traverse f' (Splay.heap Samples.splay) (Splay.root Samples.splay)
    = Some ks ∧
    Splay.traverse f' (Splay.heap MoreSamples.splay_miss)
                   (Splay.root MoreSamples.splay_miss) = Some ks ∧
    7 ∉ ks.
Proof.
  apply (X21_splay_delete_absent_key Samples.splay 7 20 MoreSamples.splay_miss).
  - exists 20%nat, Samples.ops. vm_compute. reflexivity.
  - vm_compute. reflexivity.
Defined.

(** X22: after any sequence of operations on a Splay tree, [insert k]
    returns and [search k] then is true and changes nothing; [delete k]
    returns and [search k] then is false; the answer of [search] for every
    other key is the same before and after either update. *)
Theorem X22_splay_update_then_search (os : list op) (k : Z) :
  ∃ f sp sp1 sp2 sp2',
    Splay.run_ops f os Splay.init = Some sp ∧
    Splay.insert f k sp = Some (tt, sp1) ∧
    Splay.search f k sp1 = Some (true, sp1) ∧
    Splay.delete f k sp = Some (tt, sp2) ∧
    Splay.search f k sp2 = Some (false, sp2') ∧
    (∀ j, j ≠ k → ∃ b s s1 s2, Splay.search f j sp = Some (b, s) ∧
                               Splay.search f j sp1 = Some (b, s1) ∧
                               Splay.search f j sp2 = Some (b, s2)).
Proof.
  destruct (SplayRun.splay_run_ops_total os) as (f0 & sp & t & E & Hh & _).
  destruct (SplayMore.splay_update_search sp t k Hh) as (f1 & H).
  destruct (H (Nat.max f0 f1) ltac:(lia)) as (sp1 & sp2 & sp2' & H').
  exists (Nat.max f0 f1), sp, sp1, sp2, sp2'.
  split; [apply (SplayRun.splay_run_ops_mono f0); [lia | done]|]. done.
Qed.

(** X23: on every reachable state of the Splay engine and every node [x]
    reachable from the root: [rotate_left x] raises when [x] has no right
    child and [rotate_right x] raises when it has no left child; otherwise
    the rotation returns, the in-order traversal yields the same keys, and
    the opposite rotation on the child [y] that moved up restores the state
    exactly. *)
Theorem X23_splay_rotations_inverse (sp : Splay.SplayTree) (x : positive) :
  Splay.reachable sp → Splay.reach sp (Some x) →
  (Splay.get_right (Some x) sp = Some (None, sp) →
   Splay.rotate_left (Some x) sp = None) ∧
  (Splay.get_left (Some x) sp = Some (None, sp) →
   Splay.rotate_right (Some x) sp = None) ∧
  (∀ y, Splay.get_right (Some x) sp = Some (Some y, sp) →
        ∃ sp1 f ks,
          Splay.rotate_left (Some x) sp = Some (tt, sp1) ∧
          Splay.traverse f (Splay.heap sp) (Splay.root sp) = Some ks ∧
          Splay.traverse f (Splay.heap sp1) (Splay.root sp1) = Some ks ∧
          Splay.rotate_right (Some y) sp1 = Some (tt, sp)) ∧
  (∀ y, Splay.get_left (Some x) sp = Some (Some y, sp) →
        ∃ sp1 f ks,
          Splay.rotate_right (Some x) sp = Some (tt, sp1) ∧
          Splay.traverse f (Splay.heap sp) (Splay.root sp) = Some ks ∧
          Splay.traverse f (Splay.heap sp1) (Splay.root sp1) = Some ks ∧
          Splay.rotate_left (Some y) sp1 = Some (tt, sp)).
Proof.
  intros Hsp Hx. destruct (SplayModel.reachable_holds _ Hsp) as (t & H & _).
  split; [apply SplayMore.splay_rotate_left_none|].
  split; [apply SplayMore.splay_rotate_right_none|].
  split; intros y Hy.
  - destruct (SplayMore.splay_rotate_left_right sp t x y H Hx Hy)
      as (sp1 & t1 & E & H1 & Hk & _ & Hback).
    exists sp1, (S (Nat.max (Splay.height t) (Splay.height t1))), (Splay.keys t).
    split; [done|].
    split; [apply SplayObs.traverse_represents; [done | lia]|].
    split; [|done]. rewrite <- Hk. apply SplayObs.traverse_represents; [done | lia].
  - destruct (SplayMore.splay_rotate_right_left sp t x y H Hx Hy)
      as (sp1 & t1 & E & H1 & Hk & _ & Hback).
    exists sp1, (S (Nat.max (Splay.height t) (Splay.height t1))), (Splay.keys t).
    split; [done|].
    split; [apply SplayObs.traverse_represents; [done | lia]|].
    split; [|done]. rewrite <- Hk. apply SplayObs.traverse_represents; [done | lia].
Qed.

Lemma X23_splay_rotations_inverse_witness :
  (Splay.get_right (Some MoreSamples.splay2_root) Samples.splay2
   = Some (None, Samples.splay2) →
   Splay.rotate_left (Some MoreSamples.splay2_root) Samples.splay2 = None) ∧
  (Splay.get_left (Some MoreSamples.splay2_root) Samples.splay2
   = Some (None, Samples.splay2) →
   Splay.rotate_right (Some MoreSamples.splay2_root) Samples.splay2 = None) ∧
  (∀ y, Splay.get_right (Some MoreSamples.splay2_root) Samples.splay2
        = Some (Some y, Samples.splay2) →
        ∃ sp1 f ks,
          Splay.rotate_left (Some MoreSamples.splay2_root) Samples.splay2
          = Some (tt, sp1) ∧
          Splay.traverse f (Splay.heap Samples.splay2) (Splay.root Samples.splay2)
          = Some ks ∧
          Splay.traverse f (Splay.heap sp1) (Splay.root sp1) = Some ks ∧
          Splay.rotate_right (Some y) sp1 = Some (tt, Samples.splay2)) ∧
  (∀ y, Splay.get_left (Some MoreSamples.splay2_root) Samples.splay2
        = Some (Some y, Samples.splay2) →
        ∃ sp1 f ks,
          Splay.rotate_right (Some MoreSamples.splay2_root) Samples.splay2
          = Some (tt, sp1) ∧
          Splay.traverse f (Splay.heap Samples.splay2) (Splay.root Samples.splay2)
          = Some ks ∧
          Splay.traverse f (Splay.heap sp1) (Splay.root sp1) = Some ks ∧
          Splay.rotate_left (Some y) sp1 = Some (tt, Samples.splay2)).
Proof.
  apply (X23_splay_rotations_inverse Samples.splay2 MoreSamples.splay2_root).
  - exists 20%nat, [Insert 1; Insert 5; Insert 3; Insert 2; Insert 4].
    vm_compute. reflexivity.
  - assert (E : Splay.root Samples.splay2 = Some MoreSamples.splay2_root)
      by (vm_compute; reflexivity).
    rewrite <- E. apply Splay.reach_root.
Defined.

(** X24: on every reachable state of the Splay engine, [splay x] on a node
    [x] reachable from the root returns and makes [x] the root; the
    in-order traversal yields the same keys and the size counter is
    unchanged. *)
Theorem X24_splay_brings_to_root (sp : Splay.SplayTree) (x : positive) :
  Splay.reachable sp → Splay.reach sp (Some x) →
  ∃ f ks sp',
    Splay.traverse f (Splay.heap sp) (Splay.root sp) = Some ks ∧
    Splay.splay f (Some x) sp = Some (tt, sp') ∧
    Splay.root sp' = Some x ∧
    Splay.traverse f (Splay.heap sp') (Splay.root sp') = Some ks ∧
    Splay.get_size sp' = Splay.get_size sp.
Proof.
  intros Hsp Hx. destruct (SplayModel.reachable_holds _ Hsp) as (t & Hh).
  destruct (SplayMore.splay_to_root sp t x Hh Hx) as (f0 & H).
  pose (F := Nat.max f0 (S (2 * length (Splay.keys t)))).
  destruct (H F ltac:(unfold F; lia)) as (sp' & t' & E & Hh' & Hk & Hr).
  exists F, (Splay.keys t), sp'.
  split; [apply SplayRun.holds_traverse; [done | unfold Splay.enough, F; lia]|].
  split; [done|]. split; [done|]. split.
  - rewrite <- Hk. apply SplayRun.holds_traverse; [done|].
    unfold Splay.enough, F. rewrite Hk. lia.
  - destruct Hh as (_ & _ & Hs). destruct Hh' as (_ & _ & Hs').
    unfold Splay.get_size. by rewrite Hs', Hs, Hk.
Qed.

Lemma X24_splay_brings_to_root_witness :
  ∃ f ks sp',
    Splay.traverse f (Splay.heap Samples.splay) (Splay.root Samples.splay)
    = Some ks ∧
    Splay.splay f (Some MoreSamples.splay_inner) Samples.splay = Some (tt, sp') ∧
    Splay.root sp' = Some MoreSamples.splay_inner ∧
    Splay.traverse f (Splay.heap sp') (Splay.root sp') = Some ks ∧
    Splay.get_size sp' = Splay.get_size Samples.splay.
Proof.
  apply (X24_splay_brings_to_root Samples.splay MoreSamples.splay_inner).
  - exists 20%nat, Samples.ops. vm_compute. reflexivity.
  - assert (E : Splay.root Samples.splay = Some MoreSamples.splay_root)
      by (vm_compute; reflexivity).
    pose proof (Splay.reach_root Samples.splay) as R. rewrite E in R.
    assert (E1 : Splay.heap Samples.splay !! MoreSamples.splay_root
                 = Some (Splay.mkNode 5 (Some MoreSamples.splay_inner) None None))
      by (vm_compute; reflexivity).
    exact (Splay.reach_left _ _ _ R E1).
Defined.

(** X25: inserting the benchmark's sequential data [0, 1, ..., size - 1]
    into an empty Splay tree leaves a path: no node has a right child, and
    the height of the tree is the number of keys. *)
Theorem X25_splay_sequential_inserts (size : Z) :
  ∃ f sp t,
    Splay.run_ops f (Insert <$> Bench.generate_sequential_data size) Splay.init
    = Some sp ∧
    Splay.tree_of f sp = Some t ∧
    Splay.is_spine t ∧ Splay.height t = Z.to_nat size ∧
    Splay.get_size sp = Z.max 0 size.
Proof.
  unfold Bench.generate_sequential_data.
  destruct (SplayMore.splay_sequential (Z.to_nat size))
    as (f0 & sp & t & E & Hh & Hsp & Hk).
  assert (Hlen : length (Splay.keys t) = Z.to_nat size).
  { by rewrite Hk, length_fmap, length_seq. }
  exists (Nat.max f0 (S (2 * length (Splay.keys t)))), sp, t.
  split; [apply (SplayRun.splay_run_ops_mono f0); [lia | done]|].
  split; [apply SplayRun.holds_tree_of; [done | unfold Splay.enough; lia]|].
  split; [done|]. split.
  - by rewrite SplayMore.splay_spine_height.
  - destruct Hh as (_ & _ & Hs). unfold Splay.get_size. rewrite Hs, Hlen. lia.
Qed.


End Extra.
